(** * Chloe's Table Unionizer: the schema-matching and row-alignment core

    A shallow embedding of [src/services/matchingService.ts] and of the
    row-alignment step of [src/services/parserService.ts], with the
    properties of the specification stated and settled over it.

    Modelling conventions.

    - A JavaScript string is a [string]: a sequence of code units, here the
      code units below 256.  [length], indexing and [===] work on code
      units, as in the source.
    - A JavaScript number is a rational ([Q]): the arithmetic of the
      scorer is exact, rounding is not modelled, and neither are [NaN] and
      the infinities (every division of the source is guarded against a
      zero divisor).  Counters and matrix cells are [nat].  The properties
      stated over it are those that rounding leaves alone: the structure
      of the result, the tests on ratios of counters, the formulas.
    - The matching engine is embedded a second time, in the module
      [Binary64], with a number as what it is at run time: a binary64
      floating-point number.  What rounding decides, the aggregate
      confidence of a match, is stated there.
    - [Math.sqrt] and the conversion of a string to a number ([Number]) are
      taken from the JavaScript runtime: they are the fields of the class
      [JsRuntime].
    - A [Map] or a [Set] of the source is an association list or a list in
      insertion order, since the source iterates over them.
    - A loop over [0 .. n] is a [fold_left] over [seq]; the queue-driven
      [while] loop of the clustering step is a recursion on fuel, with the
      proof that the fuel the engine passes is never exhausted. *)

From Stdlib Require Import List Arith Lia Bool ZArith QArith Qminmax Qabs Lqa.
From Stdlib Require Import Qpower Qround Sorted.
From Stdlib Require Import String Ascii DecimalString DecimalNat Permutation.
From Stdlib Require Import Floats Uint63.
Import ListNotations.

Set Implicit Arguments.
Set Warnings "-inexact-float".

Close Scope Q_scope.
Open Scope string_scope.
Open Scope list_scope.
Open Scope nat_scope.

(* ================================================================== *)
(** * Part I. The embedding of the source *)
(* ================================================================== *)

(** ** JavaScript values, strings and numbers *)

(** What the JavaScript runtime contributes: [Math.sqrt] and the reading
    of a string as a number ([Number(s)], [None] standing for [NaN]). *)
Class JsRuntime : Type := {
  Math_sqrt : Q -> Q;
  Number_of_string : string -> option Q
}.

(** A cell of a parsed table ([any] in the source, scalars by the input
    contract). *)
Inductive value : Type :=
| VNull
| VUndefined
| VBool (b : bool)
| VNum (q : Q)
| VStr (s : string).

(** [0.9 < r] and the like, as the source's [>] and [<] on numbers. *)
Definition Qltb (a b : Q) : bool := negb (Qle_bool b a).

(** Equality of the keys of a [Set] or a [Map] (SameValueZero). *)
Definition value_eqb (v w : value) : bool :=
  match v, w with
  | VNull, VNull => true
  | VUndefined, VUndefined => true
  | VBool a, VBool b => Bool.eqb a b
  | VNum p, VNum q => Qeq_bool p q
  | VStr s, VStr t => String.eqb s t
  | _, _ => false
  end.

(** [d !== null && d !== undefined && d !== ''] *)
Definition nonEmpty (d : value) : bool :=
  match d with
  | VNull | VUndefined => false
  | VStr s => negb (String.eqb s "")
  | _ => true
  end.

(** [k !== null && k !== undefined] *)
Definition notNullish (k : value) : bool :=
  match k with
  | VNull | VUndefined => false
  | _ => true
  end.

(** [Number(v)]; [None] is [NaN]. *)
Definition toNumber `{JsRuntime} (v : value) : option Q :=
  match v with
  | VNull => Some 0%Q
  | VUndefined => None
  | VBool b => Some (if b then 1%Q else 0%Q)
  | VNum q => Some q
  | VStr s => Number_of_string s
  end.

(** A [Set] in insertion order. *)
Section JsSet.
Variable K : Type.
Variable eqb : K -> K -> bool.

Definition set_has (k : K) (s : list K) : bool := existsb (eqb k) s.

Definition set_add (k : K) (s : list K) : list K :=
  if set_has k s then s else s ++ [k].

(** [new Set(l)] *)
Definition set_of_list (l : list K) : list K :=
  fold_left (fun s k => set_add k s) l [].
End JsSet.

(** A [Map] in insertion order: [set] on a key that is present replaces the
    value in place. *)
Section JsMap.
Variable K V : Type.
Variable eqb : K -> K -> bool.

Definition map_has (k : K) (m : list (K * V)) : bool :=
  existsb (fun e => eqb k (fst e)) m.

Definition map_get (k : K) (m : list (K * V)) : option V :=
  option_map snd (find (fun e => eqb k (fst e)) m).

Fixpoint map_set (k : K) (v : V) (m : list (K * V)) : list (K * V) :=
  match m with
  | [] => [(k, v)]
  | (k', v') :: m' =>
      if eqb k k' then (k', v) :: m' else (k', v') :: map_set k v m'
  end.

(** [new Map(entries)] *)
Definition map_of_list (entries : list (K * V)) : list (K * V) :=
  fold_left (fun m e => map_set (fst e) (snd e) m) entries [].

Definition map_keys (m : list (K * V)) : list K := List.map fst m.
Definition map_values (m : list (K * V)) : list V := List.map snd m.
End JsMap.

Definition str_has := set_has String.eqb.
Definition str_add := set_add String.eqb.

(** ** String helpers of the source *)

Definition lower_unit (c : ascii) : ascii :=
  let n := nat_of_ascii c in
  if ((65 <=? n) && (n <=? 90))
     || ((192 <=? n) && (n <=? 222) && negb (n =? 215))
  then ascii_of_nat (n + 32) else c.

(** [s.toLowerCase()] *)
Fixpoint toLowerCase (s : string) : string :=
  match s with
  | EmptyString => EmptyString
  | String c s' => String (lower_unit c) (toLowerCase s')
  end.

(** The class [[\s_-]] of the source's regular expression. *)
Definition is_sep_unit (c : ascii) : bool :=
  let n := nat_of_ascii c in
  ((9 <=? n) && (n <=? 13)) || (n =? 32) || (n =? 160)
  || (n =? 95) || (n =? 45).

(** [s.replace(/[\s_-]/g, '')] *)
Fixpoint removeSeparators (s : string) : string :=
  match s with
  | EmptyString => EmptyString
  | String c s' =>
      if is_sep_unit c then removeSeparators s'
      else String c (removeSeparators s')
  end.

Definition cleanName (name : string) : string :=
  removeSeparators (toLowerCase name).

Definition endsWith (s suffix : string) : bool :=
  (String.length suffix <=? String.length s)
  && String.eqb
       (substring (String.length s - String.length suffix)
                  (String.length suffix) s)
       suffix.

Definition semanticSuffixes : list string :=
  ["id"; "pk"; "key"; "num"; "code"; "date"; "name"; "at"; "by"].

(** [s.replace(/id$|pk$|key$|num$|code$|date$|name$|at$|by$/, '')]: every
    alternative is anchored at the end and none is a suffix of another, so
    the match, if any, is the one listed suffix the string ends with. *)
Definition stripSuffix (s : string) : string :=
  match find (endsWith s) semanticSuffixes with
  | Some suffix => substring 0 (String.length s - String.length suffix) s
  | None => s
  end.

(** [s.split(sep)] for a one-character separator. *)
Fixpoint split (sep : ascii) (s : string) : list string :=
  match s with
  | EmptyString => [EmptyString]
  | String c s' =>
      if Ascii.eqb c sep then EmptyString :: split sep s'
      else match split sep s' with
           | [] => [String c EmptyString]
           | part :: parts => String c part :: parts
           end
  end.

Definition bar : ascii := "|"%char.

(** [[k1, k2].sort().join('|')]: the default sort orders strings by code
    units. *)
Definition canonicalPairKey (k1 k2 : string) : string :=
  if String.leb k1 k2 then (k1 ++ "|" ++ k2)%string
  else (k2 ++ "|" ++ k1)%string.

(** [const [p1, p2] = pairKey.split('|')].  Every key of [bestPairs] is a
    [canonicalPairKey], which splits into two parts at least (lemma
    [split_canonical_two_parts]); the default of [nth], at the place of
    [undefined], is never taken. *)
Definition splitPair (pairKey : string) : string * string :=
  let parts := split bar pairKey in
  (nth 0 parts "", nth 1 parts "").

(** A number in a template literal (a counter). *)
Definition decimal (n : nat) : string :=
  NilEmpty.string_of_uint (Nat.to_uint n).

Definition dquote : string := String (ascii_of_nat 34) EmptyString.

(** ** Similarity metrics *)

(** [a[i]]: a code unit, or [undefined]. *)
Definition charAt (s : string) (i : nat) : option ascii := String.get i s.

(** [x === y] on two such results. *)
Definition unit_eqb (x y : option ascii) : bool :=
  match x, y with
  | Some c, Some d => Ascii.eqb c d
  | None, None => true
  | _, _ => false
  end.

(** The matrix of [levenshtein]: rows indexed by [j], cells by [i]. *)
Definition matrix : Type := list (list nat).

Fixpoint update {X : Type} (l : list X) (k : nat) (v : X) : list X :=
  match l, k with
  | [], _ => []
  | _ :: t, O => v :: t
  | h :: t, S k' => h :: update t k' v
  end.

Definition mget (m : matrix) (j i : nat) : nat := nth i (nth j m []) 0.

(** [matrix[j][i] = v], for a cell of the matrix (the source never writes
    outside it). *)
Definition mset (m : matrix) (j i v : nat) : matrix :=
  update m j (update (nth j m []) i v).

Definition levenshtein (a b : string) : nat :=
  let matrix0 : matrix :=
    repeat (repeat 0 (String.length a + 1)) (String.length b + 1) in
  let matrix1 :=
    fold_left (fun m i => mset m 0 i i) (seq 0 (String.length a + 1)) matrix0 in
  let matrix2 :=
    fold_left (fun m j => mset m j 0 j) (seq 0 (String.length b + 1)) matrix1 in
  let matrix3 :=
    fold_left (fun m j =>
      fold_left (fun m i =>
        let cost :=
          if unit_eqb (charAt a (i - 1)) (charAt b (j - 1)) then 0 else 1 in
        mset m j i
          (Nat.min (Nat.min (mget m (j - 1) i + 1) (mget m j (i - 1) + 1))
                   (mget m (j - 1) (i - 1) + cost)))
        (seq 1 (String.length a)) m)
      (seq 1 (String.length b)) matrix2 in
  mget matrix3 (String.length b) (String.length a).

Definition Qnat (n : nat) : Q := inject_Z (Z.of_nat n).

Definition nameSimilarity (name1 name2 : string) : Q :=
  let distance := levenshtein name1 name2 in
  let maxLength := Nat.max (String.length name1) (String.length name2) in
  if maxLength =? 0 then 1%Q else (1 - Qnat distance / Qnat maxLength)%Q.

Definition jaccardSimilarity (set1 set2 : list value) : Q :=
  if (List.length set1 =? 0) || (List.length set2 =? 0) then 0%Q
  else
    let intersectionSize :=
      List.length
        (set_of_list value_eqb
           (filter (fun x => set_has value_eqb x set2) set1)) in
    let unionSize := List.length set1 + List.length set2 - intersectionSize in
    if unionSize =? 0 then 1%Q
    else (Qnat intersectionSize / Qnat unionSize)%Q.

(** ** The data model ([src/types.ts]) *)

Inductive DataType : Type := TString | TNumber | TBoolean | TDate | TMixed.

Definition DataType_eqb (a b : DataType) : bool :=
  match a, b with
  | TString, TString | TNumber, TNumber | TBoolean, TBoolean
  | TDate, TDate | TMixed, TMixed => true
  | _, _ => false
  end.

Record ColumnData : Type := {
  fileId : string;
  fileName : string;
  originalName : string;
  sampleData : list value;
  dataType : DataType
}.

(** [UploadedFile]; its [File] handle is not part of the model. *)
Record UploadedFile : Type := {
  file_id : string;
  file_name : string;
  columns : list ColumnData;
  rowCount : nat;
  sourceId : nat;
  color : string
}.

Inductive MatchStatus : Type := PENDING | CONFIRMED | DENIED.
Inductive MatchSource : Type := PROGRAMMATIC | AI | MANUAL.

Record ColumnInMatch : Type := {
  cim_fileId : string;
  cim_fileName : string;
  columnName : string
}.

Record Match : Type := {
  match_id : string;
  match_columns : list ColumnInMatch;
  programmaticConfidence : Q;
  match_status : MatchStatus;
  match_source : MatchSource;
  finalName : string
}.

(** ** Profiling *)

Record NumericStats : Type := {
  mean : Q;
  stddev : Q;
  stat_min : Q;
  stat_max : Q;
  stat_range : Q;
  orderOfMagnitude : Z
}.

Record ColumnProfile : Type := {
  source : ColumnData;
  uniquenessRatio : Q;
  valueSet : list value;
  cleanedName : string;
  baseName : string;
  numericStats : option NumericStats
}.

(** [Math.floor(Math.log10(x))] for a positive [x]: the exponent [k] with
    [10^k <= x < 10^(k+1)], found by scaling [x] by 10. *)
Fixpoint log10_up (fuel : nat) (x : Q) (k : Z) : Z :=
  match fuel with
  | O => k
  | S fuel' =>
      if Qle_bool 10 x then log10_up fuel' (x / 10)%Q (k + 1)%Z else k
  end.

Fixpoint log10_down (fuel : nat) (x : Q) (k : Z) : Z :=
  match fuel with
  | O => k
  | S fuel' =>
      if Qle_bool 1 x then k else log10_down fuel' (x * 10)%Q (k - 1)%Z
  end.

Definition floor_log10 (x : Q) : Z :=
  let fuel :=
    S (Z.to_nat (Z.log2 (Z.abs (Qnum x)))) + S (Pos.size_nat (Qden x)) in
  if Qle_bool 1 x then log10_up fuel x 0 else log10_down fuel x 0.

(** [Math.min(...xs)] and [Math.max(...xs)] of a list that is not empty
    ([getNumericStats] calls them on two numbers at least). *)
Definition minOf (xs : list Q) : Q :=
  match xs with
  | [] => 0%Q
  | x :: rest => fold_left Qmin rest x
  end.

Definition maxOf (xs : list Q) : Q :=
  match xs with
  | [] => 0%Q
  | x :: rest => fold_left Qmax rest x
  end.

Definition sumOf (xs : list Q) : Q := fold_left Qplus xs 0%Q.

(** What a call does: it returns, or it throws a [TypeError] (a property
    read off [undefined]).  [OutOfFuel] belongs to the model only: the
    [while] loop of the clustering ran longer than the fuel it was given
    (theorem [generateMatches_fuel] shows it never does). *)
Inductive outcome (A : Type) : Type :=
| Returned (a : A)
| TypeError
| OutOfFuel.
Arguments Returned {A} a.
Arguments TypeError {A}.
Arguments OutOfFuel {A}.

Section Engine.
Context `{JsRuntime}.

Definition getNumericStats (data : list value) : option NumericStats :=
  let numericData :=
    flat_map (fun d => match toNumber d with Some n => [n] | None => [] end)
             data in
  if List.length numericData <? 2 then None
  else
    let n := Qnat (List.length numericData) in
    let sum := sumOf numericData in
    let mean := (sum / n)%Q in
    let min := minOf numericData in
    let max := maxOf numericData in
    let stddev :=
      Math_sqrt
        (sumOf (List.map (fun x => ((x - mean) * (x - mean))%Q) numericData)
         / n)%Q in
    Some {| mean := mean; stddev := stddev; stat_min := min; stat_max := max;
            stat_range := (max - min)%Q;
            orderOfMagnitude :=
              floor_log10
                (if Qeq_bool (Qabs mean) 0 then 1%Q else Qabs mean) |}.

Definition createColumnProfile (column : ColumnData) : ColumnProfile :=
  let sampleData := filter nonEmpty (sampleData column) in
  let nonNullCount :=
    if List.length sampleData =? 0 then 1 else List.length sampleData in
  let valueSet := set_of_list value_eqb sampleData in
  let cleanedName := cleanName (originalName column) in
  let baseName := stripSuffix cleanedName in
  {| source := column;
     uniquenessRatio := (Qnat (List.length valueSet) / Qnat nonNullCount)%Q;
     valueSet := valueSet;
     cleanedName := cleanedName;
     baseName := baseName;
     numericStats :=
       if DataType_eqb (dataType column) TNumber
          && (1 <? List.length sampleData)
       then getNumericStats sampleData else None |}.

(** ** The confidence scorer *)

Definition calculateConfidence (prof1 prof2 : ColumnProfile) : Q :=
  if negb (DataType_eqb (dataType (source prof1)) (dataType (source prof2)))
  then 0%Q
  else
    let baseNameSim := nameSimilarity (baseName prof1) (baseName prof2) in
    let fullNameSim := nameSimilarity (cleanedName prof1) (cleanedName prof2) in
    let nameSim := Qmax baseNameSim fullNameSim in
    if DataType_eqb (dataType (source prof1)) TBoolean then
      let contentSim := jaccardSimilarity (valueSet prof1) (valueSet prof2) in
      (nameSim * 0.6 + contentSim * 0.4)%Q
    else if Qltb 0.9 (uniquenessRatio prof1) && Qltb 0.9 (uniquenessRatio prof2)
    then (nameSim * 0.95)%Q
    else
      match numericStats prof1, numericStats prof2 with
      | Some stats1, Some stats2 =>
          let scaleSimilarity :=
            (1 - Qmin 1 (Qabs (inject_Z (orderOfMagnitude stats1)
                               - inject_Z (orderOfMagnitude stats2)) / 5))%Q in
          if Qltb scaleSimilarity 0.5 then (nameSim * 0.2)%Q
          else
            let cv1 :=
              if negb (Qeq_bool (mean stats1) 0)
              then (stddev stats1 / mean stats1)%Q else 0%Q in
            let cv2 :=
              if negb (Qeq_bool (mean stats2) 0)
              then (stddev stats2 / mean stats2)%Q else 0%Q in
            let cvSimilarity := (1 - Qmin 1 (Qabs (cv1 - cv2)))%Q in
            (nameSim * 0.5 + cvSimilarity * 0.3 + scaleSimilarity * 0.2)%Q
      | _, _ =>
          let contentSim :=
            jaccardSimilarity (valueSet prof1) (valueSet prof2) in
          if Qltb (uniquenessRatio prof1) 0.5
             && Qltb (uniquenessRatio prof2) 0.5
             && Qltb 0.1 contentSim
          then (contentSim * 0.7 + nameSim * 0.3)%Q
          else (nameSim * 0.7 + contentSim * 0.3)%Q
      end.

(** ** The match clusterer *)

Definition indexed {X : Type} (l : list X) : list (nat * X) :=
  combine (seq 0 (List.length l)) l.

(** [`${c.fileId}-${c.originalName}`] *)
Definition columnKey (c : ColumnData) : string :=
  (fileId c ++ "-" ++ originalName c)%string.

Definition profileKey (p : ColumnProfile) : string := columnKey (source p).

Record BestMatch : Type := { targetKey : string; score : Q }.

Definition findMostDescriptiveName (cluster : list ColumnProfile)
  : option string :=
  match cluster with
  | [] => None
  | first :: _ =>
      Some (fold_left
              (fun best current =>
                 if String.length best <? String.length (originalName (source current))
                 then originalName (source current) else best)
              cluster (originalName (source first)))
  end.

(** Step 1, the body of the inner loop: [profiles[j]] against the best
    partner of [profiles[i]] so far. *)
Definition considerPartner (i : nat) (prof1 : ColumnProfile)
    (bestMatch : BestMatch) (jp : nat * ColumnProfile) : BestMatch :=
  let '(j, prof2) := jp in
  if i =? j then bestMatch
  else if negb (String.eqb (fileId (source prof1)) (fileId (source prof2)))
  then
    let score' := calculateConfidence prof1 prof2 in
    if Qltb (score bestMatch) score'
    then {| targetKey := profileKey prof2; score := score' |}
    else bestMatch
  else bestMatch.

(** Step 1, the inner loop: the best partner of [profiles[i]] in the other
    files. *)
Definition bestMatchFor (profiles : list ColumnProfile) (i : nat)
    (prof1 : ColumnProfile) : BestMatch :=
  fold_left (considerPartner i prof1) (indexed profiles)
    {| targetKey := ""; score := 0%Q |}.

(** Step 1, the body of the outer loop: the best partner of [profiles[i]]
    enters [bestPairs] when its score is above the threshold and the pair is
    not there yet. *)
Definition recordBestPair (profiles : list ColumnProfile)
    (bestPairs : list (string * BestMatch)) (ip : nat * ColumnProfile)
  : list (string * BestMatch) :=
  let '(i, prof1) := ip in
  let bestMatch := bestMatchFor profiles i prof1 in
  let prof1Key := profileKey prof1 in
  if Qltb 0.65 (score bestMatch) then
    let prof2Key := targetKey bestMatch in
    let canonicalKey := canonicalPairKey prof1Key prof2Key in
    if map_has String.eqb canonicalKey bestPairs then bestPairs
    else map_set String.eqb canonicalKey
           {| targetKey := prof2Key; score := score bestMatch |} bestPairs
  else bestPairs.

(** Step 1: [bestPairs], keyed by the canonical pair key. *)
Definition findBestPairs (profiles : list ColumnProfile)
  : list (string * BestMatch) :=
  fold_left (recordBestPair profiles) (indexed profiles) [].

(** Step 2, the two tests of the inner [for] loop on one pair key, on
    [(visited, queue)]. *)
Definition scanStep (currentKey : string) (st : list string * list string)
    (otherPairKey : string) : list string * list string :=
  let '(p1, p2) := splitPair otherPairKey in
  let st1 :=
    if String.eqb p1 currentKey && negb (str_has p2 (fst st))
    then (str_add p2 (fst st), snd st ++ [p2]) else st in
  if String.eqb p2 currentKey && negb (str_has p1 (fst st1))
  then (str_add p1 (fst st1), snd st1 ++ [p1]) else st1.

(** Step 2, the body of the [while] loop after [currentKey] was taken off
    the queue: one pass over the pair keys. *)
Definition scanPairs (pairKeys : list string) (currentKey : string)
    (st : list string * list string) : list string * list string :=
  fold_left (scanStep currentKey) pairKeys st.

(** Step 2, the [while (queue.length > 0)] loop; the result is
    [(visited, currentCluster)]. *)
Fixpoint bfs (pairKeys : list string) (fuel : nat)
    (queue visited currentCluster : list string)
  : option (list string * list string) :=
  match queue with
  | [] => Some (visited, currentCluster)
  | currentKey :: rest =>
      match fuel with
      | O => None
      | S fuel' =>
          let '(visited', queue') := scanPairs pairKeys currentKey (visited, rest) in
          bfs pairKeys fuel' queue' visited' (str_add currentKey currentCluster)
      end
  end.

Definition clusterFuel (pairKeys : list string) : nat :=
  2 * List.length pairKeys + 3.

(** Step 2, the body of the outer loop, on [(visited, clusters)]: a pair
    with no visited end seeds a new cluster. *)
Definition clusterStep (pairKeys : list string)
    (st : option (list string * list (string * list string)))
    (pairKey : string)
  : option (list string * list (string * list string)) :=
  match st with
  | None => None
  | Some (visited, clusters) =>
      let '(key1, key2) := splitPair pairKey in
      if str_has key1 visited || str_has key2 visited
      then Some (visited, clusters)
      else
        match bfs pairKeys (clusterFuel pairKeys) [key1; key2]
                  (str_add key2 (str_add key1 visited)) [] with
        | None => None
        | Some (visited', currentCluster) =>
            Some (visited', map_set String.eqb key1 currentCluster clusters)
        end
  end.

(** Step 2: the clusters, keyed by the first key of their seed pair. *)
Definition buildClusters (pairKeys : list string)
  : option (list (string * list string)) :=
  option_map snd (fold_left (clusterStep pairKeys) pairKeys (Some ([], []))).

Fixpoint allDefined {X : Type} (l : list (option X)) : option (list X) :=
  match l with
  | [] => Some []
  | None :: _ => None
  | Some x :: l' => option_map (cons x) (allDefined l')
  end.

(** Step 3, the body of the loop that adds up the scores of the pairs
    inside a cluster, on [(totalScore, pairCount)]; [None] where
    [bestPairs.get] gave [undefined]. *)
Definition scoreStep (bestPairs : list (string * BestMatch))
    (clusterKeys : list string) (acc : option (Q * nat)) (pairKey : string)
  : option (Q * nat) :=
  match acc with
  | None => None
  | Some (totalScore, pairCount) =>
      let '(p1, p2) := splitPair pairKey in
      if str_has p1 clusterKeys && str_has p2 clusterKeys then
        match map_get String.eqb pairKey bestPairs with
        | Some best => Some ((totalScore + score best)%Q, pairCount + 1)
        | None => None
        end
      else Some (totalScore, pairCount)
  end.

Definition clusterScore (bestPairs : list (string * BestMatch))
    (clusterKeys : list string) : option (Q * nat) :=
  fold_left (scoreStep bestPairs clusterKeys) (map_keys bestPairs)
            (Some (0%Q, 0)).

(** Step 3: the [Match] of one cluster; [None] is a [TypeError]. *)
Definition buildMatch (bestPairs : list (string * BestMatch))
    (profileMap : list (string * ColumnProfile))
    (index : nat) (clusterKeys : list string) : option Match :=
  match clusterScore bestPairs clusterKeys with
  | None => None
  | Some (totalScore, pairCount) =>
      let confidence :=
        if 0 <? pairCount then (totalScore / Qnat pairCount)%Q else 0%Q in
      match allDefined
              (List.map (fun key => map_get String.eqb key profileMap)
                        clusterKeys) with
      | None => None
      | Some clusterProfiles =>
          match findMostDescriptiveName clusterProfiles with
          | None => None
          | Some name =>
              Some {| match_id := ("match-" ++ decimal index)%string;
                      match_columns :=
                        List.map
                          (fun p =>
                             {| cim_fileId := fileId (source p);
                                cim_fileName := fileName (source p);
                                columnName := originalName (source p) |})
                          clusterProfiles;
                      programmaticConfidence := confidence;
                      match_status := PENDING;
                      match_source := PROGRAMMATIC;
                      finalName := name |}
          end
      end
  end.

(** [matches.sort((a, b) => b.programmaticConfidence - a.programmaticConfidence)]:
    a stable sort by descending confidence. *)
Fixpoint insertMatch (m : Match) (sorted : list Match) : list Match :=
  match sorted with
  | [] => [m]
  | h :: t =>
      if Qltb (programmaticConfidence m) (programmaticConfidence h)
      then h :: insertMatch m t else m :: h :: t
  end.

Definition sortMatches (matches : list Match) : list Match :=
  fold_right insertMatch [] matches.

Record MatchResult : Type := {
  matches : list Match;
  unmatched : list ColumnData
}.

Definition generateMatches (files : list UploadedFile) : outcome MatchResult :=
  if List.length files <? 2 then Returned {| matches := []; unmatched := [] |}
  else
    let profiles :=
      flat_map (fun f => List.map createColumnProfile (columns f)) files in
    let bestPairs := findBestPairs profiles in
    let profileMap :=
      map_of_list String.eqb (List.map (fun p => (profileKey p, p)) profiles) in
    match buildClusters (map_keys bestPairs) with
    | None => OutOfFuel
    | Some clusters =>
        match allDefined
                (List.map (fun ic => buildMatch bestPairs profileMap (fst ic) (snd ic))
                          (indexed (map_values clusters))) with
        | None => TypeError
        | Some matches =>
            let matchedColumnKeys :=
              set_of_list String.eqb (List.concat (map_values clusters)) in
            let allColumns := flat_map columns files in
            let unmatched :=
              filter (fun c => negb (str_has (columnKey c) matchedColumnKeys))
                     allColumns in
            Returned {| matches := sortMatches matches; unmatched := unmatched |}
        end
    end.

End Engine.


(** ** The row aligner (step 2 of [parseFiles]) *)

(** A parsed row: an object from header to cell. *)
Definition Row : Type := list (string * value).

(** [row[header]] *)
Definition cell (row : Row) (header : string) : value :=
  match map_get String.eqb header row with
  | Some v => v
  | None => VUndefined
  end.

(** What step 1 of [parseFiles] hands to the aligner. *)
Record IntermediateFile : Type := {
  if_id : string;
  if_name : string;
  if_rowCount : nat;
  rawData : list Row;
  headers : list string
}.

Record KeyCandidate : Type := {
  key_fileId : string;
  key_fileName : string;
  key_header : string;
  key_cleanedName : string;
  key_uniquenessRatio : Q
}.

Record KeyMatch : Type := {
  key1 : KeyCandidate;
  key2 : KeyCandidate;
  key_score : Q
}.

Record AlignmentResult : Type := { success : bool; message : string }.

Definition createSimpleProfile (header : string) (data : list Row)
  : string * Q * string :=
  let sample :=
    filter nonEmpty (List.map (fun row => cell row header) (firstn 100 data)) in
  let valueSet := set_of_list value_eqb sample in
  let uniquenessRatio :=
    (Qnat (List.length valueSet)
     / Qnat (if List.length sample =? 0 then 1 else List.length sample))%Q in
  let cleanedName := cleanName header in
  (header, uniquenessRatio, cleanedName).

Definition potentialKeys (intermediateFiles : list IntermediateFile)
  : list KeyCandidate :=
  filter (fun p => Qltb 0.9 (key_uniquenessRatio p))
    (flat_map
       (fun f =>
          List.map
            (fun h =>
               let '(_, uniquenessRatio, cleanedName) :=
                 createSimpleProfile h (rawData f) in
               {| key_fileId := if_id f; key_fileName := if_name f;
                  key_header := h; key_cleanedName := cleanedName;
                  key_uniquenessRatio := uniquenessRatio |})
            (headers f))
       intermediateFiles).

(** The body of the double loop, on [(bestMatch, maxScore)]. *)
Definition compareKeys (keys : list KeyCandidate) (i : nat)
    (st : option KeyMatch * Q) (j : nat) : option KeyMatch * Q :=
  match nth_error keys i, nth_error keys j with
  | Some k1, Some k2 =>
      if negb (String.eqb (key_fileId k1) (key_fileId k2)) then
        let score' :=
          nameSimilarity (key_cleanedName k1) (key_cleanedName k2) in
        if Qltb (snd st) score'
        then (Some {| key1 := k1; key2 := k2; key_score := score' |}, score')
        else st
      else st
  | _, _ => st
  end.

(** The double loop over [i < j], started at [(null, 0.7)]. *)
Definition selectBestMatch (keys : list KeyCandidate) : option KeyMatch :=
  fst
    (fold_left
       (fun st i =>
          fold_left (compareKeys keys i)
                    (seq (i + 1) (List.length keys - (i + 1))) st)
       (seq 0 (List.length keys)) (None, 0.7%Q)).

(** [map.get(k)!] for a key of the map. *)
Definition rowOf (m : list (value * Row)) (k : value) : Row :=
  match map_get value_eqb k m with
  | Some row => row
  | None => []
  end.

Definition noKeyMessage : string :=
  "Could not find a reliable common key to align rows. Sample data may not correspond between files.".

Definition alignedMessage (k1 k2 : KeyCandidate) : string :=
  ("Successfully aligned rows between " ++ dquote ++ key_fileName k1 ++ dquote
   ++ " and " ++ dquote ++ key_fileName k2 ++ dquote
   ++ " using columns " ++ dquote ++ key_header k1 ++ dquote
   ++ " and " ++ dquote ++ key_header k2 ++ dquote
   ++ ". Sample data is now synchronized for these files.")%string.

Definition tooFewMessage (k1 k2 : KeyCandidate) (count : nat) : string :=
  ("Found potential key columns (" ++ dquote ++ key_header k1 ++ dquote
   ++ " and " ++ dquote ++ key_header k2 ++ dquote
   ++ ") but they had too few common values (" ++ decimal count
   ++ ") to align rows confidently.")%string.

(** The keys of the first table that the second has too, in the order of
    the first table's [Map]. *)
Definition commonKeysOf (map1 map2 : list (value * Row)) : list value :=
  filter (fun k => notNullish k && map_has value_eqb k map2)
         (map_keys map1).

(** Step 2 of [parseFiles]: the alignment result and [finalDataMap]; [None]
    is the [TypeError] of reading the rows of a file the map does not
    hold. *)
Definition alignRows (intermediateFiles : list IntermediateFile)
  : option (AlignmentResult * list (string * list Row)) :=
  let finalDataMap :=
    map_of_list String.eqb
      (List.map (fun f => (if_id f, rawData f)) intermediateFiles) in
  match selectBestMatch (potentialKeys intermediateFiles) with
  | None => Some ({| success := false; message := noKeyMessage |}, finalDataMap)
  | Some bestMatch =>
      let k1 := key1 bestMatch in
      let k2 := key2 bestMatch in
      match map_get String.eqb (key_fileId k1) finalDataMap,
            map_get String.eqb (key_fileId k2) finalDataMap with
      | Some file1Data, Some file2Data =>
          let map1 :=
            map_of_list value_eqb
              (List.map (fun row => (cell row (key_header k1), row)) file1Data) in
          let map2 :=
            map_of_list value_eqb
              (List.map (fun row => (cell row (key_header k2), row)) file2Data) in
          let commonKeys := commonKeysOf map1 map2 in
          if 10 <? List.length commonKeys then
            let newFile1Data := List.map (rowOf map1) commonKeys in
            let newFile2Data := List.map (rowOf map2) commonKeys in
            Some ({| success := true; message := alignedMessage k1 k2 |},
                  map_set String.eqb (key_fileId k2) newFile2Data
                    (map_set String.eqb (key_fileId k1) newFile1Data
                       finalDataMap))
          else
            Some ({| success := false;
                     message := tooFewMessage k1 k2 (List.length commonKeys) |},
                  finalDataMap)
      | _, _ => None
      end
  end.

(** ** Steps 1 and 3 of [parseFiles] *)

(** What else the runtime contributes: the text of a number ([String(n)])
    and [Date.parse] ([None] standing for [NaN]). *)
Class JsText : Type := {
  String_of_number : Q -> string;
  Date_parse : string -> option Q
}.

(** [String(v)], [v.toString()] *)
Definition toStr `{JsText} (v : value) : string :=
  match v with
  | VNull => "null"
  | VUndefined => "undefined"
  | VBool true => "true"
  | VBool false => "false"
  | VNum q => String_of_number q
  | VStr s => s
  end.

(** [isNaN(v)] *)
Definition isNaN `{JsRuntime} (v : value) : bool :=
  match toNumber v with
  | Some _ => false
  | None => true
  end.

(** [s.indexOf(c) !== -1] *)
Fixpoint hasUnit (c : ascii) (s : string) : bool :=
  match s with
  | EmptyString => false
  | String d s' => Ascii.eqb d c || hasUnit c s'
  end.

Definition isBoolean (v : value) : bool :=
  match v with
  | VBool _ => true
  | _ => false
  end.

Definition getDataType `{JsRuntime} `{JsText} (v : value) : DataType :=
  if negb (nonEmpty v) then TString
  else if negb (isNaN v) && hasUnit "."%char (toStr v) then TNumber
  else if negb (isNaN v) then TNumber
  else if isBoolean v then TBoolean
  else if negb (match Date_parse (toStr v) with Some _ => false | None => true end)
  then TDate
  else TString.

Definition SAMPLE_SIZE : nat := 50.

Definition DEFAULT_COLORS : list string :=
  ["#A7C7E7"; "#F8C8DC"; "#B2F2BB"; "#FFF2B2"; "#D8B4E2"].

(** [arr.filter(v => v === a).length] *)
Definition countOf (arr : list DataType) (a : DataType) : nat :=
  List.length (filter (fun v => DataType_eqb v a) arr).

(** [types.length > 0 ? types.reduce((a, b, i, arr) => ... ? a : b) : 'string'] *)
Definition predominantType (types : list DataType) : DataType :=
  match types with
  | [] => TString
  | first :: rest =>
      fold_left
        (fun a b => if countOf types b <=? countOf types a then a else b)
        rest first
  end.

(** A file the user picked, with the rows [parseCsv] or [parseXlsx] resolve
    to. *)
Record ParsedFile : Type := {
  pf_name : string;
  pf_rows : list Row
}.

Definition supportedType (name : string) : bool :=
  endsWith name ".csv" || endsWith name ".xlsx" || endsWith name ".xls".

(** [Object.keys(data[0] || {})]: each key of the first row, once. *)
Definition headersOf (data : list Row) : list string :=
  match data with
  | [] => []
  | row :: _ => set_of_list String.eqb (map_keys row)
  end.

(** Step 1, for a file of a supported type. *)
Definition intermediateOf (index : nat) (file : ParsedFile) : IntermediateFile :=
  {| if_id := (pf_name file ++ "-" ++ decimal index)%string;
     if_name := pf_name file;
     if_rowCount := List.length (pf_rows file);
     rawData := pf_rows file;
     headers := headersOf (pf_rows file) |}.

(** Step 3, the column of one header; [None] is the [TypeError] of
    [data.slice] on [undefined]. *)
Definition columnOf `{JsRuntime} `{JsText} (f : IntermediateFile)
    (data : option (list Row)) (header : string) : option ColumnData :=
  match data with
  | None => None
  | Some data =>
      let sampleData :=
        filter notNullish
          (List.map (fun row => cell row header) (firstn SAMPLE_SIZE data)) in
      let types := List.map getDataType sampleData in
      Some {| fileId := if_id f;
              fileName := if_name f;
              originalName := header;
              sampleData := sampleData;
              dataType := predominantType types |}
  end.

(** Step 3, one file. *)
Definition uploadedOf `{JsRuntime} `{JsText}
    (finalDataMap : list (string * list Row)) (index : nat)
    (f : IntermediateFile) : option UploadedFile :=
  let data := map_get String.eqb (if_id f) finalDataMap in
  match allDefined (List.map (columnOf f data) (headers f)) with
  | None => None
  | Some columns =>
      Some {| file_id := if_id f;
              file_name := if_name f;
              columns := columns;
              rowCount := if_rowCount f;
              sourceId := index + 1;
              color := nth (index mod List.length DEFAULT_COLORS) DEFAULT_COLORS "" |}
  end.

Inductive parseOutcome (A : Type) : Type :=
| Parsed (a : A)
| ParseError (message : string)
| ParseTypeError
| ParserRejected.
Arguments Parsed {A} a.
Arguments ParseError {A} message.
Arguments ParseTypeError {A}.
Arguments ParserRejected {A}.

Record ParseResult : Type := {
  uploadedFiles : list UploadedFile;
  alignmentResult : AlignmentResult
}.

(** [parseFiles], given what the two parsers resolve to.  The callback of
    step 1 throws before its first [await] on a file of another type, so
    [Promise.all] rejects with the error of the first such file. *)
Definition parseFiles `{JsRuntime} `{JsText} (files : list ParsedFile)
  : parseOutcome ParseResult :=
  match find (fun file => negb (supportedType (pf_name file))) files with
  | Some file => ParseError ("Unsupported file type: " ++ pf_name file)
  | None =>
      let intermediateFiles :=
        List.map (fun ix => intermediateOf (fst ix) (snd ix)) (indexed files) in
      match alignRows intermediateFiles with
      | None => ParseTypeError
      | Some (alignmentResult, finalDataMap) =>
          match allDefined
                  (List.map (fun ix => uploadedOf finalDataMap (fst ix) (snd ix))
                            (indexed intermediateFiles)) with
          | None => ParseTypeError
          | Some uploadedFiles =>
              Parsed {| uploadedFiles := uploadedFiles;
                        alignmentResult := alignmentResult |}
          end
      end
  end.

(** A file the user picked, as its parser finds it: [parseCsv] or
    [parseXlsx] resolves to its rows, or it rejects (the library does not
    load, the file cannot be read, the workbook cannot be decoded). *)
Inductive SelectedFile : Type :=
| Readable (file : ParsedFile)
| Unreadable (name : string).

Definition selectedName (file : SelectedFile) : string :=
  match file with
  | Readable parsed => pf_name parsed
  | Unreadable name => name
  end.

(** The rows of the files, where every parser resolves. *)
Definition resolvedFiles (files : list SelectedFile)
  : option (list ParsedFile) :=
  allDefined
    (List.map (fun file => match file with
                           | Readable parsed => Some parsed
                           | Unreadable _ => None
                           end)
              files).

(** [parseFiles] on the files as selected.  A file of another type makes
    its callback throw before the first [await], so its rejection is the
    first that [Promise.all] meets, whatever the parsers of the other files
    do later.  With supported types only, [Promise.all] rejects as soon as
    one parser does ([ParserRejected]; which parser's error it is depends
    on the order the parsers finish in), and where every parser resolves
    the function goes on with the rows, as [parseFiles] above. *)
Definition parseSelectedFiles `{JsRuntime} `{JsText}
    (files : list SelectedFile) : parseOutcome ParseResult :=
  match find (fun file => negb (supportedType (selectedName file))) files with
  | Some file => ParseError ("Unsupported file type: " ++ selectedName file)
  | None =>
      match resolvedFiles files with
      | Some parsed => parseFiles parsed
      | None => ParserRejected
      end
  end.

(** ** The content comparison shown to the user ([compareColumnContents]) *)

(** A [DataType] in a template literal. *)
Definition dataTypeName (t : DataType) : string :=
  match t with
  | TString => "string"
  | TNumber => "number"
  | TBoolean => "boolean"
  | TDate => "date"
  | TMixed => "mixed"
  end.

(** An integer in a template literal. *)
Definition decimalZ (z : Z) : string :=
  if (z <? 0)%Z then ("-" ++ decimal (Z.to_nat (- z)))%string
  else decimal (Z.to_nat z).

Definition newline : string := String (ascii_of_nat 10) EmptyString.

(** A value of the [details] record. *)
Inductive detail : Type :=
| DFlag (b : bool)
| DType (t : DataType)
| DStats (stats : option NumericStats)
| DNumber (q : Q).

(** The result of [compareColumnContents]: its score and its details.  Its
    summary is left out: a text that prints the intermediate scores as
    whole percentages, and which whole number [Math.round] gives depends on
    the rounding of the numbers, which is not modelled here. *)
Record Comparison : Type := {
  cmp_score : Q;
  cmp_details : list (string * detail)
}.

(** [sample.reduce((acc, v) => acc + String(v).length, 0) / sample.length] *)
Definition averageLength `{JsText} (sample : list value) : Q :=
  let total :=
    fold_left (fun acc v => acc + String.length (toStr v)) sample 0 in
  (Qnat total / Qnat (List.length sample))%Q.

Definition compareColumnContents `{JsRuntime} `{JsText}
    (columnA columnB : ColumnData) : Comparison :=
  if negb (DataType_eqb (dataType columnA) (dataType columnB)) then
    {| cmp_score := 0;
       cmp_details := [("dataTypeMismatch", DFlag true)] |}
  else
    let details0 := [("dataType", DType (dataType columnA))] in
    let sampleA := filter nonEmpty (sampleData columnA) in
    let sampleB := filter nonEmpty (sampleData columnB) in
    if (List.length sampleA =? 0) || (List.length sampleB =? 0) then
      {| cmp_score := 0.1;
         cmp_details := [("noData", DFlag true)] |}
    else if DataType_eqb (dataType columnA) TNumber then
      let statsA := getNumericStats sampleA in
      let statsB := getNumericStats sampleB in
      let details1 :=
        details0 ++ [("statsA", DStats statsA); ("statsB", DStats statsB)] in
      match statsA, statsB with
      | Some statsA, Some statsB =>
          let magnitudeDiff :=
            Qabs (inject_Z (orderOfMagnitude statsA)
                  - inject_Z (orderOfMagnitude statsB))%Q in
          let magnitudeScore := Qmax 0 (1 - magnitudeDiff / 5)%Q in
          let cvA :=
            if negb (Qeq_bool (mean statsA) 0)
            then Qabs (stddev statsA / mean statsA)%Q else 0%Q in
          let cvB :=
            if negb (Qeq_bool (mean statsB) 0)
            then Qabs (stddev statsB / mean statsB)%Q else 0%Q in
          let cvSimilarity :=
            if Qeq_bool cvA 0 && Qeq_bool cvB 0 then 1%Q
            else (1 - Qmin 1 (Qabs (cvA - cvB)
                              / (if Qeq_bool (cvA + cvB) 0 then 1
                                 else cvA + cvB)))%Q in
          let contentScore := (magnitudeScore * 0.6 + cvSimilarity * 0.4)%Q in
          {| cmp_score := contentScore; cmp_details := details1 |}
      | _, _ =>
          {| cmp_score := 0.1; cmp_details := details1 |}
      end
    else
      let setA := set_of_list value_eqb sampleA in
      let setB := set_of_list value_eqb sampleB in
      let jaccard := jaccardSimilarity setA setB in
      let avgLengthA := averageLength sampleA in
      let avgLengthB := averageLength sampleB in
      let lengthSimilarity :=
        (1 - Qabs (avgLengthA - avgLengthB)
             / Qmax (Qmax avgLengthA avgLengthB) 1)%Q in
      let contentScore := (jaccard * 0.7 + lengthSimilarity * 0.3)%Q in
      {| cmp_score := contentScore;
         cmp_details :=
           details0
           ++ [("jaccardSimilarity", DNumber jaccard);
               ("averageLengthA", DNumber avgLengthA);
               ("averageLengthB", DNumber avgLengthB);
               ("lengthSimilarity", DNumber lengthSimilarity)] |}.

(** ** The upload handler ([handleFilesSelected] of [src/App.tsx]) *)

(** The unmatched columns by file name, as the handler collects them: a
    file with no unmatched column gets no entry. *)
Definition unmatchedMapOf (uploadedFiles : list UploadedFile)
    (unmatched : list ColumnData) : list (string * list string) :=
  fold_left
    (fun unmatchedMap file =>
       let fileUnmatched :=
         List.map originalName
           (filter (fun c => String.eqb (fileId c) (file_id file)) unmatched) in
       if 0 <? List.length fileUnmatched
       then map_set String.eqb (file_name file) fileUnmatched unmatchedMap
       else unmatchedMap)
    uploadedFiles [].

(** Where the handler leaves the application: it refuses fewer than two
    files; it catches the rejection of [parseFiles]; it catches the error of
    [generateMatches], after the files and the notice of the aligner were
    shown; or it moves on to the matching step with the files, the notice,
    the matches and the unmatched columns. *)
Inductive uploadOutcome : Type :=
| TooFewFiles
| ParseFailed
| MatchFailed (files : list UploadedFile) (notice : string)
| ReadyToMatch (files : list UploadedFile) (notice : string)
    (matches : list Match) (unmatchedColumns : list (string * list string)).

Definition alignmentNotice (r : AlignmentResult) : string :=
  ((if success r then "Row Alignment Success:" else "Row Alignment Notice:")
   ++ newline ++ message r)%string.

Definition handleFilesSelected `{JsRuntime} `{JsText}
    (selectedFiles : list SelectedFile) : uploadOutcome :=
  if List.length selectedFiles <? 2 then TooFewFiles
  else
    match parseSelectedFiles selectedFiles with
    | Parsed parsed =>
        let notice := alignmentNotice (alignmentResult parsed) in
        match generateMatches (uploadedFiles parsed) with
        | Returned result =>
            ReadyToMatch (uploadedFiles parsed) notice (matches result)
              (unmatchedMapOf (uploadedFiles parsed) (unmatched result))
        | _ => MatchFailed (uploadedFiles parsed) notice
        end
    | _ => ParseFailed
    end.

(** ** The SQL export ([src/services/exportService.ts]) *)

Definition MatchStatus_eqb (a b : MatchStatus) : bool :=
  match a, b with
  | PENDING, PENDING | CONFIRMED, CONFIRMED | DENIED, DENIED => true
  | _, _ => false
  end.

Definition getColumnData (fileId columnName : string)
    (files : list UploadedFile) : option ColumnData :=
  match find (fun f => String.eqb (file_id f) fileId) files with
  | Some file =>
      find (fun c => String.eqb (originalName c) columnName) (columns file)
  | None => None
  end.

(** The types are kept in a [Set] of their names. *)
Definition needsTypeConversion (m : Match) (files : list UploadedFile) : bool :=
  if List.length (match_columns m) <=? 1 then false
  else
    let types :=
      fold_left
        (fun types col =>
           match getColumnData (cim_fileId col) (columnName col) files with
           | Some colData => set_add DataType_eqb (dataType colData) types
           | None => types
           end)
        (match_columns m) [] in
    1 <? List.length types.

Record SqlExportOptions : Type := {
  includeSource : bool;
  sourceColumnName : string
}.

(** White space and line ends of [trim], among the code units below 256. *)
Definition is_space_unit (c : ascii) : bool :=
  let n := nat_of_ascii c in
  ((9 <=? n) && (n <=? 13)) || (n =? 32) || (n =? 160).

Fixpoint trimStart (s : string) : string :=
  match s with
  | EmptyString => EmptyString
  | String c s' => if is_space_unit c then trimStart s' else s
  end.

Fixpoint trimEnd (s : string) : string :=
  match s with
  | EmptyString => EmptyString
  | String c s' =>
      match trimEnd s' with
      | EmptyString => if is_space_unit c then EmptyString else String c EmptyString
      | rest => String c rest
      end
  end.

(** [s.trim()] *)
Definition trim (s : string) : string := trimEnd (trimStart s).

(** [array.sort()] on strings: ascending by code units. *)
Fixpoint insertString (x : string) (sorted : list string) : list string :=
  match sorted with
  | [] => [x]
  | y :: rest =>
      if String.leb x y then x :: y :: rest else y :: insertString x rest
  end.

Definition sortStrings (l : list string) : list string :=
  fold_right insertString [] l.

Definition confirmedOf (matches : list Match) : list Match :=
  filter (fun m => MatchStatus_eqb (match_status m) CONFIRMED) matches.

(** The body of the loop over the columns of the matches that are not
    confirmed: the column joins the unmatched columns of its file. *)
Definition addUnmatched (comprehensiveUnmatched : list (string * list string))
    (col : ColumnInMatch) : list (string * list string) :=
  let withFile :=
    if negb (map_has String.eqb (cim_fileName col) comprehensiveUnmatched)
    then map_set String.eqb (cim_fileName col) [] comprehensiveUnmatched
    else comprehensiveUnmatched in
  match map_get String.eqb (cim_fileName col) withFile with
  | Some cols =>
      map_set String.eqb (cim_fileName col) (str_add (columnName col) cols)
              withFile
  | None => withFile
  end.

(** The unmatched columns by file name, with the columns of the matches
    that are not confirmed. *)
Definition comprehensiveUnmatchedOf (matches : list Match)
    (unmatchedColumns : list (string * list string))
  : list (string * list string) :=
  fold_left addUnmatched
    (flat_map match_columns
       (filter (fun m => negb (MatchStatus_eqb (match_status m) CONFIRMED))
               matches))
    (fold_left
       (fun m e => map_set String.eqb (fst e) (set_of_list String.eqb (snd e)) m)
       unmatchedColumns []).

Definition allFinalColumnsOf (confirmedMatches : list Match)
    (comprehensiveUnmatched : list (string * list string)) : list string :=
  fold_left
    (fun all cols => fold_left (fun all c => str_add c all) cols all)
    (map_values comprehensiveUnmatched)
    (fold_left (fun all m => str_add (finalName m) all) confirmedMatches []).

Definition matchesNeedingConversionOf (confirmedMatches : list Match)
    (files : list UploadedFile) : list (string * bool) :=
  fold_left
    (fun m mt => map_set String.eqb (finalName mt) (needsTypeConversion mt files) m)
    confirmedMatches [].

(** One clause of the [SELECT] of a file. *)
Definition selectClause (confirmedMatches : list Match)
    (comprehensiveUnmatched : list (string * list string))
    (matchesNeedingConversion : list (string * bool))
    (file : UploadedFile) (finalColName : string) : string :=
  match find (fun m => String.eqb (finalName m) finalColName) confirmedMatches with
  | Some mt =>
      let columnInFile :=
        find (fun c => String.eqb (cim_fileId c) (file_id file)) (match_columns mt) in
      let needsConversion :=
        match map_get String.eqb finalColName matchesNeedingConversion with
        | Some b => b
        | None => false
        end in
      match columnInFile with
      | Some columnInFile =>
          if needsConversion
          then ("    CAST(" ++ dquote ++ columnName columnInFile ++ dquote
                ++ " AS VARCHAR) AS " ++ dquote ++ finalColName ++ dquote)%string
          else ("    " ++ dquote ++ columnName columnInFile ++ dquote
                ++ " AS " ++ dquote ++ finalColName ++ dquote)%string
      | None => ("    NULL AS " ++ dquote ++ finalColName ++ dquote)%string
      end
  | None =>
      let isUnmatchedInFile :=
        match map_get String.eqb (file_name file) comprehensiveUnmatched with
        | Some cols => str_has finalColName cols
        | None => false
        end in
      if isUnmatchedInFile
      then ("    " ++ dquote ++ finalColName ++ dquote
            ++ " AS " ++ dquote ++ finalColName ++ dquote)%string
      else ("    NULL AS " ++ dquote ++ finalColName ++ dquote)%string
  end.

(** The clauses of the [SELECT] of a file. *)
Definition selectClausesOf (options : SqlExportOptions)
    (confirmedMatches : list Match)
    (comprehensiveUnmatched : list (string * list string))
    (matchesNeedingConversion : list (string * bool))
    (finalColumnList : list string) (file : UploadedFile) : list string :=
  let selectClauses :=
    List.map (selectClause confirmedMatches comprehensiveUnmatched
                matchesNeedingConversion file)
             finalColumnList in
  if includeSource options then
    let sourceColName :=
      if String.eqb (trim (sourceColumnName options)) ""
      then "SOURCE_FILE_NAME" else trim (sourceColumnName options) in
    ("    '" ++ file_name file ++ "' AS " ++ dquote ++ sourceColName ++ dquote)%string
    :: selectClauses
  else selectClauses.

Definition unionPartOf (options : SqlExportOptions)
    (confirmedMatches : list Match)
    (comprehensiveUnmatched : list (string * list string))
    (matchesNeedingConversion : list (string * bool))
    (finalColumnList : list string) (file : UploadedFile) : string :=
  let selectClauses :=
    selectClausesOf options confirmedMatches comprehensiveUnmatched
      matchesNeedingConversion finalColumnList file in
  let tableName :=
    ("your_schema." ++ dquote
     ++ nth 0 (split "."%char (file_name file)) "" ++ dquote)%string in
  ("SELECT" ++ newline ++ String.concat ("," ++ newline) selectClauses
   ++ newline ++ "FROM " ++ tableName)%string.

Definition typeConversionWarning (confirmedMatches : list Match)
    (files : list UploadedFile) (columnName' : string) : string :=
  match find (fun m => String.eqb (finalName m) columnName') confirmedMatches with
  | None => ""
  | Some mt =>
      let types :=
        String.concat ", "
          (List.map
             (fun col =>
                (cim_fileName col ++ ":" ++ columnName col ++ " ("
                 ++ match getColumnData (cim_fileId col) (columnName col) files with
                    | Some colData => dataTypeName (dataType colData)
                    | None => "unknown"
                    end
                 ++ ")")%string)
             (match_columns mt)) in
      ("--   " ++ dquote ++ columnName' ++ dquote
       ++ ": Type mismatch detected [" ++ types
       ++ "] - converted to VARCHAR")%string
  end.

(** What the export does: it alerts the user, or it has the browser download
    a file. *)
Inductive exportEffect : Type :=
| Alert (message : string)
| Download (content fileName mimeType : string).

Definition generateSql (matches : list Match)
    (unmatchedColumns : list (string * list string))
    (files : list UploadedFile) (options : SqlExportOptions) : exportEffect :=
  let confirmedMatches := confirmedOf matches in
  let comprehensiveUnmatched := comprehensiveUnmatchedOf matches unmatchedColumns in
  let allFinalColumns := allFinalColumnsOf confirmedMatches comprehensiveUnmatched in
  if List.length allFinalColumns =? 0 then
    Alert "No columns to export. Confirm some matches or upload files with columns."
  else
    let finalColumnList := sortStrings allFinalColumns in
    let matchesNeedingConversion :=
      matchesNeedingConversionOf confirmedMatches files in
    let unionParts :=
      List.map (unionPartOf options confirmedMatches comprehensiveUnmatched
                  matchesNeedingConversion finalColumnList)
               files in
    let typeConversionWarnings :=
      filter (fun w => 0 <? String.length w)
        (List.map (fun e => typeConversionWarning confirmedMatches files (fst e))
           (filter (fun e => snd e) matchesNeedingConversion)) in
    let typeWarningSection :=
      if 0 <? List.length typeConversionWarnings
      then (newline ++ "-- TYPE CONVERSION APPLIED:" ++ newline
            ++ "-- The following columns have been automatically CAST to VARCHAR due to type mismatches:"
            ++ newline ++ String.concat newline typeConversionWarnings
            ++ newline)%string
      else "" in
    let totalOriginalColumns :=
      fold_left (fun sum file => sum + List.length (columns file)) files 0 in
    let totalOutputColumns := List.length allFinalColumns in
    let verificationSection :=
      (newline ++ "-- DATA PRESERVATION VERIFICATION:" ++ newline
       ++ "-- Total columns in source files: " ++ decimal totalOriginalColumns
       ++ newline ++ "-- Total columns in output (after matching): "
       ++ decimal totalOutputColumns ++ newline
       ++ "-- Confirmed matches: " ++ decimal (List.length confirmedMatches)
       ++ newline ++ "-- Unmatched columns preserved: "
       ++ decimal
            (fold_left (fun sum set => sum + List.length set)
                       (map_values comprehensiveUnmatched) 0)
       ++ newline)%string in
    let sql :=
      ("-- Generated Snowflake SQL for Table Union" ++ newline
       ++ "-- Note: Replace placeholder table names with your actual Snowflake table names."
       ++ verificationSection ++ typeWarningSection ++ newline ++ newline
       ++ String.concat (newline ++ newline ++ "UNION ALL" ++ newline ++ newline)
                        unionParts
       ++ ";" ++ newline)%string in
    Download sql "union_query.sql" "application/sql".

(** ** The engine on binary64 numbers

    The same source, [src/services/matchingService.ts] lines 27 to 262,
    with a JavaScript number as what it is at run time: a binary64
    floating-point number, with its rounding, its infinities and [NaN]. *)

Module Binary64.

(** What the JavaScript runtime contributes: the functions of [Math] that
    the language leaves to the implementation or that have no counterpart
    here, and the reading of a string as a number ([Number(s)]). *)
Class JsRuntime : Type := {
  Math_sqrt : float -> float;
  Math_pow : float -> float -> float;
  Math_log10 : float -> float;
  Math_floor : float -> float;
  Number_of_string : string -> float
}.

Inductive value : Type :=
| VNull
| VUndefined
| VBool (b : bool)
| VNum (x : float)
| VStr (s : string).

(** Equality of the keys of a [Set] or a [Map] (SameValueZero): [NaN] is
    equal to itself, and [+0] to [-0]. *)
Definition value_eqb (v w : value) : bool :=
  match v, w with
  | VNull, VNull => true
  | VUndefined, VUndefined => true
  | VBool a, VBool b => Bool.eqb a b
  | VNum x, VNum y => PrimFloat.eqb x y || (is_nan x && is_nan y)
  | VStr s, VStr t => String.eqb s t
  | _, _ => false
  end.

(** [d !== null && d !== undefined && d !== ''] *)
Definition nonEmpty (d : value) : bool :=
  match d with
  | VNull | VUndefined => false
  | VStr s => negb (String.eqb s "")
  | _ => true
  end.

(** [Number(v)] *)
Definition toNumber `{JsRuntime} (v : value) : float :=
  match v with
  | VNull => 0%float
  | VUndefined => nan
  | VBool b => if b then 1%float else 0%float
  | VNum x => x
  | VStr s => Number_of_string s
  end.

(** A length or a counter as a number (exact: they are far below 2^53). *)
Definition ofNat (n : nat) : float := of_uint63 (Uint63.of_Z (Z.of_nat n)).

(** [x || y] on numbers: [0], [-0] and [NaN] are falsy. *)
Definition orElse (x y : float) : float :=
  if PrimFloat.is_zero x || is_nan x then y else x.

(** [Math.max] and [Math.min] of two numbers: [NaN] if one of them is, and
    [-0] below [+0]. *)
Definition max2 (a b : float) : float :=
  if is_nan a || is_nan b then nan
  else if PrimFloat.ltb a b then b
  else if PrimFloat.ltb b a then a
  else if get_sign a then b else a.

Definition min2 (a b : float) : float :=
  if is_nan a || is_nan b then nan
  else if PrimFloat.ltb a b then a
  else if PrimFloat.ltb b a then b
  else if get_sign a then a else b.

(** [Math.max(...xs)] and [Math.min(...xs)] *)
Definition Math_max (xs : list float) : float := fold_left max2 xs neg_infinity.
Definition Math_min (xs : list float) : float := fold_left min2 xs infinity.

Record ColumnData : Type := {
  fileId : string;
  fileName : string;
  originalName : string;
  sampleData : list value;
  dataType : DataType
}.

Record UploadedFile : Type := {
  file_id : string;
  file_name : string;
  columns : list ColumnData;
  rowCount : nat;
  sourceId : nat;
  color : string
}.

Record Match : Type := {
  match_id : string;
  match_columns : list ColumnInMatch;
  programmaticConfidence : float;
  match_status : MatchStatus;
  match_source : MatchSource;
  finalName : string
}.

Record NumericStats : Type := {
  mean : float;
  stddev : float;
  stat_min : float;
  stat_max : float;
  stat_range : float;
  orderOfMagnitude : float
}.

Record ColumnProfile : Type := {
  source : ColumnData;
  uniquenessRatio : float;
  valueSet : list value;
  cleanedName : string;
  baseName : string;
  numericStats : option NumericStats
}.

Section Engine.
Context `{JsRuntime}.

Definition getNumericStats (data : list value) : option NumericStats :=
  let numericData :=
    filter (fun n => negb (is_nan n)) (List.map toNumber data) in
  if List.length numericData <? 2 then None
  else
    let n := ofNat (List.length numericData) in
    let sum := fold_left PrimFloat.add numericData 0%float in
    let mean := (sum / n)%float in
    let min := Math_min numericData in
    let max := Math_max numericData in
    let stddev :=
      Math_sqrt
        (fold_left PrimFloat.add
           (List.map (fun x => Math_pow (x - mean)%float 2%float) numericData)
           0%float
         / n)%float in
    Some {| mean := mean; stddev := stddev; stat_min := min; stat_max := max;
            stat_range := (max - min)%float;
            orderOfMagnitude :=
              Math_floor (Math_log10 (orElse (abs mean) 1%float)) |}.

Definition createColumnProfile (column : ColumnData) : ColumnProfile :=
  let sampleData := filter nonEmpty (sampleData column) in
  let nonNullCount :=
    if List.length sampleData =? 0 then 1 else List.length sampleData in
  let valueSet := set_of_list value_eqb sampleData in
  let cleanedName := cleanName (originalName column) in
  let baseName := stripSuffix cleanedName in
  {| source := column;
     uniquenessRatio := (ofNat (List.length valueSet) / ofNat nonNullCount)%float;
     valueSet := valueSet;
     cleanedName := cleanedName;
     baseName := baseName;
     numericStats :=
       if DataType_eqb (dataType column) TNumber
          && (1 <? List.length sampleData)
       then getNumericStats sampleData else None |}.

Definition nameSimilarity (name1 name2 : string) : float :=
  let distance := levenshtein name1 name2 in
  let maxLength := Nat.max (String.length name1) (String.length name2) in
  if maxLength =? 0 then 1%float
  else (1 - ofNat distance / ofNat maxLength)%float.

Definition jaccardSimilarity (set1 set2 : list value) : float :=
  if (List.length set1 =? 0) || (List.length set2 =? 0) then 0%float
  else
    let intersectionSize :=
      List.length
        (set_of_list value_eqb
           (filter (fun x => set_has value_eqb x set2) set1)) in
    let unionSize := List.length set1 + List.length set2 - intersectionSize in
    if unionSize =? 0 then 1%float
    else (ofNat intersectionSize / ofNat unionSize)%float.

Definition calculateConfidence (prof1 prof2 : ColumnProfile) : float :=
  if negb (DataType_eqb (dataType (source prof1)) (dataType (source prof2)))
  then 0%float
  else
    let baseNameSim := nameSimilarity (baseName prof1) (baseName prof2) in
    let fullNameSim := nameSimilarity (cleanedName prof1) (cleanedName prof2) in
    let nameSim := Math_max [baseNameSim; fullNameSim] in
    if DataType_eqb (dataType (source prof1)) TBoolean then
      let contentSim := jaccardSimilarity (valueSet prof1) (valueSet prof2) in
      (nameSim * 0.6 + contentSim * 0.4)%float
    else if PrimFloat.ltb 0.9 (uniquenessRatio prof1)
            && PrimFloat.ltb 0.9 (uniquenessRatio prof2)
    then (nameSim * 0.95)%float
    else
      match numericStats prof1, numericStats prof2 with
      | Some stats1, Some stats2 =>
          let scaleSimilarity :=
            (1 - Math_min [1; abs (orderOfMagnitude stats1
                                   - orderOfMagnitude stats2) / 5])%float in
          if PrimFloat.ltb scaleSimilarity 0.5 then (nameSim * 0.2)%float
          else
            let cv1 :=
              if negb (PrimFloat.eqb (mean stats1) 0)
              then (stddev stats1 / mean stats1)%float else 0%float in
            let cv2 :=
              if negb (PrimFloat.eqb (mean stats2) 0)
              then (stddev stats2 / mean stats2)%float else 0%float in
            let cvSimilarity := (1 - Math_min [1; abs (cv1 - cv2)])%float in
            (nameSim * 0.5 + cvSimilarity * 0.3 + scaleSimilarity * 0.2)%float
      | _, _ =>
          let contentSim :=
            jaccardSimilarity (valueSet prof1) (valueSet prof2) in
          if PrimFloat.ltb (uniquenessRatio prof1) 0.5
             && PrimFloat.ltb (uniquenessRatio prof2) 0.5
             && PrimFloat.ltb 0.1 contentSim
          then (contentSim * 0.7 + nameSim * 0.3)%float
          else (nameSim * 0.7 + contentSim * 0.3)%float
      end.

(** [`${c.fileId}-${c.originalName}`] *)
Definition columnKey (c : ColumnData) : string :=
  (fileId c ++ "-" ++ originalName c)%string.

Definition profileKey (p : ColumnProfile) : string := columnKey (source p).

Record BestMatch : Type := { targetKey : string; score : float }.

Definition findMostDescriptiveName (cluster : list ColumnProfile)
  : option string :=
  match cluster with
  | [] => None
  | first :: _ =>
      Some (fold_left
              (fun best current =>
                 if String.length best <? String.length (originalName (source current))
                 then originalName (source current) else best)
              cluster (originalName (source first)))
  end.

Definition considerPartner (i : nat) (prof1 : ColumnProfile)
    (bestMatch : BestMatch) (jp : nat * ColumnProfile) : BestMatch :=
  let '(j, prof2) := jp in
  if i =? j then bestMatch
  else if negb (String.eqb (fileId (source prof1)) (fileId (source prof2)))
  then
    let score' := calculateConfidence prof1 prof2 in
    if PrimFloat.ltb (score bestMatch) score'
    then {| targetKey := profileKey prof2; score := score' |}
    else bestMatch
  else bestMatch.

Definition bestMatchFor (profiles : list ColumnProfile) (i : nat)
    (prof1 : ColumnProfile) : BestMatch :=
  fold_left (considerPartner i prof1) (indexed profiles)
    {| targetKey := ""; score := 0%float |}.

Definition recordBestPair (profiles : list ColumnProfile)
    (bestPairs : list (string * BestMatch)) (ip : nat * ColumnProfile)
  : list (string * BestMatch) :=
  let '(i, prof1) := ip in
  let bestMatch := bestMatchFor profiles i prof1 in
  let prof1Key := profileKey prof1 in
  if PrimFloat.ltb 0.65 (score bestMatch) then
    let prof2Key := targetKey bestMatch in
    let canonicalKey := canonicalPairKey prof1Key prof2Key in
    if map_has String.eqb canonicalKey bestPairs then bestPairs
    else map_set String.eqb canonicalKey
           {| targetKey := prof2Key; score := score bestMatch |} bestPairs
  else bestPairs.

Definition findBestPairs (profiles : list ColumnProfile)
  : list (string * BestMatch) :=
  fold_left (recordBestPair profiles) (indexed profiles) [].

Definition scoreStep (bestPairs : list (string * BestMatch))
    (clusterKeys : list string) (acc : option (float * nat)) (pairKey : string)
  : option (float * nat) :=
  match acc with
  | None => None
  | Some (totalScore, pairCount) =>
      let '(p1, p2) := splitPair pairKey in
      if str_has p1 clusterKeys && str_has p2 clusterKeys then
        match map_get String.eqb pairKey bestPairs with
        | Some best => Some ((totalScore + score best)%float, pairCount + 1)
        | None => None
        end
      else Some (totalScore, pairCount)
  end.

Definition clusterScore (bestPairs : list (string * BestMatch))
    (clusterKeys : list string) : option (float * nat) :=
  fold_left (scoreStep bestPairs clusterKeys) (map_keys bestPairs)
            (Some (0%float, 0)).

Definition buildMatch (bestPairs : list (string * BestMatch))
    (profileMap : list (string * ColumnProfile))
    (index : nat) (clusterKeys : list string) : option Match :=
  match clusterScore bestPairs clusterKeys with
  | None => None
  | Some (totalScore, pairCount) =>
      let confidence :=
        if 0 <? pairCount then (totalScore / ofNat pairCount)%float
        else 0%float in
      match allDefined
              (List.map (fun key => map_get String.eqb key profileMap)
                        clusterKeys) with
      | None => None
      | Some clusterProfiles =>
          match findMostDescriptiveName clusterProfiles with
          | None => None
          | Some name =>
              Some {| match_id := ("match-" ++ decimal index)%string;
                      match_columns :=
                        List.map
                          (fun p =>
                             {| cim_fileId := fileId (source p);
                                cim_fileName := fileName (source p);
                                columnName := originalName (source p) |})
                          clusterProfiles;
                      programmaticConfidence := confidence;
                      match_status := PENDING;
                      match_source := PROGRAMMATIC;
                      finalName := name |}
          end
      end
  end.

(** [(b.programmaticConfidence || 0) - (a.programmaticConfidence || 0)] *)
Definition compareMatches (a b : Match) : float :=
  (orElse (programmaticConfidence b) 0 - orElse (programmaticConfidence a) 0)%float.

(** [matches.sort(compareMatches)]: a stable sort; [h] stays before [m]
    where the comparison of the two is negative. *)
Fixpoint insertMatch (m : Match) (sorted : list Match) : list Match :=
  match sorted with
  | [] => [m]
  | h :: t =>
      if PrimFloat.ltb (compareMatches h m) 0
      then h :: insertMatch m t else m :: h :: t
  end.

Definition sortMatches (matches : list Match) : list Match :=
  fold_right insertMatch [] matches.

Record MatchResult : Type := {
  matches : list Match;
  unmatched : list ColumnData
}.

Definition generateMatches (files : list UploadedFile) : outcome MatchResult :=
  if List.length files <? 2 then Returned {| matches := []; unmatched := [] |}
  else
    let profiles :=
      flat_map (fun f => List.map createColumnProfile (columns f)) files in
    let bestPairs := findBestPairs profiles in
    let profileMap :=
      map_of_list String.eqb (List.map (fun p => (profileKey p, p)) profiles) in
    match buildClusters (map_keys bestPairs) with
    | None => OutOfFuel
    | Some clusters =>
        match allDefined
                (List.map (fun ic => buildMatch bestPairs profileMap (fst ic) (snd ic))
                          (indexed (map_values clusters))) with
        | None => TypeError
        | Some matches =>
            let matchedColumnKeys :=
              set_of_list String.eqb (List.concat (map_values clusters)) in
            let allColumns := flat_map columns files in
            let unmatched :=
              filter (fun c => negb (str_has (columnKey c) matchedColumnKeys))
                     allColumns in
            Returned {| matches := sortMatches matches; unmatched := unmatched |}
        end
    end.

End Engine.

(** Names for the properties of the engine. *)

Definition profilesOf `{JsRuntime} (files : list UploadedFile)
  : list ColumnProfile :=
  flat_map (fun f => List.map createColumnProfile (columns f)) files.

(** The accepted candidate pairs of a run: the entries of [bestPairs]. *)
Definition acceptedPairs `{JsRuntime} (files : list UploadedFile)
  : list (string * BestMatch) :=
  findBestPairs (profilesOf files).

Definition profileMapOf (profiles : list ColumnProfile)
  : list (string * ColumnProfile) :=
  map_of_list String.eqb (List.map (fun p => (profileKey p, p)) profiles).

Definition memberOf (p : ColumnProfile) : ColumnInMatch :=
  {| cim_fileId := fileId (source p);
     cim_fileName := fileName (source p);
     columnName := originalName (source p) |}.

(** The keys of the member columns of a match. *)
Definition memberKeys (m : Match) : list string :=
  List.map (fun c => (cim_fileId c ++ "-" ++ columnName c)%string)
           (match_columns m).

(** The entries of [bestPairs] whose two ends are both in the cluster, in
    the order of [bestPairs]. *)
Definition pairsInside (bestPairs : list (string * BestMatch))
    (clusterKeys : list string) : list (string * BestMatch) :=
  filter (fun e => str_has (fst (splitPair (fst e))) clusterKeys
                   && str_has (snd (splitPair (fst e))) clusterKeys)
         bestPairs.

Definition scoresOf (pairs : list (string * BestMatch)) : list float :=
  List.map (fun e => score (snd e)) pairs.



End Binary64.

(* ================================================================== *)
(** * Part II. The specification side *)
(* ================================================================== *)

(** ** Edit distance *)

Section EditDistanceDef.

Variable A : Type.
Variable eqA : A -> A -> bool.

(** An edit script turning [s] into [t], read left to right, with its cost:
    keeping a character is free; substituting, deleting or inserting one
    character costs 1. *)
Inductive edit : list A -> list A -> nat -> Prop :=
| edit_nil : edit [] [] 0
| edit_keep : forall x s t n, edit s t n -> edit (x :: s) (x :: t) n
| edit_subst : forall x y s t n, edit s t n -> edit (x :: s) (y :: t) (S n)
| edit_delete : forall x s t n, edit s t n -> edit (x :: s) t (S n)
| edit_insert : forall y s t n, edit s t n -> edit s (y :: t) (S n).

(** [d] is the Levenshtein distance of [s] and [t]: the cost of a cheapest
    edit script. *)
Definition is_edit_distance (s t : list A) (d : nat) : Prop :=
  edit s t d /\ forall n, edit s t n -> d <= n.

Definition subst_cost (x y : A) : nat := if eqA x y then 0 else 1.

Definition min3 (a b c : nat) : nat := Nat.min (Nat.min a b) c.

(** The classic recursive characterisation. *)
Fixpoint lev (s t : list A) {struct s} : nat :=
  match s with
  | [] => List.length t
  | x :: s' =>
      (fix lev_s (t : list A) : nat :=
         match t with
         | [] => S (List.length s')
         | y :: t' =>
             min3 (lev s' (y :: t') + 1) (lev_s t' + 1)
                  (lev s' t' + subst_cost x y)
         end) t
  end.

End EditDistanceDef.

(** ** The scorer's signals, in the specification's words *)

(** The name similarity the rules use: the better of the similarity of the
    cleaned names and of the base names. *)
Definition combinedNameSimilarity (prof1 prof2 : ColumnProfile) : Q :=
  Qmax (nameSimilarity (baseName prof1) (baseName prof2))
       (nameSimilarity (cleanedName prof1) (cleanedName prof2)).

(** The scale and shape similarities of two numeric profiles, in the
    specification's words. *)
Definition scaleSimilarityOf (stats1 stats2 : NumericStats) : Q :=
  (1 - Qmin 1 (Qabs (inject_Z (orderOfMagnitude stats1)
                     - inject_Z (orderOfMagnitude stats2)) / 5))%Q.

Definition coefficientOfVariation (stats : NumericStats) : Q :=
  if Qeq_bool (mean stats) 0 then 0%Q else (stddev stats / mean stats)%Q.

Definition shapeSimilarityOf (stats1 stats2 : NumericStats) : Q :=
  (1 - Qmin 1 (Qabs (coefficientOfVariation stats1
                     - coefficientOfVariation stats2)))%Q.

(** ** Names for what a run of the clusterer goes through *)

Definition profilesOf `{JsRuntime} (files : list UploadedFile) : list ColumnProfile :=
  flat_map (fun f => List.map createColumnProfile (columns f)) files.

(** The accepted candidate pairs of a run: the entries of [bestPairs]. *)
Definition acceptedPairs `{JsRuntime} (files : list UploadedFile)
  : list (string * BestMatch) :=
  findBestPairs (profilesOf files).

Definition memberKey (c : ColumnInMatch) : string :=
  (cim_fileId c ++ "-" ++ columnName c)%string.

Definition memberKeys (m : Match) : list string :=
  List.map memberKey (match_columns m).

(** ** Inputs whose keys are unambiguous *)

(** The string holds no [|]. *)
Fixpoint barFree (s : string) : bool :=
  match s with
  | EmptyString => true
  | String c s' => negb (Ascii.eqb c bar) && barFree s'
  end.

(** The keys [fileId-originalName] of the input columns are pairwise
    distinct and hold no [|]: a key names one column, and a pair key splits
    back into the two keys it was joined from. *)
Definition wellKeyed (files : list UploadedFile) : Prop :=
  NoDup (List.map columnKey (flat_map columns files)) /\
  Forall (fun c => barFree (columnKey c) = true) (flat_map columns files).

(** The member of a match that names a column. *)
Definition memberOfColumn (c : ColumnData) : ColumnInMatch :=
  {| cim_fileId := fileId c; cim_fileName := fileName c;
     columnName := originalName c |}.

(** A member of a match names this column of the input. *)
Definition refersTo (c : ColumnInMatch) (col : ColumnData) : Prop :=
  cim_fileId c = fileId col /\ columnName c = originalName col.

(** ** Inputs for worked runs *)

(** A runtime to run the embedding with: the square root to six decimals,
    and [Number] on strings of decimal digits. *)
Definition sqrt6 (q : Q) : Q :=
  (Z.sqrt (Qnum q * Zpos (Qden q) * 1000000000000) # (Qden q * 1000000))%Q.

Definition digitsToNumber (s : string) : option Q :=
  match s with
  | EmptyString => Some 0%Q
  | _ => option_map (fun u => inject_Z (Z.of_uint u)) (NilEmpty.uint_of_string s)
  end.

Definition exampleRuntime : JsRuntime :=
  {| Math_sqrt := sqrt6; Number_of_string := digitsToNumber |}.

(** A column and a file as [parseFiles] builds them: the file's id is its
    name and its index. *)
Definition column (file : string) (index : nat) (name : string)
    (type : DataType) (sample : list value) : ColumnData :=
  {| fileId := (file ++ "-" ++ decimal index)%string; fileName := file;
     originalName := name; sampleData := sample; dataType := type |}.

Definition uploaded (file : string) (index : nat) (cols : list ColumnData)
  : UploadedFile :=
  {| file_id := (file ++ "-" ++ decimal index)%string; file_name := file;
     columns := cols; rowCount := 5; sourceId := index + 1;
     color := "#A7C7E7" |}.

Definition regions : list value :=
  [VStr "EU"; VStr "EU"; VStr "US"; VStr "US"; VStr "EU"].

(** Three files naming one attribute in three ways. *)
Definition regionA : ColumnData := column "a.csv" 0 "region" TString regions.
Definition regionB : ColumnData := column "b.csv" 1 "Region" TString regions.
Definition regionC : ColumnData := column "c.csv" 2 "region_name" TString regions.
Definition regionFiles : list UploadedFile :=
  [uploaded "a.csv" 0 [regionA]; uploaded "b.csv" 1 [regionB];
   uploaded "c.csv" 2 [regionC]].

Definition regionMatch : Match :=
  {| match_id := "match-0";
     match_columns :=
       [{| cim_fileId := "a.csv-0"; cim_fileName := "a.csv"; columnName := "region" |};
        {| cim_fileId := "b.csv-1"; cim_fileName := "b.csv"; columnName := "Region" |};
        {| cim_fileId := "c.csv-2"; cim_fileName := "c.csv"; columnName := "region_name" |}];
     programmaticConfidence := (2880000 # 2880000)%Q;
     match_status := PENDING;
     match_source := PROGRAMMATIC;
     finalName := "region_name" |}.

(** The numeric scale scenario of the specification. *)
Definition transactionAmount : ColumnData :=
  column "payments.csv" 0 "transaction_amount" TNumber
    [VNum 5; VNum 12; VNum 48; VNum 12].
Definition accountBalance : ColumnData :=
  column "accounts.csv" 1 "account_balance" TNumber
    [VNum 10000; VNum 25000; VNum 50000; VNum 25000].
Definition scaleFiles : list UploadedFile :=
  [uploaded "payments.csv" 0 [transactionAmount];
   uploaded "accounts.csv" 1 [accountBalance]].

Definition noStats : NumericStats :=
  {| mean := 0; stddev := 0; stat_min := 0; stat_max := 0; stat_range := 0;
     orderOfMagnitude := 0 |}.

(** The numeric statistics of the two columns under [exampleRuntime]. *)
Definition transactionStats : NumericStats :=
  Eval vm_compute in
    match numericStats (@createColumnProfile exampleRuntime transactionAmount) with
    | Some stats => stats
    | None => noStats
    end.

Definition balanceStats : NumericStats :=
  Eval vm_compute in
    match numericStats (@createColumnProfile exampleRuntime accountBalance) with
    | Some stats => stats
    | None => noStats
    end.

(** Keys that collide: the column [s.csv-1-region] of the file [s.csv]
    (index 0) and the column [region] of the file [s.csv-0-s.csv]
    (index 1) both have the key [s.csv-0-s.csv-1-region]. *)
Definition collidingA : ColumnData :=
  column "s.csv" 0 "s.csv-1-region" TString regions.
Definition collidingB : ColumnData :=
  column "s.csv-0-s.csv" 1 "region" TString regions.
Definition collidingFiles : list UploadedFile :=
  [uploaded "s.csv" 0 [collidingA]; uploaded "s.csv-0-s.csv" 1 [collidingB]].

(** The same collision, the second column being numeric, and a third file
    with a [region] column of strings. *)
Definition collidingNumber : ColumnData :=
  column "s.csv-0-s.csv" 1 "region" TNumber
    [VNum 1; VNum 2; VNum 2; VNum 1; VNum 1].
Definition plainRegion : ColumnData := column "u.csv" 2 "region" TString regions.
Definition mixedFiles : list UploadedFile :=
  [uploaded "s.csv" 0 [collidingA]; uploaded "s.csv-0-s.csv" 1 [collidingNumber];
   uploaded "u.csv" 2 [plainRegion]].

(** Three files whose shared column has a [|] in its name. *)
Definition barA : ColumnData := column "a.csv" 0 "w|h" TString regions.
Definition barB : ColumnData := column "b.csv" 1 "w|h" TString regions.
Definition barC : ColumnData := column "c.csv" 2 "w|h" TString regions.
Definition barFiles : list UploadedFile :=
  [uploaded "a.csv" 0 [barA]; uploaded "b.csv" 1 [barB];
   uploaded "c.csv" 2 [barC]].

(** ** Row alignment, in the specification's words *)

(** The cells of a table under one header, row by row. *)
Definition keyColumn (header : string) (data : list Row) : list value :=
  List.map (fun row => cell row header) data.

(** The key values two tables share: the distinct values of the first
    table's key column, in the order they are met there, that are neither
    [null] nor [undefined] and occur in the second table's key column. *)
Definition commonKeyValues (column1 column2 : list value) : list value :=
  filter (fun k => notNullish k && set_has value_eqb k column2)
         (set_of_list value_eqb column1).

(** The rows of the file with this id, as step 2 looks them up. *)
Definition rowsOfFile (files : list IntermediateFile) (id : string)
  : option (list Row) :=
  map_get String.eqb id
    (map_of_list String.eqb (List.map (fun f => (if_id f, rawData f)) files)).

(** Two tables sharing an order key under two names; the second lists the
    orders in the opposite order. *)
Definition orderNumbers : list nat := seq 1 11.

Definition orderRow (n : nat) : Row :=
  [("order_id", VNum (Qnat n)); ("total", VNum (Qnat (100 + n)))].

Definition shipmentRow (n : nat) : Row :=
  [("orderId", VNum (Qnat n)); ("carrier", VStr (if Nat.even n then "DHL" else "UPS"))].

Definition ordersFile : IntermediateFile :=
  {| if_id := "orders.csv-0"; if_name := "orders.csv"; if_rowCount := 11;
     rawData := List.map orderRow orderNumbers;
     headers := ["order_id"; "total"] |}.

Definition shipmentsFile : IntermediateFile :=
  {| if_id := "shipments.csv-1"; if_name := "shipments.csv"; if_rowCount := 11;
     rawData := List.map shipmentRow (rev orderNumbers);
     headers := ["orderId"; "carrier"] |}.

Definition orderKeys : KeyMatch :=
  {| key1 := {| key_fileId := "orders.csv-0"; key_fileName := "orders.csv";
                key_header := "order_id"; key_cleanedName := "orderid";
                key_uniquenessRatio := (11 # 11)%Q |};
     key2 := {| key_fileId := "shipments.csv-1"; key_fileName := "shipments.csv";
                key_header := "orderId"; key_cleanedName := "orderid";
                key_uniquenessRatio := (11 # 11)%Q |};
     key_score := (7 # 7)%Q |}.

(** ** Names for the properties of Part IV *)

(** The numbers [getNumericStats] keeps: the cells that convert. *)
Definition numbersOf `{JsRuntime} (data : list value) : list Q :=
  flat_map (fun d => match toNumber d with Some n => [n] | None => [] end) data.

(** The values of the first set that the second has too. *)
Definition overlap (set1 set2 : list value) : list value :=
  filter (fun x => set_has value_eqb x set2) set1.

Definition nameLength (p : ColumnProfile) : nat :=
  String.length (originalName (source p)).

(** The matches come out by descending confidence. *)
Definition notBelow (a b : Match) : Prop :=
  (programmaticConfidence b <= programmaticConfidence a)%Q.

Definition dash : ascii := "-"%char.

(** The column step 3 builds for a header from the rows of its file. *)
Definition sampledColumn `{JsRuntime} `{JsText} (f : IntermediateFile)
    (data : list Row) (header : string) : ColumnData :=
  let sampleData :=
    filter notNullish
      (List.map (fun row => cell row header) (firstn SAMPLE_SIZE data)) in
  {| fileId := if_id f;
     fileName := if_name f;
     originalName := header;
     sampleData := sampleData;
     dataType := predominantType (List.map getDataType sampleData) |}.

(** What step 1 hands on: the files with their identifiers. *)
Definition intermediatesOf (files : list ParsedFile) : list IntermediateFile :=
  List.map (fun ix => intermediateOf (fst ix) (snd ix)) (indexed files).

(** A file name with no [-] and no [|]. *)
Definition plainName (name : string) : Prop :=
  hasUnit dash name = false /\ barFree name = true.

(** The names of the unmatched columns of one file. *)
Definition unmatchedNames (unmatched : list ColumnData) (file : UploadedFile)
  : list string :=
  List.map originalName
    (filter (fun c => String.eqb (fileId c) (file_id file)) unmatched).

(** The body of the loop of [unmatchedMapOf]. *)
Definition collectUnmatched (unmatched : list ColumnData)
    (unmatchedMap : list (string * list string)) (file : UploadedFile)
  : list (string * list string) :=
  if 0 <? List.length (unmatchedNames unmatched file)
  then map_set String.eqb (file_name file) (unmatchedNames unmatched file)
         unmatchedMap
  else unmatchedMap.

(** A clause that selects an expression under an alias. *)
Definition aliased (clause alias : string) : Prop :=
  exists expression,
    clause = ("    " ++ expression ++ " AS " ++ dquote ++ alias ++ dquote)%string.

(** The aliases of the [SELECT] of every file. *)
Definition aliasesOf (options : SqlExportOptions) (finalColumnList : list string)
  : list string :=
  (if includeSource options
   then [if String.eqb (trim (sourceColumnName options)) ""
         then "SOURCE_FILE_NAME" else trim (sourceColumnName options)]
   else [])
  ++ finalColumnList.

(** The order of [sort] on strings. *)
Definition ascending (a b : string) : Prop := String.leb a b = true.

(** The names a map lists under a file. *)
Definition listedIn (m : list (string * list string)) (file name : string)
  : Prop :=
  exists cols, In (file, cols) m /\ In name cols.

(** A column of a match that is not confirmed, by file name and name. *)
Definition leftOver (matches : list Match) (file name : string) : Prop :=
  exists m col,
    In m matches /\ match_status m <> CONFIRMED /\
    In col (match_columns m) /\
    cim_fileName col = file /\ columnName col = name.

(** ** Inputs for worked runs of the parser *)

(** A text side of the runtime to run the embedding with: whole numbers are
    written in decimal, and no text is a date. *)
Definition exampleText : JsText :=
  {| String_of_number := fun q => decimalZ (Qfloor q);
     Date_parse := fun _ => None |}.

(** Two small tables with a key column each, too short to be aligned. *)
Definition smallA : ParsedFile :=
  {| pf_name := "a.csv";
     pf_rows := [[("id", VStr "7"); ("region", VStr "EU")];
                 [("id", VStr "8"); ("region", VStr "US")]] |}.

Definition smallB : ParsedFile :=
  {| pf_name := "b.csv";
     pf_rows := [[("id", VStr "8"); ("flag", VBool true)];
                 [("id", VStr "9"); ("flag", VNull)]] |}.

Definition noParse : ParseResult :=
  {| uploadedFiles := [];
     alignmentResult := {| success := false; message := "" |} |}.

Definition smallParse : ParseResult :=
  Eval vm_compute in
    match @parseFiles exampleRuntime exampleText [smallA; smallB] with
    | Parsed result => result
    | _ => noParse
    end.

Definition amounts : list value := [VNum 5; VNum 12; VNum 48; VNum 12].

(** The column [flag] of the second table, as [parseFiles] returns it. *)
Definition smallFlag : ColumnData :=
  Eval vm_compute in
    nth 1 (columns (nth 1 (uploadedFiles smallParse)
                      (uploaded "" 0 []))) regionA.

(** ** Inputs for worked runs of the export *)

(** The match of the three region columns, confirmed, and a pending match
    of two key columns. *)
Definition regionConfirmed : Match :=
  {| match_id := match_id regionMatch;
     match_columns := match_columns regionMatch;
     programmaticConfidence := programmaticConfidence regionMatch;
     match_status := CONFIRMED;
     match_source := match_source regionMatch;
     finalName := finalName regionMatch |}.

Definition keyPending : Match :=
  {| match_id := "match-1";
     match_columns :=
       [{| cim_fileId := "a.csv-0"; cim_fileName := "a.csv"; columnName := "id" |};
        {| cim_fileId := "b.csv-1"; cim_fileName := "b.csv"; columnName := "ID" |}];
     programmaticConfidence := (9 # 10)%Q;
     match_status := PENDING;
     match_source := PROGRAMMATIC;
     finalName := "id" |}.

Definition exportMatches : list Match := [regionConfirmed; keyPending].

Definition exportUnmatched : list (string * list string) :=
  [("c.csv", ["notes"])].

(** ** The sort of the matches *)





(** ** Inputs for a worked run of the engine on binary64 numbers *)

Section WideTable.
Import Binary64.








End WideTable.

(* ================================================================== *)
(** * Part III. Properties *)
(* ================================================================== *)

Unset Implicit Arguments.

(** ** Edit distance: the recursion computes the cost of a cheapest script *)

Section EditDistance.

Variable A : Type.
Variable eqA : A -> A -> bool.
Hypothesis eqA_spec : forall x y, eqA x y = true <-> x = y.

Local Abbreviation lev := (@lev A eqA).
Local Abbreviation subst_cost := (@subst_cost A eqA).
Local Abbreviation edit := (@edit A).
Local Abbreviation is_edit_distance := (@is_edit_distance A).

Lemma lev_nil_l : forall t, lev [] t = List.length t.
Proof. reflexivity. Qed.

Lemma lev_nil_r : forall s, lev s [] = List.length s.
Proof. destruct s; reflexivity. Qed.

Lemma lev_cons : forall x y s t,
  lev (x :: s) (y :: t) =
  min3 (lev s (y :: t) + 1) (lev (x :: s) t + 1) (lev s t + subst_cost x y).
Proof. reflexivity. Qed.

Lemma lev_delete_le : forall x s t, lev (x :: s) t <= S (lev s t).
Proof.
  intros x s [|y t].
  - rewrite !lev_nil_r. simpl. lia.
  - rewrite lev_cons. unfold min3. lia.
Qed.

Lemma lev_insert_le : forall y s t, lev s (y :: t) <= S (lev s t).
Proof.
  intros y [|x s] t.
  - simpl. lia.
  - rewrite lev_cons. unfold min3. lia.
Qed.

Lemma lev_lower : forall s t n, edit s t n -> lev s t <= n.
Proof.
  induction 1.
  - simpl. lia.
  - rewrite lev_cons. unfold min3, subst_cost.
    replace (eqA x x) with true by (symmetry; apply eqA_spec; reflexivity).
    lia.
  - rewrite lev_cons. unfold min3, subst_cost. destruct (eqA x y); lia.
  - pose proof (lev_delete_le x s t). lia.
  - pose proof (lev_insert_le y s t). lia.
Qed.

Lemma edit_all_insert : forall t, edit [] t (List.length t).
Proof. induction t; simpl; constructor; assumption. Qed.

Lemma edit_all_delete : forall s, edit s [] (List.length s).
Proof. induction s; simpl; constructor; assumption. Qed.

Lemma lev_upper : forall s t, edit s t (lev s t).
Proof.
  induction s as [|x s IHs]; intro t.
  - apply edit_all_insert.
  - induction t as [|y t IHt].
    + rewrite lev_nil_r. apply edit_all_delete.
    + rewrite lev_cons. unfold min3.
      destruct (Nat.min_spec (lev s (y :: t) + 1) (lev (x :: s) t + 1))
        as [[_ E1]|[_ E1]]; rewrite E1;
      match goal with
      | |- edit _ _ (Nat.min ?a ?b) =>
          destruct (Nat.min_spec a b) as [[_ E2]|[_ E2]]; rewrite E2
      end.
      * rewrite Nat.add_1_r. apply edit_delete, IHs.
      * unfold subst_cost. destruct (eqA x y) eqn:E.
        -- apply eqA_spec in E. subst y. rewrite Nat.add_0_r.
           apply edit_keep, IHs.
        -- rewrite Nat.add_1_r. apply edit_subst, IHs.
      * rewrite Nat.add_1_r. apply edit_insert, IHt.
      * unfold subst_cost. destruct (eqA x y) eqn:E.
        -- apply eqA_spec in E. subst y. rewrite Nat.add_0_r.
           apply edit_keep, IHs.
        -- rewrite Nat.add_1_r. apply edit_subst, IHs.
Qed.

Lemma lev_is_edit_distance : forall s t, is_edit_distance s t (lev s t).
Proof. intros s t. split; [apply lev_upper | apply lev_lower]. Qed.

Lemma is_edit_distance_unique : forall s t d1 d2,
  is_edit_distance s t d1 -> is_edit_distance s t d2 -> d1 = d2.
Proof.
  intros s t d1 d2 [E1 L1] [E2 L2].
  apply Nat.le_antisymm; auto.
Qed.

(** Edit scripts can be extended at the right end too, so the distance of
    the reversed strings is the distance of the strings. *)
Lemma edit_snoc_keep : forall x s t n,
  edit s t n -> edit (s ++ [x]) (t ++ [x]) n.
Proof.
  induction 1; simpl; try (constructor; assumption).
  apply edit_keep, edit_nil.
Qed.

Lemma edit_snoc_subst : forall x y s t n,
  edit s t n -> edit (s ++ [x]) (t ++ [y]) (S n).
Proof.
  induction 1; simpl; try (constructor; assumption).
  apply edit_subst, edit_nil.
Qed.

Lemma edit_snoc_delete : forall x s t n,
  edit s t n -> edit (s ++ [x]) t (S n).
Proof.
  induction 1; simpl; try (constructor; assumption).
  apply edit_delete, edit_nil.
Qed.

Lemma edit_snoc_insert : forall y s t n,
  edit s t n -> edit s (t ++ [y]) (S n).
Proof.
  induction 1; simpl; try (constructor; assumption).
  apply edit_insert, edit_nil.
Qed.

Lemma edit_rev : forall s t n, edit s t n -> edit (rev s) (rev t) n.
Proof.
  induction 1; simpl.
  - constructor.
  - apply edit_snoc_keep; assumption.
  - apply edit_snoc_subst; assumption.
  - apply edit_snoc_delete; assumption.
  - apply edit_snoc_insert; assumption.
Qed.

Lemma lev_rev : forall s t, lev (rev s) (rev t) = lev s t.
Proof.
  intros s t. apply Nat.le_antisymm.
  - apply lev_lower, edit_rev, lev_upper.
  - rewrite <- (rev_involutive s), <- (rev_involutive t) at 1.
    apply lev_lower, edit_rev, lev_upper.
Qed.

Lemma edit_sym : forall s t n, edit s t n -> edit t s n.
Proof. induction 1; constructor; assumption. Qed.

Lemma lev_sym : forall s t, lev s t = lev t s.
Proof.
  intros s t. apply Nat.le_antisymm; apply lev_lower, edit_sym, lev_upper.
Qed.

Lemma lev_le_max : forall s t,
  lev s t <= Nat.max (List.length s) (List.length t).
Proof.
  induction s as [|x s IHs]; intro t.
  - simpl. lia.
  - destruct t as [|y t].
    + rewrite lev_nil_r. simpl. lia.
    + rewrite lev_cons. unfold min3, subst_cost.
      specialize (IHs t). simpl. destruct (eqA x y); lia.
Qed.

Lemma lev_refl : forall s, lev s s = 0.
Proof.
  intro s. apply Nat.le_0_r. apply lev_lower.
  induction s; constructor; assumption.
Qed.

End EditDistance.

(** ** Generic facts on lists and loops *)

Lemma fold_left_seq_inv : forall (St : Type) (P : nat -> St -> Prop)
    (f : St -> nat -> St) (len start : nat) (s0 : St),
  P start s0 ->
  (forall k s, start <= k < start + len -> P k s -> P (1 + k) (f s k)) ->
  P (start + len) (fold_left f (seq start len) s0).
Proof.
  induction len as [|len IH]; intros start s0 H0 Hstep; simpl.
  - rewrite Nat.add_0_r. exact H0.
  - replace (start + S len) with (S start + len) by lia.
    apply IH.
    + apply (Hstep start s0); [lia | exact H0].
    + intros k s Hk. apply Hstep. lia.
Qed.

Lemma update_length : forall (X : Type) (l : list X) k v,
  List.length (update l k v) = List.length l.
Proof.
  induction l as [|h t IH]; intros [|k] v; simpl; auto.
Qed.

Lemma nth_update : forall (X : Type) (l : list X) k v k' d,
  k < List.length l ->
  nth k' (update l k v) d = if k' =? k then v else nth k' l d.
Proof.
  induction l as [|h t IH]; intros k v k' d Hk; simpl in Hk; [lia|].
  destruct k as [|k]; destruct k' as [|k']; simpl; auto.
  apply IH. lia.
Qed.

(** ** The matrix of [levenshtein] *)

Definition shape (rows cols : nat) (m : matrix) : Prop :=
  List.length m = rows /\
  forall j, j < rows -> List.length (nth j m []) = cols.

Lemma shape_mset : forall rows cols m j i v,
  shape rows cols m -> shape rows cols (mset m j i v).
Proof.
  intros rows cols m j i v [Hlen Hrow]. unfold mset. split.
  - rewrite update_length. exact Hlen.
  - intros j' Hj'. destruct (Nat.lt_ge_cases j (List.length m)) as [Hj|Hj].
    + rewrite nth_update by exact Hj.
      destruct (j' =? j) eqn:E.
      * rewrite update_length. apply Hrow. apply Nat.eqb_eq in E. lia.
      * apply Hrow. exact Hj'.
    + assert (Hsame : update m j (update (nth j m []) i v) = m).
      { clear - Hj. revert j Hj. induction m as [|h t IH]; intros j Hj; simpl.
        - destruct j; reflexivity.
        - destruct j as [|j]; simpl in Hj; [lia|]. f_equal. apply IH. lia. }
      rewrite Hsame. apply Hrow. exact Hj'.
Qed.

Lemma mget_mset : forall rows cols m j i v j' i',
  shape rows cols m -> j < rows -> i < cols ->
  mget (mset m j i v) j' i' =
  if (j' =? j) && (i' =? i) then v else mget m j' i'.
Proof.
  intros rows cols m j i v j' i' [Hlen Hrow] Hj Hi. unfold mget, mset.
  rewrite nth_update by lia.
  destruct (j' =? j) eqn:Ej; simpl.
  - apply Nat.eqb_eq in Ej. subst j'.
    rewrite nth_update by (rewrite Hrow; lia). reflexivity.
  - reflexivity.
Qed.

Lemma shape_zero : forall rows cols,
  shape rows cols (repeat (repeat 0 cols) rows).
Proof.
  intros rows cols. split.
  - apply repeat_length.
  - intros j Hj. rewrite nth_repeat_lt by exact Hj. apply repeat_length.
Qed.

(** ** [levenshtein] computes the edit distance *)

Lemma length_list_ascii : forall s,
  List.length (list_ascii_of_string s) = String.length s.
Proof. induction s; simpl; auto. Qed.

Lemma charAt_nth_error : forall s i,
  charAt s i = nth_error (list_ascii_of_string s) i.
Proof.
  unfold charAt. induction s as [|c s IH]; intros [|i]; simpl; auto.
Qed.

Lemma firstn_succ_snoc : forall (X : Type) (l : list X) i x,
  nth_error l i = Some x -> firstn (S i) l = firstn i l ++ [x].
Proof.
  induction l as [|h t IH]; intros [|i] x Hx; simpl in *; try discriminate.
  - congruence.
  - f_equal. apply IH. exact Hx.
Qed.

Section LevenshteinMatrix.

Variables a b : string.

Let la := list_ascii_of_string a.
Let lb := list_ascii_of_string b.
Let rows := String.length b + 1.
Let cols := String.length a + 1.

(** The distance of the prefixes of length [i] and [j]. *)
Definition prefixDistance (i j : nat) : nat :=
  lev Ascii.eqb (rev (firstn i la)) (rev (firstn j lb)).

Lemma prefixDistance_0_r : forall i, i < cols -> prefixDistance i 0 = i.
Proof.
  intros i Hi. unfold prefixDistance. simpl. rewrite lev_nil_r.
  rewrite length_rev, length_firstn. unfold la.
  rewrite length_list_ascii. unfold cols in Hi. lia.
Qed.

Lemma prefixDistance_0_l : forall j, j < rows -> prefixDistance 0 j = j.
Proof.
  intros j Hj. unfold prefixDistance. simpl.
  rewrite length_rev, length_firstn. unfold lb.
  rewrite length_list_ascii. unfold rows in Hj. lia.
Qed.

Lemma prefixDistance_step : forall i j,
  1 <= i -> i < cols -> 1 <= j -> j < rows ->
  prefixDistance i j =
  Nat.min (Nat.min (prefixDistance i (j - 1) + 1) (prefixDistance (i - 1) j + 1))
          (prefixDistance (i - 1) (j - 1)
           + (if unit_eqb (charAt a (i - 1)) (charAt b (j - 1)) then 0 else 1)).
Proof.
  intros i j Hi1 Hi Hj1 Hj.
  destruct i as [|i]; [lia|]. destruct j as [|j]; [lia|].
  replace (S i - 1) with i by lia. replace (S j - 1) with j by lia.
  unfold cols in Hi. unfold rows in Hj.
  destruct (nth_error la i) as [x|] eqn:Ex.
  2:{ apply nth_error_None in Ex. unfold la in Ex.
      rewrite length_list_ascii in Ex. lia. }
  destruct (nth_error lb j) as [y|] eqn:Ey.
  2:{ apply nth_error_None in Ey. unfold lb in Ey.
      rewrite length_list_ascii in Ey. lia. }
  rewrite !charAt_nth_error. fold la lb. rewrite Ex, Ey.
  unfold prefixDistance.
  rewrite (firstn_succ_snoc _ la i x Ex), (firstn_succ_snoc _ lb j y Ey).
  rewrite !rev_app_distr. cbn [rev app].
  rewrite lev_cons. unfold min3, subst_cost, unit_eqb. lia.
Qed.

(** The cells the loops have filled when they reach row [j], column [i]. *)
Definition filled (j i j' i' : nat) : Prop :=
  j' = 0 \/ i' = 0 \/ j' < j \/ (j' = j /\ i' < i).

Definition matrixInv (j i : nat) (m : matrix) : Prop :=
  shape rows cols m /\
  forall j' i', j' < rows -> i' < cols -> filled j i j' i' ->
    mget m j' i' = prefixDistance i' j'.

Definition initRow (m : matrix) : matrix :=
  fold_left (fun m i => mset m 0 i i) (seq 0 cols) m.

Definition initColumn (m : matrix) : matrix :=
  fold_left (fun m j => mset m j 0 j) (seq 0 rows) m.

Lemma initRow_spec : forall m,
  shape rows cols m ->
  shape rows cols (initRow m) /\
  forall i, i < cols -> mget (initRow m) 0 i = i.
Proof.
  intros m Hm. unfold initRow.
  pose (P := fun (k : nat) (m : matrix) =>
    shape rows cols m /\ forall i, i < k -> mget m 0 i = i).
  assert (HP : P (0 + cols) (fold_left (fun m i => mset m 0 i i) (seq 0 cols) m)).
  { apply fold_left_seq_inv.
    - split; [exact Hm | intros; lia].
    - intros k s Hk [Hs Hc]. split.
      + apply shape_mset, Hs.
      + intros i Hi. rewrite (@mget_mset rows cols) with (1 := Hs) by (unfold rows; lia).
        simpl. destruct (i =? k) eqn:E.
        * apply Nat.eqb_eq in E. congruence.
        * apply Hc. apply Nat.eqb_neq in E. lia. }
  exact HP.
Qed.

Lemma initColumn_spec : forall m,
  shape rows cols m ->
  (forall i, i < cols -> mget m 0 i = i) ->
  shape rows cols (initColumn m) /\
  (forall i, i < cols -> mget (initColumn m) 0 i = i) /\
  (forall j, j < rows -> mget (initColumn m) j 0 = j).
Proof.
  intros m Hm Hrow. unfold initColumn.
  pose (P := fun (k : nat) (m : matrix) =>
    shape rows cols m /\ (forall i, i < cols -> mget m 0 i = i) /\
    forall j, j < k -> mget m j 0 = j).
  assert (HP : P (0 + rows) (fold_left (fun m j => mset m j 0 j) (seq 0 rows) m)).
  { apply fold_left_seq_inv.
    - split; [exact Hm | split; [exact Hrow | intros; lia]].
    - intros k s Hk [Hs [Hr Hc]]. split; [apply shape_mset, Hs | split].
      + intros i Hi. rewrite (@mget_mset rows cols) with (1 := Hs) by (unfold cols; lia).
        destruct (0 =? k) eqn:E0; simpl.
        * destruct (i =? 0) eqn:E.
          -- apply Nat.eqb_eq in E, E0. lia.
          -- apply Hr, Hi.
        * apply Hr, Hi.
      + intros j Hj. rewrite (@mget_mset rows cols) with (1 := Hs) by (unfold cols; lia).
        destruct (j =? k) eqn:E; simpl.
        * apply Nat.eqb_eq in E. congruence.
        * apply Hc. apply Nat.eqb_neq in E. lia. }
  exact HP.
Qed.

Definition fillCell (j : nat) (m : matrix) (i : nat) : matrix :=
  let cost := if unit_eqb (charAt a (i - 1)) (charAt b (j - 1)) then 0 else 1 in
  mset m j i
    (Nat.min (Nat.min (mget m (j - 1) i + 1) (mget m j (i - 1) + 1))
             (mget m (j - 1) (i - 1) + cost)).

Lemma fillCell_inv : forall j i m,
  1 <= j -> j < rows -> 1 <= i -> i < cols ->
  matrixInv j i m -> matrixInv j (1 + i) (fillCell j m i).
Proof.
  intros j i m Hj1 Hj Hi1 Hi [Hs Hc]. unfold fillCell. split.
  - apply shape_mset, Hs.
  - intros j' i' Hj' Hi' Hf.
    rewrite (@mget_mset rows cols) with (1 := Hs) by assumption.
    destruct ((j' =? j) && (i' =? i)) eqn:E.
    + apply andb_true_iff in E. destruct E as [Ej Ei].
      apply Nat.eqb_eq in Ej, Ei. subst j' i'.
      rewrite prefixDistance_step by assumption.
      rewrite !Hc; try lia; unfold filled; lia.
    + apply Hc; try assumption.
      apply andb_false_iff in E. unfold filled in *.
      destruct E as [E|E]; apply Nat.eqb_neq in E; lia.
Qed.

Definition fillRow (m : matrix) (j : nat) : matrix :=
  fold_left (fillCell j) (seq 1 (String.length a)) m.

Lemma fillRow_inv : forall j m,
  1 <= j -> j < rows ->
  matrixInv j 1 m -> matrixInv (1 + j) 1 (fillRow m j).
Proof.
  intros j m Hj1 Hj Hm. unfold fillRow.
  assert (HP : matrixInv j (1 + String.length a)
                 (fold_left (fillCell j) (seq 1 (String.length a)) m)).
  { apply (fold_left_seq_inv _ (fun i m => matrixInv j i m)).
    - exact Hm.
    - intros k s Hk Hs. apply fillCell_inv; try assumption; unfold cols; lia. }
  destruct HP as [Hs Hc]. split; [exact Hs|].
  intros j' i' Hj' Hi' Hf. apply Hc; try assumption.
  unfold filled in *. unfold cols in Hi'. lia.
Qed.

Lemma levenshtein_unfold :
  levenshtein a b =
  mget (fold_left fillRow (seq 1 (String.length b))
          (initColumn (initRow (repeat (repeat 0 cols) rows))))
       (String.length b) (String.length a).
Proof. reflexivity. Qed.

Lemma levenshtein_prefixDistance :
  levenshtein a b = prefixDistance (String.length a) (String.length b).
Proof.
  rewrite levenshtein_unfold.
  destruct (initRow_spec _ (shape_zero rows cols)) as [Hs1 Hr1].
  destruct (initColumn_spec _ Hs1 Hr1) as [Hs2 [Hr2 Hc2]].
  assert (HP : matrixInv (1 + String.length b) 1
                 (fold_left fillRow (seq 1 (String.length b))
                    (initColumn (initRow (repeat (repeat 0 cols) rows))))).
  { apply (fold_left_seq_inv _ (fun j m => matrixInv j 1 m)).
    - split; [exact Hs2|].
      intros j' i' Hj' Hi' Hf. unfold filled in Hf.
      assert (Hz : j' = 0 \/ i' = 0) by lia.
      destruct Hz as [Hz|Hz]; subst.
      + rewrite Hr2 by assumption. symmetry. apply prefixDistance_0_r.
        assumption.
      + rewrite Hc2 by assumption. symmetry. apply prefixDistance_0_l.
        assumption.
    - intros k s Hk Hs. apply fillRow_inv; try assumption; unfold rows; lia. }
  destruct HP as [_ Hc]. apply Hc; unfold rows, cols, filled; lia.
Qed.

End LevenshteinMatrix.

Theorem levenshtein_lev : forall a b,
  levenshtein a b =
  lev Ascii.eqb (list_ascii_of_string a) (list_ascii_of_string b).
Proof.
  intros a b. rewrite levenshtein_prefixDistance. unfold prefixDistance.
  rewrite <- !length_list_ascii, !firstn_all.
  apply lev_rev. apply Ascii.eqb_eq.
Qed.

(** ** Numbers *)

Lemma Qltb_lt : forall a b, Qltb a b = true <-> (a < b)%Q.
Proof.
  intros a b. unfold Qltb. rewrite negb_true_iff.
  split.
  - intro E. apply Qnot_le_lt. intro L. apply Qle_bool_iff in L. congruence.
  - intro L. destruct (Qle_bool b a) eqn:E; [|reflexivity].
    apply Qle_bool_iff in E. exfalso. apply (Qlt_not_le _ _ L E).
Qed.

Lemma Qltb_ge : forall a b, Qltb a b = false <-> (b <= a)%Q.
Proof.
  intros a b. unfold Qltb. rewrite negb_false_iff. apply Qle_bool_iff.
Qed.

Lemma Qnat_nonneg : forall n, (0 <= Qnat n)%Q.
Proof.
  intro n. unfold Qnat, Qle. simpl. lia.
Qed.

Lemma Qnat_pos : forall n, 0 < n -> (0 < Qnat n)%Q.
Proof.
  intros n Hn. unfold Qnat, Qlt. simpl. lia.
Qed.

Lemma Qnat_le : forall n m, n <= m -> (Qnat n <= Qnat m)%Q.
Proof.
  intros n m Hnm. unfold Qnat, Qle. simpl. lia.
Qed.

Lemma Qnat_ratio_bounds : forall n m,
  n <= m -> 0 < m -> (0 <= Qnat n / Qnat m <= 1)%Q.
Proof.
  intros n m Hnm Hm. split.
  - apply Qle_shift_div_l; [apply Qnat_pos, Hm|].
    rewrite Qmult_0_l. apply Qnat_nonneg.
  - apply Qle_shift_div_r; [apply Qnat_pos, Hm|].
    rewrite Qmult_1_l. apply Qnat_le, Hnm.
Qed.

(** ** Name similarity *)

Lemma nameSimilarity_bounds : forall s1 s2,
  (0 <= nameSimilarity s1 s2 <= 1)%Q.
Proof.
  intros s1 s2. unfold nameSimilarity.
  destruct (Nat.max (String.length s1) (String.length s2) =? 0) eqn:E.
  - split; discriminate.
  - apply Nat.eqb_neq in E.
    assert (Hd : levenshtein s1 s2
                 <= Nat.max (String.length s1) (String.length s2)).
    { rewrite levenshtein_lev, <- !length_list_ascii. apply lev_le_max. }
    destruct (Qnat_ratio_bounds _ _ Hd) as [L U]; [lia|].
    split; lra.
Qed.

(** C6.  [nameSimilarity s1 s2] is 1 minus the Levenshtein distance of the
    two strings (the cost of a cheapest script of single-character
    insertions, deletions and substitutions, each of cost 1) divided by the
    longer length; it lies in [0, 1]; and it is 1 when both strings are
    empty (the longer length is then 0). *)
Theorem nameSimilarity_levenshtein : forall s1 s2 : string,
  exists d : nat,
    is_edit_distance (list_ascii_of_string s1) (list_ascii_of_string s2) d /\
    (Nat.max (String.length s1) (String.length s2) <> 0 ->
     nameSimilarity s1 s2 =
     (1 - Qnat d / Qnat (Nat.max (String.length s1) (String.length s2)))%Q) /\
    (Nat.max (String.length s1) (String.length s2) = 0 ->
     nameSimilarity s1 s2 = 1%Q) /\
    (0 <= nameSimilarity s1 s2 <= 1)%Q /\
    nameSimilarity "" "" = 1%Q.
Proof.
  intros s1 s2. exists (levenshtein s1 s2). repeat split.
  - rewrite levenshtein_lev. apply lev_upper. apply Ascii.eqb_eq.
  - rewrite levenshtein_lev. apply lev_lower. apply Ascii.eqb_eq.
  - intro Hm. unfold nameSimilarity.
    apply Nat.eqb_neq in Hm. rewrite Hm. reflexivity.
  - intro Hm. unfold nameSimilarity. rewrite Hm. reflexivity.
  - apply nameSimilarity_bounds.
  - apply nameSimilarity_bounds.
Qed.

(** ** Sets of values *)

Lemma value_eqb_refl : forall v, value_eqb v v = true.
Proof.
  destruct v; simpl; auto.
  - apply Bool.eqb_reflx.
  - apply Qeq_bool_iff. reflexivity.
  - apply String.eqb_refl.
Qed.

Lemma value_eqb_sym : forall v w, value_eqb v w = value_eqb w v.
Proof.
  destruct v, w; simpl; auto.
  - destruct b, b0; reflexivity.
  - destruct (Qeq_bool q q0) eqn:E1, (Qeq_bool q0 q) eqn:E2; auto.
    + apply Qeq_bool_iff in E1. symmetry in E1. apply Qeq_bool_iff in E1. congruence.
    + apply Qeq_bool_iff in E2. symmetry in E2. apply Qeq_bool_iff in E2. congruence.
  - apply String.eqb_sym.
Qed.

Lemma value_eqb_trans : forall u v w,
  value_eqb u v = true -> value_eqb v w = true -> value_eqb u w = true.
Proof.
  destruct u, v, w; simpl; try discriminate; auto.
  - intros E1 E2. apply Bool.eqb_prop in E1, E2. subst. apply Bool.eqb_reflx.
  - intros E1 E2. apply Qeq_bool_iff in E1, E2. apply Qeq_bool_iff.
    rewrite E1. exact E2.
  - intros E1 E2. apply String.eqb_eq in E1, E2. subst. apply String.eqb_refl.
Qed.

Section SetFacts.
Variable K : Type.
Variable eqb : K -> K -> bool.

(** No two members are equal as keys. *)
Inductive distinct : list K -> Prop :=
| distinct_nil : distinct []
| distinct_cons : forall k s,
    set_has eqb k s = false -> distinct s -> distinct (k :: s).

Hypothesis eqb_refl : forall k, eqb k k = true.
Hypothesis eqb_sym : forall k k', eqb k k' = eqb k' k.
Hypothesis eqb_trans : forall a b c,
  eqb a b = true -> eqb b c = true -> eqb a c = true.

Lemma set_has_app : forall k s t,
  set_has eqb k (s ++ t) = set_has eqb k s || set_has eqb k t.
Proof. intros. unfold set_has. apply existsb_app. Qed.

Lemma set_has_eqb : forall k k' s,
  eqb k k' = true -> set_has eqb k s = set_has eqb k' s.
Proof.
  intros k k' s E. unfold set_has. induction s as [|x s IH]; simpl; auto.
  rewrite IH. f_equal.
  destruct (eqb k x) eqn:E1, (eqb k' x) eqn:E2; auto.
  - rewrite eqb_sym in E. rewrite (eqb_trans _ _ _ E E1) in E2. discriminate.
  - rewrite (eqb_trans _ _ _ E E2) in E1. discriminate.
Qed.

Lemma distinct_snoc : forall s k,
  distinct s -> set_has eqb k s = false -> distinct (s ++ [k]).
Proof.
  induction 1 as [|x s Hx Hs IH]; intro Hk; simpl.
  - constructor; [reflexivity | constructor].
  - simpl in Hk. apply orb_false_iff in Hk. destruct Hk as [Hkx Hks].
    constructor.
    + rewrite set_has_app, Hx. simpl. rewrite eqb_sym, Hkx. reflexivity.
    + apply IH, Hks.
Qed.

Lemma set_add_distinct : forall s k, distinct s -> distinct (set_add eqb k s).
Proof.
  intros s k Hs. unfold set_add. destruct (set_has eqb k s) eqn:E; auto.
  apply distinct_snoc; assumption.
Qed.

Lemma set_of_list_distinct_from : forall l s,
  distinct s -> distinct (fold_left (fun s k => set_add eqb k s) l s).
Proof.
  induction l as [|k l IH]; intros s Hs; simpl; auto.
  apply IH, set_add_distinct, Hs.
Qed.

Lemma set_of_list_distinct : forall l, distinct (set_of_list eqb l).
Proof. intro l. apply set_of_list_distinct_from. constructor. Qed.

Lemma set_has_add : forall k k' s,
  set_has eqb k (set_add eqb k' s) = eqb k k' || set_has eqb k s.
Proof.
  intros k k' s. unfold set_add. destruct (set_has eqb k' s) eqn:E.
  - destruct (eqb k k') eqn:E'; auto. simpl.
    rewrite (set_has_eqb _ _ s E'). exact E.
  - rewrite set_has_app. simpl. rewrite orb_false_r. apply orb_comm.
Qed.

Lemma set_has_of_list_from : forall k l s,
  set_has eqb k (fold_left (fun s k => set_add eqb k s) l s)
  = set_has eqb k s || set_has eqb k l.
Proof.
  intros k l. induction l as [|x l IH]; intro s; simpl.
  - rewrite orb_false_r. reflexivity.
  - rewrite IH, set_has_add. destruct (set_has eqb k s), (eqb k x); auto.
Qed.

Lemma set_has_of_list : forall k l,
  set_has eqb k (set_of_list eqb l) = set_has eqb k l.
Proof. intros. unfold set_of_list. apply set_has_of_list_from. Qed.

Lemma set_add_length_le : forall k s,
  List.length s <= List.length (set_add eqb k s) <= S (List.length s).
Proof.
  intros k s. unfold set_add. destruct (set_has eqb k s).
  - lia.
  - rewrite length_app. simpl. lia.
Qed.

Lemma set_of_list_length_from : forall l s,
  List.length (fold_left (fun s k => set_add eqb k s) l s)
  <= List.length s + List.length l.
Proof.
  induction l as [|k l IH]; intro s; simpl; [lia|].
  specialize (IH (set_add eqb k s)).
  pose proof (set_add_length_le k s). lia.
Qed.

Lemma set_of_list_length : forall l,
  List.length (set_of_list eqb l) <= List.length l.
Proof. intro l. apply (set_of_list_length_from l []). Qed.

(** Distinct keys that all occur in [t] are no more than the members of [t]. *)
Lemma distinct_length_le : forall s,
  distinct s -> forall t,
  (forall k, In k s -> set_has eqb k t = true) ->
  List.length s <= List.length t.
Proof.
  induction 1 as [|k s Hk Hs IH]; intros t Hin; simpl; [lia|].
  assert (Hkt : set_has eqb k t = true) by (apply Hin; left; reflexivity).
  unfold set_has in Hkt. apply existsb_exists in Hkt.
  destruct Hkt as [y [Hy Eky]].
  apply in_split in Hy. destruct Hy as [t1 [t2 Ht]]. subst t.
  rewrite length_app. simpl.
  specialize (IH (t1 ++ t2)). rewrite length_app in IH.
  enough (List.length s <= List.length t1 + List.length t2) by lia.
  apply IH. intros k' Hk'.
  assert (Hk't : set_has eqb k' (t1 ++ y :: t2) = true)
    by (apply Hin; right; exact Hk').
  rewrite set_has_app in Hk't |- *. simpl in Hk't.
  destruct (eqb k' y) eqn:Ek'y.
  - exfalso. assert (E : eqb k k' = true).
    { apply (eqb_trans _ _ _ Eky). rewrite eqb_sym. exact Ek'y. }
    assert (Hc : set_has eqb k s = true).
    { unfold set_has. apply existsb_exists. exists k'. split; assumption. }
    congruence.
  - simpl in Hk't. exact Hk't.
Qed.

End SetFacts.

Lemma In_set_of_list_from : forall (K : Type) (eqb : K -> K -> bool) l s k,
  In k (fold_left (fun s k => set_add eqb k s) l s) -> In k s \/ In k l.
Proof.
  induction l as [|x l IH]; intros s k Hk; simpl in *; auto.
  apply IH in Hk. destruct Hk as [Hk|Hk]; auto.
  unfold set_add in Hk. destruct (set_has eqb x s); auto.
  apply in_app_or in Hk. simpl in Hk. tauto.
Qed.

Lemma In_set_of_list : forall (K : Type) (eqb : K -> K -> bool) l k,
  In k (set_of_list eqb l) -> In k l.
Proof.
  intros K eqb l k Hk. apply In_set_of_list_from in Hk.
  destruct Hk as [[]|Hk]; exact Hk.
Qed.

(** ** Content similarity *)

Lemma jaccardSimilarity_bounds : forall set1 set2,
  (0 <= jaccardSimilarity set1 set2 <= 1)%Q.
Proof.
  intros set1 set2. unfold jaccardSimilarity.
  destruct ((List.length set1 =? 0) || (List.length set2 =? 0)) eqn:E0.
  { split; discriminate. }
  apply orb_false_iff in E0. destruct E0 as [E1 E2].
  apply Nat.eqb_neq in E1, E2.
  set (common := set_of_list value_eqb
                   (filter (fun x => set_has value_eqb x set2) set1)).
  assert (H1 : List.length common <= List.length set1).
  { unfold common. etransitivity; [apply set_of_list_length|].
    apply filter_length_le. }
  assert (H2 : List.length common <= List.length set2).
  { apply (distinct_length_le _ value_eqb value_eqb_sym value_eqb_trans).
    - apply set_of_list_distinct, value_eqb_sym.
    - intros k Hk. unfold common in Hk. apply In_set_of_list in Hk.
      apply filter_In in Hk. apply Hk. }
  destruct (List.length set1 + List.length set2 - List.length common =? 0) eqn:E.
  { split; discriminate. }
  apply Nat.eqb_neq in E.
  apply Qnat_ratio_bounds; lia.
Qed.

(** ** The confidence scorer *)

Lemma Qmax_bounds : forall a b lo hi : Q,
  (lo <= a <= hi)%Q -> (lo <= b <= hi)%Q -> (lo <= Qmax a b <= hi)%Q.
Proof.
  intros a b lo hi Ha Hb.
  destruct (Q.max_spec a b) as [[_ E]|[_ E]]; rewrite E; assumption.
Qed.

Lemma Qmin_1_bounds : forall x : Q, (0 <= x)%Q -> (0 <= Qmin 1 x <= 1)%Q.
Proof.
  intros x Hx.
  destruct (Q.min_spec 1 x) as [[L E]|[L E]]; rewrite E; split; lra.
Qed.

Lemma closeness_bounds : forall x : Q, (0 <= 1 - Qmin 1 (Qabs x) <= 1)%Q.
Proof.
  intro x. pose proof (Qmin_1_bounds _ (Qabs_nonneg x)). lra.
Qed.

Lemma scale_bounds : forall x : Q, (0 <= 1 - Qmin 1 (Qabs x / 5) <= 1)%Q.
Proof.
  intro x.
  assert (H : (0 <= Qabs x / 5)%Q).
  { pose proof (Qabs_nonneg x). apply Qle_shift_div_l; lra. }
  pose proof (Qmin_1_bounds _ H). lra.
Qed.

Lemma combinedNameSimilarity_bounds : forall prof1 prof2,
  (0 <= combinedNameSimilarity prof1 prof2 <= 1)%Q.
Proof.
  intros. apply Qmax_bounds; apply nameSimilarity_bounds.
Qed.

Lemma calculateConfidence_bounds : forall prof1 prof2,
  (0 <= calculateConfidence prof1 prof2 <= 1)%Q.
Proof.
  intros prof1 prof2. unfold calculateConfidence.
  pose proof (combinedNameSimilarity_bounds prof1 prof2) as Hn.
  unfold combinedNameSimilarity in Hn.
  pose proof (jaccardSimilarity_bounds (valueSet prof1) (valueSet prof2)) as Hc.
  destruct (negb _); [split; discriminate|].
  destruct (DataType_eqb _ TBoolean); [lra|].
  destruct (_ && _); [lra|].
  destruct (numericStats prof1) as [stats1|], (numericStats prof2) as [stats2|];
    try (destruct (_ && _); lra).
  match goal with
  | |- context [Qltb (1 - Qmin 1 (Qabs ?x / 5))%Q _] =>
      pose proof (scale_bounds x) as Hs
  end.
  destruct (Qltb _ _); [lra|].
  match goal with
  | |- context [(1 - Qmin 1 (Qabs ?x))%Q] =>
      pose proof (closeness_bounds x) as Hv
  end.
  lra.
Qed.

(** The type gate (lines 100-103): profiles of columns with differing
    DataTypes score 0, whatever their names and values. *)
Lemma calculateConfidence_type_mismatch : forall prof1 prof2,
  dataType (source prof1) <> dataType (source prof2) ->
  calculateConfidence prof1 prof2 = 0%Q.
Proof.
  intros prof1 prof2 Hne. unfold calculateConfidence.
  destruct (DataType_eqb (dataType (source prof1)) (dataType (source prof2)))
    eqn:E; [|reflexivity].
  exfalso. apply Hne.
  destruct (dataType (source prof1)), (dataType (source prof2));
    simpl in E; congruence.
Qed.

Lemma DataType_eqb_eq : forall a b, DataType_eqb a b = true <-> a = b.
Proof. destruct a, b; simpl; split; congruence. Qed.

Lemma calculateConfidence_positive_same_type : forall prof1 prof2,
  (0 < calculateConfidence prof1 prof2)%Q ->
  dataType (source prof1) = dataType (source prof2).
Proof.
  intros prof1 prof2 Hpos.
  destruct (DataType_eqb (dataType (source prof1)) (dataType (source prof2)))
    eqn:E.
  - apply DataType_eqb_eq, E.
  - unfold calculateConfidence in Hpos. rewrite E in Hpos. simpl in Hpos.
    exfalso. apply (Qlt_irrefl 0), Hpos.
Qed.

Lemma calculateConfidence_numeric : forall prof1 prof2 stats1 stats2,
  dataType (source prof1) = TNumber ->
  dataType (source prof2) = TNumber ->
  numericStats prof1 = Some stats1 ->
  numericStats prof2 = Some stats2 ->
  ~ (0.9 < uniquenessRatio prof1 /\ 0.9 < uniquenessRatio prof2)%Q ->
  calculateConfidence prof1 prof2 =
  if Qltb (scaleSimilarityOf stats1 stats2) 0.5
  then (combinedNameSimilarity prof1 prof2 * 0.2)%Q
  else (combinedNameSimilarity prof1 prof2 * 0.5
        + shapeSimilarityOf stats1 stats2 * 0.3
        + scaleSimilarityOf stats1 stats2 * 0.2)%Q.
Proof.
  intros prof1 prof2 stats1 stats2 T1 T2 S1 S2 Hu.
  unfold calculateConfidence. rewrite T1, T2, S1, S2. simpl.
  destruct (Qltb 0.9 (uniquenessRatio prof1)
            && Qltb 0.9 (uniquenessRatio prof2)) eqn:E.
  { exfalso. apply Hu. apply andb_true_iff in E.
    split; apply Qltb_lt; apply E. }
  unfold scaleSimilarityOf, shapeSimilarityOf, coefficientOfVariation,
    combinedNameSimilarity.
  destruct (Qeq_bool (mean stats1) 0), (Qeq_bool (mean stats2) 0); reflexivity.
Qed.

(** ** Sets of strings *)

Lemma str_has_In : forall k s, str_has k s = true <-> In k s.
Proof.
  intros k s. unfold str_has, set_has. rewrite existsb_exists. split.
  - intros [x [Hx E]]. apply String.eqb_eq in E. subst. exact Hx.
  - intro Hk. exists k. split; [exact Hk | apply String.eqb_refl].
Qed.

Lemma str_has_false : forall k s, str_has k s = false <-> ~ In k s.
Proof.
  intros k s. rewrite <- str_has_In. destruct (str_has k s); split; congruence.
Qed.

Lemma str_add_In : forall k k' s, In k (str_add k' s) <-> k = k' \/ In k s.
Proof.
  intros k k' s. unfold str_add, set_add. fold (str_has k' s).
  destruct (str_has k' s) eqn:E.
  - apply str_has_In in E. split; [auto | intros [->|]; assumption].
  - rewrite in_app_iff. simpl. split; intros [?|?]; auto.
    + destruct H as [->|[]]. auto.
Qed.

Lemma str_has_add : forall k k' s,
  str_has k (str_add k' s) = String.eqb k k' || str_has k s.
Proof.
  intros k k' s. apply eq_true_iff_eq.
  rewrite orb_true_iff, !str_has_In, str_add_In, String.eqb_eq. reflexivity.
Qed.

Lemma str_add_NoDup : forall k s, NoDup s -> NoDup (str_add k s).
Proof.
  intros k s Hs. unfold str_add, set_add. fold (str_has k s).
  destruct (str_has k s) eqn:E; [exact Hs|].
  apply str_has_false in E.
  apply NoDup_app; [exact Hs | constructor; [intros [] | constructor] |].
  intros x Hx [<-|[]]. contradiction.
Qed.

Lemma string_eqb_trans : forall a b c : string,
  String.eqb a b = true -> String.eqb b c = true -> String.eqb a c = true.
Proof.
  intros a b c E1 E2. apply String.eqb_eq in E1, E2. subst.
  apply String.eqb_refl.
Qed.

(** ** The [while] loop of the clustering terminates within its fuel *)

Section BfsFuel.

Variable pairKeys : list string.

(** The keys the pair keys split into. *)
Definition endpoints : list string :=
  flat_map (fun k => [fst (splitPair k); snd (splitPair k)]) pairKeys.

(** How many of them the walk has not visited yet. *)
Definition unvisited (visited : list string) : nat :=
  List.length (filter (fun n => negb (str_has n visited))
                      (nodup string_dec endpoints)).

Lemma endpoints_length : List.length endpoints = 2 * List.length pairKeys.
Proof.
  unfold endpoints. induction pairKeys as [|k ks IH]; [reflexivity|].
  cbn [flat_map List.length app]. rewrite IH. lia.
Qed.

Lemma unvisited_le : forall visited, unvisited visited <= 2 * List.length pairKeys.
Proof.
  intro visited. unfold unvisited. rewrite <- endpoints_length.
  etransitivity; [apply filter_length_le|].
  apply NoDup_incl_length; [apply NoDup_nodup|].
  intros x Hx. apply nodup_In in Hx. exact Hx.
Qed.

Lemma endpoints_In : forall k p1 p2,
  In k pairKeys -> splitPair k = (p1, p2) -> In p1 endpoints /\ In p2 endpoints.
Proof.
  intros k p1 p2 Hk E. unfold endpoints. split; apply in_flat_map; exists k;
    (split; [exact Hk|]); rewrite E; simpl; auto.
Qed.

Lemma unvisited_filter_add : forall (l : list string) p visited,
  NoDup l -> In p l -> str_has p visited = false ->
  List.length (filter (fun n => negb (str_has n (str_add p visited))) l) + 1
  = List.length (filter (fun n => negb (str_has n visited)) l).
Proof.
  induction l as [|x l IH]; intros p visited Hnd Hp Hv; [destruct Hp|].
  inversion Hnd as [|? ? Hx Hl]; subst. simpl.
  rewrite str_has_add. destruct Hp as [->|Hp].
  - rewrite String.eqb_refl, Hv. simpl.
    rewrite Nat.add_1_r. f_equal. f_equal.
    apply filter_ext_in. intros n Hn. rewrite str_has_add.
    destruct (String.eqb n p) eqn:E; [|reflexivity].
    apply String.eqb_eq in E. subst. contradiction.
  - destruct (String.eqb x p) eqn:E.
    { apply String.eqb_eq in E. subst. contradiction. }
    simpl. destruct (str_has x visited); simpl.
    + apply IH; assumption.
    + rewrite <- (IH p visited Hl Hp Hv). lia.
Qed.

Lemma unvisited_add : forall p visited,
  In p endpoints -> str_has p visited = false ->
  unvisited (str_add p visited) + 1 = unvisited visited.
Proof.
  intros p visited Hp Hv. unfold unvisited.
  apply unvisited_filter_add; [apply NoDup_nodup | | exact Hv].
  apply nodup_In. exact Hp.
Qed.

Definition walkMeasure (st : list string * list string) : nat :=
  List.length (snd st) + unvisited (fst st).

Lemma scanStep_measure : forall currentKey st k,
  In k pairKeys -> walkMeasure (scanStep currentKey st k) <= walkMeasure st.
Proof.
  intros currentKey [visited queue] k Hk. unfold scanStep.
  destruct (splitPair k) as [p1 p2] eqn:E.
  destruct (@endpoints_In k p1 p2 Hk E) as [H1 H2].
  assert (Hpush : forall p v q, In p endpoints -> str_has p v = false ->
            walkMeasure (str_add p v, q ++ [p]) <= walkMeasure (v, q)).
  { intros p v q Hp Hv. unfold walkMeasure. simpl.
    pose proof (@unvisited_add p v Hp Hv). rewrite length_app. simpl. lia. }
  cbn [fst snd].
  destruct (String.eqb p1 currentKey && negb (str_has p2 visited)) eqn:C1;
    cbn [fst snd].
  - apply andb_true_iff in C1. destruct C1 as [_ C1].
    apply negb_true_iff in C1.
    destruct (String.eqb p2 currentKey && negb (str_has p1 (str_add p2 visited)))
      eqn:C2.
    + apply andb_true_iff in C2. destruct C2 as [_ C2].
      apply negb_true_iff in C2.
      etransitivity; [apply Hpush; assumption|]. apply Hpush; assumption.
    + apply Hpush; assumption.
  - destruct (String.eqb p2 currentKey && negb (str_has p1 visited)) eqn:C2.
    + apply andb_true_iff in C2. destruct C2 as [_ C2].
      apply negb_true_iff in C2. apply Hpush; assumption.
    + lia.
Qed.

Lemma scanPairs_measure_from : forall currentKey ks st,
  incl ks pairKeys ->
  walkMeasure (fold_left (scanStep currentKey) ks st) <= walkMeasure st.
Proof.
  intros currentKey ks. induction ks as [|k ks IH]; intros st Hks; simpl.
  - lia.
  - etransitivity; [apply IH; intros x Hx; apply Hks; right; exact Hx|].
    apply scanStep_measure. apply Hks. left. reflexivity.
Qed.

Lemma scanPairs_measure : forall currentKey st,
  walkMeasure (scanPairs pairKeys currentKey st) <= walkMeasure st.
Proof.
  intros. unfold scanPairs. apply scanPairs_measure_from. apply incl_refl.
Qed.

Lemma bfs_returns : forall fuel queue visited currentCluster,
  walkMeasure (visited, queue) <= fuel ->
  exists r, bfs pairKeys fuel queue visited currentCluster = Some r.
Proof.
  induction fuel as [|fuel IH]; intros queue visited cl Hm.
  - destruct queue as [|k rest]; [simpl; eauto|].
    unfold walkMeasure in Hm. simpl in Hm. lia.
  - destruct queue as [|k rest]; [simpl; eauto|]. simpl.
    pose proof (scanPairs_measure k (visited, rest)) as Hs.
    destruct (scanPairs pairKeys k (visited, rest)) as [visited' queue'].
    apply IH. unfold walkMeasure in *. simpl in *. lia.
Qed.

Lemma clusterStep_returns : forall st pairKey,
  st <> None -> clusterStep pairKeys st pairKey <> None.
Proof.
  intros [[visited clusters]|] pairKey Hst; [|congruence]. unfold clusterStep.
  destruct (splitPair pairKey) as [k1 k2].
  destruct (str_has k1 visited || str_has k2 visited); [discriminate|].
  destruct (@bfs_returns (clusterFuel pairKeys) [k1; k2]
              (str_add k2 (str_add k1 visited)) []) as [[v c] E].
  - unfold walkMeasure, clusterFuel. simpl.
    pose proof (unvisited_le (str_add k2 (str_add k1 visited))). lia.
  - rewrite E. discriminate.
Qed.

Lemma fold_clusterStep_returns : forall ks st,
  st <> None -> fold_left (clusterStep pairKeys) ks st <> None.
Proof.
  induction ks as [|k ks IH]; intros st Hst; simpl; [exact Hst|].
  apply IH, clusterStep_returns, Hst.
Qed.

Lemma buildClusters_returns :
  exists clusters, buildClusters pairKeys = Some clusters.
Proof.
  unfold buildClusters.
  destruct (fold_left (clusterStep pairKeys) pairKeys (Some ([], []))) as [[v c]|] eqn:E.
  - simpl. eauto.
  - exfalso. revert E. apply fold_clusterStep_returns. discriminate.
Qed.

End BfsFuel.

(** The model's fuel is never exhausted: [generateMatches] returns or
    throws. *)
Theorem generateMatches_fuel : forall `{JsRuntime} files,
  generateMatches files <> OutOfFuel.
Proof.
  intros rt files. unfold generateMatches.
  destruct (List.length files <? 2); [discriminate|].
  match goal with
  | |- context [buildClusters ?ks] =>
      destruct (buildClusters_returns ks) as [clusters E]; rewrite E
  end.
  destruct (allDefined _); discriminate.
Qed.

(** ** Maps, options and sorting *)

Section MapFacts.
Variable V : Type.

Lemma str_map_set_In : forall k (v : V) m e,
  In e (map_set String.eqb k v m) -> e = (k, v) \/ In e m.
Proof.
  intros k v m e. induction m as [|[k' v'] m IH]; simpl.
  - intros [<-|[]]. auto.
  - destruct (String.eqb k k') eqn:E.
    + apply String.eqb_eq in E. subst k'. intros [<-|He]; auto.
    + intros [<-|He]; auto. destruct (IH He); auto.
Qed.

Lemma str_map_has_In : forall k (m : list (string * V)),
  map_has String.eqb k m = true <-> In k (map_keys m).
Proof.
  intros k m. unfold map_has, map_keys. rewrite existsb_exists, in_map_iff.
  split.
  - intros [e [He E]]. apply String.eqb_eq in E. eauto.
  - intros [e [E He]]. exists e. split; [exact He|].
    subst. apply String.eqb_refl.
Qed.

Lemma str_map_set_fresh : forall k (v : V) m,
  map_has String.eqb k m = false -> map_set String.eqb k v m = m ++ [(k, v)].
Proof.
  intros k v m. induction m as [|[k' v'] m IH]; simpl; [reflexivity|].
  destruct (String.eqb k k'); simpl; [discriminate|].
  intro Hm. rewrite IH by exact Hm. reflexivity.
Qed.

Lemma str_map_get_In : forall k (v : V) m,
  map_get String.eqb k m = Some v -> In (k, v) m.
Proof.
  intros k v m Hg. unfold map_get in Hg.
  destruct (find _ m) as [[k' v']|] eqn:E; [|discriminate].
  apply find_some in E. destruct E as [Hin E]. simpl in *.
  apply String.eqb_eq in E. injection Hg as <-. subst. exact Hin.
Qed.

Lemma str_map_get_unique : forall k (v : V) m,
  NoDup (map_keys m) -> In (k, v) m -> map_get String.eqb k m = Some v.
Proof.
  intros k v m. unfold map_get, map_keys.
  induction m as [|[k' v'] m IH]; intros Hnd Hin; [destruct Hin|].
  simpl in *. inversion Hnd as [|? ? Hk' Hm]; subst.
  destruct Hin as [E|Hin].
  - injection E as -> ->. rewrite String.eqb_refl. reflexivity.
  - destruct (String.eqb k k') eqn:E.
    + apply String.eqb_eq in E. subst k'. exfalso. apply Hk'.
      apply in_map_iff. exists (k, v). auto.
    + apply IH; assumption.
Qed.

End MapFacts.

Lemma allDefined_In : forall (X : Type) (l : list (option X)) xs x,
  allDefined l = Some xs -> In x xs -> In (Some x) l.
Proof.
  induction l as [|[y|] l IH]; intros xs x Hl Hx; simpl in Hl.
  - injection Hl as <-. destruct Hx.
  - destruct (allDefined l) as [ys|] eqn:E; [|discriminate].
    injection Hl as <-. destruct Hx as [->|Hx]; [left; reflexivity|].
    right. apply (IH ys); [reflexivity | exact Hx].
  - discriminate.
Qed.

Lemma allDefined_map : forall (X : Type) (l : list (option X)) xs,
  allDefined l = Some xs -> l = List.map Some xs.
Proof.
  induction l as [|[y|] l IH]; intros xs Hl; simpl in Hl.
  - injection Hl as <-. reflexivity.
  - destruct (allDefined l) as [ys|] eqn:E; [|discriminate].
    injection Hl as <-. simpl. f_equal. apply IH. reflexivity.
  - discriminate.
Qed.

Lemma insertMatch_In : forall m x l, In x (insertMatch m l) <-> x = m \/ In x l.
Proof.
  intros m x l. induction l as [|h t IH]; simpl.
  - intuition.
  - destruct (Qltb _ _); simpl; rewrite ?IH; intuition.
Qed.

Lemma sortMatches_In : forall x l, In x (sortMatches l) <-> In x l.
Proof.
  intros x l. unfold sortMatches. induction l as [|h t IH]; simpl.
  - reflexivity.
  - rewrite insertMatch_In, IH. intuition.
Qed.

Lemma indexed_In : forall (X : Type) (l : list X) i x,
  In (i, x) (indexed l) -> In x l.
Proof. intros X l i x Hin. unfold indexed in Hin. eapply in_combine_r, Hin. Qed.

Lemma fold_left_inv : forall (S B : Type) (P : S -> Prop) (f : S -> B -> S) l s,
  P s -> (forall s b, In b l -> P s -> P (f s b)) -> P (fold_left f l s).
Proof.
  intros S B P f l. induction l as [|b l IH]; intros s Hs Hstep; simpl.
  - exact Hs.
  - apply IH.
    + apply Hstep; [left; reflexivity | exact Hs].
    + intros s' b' Hb'. apply Hstep. right. exact Hb'.
Qed.

(** ** Means *)

Lemma sumOf_from : forall l a, (fold_left Qplus l a == a + sumOf l)%Q.
Proof.
  unfold sumOf. induction l as [|x l IH]; intro a; simpl.
  - ring.
  - rewrite IH, (IH (0 + x)%Q). ring.
Qed.

Lemma sumOf_cons : forall x l, (sumOf (x :: l) == x + sumOf l)%Q.
Proof.
  intros x l. unfold sumOf at 1. simpl. rewrite sumOf_from. ring.
Qed.

Lemma Qnat_S : forall n, (Qnat (S n) == Qnat n + 1)%Q.
Proof.
  intro n. unfold Qnat. rewrite Nat2Z.inj_succ, <- Z.add_1_r.
  rewrite inject_Z_plus. reflexivity.
Qed.

Lemma sumOf_bounds : forall (lo hi : Q) l,
  Forall (fun s => lo < s <= hi)%Q l -> l <> [] ->
  (lo * Qnat (List.length l) < sumOf l <= hi * Qnat (List.length l))%Q.
Proof.
  intros lo hi l Hl. induction Hl as [|x l Hx Hl IH]; intro Hne; [congruence|].
  rewrite sumOf_cons. simpl List.length. rewrite Qnat_S.
  destruct l as [|y l'].
  - change (sumOf []) with 0%Q. change (Qnat (List.length (@nil Q))) with 0%Q.
    split; lra.
  - assert (Hne' : y :: l' <> []) by discriminate.
    specialize (IH Hne'). split; lra.
Qed.

Lemma mean_bounds : forall (lo hi : Q) l,
  Forall (fun s => lo < s <= hi)%Q l -> l <> [] ->
  (lo < sumOf l / Qnat (List.length l) <= hi)%Q.
Proof.
  intros lo hi l Hl Hne. destruct (sumOf_bounds lo hi l Hl Hne) as [L U].
  assert (Hpos : (0 < Qnat (List.length l))%Q).
  { apply Qnat_pos. destruct l; [congruence | simpl; lia]. }
  split.
  - apply Qlt_shift_div_l; assumption.
  - apply Qle_shift_div_r; assumption.
Qed.

(** ** The walk keeps what it was given *)

Lemma scanStep_queue : forall currentKey st k,
  exists extra, snd (scanStep currentKey st k) = snd st ++ extra.
Proof.
  intros currentKey [visited queue] k. unfold scanStep.
  destruct (splitPair k) as [p1 p2]. cbn [fst snd].
  destruct (String.eqb p1 currentKey && negb (str_has p2 visited));
    cbn [fst snd];
    match goal with |- context [if ?c then _ else _] => destruct c end;
    cbn [fst snd]; rewrite <- ?app_assoc; eauto.
  exists []. rewrite app_nil_r. reflexivity.
Qed.

Lemma scanPairs_queue : forall ks currentKey st,
  exists extra, snd (scanPairs ks currentKey st) = snd st ++ extra.
Proof.
  unfold scanPairs. induction ks as [|k ks IH]; intros currentKey st; simpl.
  - exists []. rewrite app_nil_r. reflexivity.
  - destruct (IH currentKey (scanStep currentKey st k)) as [e1 E1].
    destruct (scanStep_queue currentKey st k) as [e2 E2].
    rewrite E1, E2, <- app_assoc. eauto.
Qed.

Lemma bfs_keeps : forall ks fuel queue visited cluster visited' cluster',
  bfs ks fuel queue visited cluster = Some (visited', cluster') ->
  forall k, In k queue \/ In k cluster -> In k cluster'.
Proof.
  intros ks. induction fuel as [|fuel IH];
    intros queue visited cluster visited' cluster' Hb k Hk.
  - destruct queue as [|c rest]; simpl in Hb; [|discriminate].
    injection Hb as <- <-. destruct Hk as [[]|Hk]. exact Hk.
  - destruct queue as [|c rest]; simpl in Hb.
    + injection Hb as <- <-. destruct Hk as [[]|Hk]. exact Hk.
    + destruct (scanPairs_queue ks c (visited, rest)) as [extra E].
      destruct (scanPairs ks c (visited, rest)) as [v1 q1]. simpl in E. subst q1.
      apply (IH _ _ _ _ _ Hb). rewrite str_add_In, in_app_iff.
      destruct Hk as [[->|Hk]|Hk]; auto.
Qed.

(** ** Every cluster holds the two ends of the pair that seeded it *)

Definition seeded (pairKeys cluster : list string) : Prop :=
  exists k, In k pairKeys /\
    In (fst (splitPair k)) cluster /\ In (snd (splitPair k)) cluster.

Lemma clusterStep_seeded : forall pairKeys pairKey visited clusters visited' clusters',
  In pairKey pairKeys ->
  Forall (seeded pairKeys) (map_values clusters) ->
  clusterStep pairKeys (Some (visited, clusters)) pairKey = Some (visited', clusters') ->
  Forall (seeded pairKeys) (map_values clusters').
Proof.
  intros pairKeys pairKey visited clusters visited' clusters' Hin Hall Hstep.
  unfold clusterStep in Hstep.
  destruct (splitPair pairKey) as [k1 k2] eqn:Es.
  destruct (str_has k1 visited || str_has k2 visited).
  { injection Hstep as <- <-. exact Hall. }
  destruct (bfs _ _ _ _ _) as [[v c]|] eqn:Eb; [|discriminate].
  injection Hstep as <- <-.
  apply Forall_forall. intros cl Hcl. unfold map_values in Hcl.
  apply in_map_iff in Hcl. destruct Hcl as [[k cl'] [E Hcl]]. simpl in E. subst cl'.
  apply str_map_set_In in Hcl. destruct Hcl as [E|Hcl].
  - injection E as <- <-. exists pairKey. rewrite Es. simpl.
    split; [exact Hin|].
    split; apply (bfs_keeps _ _ _ _ _ _ _ Eb); left; simpl; auto.
  - rewrite Forall_forall in Hall. apply Hall. unfold map_values.
    apply in_map_iff. exists (k, cl). auto.
Qed.

Lemma fold_clusterStep_None : forall pairKeys ks,
  fold_left (clusterStep pairKeys) ks None = None.
Proof. intros pairKeys ks. induction ks as [|k ks IH]; [reflexivity | exact IH]. Qed.

Lemma fold_clusterStep_seeded : forall pairKeys ks visited clusters visited' clusters',
  incl ks pairKeys ->
  Forall (seeded pairKeys) (map_values clusters) ->
  fold_left (clusterStep pairKeys) ks (Some (visited, clusters))
    = Some (visited', clusters') ->
  Forall (seeded pairKeys) (map_values clusters').
Proof.
  intros pairKeys. induction ks as [|k ks IH];
    intros visited clusters visited' clusters' Hks Hall Hf; cbn [fold_left] in Hf.
  - injection Hf as <- <-. exact Hall.
  - destruct (clusterStep pairKeys (Some (visited, clusters)) k)
      as [[v1 c1]|] eqn:E.
    + apply (IH v1 c1 visited' clusters'); try assumption.
      * intros x Hx. apply Hks. right. exact Hx.
      * eapply clusterStep_seeded; [| exact Hall | exact E].
        apply Hks. left. reflexivity.
    + rewrite fold_clusterStep_None in Hf. discriminate.
Qed.

Lemma buildClusters_seeded : forall pairKeys clusters,
  buildClusters pairKeys = Some clusters ->
  Forall (seeded pairKeys) (map_values clusters).
Proof.
  intros pairKeys clusters Hb. unfold buildClusters in Hb.
  destruct (fold_left _ _ _) as [[v c]|] eqn:E; [|discriminate].
  simpl in Hb. injection Hb as <-.
  apply (fold_clusterStep_seeded pairKeys pairKeys [] [] v c);
    [apply incl_refl | constructor | exact E].
Qed.

(** ** Step 1: what [bestPairs] holds *)

(** An entry of [bestPairs] is the comparison of two profiled columns of
    different files whose score is above the threshold. *)
Definition acceptedEntry (profiles : list ColumnProfile)
    (e : string * BestMatch) : Prop :=
  exists prof1 prof2,
    In prof1 profiles /\ In prof2 profiles /\
    fileId (source prof1) <> fileId (source prof2) /\
    fst e = canonicalPairKey (profileKey prof1) (profileKey prof2) /\
    targetKey (snd e) = profileKey prof2 /\
    score (snd e) = calculateConfidence prof1 prof2 /\
    (0.65 < score (snd e))%Q.

Lemma bestMatchFor_spec : forall profiles i prof1,
  score (bestMatchFor profiles i prof1) = 0%Q \/
  exists prof2,
    In prof2 profiles /\
    fileId (source prof1) <> fileId (source prof2) /\
    targetKey (bestMatchFor profiles i prof1) = profileKey prof2 /\
    score (bestMatchFor profiles i prof1) = calculateConfidence prof1 prof2.
Proof.
  intros profiles i prof1. unfold bestMatchFor.
  apply (fold_left_inv _ _
    (fun bm => score bm = 0%Q \/
       exists prof2, In prof2 profiles /\
         fileId (source prof1) <> fileId (source prof2) /\
         targetKey bm = profileKey prof2 /\
         score bm = calculateConfidence prof1 prof2)).
  - left. reflexivity.
  - intros bm [j prof2] Hin Hbm. unfold considerPartner.
    destruct (i =? j); [exact Hbm|].
    destruct (String.eqb (fileId (source prof1)) (fileId (source prof2))) eqn:E;
      simpl; [exact Hbm|].
    destruct (Qltb (score bm) (calculateConfidence prof1 prof2)); [|exact Hbm].
    right. exists prof2. simpl. repeat split.
    + apply (indexed_In _ _ _ _ Hin).
    + apply String.eqb_neq, E.
Qed.

Lemma recordBestPair_accepted : forall profiles bestPairs ip,
  In (snd ip) profiles ->
  Forall (acceptedEntry profiles) bestPairs ->
  Forall (acceptedEntry profiles) (recordBestPair profiles bestPairs ip).
Proof.
  intros profiles bestPairs [i prof1] Hin Hall. unfold recordBestPair.
  simpl in Hin.
  destruct (Qltb 0.65 (score (bestMatchFor profiles i prof1))) eqn:Et;
    [|exact Hall].
  destruct (map_has String.eqb _ bestPairs) eqn:Eh; [exact Hall|].
  rewrite str_map_set_fresh by exact Eh.
  apply Forall_app. split; [exact Hall|]. constructor; [|constructor].
  apply Qltb_lt in Et.
  destruct (bestMatchFor_spec profiles i prof1) as [E0|[prof2 [H2 [Hf [Hk Hs]]]]].
  - rewrite E0 in Et. exfalso. revert Et. apply Qle_not_lt. discriminate.
  - exists prof1, prof2. simpl. repeat split; try assumption.
    rewrite Hk. reflexivity.
Qed.

Lemma recordBestPair_NoDup : forall profiles bestPairs ip,
  NoDup (map_keys bestPairs) ->
  NoDup (map_keys (recordBestPair profiles bestPairs ip)).
Proof.
  intros profiles bestPairs [i prof1] Hnd. unfold recordBestPair.
  destruct (Qltb 0.65 _); [|exact Hnd].
  destruct (map_has String.eqb _ bestPairs) eqn:Eh; [exact Hnd|].
  rewrite str_map_set_fresh by exact Eh.
  unfold map_keys in *. rewrite map_app. simpl.
  apply NoDup_app; [exact Hnd | constructor; [intros [] | constructor] |].
  intros x Hx [<-|[]].
  assert (Hc : map_has String.eqb
                 (canonicalPairKey (profileKey prof1)
                    (targetKey (bestMatchFor profiles i prof1))) bestPairs = true)
    by (apply str_map_has_In; exact Hx).
  congruence.
Qed.

Lemma findBestPairs_accepted : forall profiles,
  Forall (acceptedEntry profiles) (findBestPairs profiles).
Proof.
  intro profiles. unfold findBestPairs.
  apply (fold_left_inv _ _ (fun bp => Forall (acceptedEntry profiles) bp)).
  - constructor.
  - intros bp [i p] Hin Hbp. apply recordBestPair_accepted; [|exact Hbp].
    simpl. apply (indexed_In _ _ _ _ Hin).
Qed.

Lemma findBestPairs_NoDup : forall profiles,
  NoDup (map_keys (findBestPairs profiles)).
Proof.
  intro profiles. unfold findBestPairs.
  apply (fold_left_inv _ _ (fun bp => NoDup (map_keys bp))).
  - constructor.
  - intros bp ip _ Hbp. apply recordBestPair_NoDup, Hbp.
Qed.

Lemma acceptedEntry_score : forall profiles e,
  acceptedEntry profiles e -> (0.65 < score (snd e) <= 1)%Q.
Proof.
  intros profiles e [p1 [p2 [_ [_ [_ [_ [_ [Hs Ht]]]]]]]]. split; [exact Ht|].
  rewrite Hs. apply calculateConfidence_bounds.
Qed.

(** ** Step 3: the aggregate confidence of a cluster *)

(** The entries of [bestPairs] whose two ends are both in the cluster. *)
Definition pairsInside (bestPairs : list (string * BestMatch))
    (clusterKeys : list string) : list (string * BestMatch) :=
  filter (fun e => str_has (fst (splitPair (fst e))) clusterKeys
                   && str_has (snd (splitPair (fst e))) clusterKeys)
         bestPairs.

Definition scoresOf (pairs : list (string * BestMatch)) : list Q :=
  List.map (fun e => score (snd e)) pairs.

Lemma scoreStep_unfold : forall bestPairs clusterKeys totalScore pairCount k,
  scoreStep bestPairs clusterKeys (Some (totalScore, pairCount)) k =
  if str_has (fst (splitPair k)) clusterKeys
     && str_has (snd (splitPair k)) clusterKeys
  then match map_get String.eqb k bestPairs with
       | Some best => Some ((totalScore + score best)%Q, pairCount + 1)
       | None => None
       end
  else Some (totalScore, pairCount).
Proof.
  intros. unfold scoreStep. destruct (splitPair k). reflexivity.
Qed.

Lemma fold_scoreStep : forall bestPairs clusterKeys l totalScore pairCount,
  (forall e, In e l -> map_get String.eqb (fst e) bestPairs = Some (snd e)) ->
  fold_left (scoreStep bestPairs clusterKeys) (map_keys l)
            (Some (totalScore, pairCount))
  = Some (fold_left Qplus (scoresOf (pairsInside l clusterKeys)) totalScore,
          pairCount + List.length (pairsInside l clusterKeys)).
Proof.
  intros bestPairs clusterKeys. induction l as [|e l IH];
    intros totalScore pairCount Hget.
  - simpl. rewrite Nat.add_0_r. reflexivity.
  - unfold map_keys. cbn [List.map fold_left]. fold (map_keys l).
    rewrite scoreStep_unfold. unfold pairsInside. cbn [filter].
    fold (pairsInside l clusterKeys).
    destruct (str_has (fst (splitPair (fst e))) clusterKeys
              && str_has (snd (splitPair (fst e))) clusterKeys).
    + rewrite (Hget e) by (left; reflexivity).
      rewrite IH by (intros e' He'; apply Hget; right; exact He').
      simpl. f_equal. f_equal. lia.
    + apply IH. intros e' He'. apply Hget. right. exact He'.
Qed.

Lemma clusterScore_spec : forall bestPairs clusterKeys,
  NoDup (map_keys bestPairs) ->
  clusterScore bestPairs clusterKeys
  = Some (sumOf (scoresOf (pairsInside bestPairs clusterKeys)),
          List.length (pairsInside bestPairs clusterKeys)).
Proof.
  intros bestPairs clusterKeys Hnd. unfold clusterScore.
  rewrite fold_scoreStep; [reflexivity|].
  intros [k v] He. apply str_map_get_unique; assumption.
Qed.

Lemma str_map_of_list_In : forall (V : Type) (entries : list (string * V)) e,
  In e (map_of_list String.eqb entries) -> In e entries.
Proof.
  intros V entries e. unfold map_of_list.
  apply (fold_left_inv _ _ (fun m => In e m -> In e entries)).
  - intros [].
  - intros m [k v] Hin Hm He. simpl in He.
    apply str_map_set_In in He. destruct He as [->|He]; auto.
Qed.

Definition profileMapOf (profiles : list ColumnProfile)
  : list (string * ColumnProfile) :=
  map_of_list String.eqb (List.map (fun p => (profileKey p, p)) profiles).

Lemma profileMapOf_In : forall profiles k p,
  In (k, p) (profileMapOf profiles) -> k = profileKey p /\ In p profiles.
Proof.
  intros profiles k p Hin. apply str_map_of_list_In in Hin.
  apply in_map_iff in Hin. destruct Hin as [p' [E Hp']].
  injection E as <- <-. auto.
Qed.

Lemma profileMapOf_get : forall profiles k p,
  map_get String.eqb k (profileMapOf profiles) = Some p ->
  profileKey p = k /\ In p profiles.
Proof.
  intros profiles k p Hg. apply str_map_get_In in Hg.
  apply profileMapOf_In in Hg. destruct Hg. auto.
Qed.

Definition memberOf (p : ColumnProfile) : ColumnInMatch :=
  {| cim_fileId := fileId (source p);
     cim_fileName := fileName (source p);
     columnName := originalName (source p) |}.

Lemma memberKey_memberOf : forall p, memberKey (memberOf p) = profileKey p.
Proof. reflexivity. Qed.

Lemma buildMatch_spec : forall bestPairs profiles index clusterKeys m,
  NoDup (map_keys bestPairs) ->
  buildMatch bestPairs (profileMapOf profiles) index clusterKeys = Some m ->
  exists clusterProfiles,
    List.map (fun key => map_get String.eqb key (profileMapOf profiles)) clusterKeys
      = List.map Some clusterProfiles /\
    match_columns m = List.map memberOf clusterProfiles /\
    memberKeys m = clusterKeys /\
    match_id m = ("match-" ++ decimal index)%string /\
    programmaticConfidence m =
      (if 0 <? List.length (pairsInside bestPairs clusterKeys)
       then (sumOf (scoresOf (pairsInside bestPairs clusterKeys))
             / Qnat (List.length (pairsInside bestPairs clusterKeys)))%Q
       else 0%Q).
Proof.
  intros bestPairs profiles index clusterKeys m Hnd Hb. unfold buildMatch in Hb.
  rewrite clusterScore_spec in Hb by exact Hnd.
  destruct (allDefined _) as [clusterProfiles|] eqn:Ea; [|discriminate].
  destruct (findMostDescriptiveName clusterProfiles) as [name|]; [|discriminate].
  injection Hb as <-. simpl. exists clusterProfiles.
  pose proof (allDefined_map _ _ _ Ea) as Em.
  repeat split; try reflexivity; try assumption.
  unfold memberKeys. simpl. rewrite map_map.
  clear Ea. revert clusterProfiles Em.
  induction clusterKeys as [|k ks IH]; intros [|p ps] Em; simpl in Em;
    try discriminate; [reflexivity|].
  injection Em as Ep Eps. simpl. f_equal.
  - exact (proj1 (profileMapOf_get _ _ _ Ep)).
  - apply IH, Eps.
Qed.

Section Emitted.
Context `{JsRuntime}.

(** What a run that returns went through. *)
Lemma generateMatches_returned : forall files result,
  generateMatches files = Returned result ->
  (List.length files < 2 /\ result = {| matches := []; unmatched := [] |}) \/
  (2 <= List.length files /\
   exists clusters ms,
     buildClusters (map_keys (acceptedPairs files)) = Some clusters /\
     allDefined
       (List.map (fun ic => buildMatch (acceptedPairs files)
                              (profileMapOf (profilesOf files)) (fst ic) (snd ic))
                 (indexed (map_values clusters))) = Some ms /\
     matches result = sortMatches ms /\
     unmatched result =
       filter (fun c => negb (str_has (columnKey c)
                 (set_of_list String.eqb (List.concat (map_values clusters)))))
              (flat_map columns files)).
Proof.
  intros files result Hg. unfold generateMatches in Hg.
  destruct (List.length files <? 2) eqn:El.
  - left. apply Nat.ltb_lt in El. injection Hg as <-. auto.
  - right. apply Nat.ltb_ge in El. split; [exact El|].
    fold (profilesOf files) in Hg. fold (acceptedPairs files) in Hg.
    fold (profileMapOf (profilesOf files)) in Hg.
    destruct (buildClusters _) as [clusters|]; [|discriminate].
    destruct (allDefined _) as [ms|] eqn:Ea; [|discriminate].
    injection Hg as <-. exists clusters, ms. simpl. auto.
Qed.

Lemma emitted_match_cluster : forall files result m,
  generateMatches files = Returned result -> In m (matches result) ->
  exists clusters index clusterKeys,
    buildClusters (map_keys (acceptedPairs files)) = Some clusters /\
    In (index, clusterKeys) (indexed (map_values clusters)) /\
    buildMatch (acceptedPairs files) (profileMapOf (profilesOf files))
               index clusterKeys = Some m.
Proof.
  intros files result m Hg Hm.
  destruct (generateMatches_returned _ _ Hg) as [[_ ->]|[_ [clusters [ms [Hc [Ha [Em _]]]]]]].
  - destruct Hm.
  - rewrite Em in Hm. apply (proj1 (sortMatches_In _ _)) in Hm.
    apply (allDefined_In _ _ _ _ Ha) in Hm. apply in_map_iff in Hm.
    destruct Hm as [[index clusterKeys] [Eb Hin]]. simpl in Eb.
    exists clusters, index, clusterKeys. auto.
Qed.

(** In exact arithmetic, every match a run emits has an aggregate
    confidence above 0.65 and at most 1: the accepted pairs that lie inside
    it (both ends among its member columns) are one at least, each of their
    scores is above 0.65 and at most 1, and the aggregate is their mean.
    The engine computes the mean in binary64, where it can round to 0.65
    and below; that is settled over the module [Binary64]. *)
Lemma exact_confidence_is_mean_above_threshold : forall files result m,
  generateMatches files = Returned result ->
  In m (matches result) ->
  let inside := pairsInside (acceptedPairs files) (memberKeys m) in
  inside <> [] /\
  (forall e, In e inside ->
     In e (acceptedPairs files) /\ (0.65 < score (snd e) <= 1)%Q) /\
  programmaticConfidence m =
    (sumOf (scoresOf inside) / Qnat (List.length inside))%Q /\
  (0.65 < programmaticConfidence m <= 1)%Q.
Proof.
  intros files result m Hg Hm.
  destruct (emitted_match_cluster _ _ _ Hg Hm)
    as [clusters [index [clusterKeys [Hc [Hin Hb]]]]].
  pose proof (findBestPairs_NoDup (profilesOf files)) as Hnd.
  pose proof (findBestPairs_accepted (profilesOf files)) as Hacc.
  fold (acceptedPairs files) in Hnd, Hacc.
  destruct (buildMatch_spec _ _ _ _ _ Hnd Hb) as [profs [_ [_ [Ek [_ Econf]]]]].
  rewrite Ek. cbn zeta.
  assert (Hinside : forall e, In e (pairsInside (acceptedPairs files) clusterKeys) ->
            In e (acceptedPairs files) /\ (0.65 < score (snd e) <= 1)%Q).
  { intros e He. unfold pairsInside in He. apply filter_In in He.
    destruct He as [He _]. rewrite Forall_forall in Hacc.
    split; [exact He|]. apply (acceptedEntry_score _ _ (Hacc e He)). }
  assert (Hne : pairsInside (acceptedPairs files) clusterKeys <> []).
  { pose proof (buildClusters_seeded _ _ Hc) as Hseed.
    rewrite Forall_forall in Hseed.
    destruct (Hseed clusterKeys (indexed_In _ _ _ _ Hin)) as [k [Hk [H1 H2]]].
    unfold map_keys in Hk. apply in_map_iff in Hk. destruct Hk as [e [<- He]].
    assert (Hf : In e (pairsInside (acceptedPairs files) clusterKeys)).
    { unfold pairsInside. apply filter_In. split; [exact He|].
      apply andb_true_iff. split; apply str_has_In; assumption. }
    intro E. rewrite E in Hf. destruct Hf. }
  assert (Hpos : (0 <? List.length (pairsInside (acceptedPairs files) clusterKeys)) = true).
  { apply Nat.ltb_lt. destruct (pairsInside _ _); [congruence | simpl; lia]. }
  rewrite Hpos in Econf.
  split; [exact Hne|]. split; [exact Hinside|]. split; [exact Econf|].
  rewrite Econf.
  rewrite <- (length_map (fun e => score (snd e))
                (pairsInside (acceptedPairs files) clusterKeys)).
  apply mean_bounds.
  - apply Forall_forall. intros s Hs. unfold scoresOf in Hs.
    apply in_map_iff in Hs. destruct Hs as [e [<- He]]. apply Hinside, He.
  - intro E. apply map_eq_nil in E. contradiction.
Qed.

End Emitted.

(** ** The graph of the accepted pairs *)

Arguments splitPair : simpl never.

Section PairGraph.

Variable pairKeys : list string.

(** Two keys are joined when a pair key splits into them. *)
Definition joined (a b : string) : Prop :=
  exists pairKey, In pairKey pairKeys /\
    (splitPair pairKey = (a, b) \/ splitPair pairKey = (b, a)).

(** A chain of joined keys. *)
Inductive chained : string -> string -> Prop :=
| chained_refl : forall a, chained a a
| chained_step : forall a b c, chained a b -> joined b c -> chained a c.

Lemma joined_sym : forall a b, joined a b -> joined b a.
Proof. intros a b [pk [Hpk H]]. exists pk. tauto. Qed.

Lemma chained_trans : forall a b c, chained a b -> chained b c -> chained a c.
Proof.
  intros a b c Hab Hbc. induction Hbc as [|b c d Hbc IH Hcd]; [exact Hab|].
  eapply chained_step; [apply IH, Hab | exact Hcd].
Qed.

Lemma chained_joined : forall a b, joined a b -> chained a b.
Proof. intros a b H. eapply chained_step; [apply chained_refl | exact H]. Qed.

Lemma chained_sym : forall a b, chained a b -> chained b a.
Proof.
  intros a b Hab. induction Hab as [|a b c Hab IH Hbc]; [apply chained_refl|].
  eapply chained_trans; [apply chained_joined, joined_sym, Hbc | exact IH].
Qed.

(** *** One pass of the inner [for] loop *)

(** From [st] to [st'] the walk has appended to [visited] and to the queue
    the same keys, none visited before, each joined to [currentKey]. *)
Definition grows (currentKey : string) (st st' : list string * list string)
  : Prop :=
  exists fresh,
    snd st' = snd st ++ fresh /\
    (forall k, In k (fst st') <-> In k (fst st) \/ In k fresh) /\
    (forall k, In k fresh -> ~ In k (fst st) /\ joined currentKey k).

Lemma grows_refl : forall c st, grows c st st.
Proof.
  intros c st. exists []. rewrite app_nil_r.
  split; [reflexivity|]. split; [simpl; tauto | intros k []].
Qed.

Lemma grows_trans : forall c st1 st2 st3,
  grows c st1 st2 -> grows c st2 st3 -> grows c st1 st3.
Proof.
  intros c st1 st2 st3 [f1 [Q1 [V1 N1]]] [f2 [Q2 [V2 N2]]].
  exists (f1 ++ f2). rewrite Q2, Q1, app_assoc. split; [reflexivity|].
  split.
  - intro k. rewrite V2, V1, in_app_iff. tauto.
  - intros k Hk. apply in_app_or in Hk. destruct Hk as [Hk|Hk].
    + apply N1, Hk.
    + destruct (N2 k Hk) as [Hn Hj]. split; [|exact Hj].
      intro Hv. apply Hn. apply V1. left. exact Hv.
Qed.

Lemma grows_visited : forall c st st' k,
  grows c st st' -> In k (fst st) -> In k (fst st').
Proof. intros c st st' k [f [_ [V _]]] Hk. apply V. left. exact Hk. Qed.

Lemma grows_push : forall c p visited queue,
  joined c p -> str_has p visited = false ->
  grows c (visited, queue) (str_add p visited, queue ++ [p]).
Proof.
  intros c p visited queue Hj Hv. apply str_has_false in Hv.
  exists [p]. simpl. split; [reflexivity|]. split.
  - intro k. rewrite str_add_In. simpl. intuition congruence.
  - intros k [<-|[]]. auto.
Qed.

Lemma scanStep_grows : forall c st pk,
  In pk pairKeys -> grows c st (scanStep c st pk).
Proof.
  intros c [visited queue] pk Hpk. unfold scanStep.
  destruct (splitPair pk) as [p1 p2] eqn:Es. cbn [fst snd].
  apply grows_trans with
    (st2 := if String.eqb p1 c && negb (str_has p2 visited)
            then (str_add p2 visited, queue ++ [p2]) else (visited, queue)).
  - destruct (String.eqb p1 c) eqn:E1; simpl; [|apply grows_refl].
    destruct (str_has p2 visited) eqn:V2; simpl; [apply grows_refl|].
    apply grows_push; [|exact V2]. apply String.eqb_eq in E1. subst c.
    exists pk. auto.
  - set (st1 := if String.eqb p1 c && negb (str_has p2 visited)
                then (str_add p2 visited, queue ++ [p2]) else (visited, queue)).
    destruct st1 as [v1 q1]. cbn [fst snd].
    destruct (String.eqb p2 c) eqn:E2; simpl; [|apply grows_refl].
    destruct (str_has p1 v1) eqn:V1; simpl; [apply grows_refl|].
    apply grows_push; [|exact V1]. apply String.eqb_eq in E2. subst c.
    exists pk. auto.
Qed.

Lemma scanStep_covers : forall c st pk,
  (fst (splitPair pk) = c -> In (snd (splitPair pk)) (fst (scanStep c st pk))) /\
  (snd (splitPair pk) = c -> In (fst (splitPair pk)) (fst (scanStep c st pk))).
Proof.
  intros c [visited queue] pk. unfold scanStep.
  destruct (splitPair pk) as [p1 p2]. cbn [fst snd].
  set (st1 := if String.eqb p1 c && negb (str_has p2 visited)
              then (str_add p2 visited, queue ++ [p2]) else (visited, queue)).
  assert (H1 : p1 = c -> In p2 (fst st1)).
  { intros <-. unfold st1. rewrite String.eqb_refl. simpl.
    destruct (str_has p2 visited) eqn:V2; simpl.
    - apply str_has_In, V2.
    - apply str_add_In. left. reflexivity. }
  destruct st1 as [v1 q1]. cbn [fst snd] in *.
  destruct (String.eqb p2 c) eqn:E2; simpl.
  - apply String.eqb_eq in E2. subst c.
    destruct (str_has p1 v1) eqn:V1; simpl.
    + apply str_has_In in V1. split; [exact H1 | intros _; exact V1].
    + split; intro E; apply str_add_In; [right; apply H1, E | left; reflexivity].
  - apply String.eqb_neq in E2. split; [exact H1 | intro E; congruence].
Qed.

Lemma scanPairs_from : forall c ks st,
  incl ks pairKeys ->
  grows c st (fold_left (scanStep c) ks st) /\
  forall pk, In pk ks ->
    (fst (splitPair pk) = c ->
       In (snd (splitPair pk)) (fst (fold_left (scanStep c) ks st))) /\
    (snd (splitPair pk) = c ->
       In (fst (splitPair pk)) (fst (fold_left (scanStep c) ks st))).
Proof.
  intros c ks. induction ks as [|pk ks IH]; intros st Hks; simpl.
  - split; [apply grows_refl | intros pk []].
  - assert (Hpk : In pk pairKeys) by (apply Hks; left; reflexivity).
    assert (Hks' : incl ks pairKeys) by (intros x Hx; apply Hks; right; exact Hx).
    destruct (IH (scanStep c st pk) Hks') as [Hg Hc]. split.
    + eapply grows_trans; [apply scanStep_grows, Hpk | exact Hg].
    + intros pk' [<-|Hin]; [|apply Hc, Hin].
      destruct (scanStep_covers c st pk) as [C1 C2].
      split; intro E; eapply grows_visited; eauto.
Qed.

Lemma scanPairs_spec : forall c st,
  grows c st (scanPairs pairKeys c st) /\
  forall pk, In pk pairKeys ->
    (fst (splitPair pk) = c ->
       In (snd (splitPair pk)) (fst (scanPairs pairKeys c st))) /\
    (snd (splitPair pk) = c ->
       In (fst (splitPair pk)) (fst (scanPairs pairKeys c st))).
Proof. intros c st. apply scanPairs_from, incl_refl. Qed.

(** *** The [while] loop *)

Lemma joined_endpoint : forall a b, joined a b -> In b (endpoints pairKeys).
Proof.
  intros a b [pk [Hpk H]]. unfold endpoints. apply in_flat_map. exists pk.
  split; [exact Hpk|]. destruct H as [E|E]; rewrite E; simpl; auto.
Qed.

(** The state of a walk started from [root] when [visited0] was visited. *)
Definition walkInv (visited0 : list string) (root : string)
    (queue visited cluster : list string) : Prop :=
  (forall k, In k visited <-> In k visited0 \/ In k cluster \/ In k queue) /\
  (forall k, In k cluster \/ In k queue ->
     chained root k /\ ~ In k visited0 /\ In k (endpoints pairKeys)) /\
  (forall k k', In k cluster -> joined k k' -> In k' visited) /\
  NoDup cluster.

Lemma bfs_spec : forall visited0 root fuel queue visited cluster visited' cluster',
  walkInv visited0 root queue visited cluster ->
  bfs pairKeys fuel queue visited cluster = Some (visited', cluster') ->
  walkInv visited0 root [] visited' cluster' /\
  forall k, In k cluster \/ In k queue -> In k cluster'.
Proof.
  intros visited0 root. induction fuel as [|fuel IH];
    intros queue visited cluster visited' cluster' Hinv Hb.
  - destruct queue as [|c rest]; simpl in Hb; [|discriminate].
    injection Hb as <- <-. split; [exact Hinv | intros k [Hk|[]]; exact Hk].
  - destruct queue as [|c rest]; simpl in Hb.
    { injection Hb as <- <-. split; [exact Hinv | intros k [Hk|[]]; exact Hk]. }
    destruct (scanPairs_spec c (visited, rest)) as [Hg Hc].
    destruct (scanPairs pairKeys c (visited, rest)) as [v1 q1] eqn:Es.
    destruct Hinv as [I1 [I2 [I3 I4]]].
    destruct Hg as [fresh [Q [V N]]]. cbn [fst snd] in Q, V, N, Hc. subst q1.
    assert (Hinv' : walkInv visited0 root (rest ++ fresh) v1 (str_add c cluster)).
    { split; [|split; [|split]].
      - intro k. rewrite V, I1, str_add_In, in_app_iff. simpl.
        intuition congruence.
      - intros k Hk. rewrite str_add_In, in_app_iff in Hk.
        destruct Hk as [[->|Hk]|[Hk|Hk]].
        + apply I2. right. left. reflexivity.
        + apply I2. left. exact Hk.
        + apply I2. right. right. exact Hk.
        + destruct (N k Hk) as [Hn Hj].
          destruct (I2 c (or_intror (or_introl eq_refl))) as [Hr _].
          split; [eapply chained_step; eassumption|].
          split; [|eapply joined_endpoint; exact Hj].
          intro H0. apply Hn. apply I1. left. exact H0.
      - intros k k' Hk Hj. apply str_add_In in Hk. destruct Hk as [->|Hk].
        + destruct Hj as [pk [Hpk [E|E]]]; destruct (Hc pk Hpk) as [C1 C2];
            rewrite E in C1, C2; simpl in C1, C2; auto.
        + apply V. left. eapply I3; eassumption.
      - apply str_add_NoDup, I4. }
    destruct (IH _ _ _ _ _ Hinv' Hb) as [Hend Hkeep]. split; [exact Hend|].
    intros k Hk. apply Hkeep. rewrite str_add_In, in_app_iff.
    destruct Hk as [Hk|[->|Hk]]; auto.
Qed.

(** *** The outer loop *)

(** The clusters built when the pair keys [done] have been looked at. *)
Definition clustersInv (visited : list string)
    (clusters : list (string * list string)) (done : list string) : Prop :=
  (forall k k', In k visited -> joined k k' -> In k' visited) /\
  (forall k, In k visited <-> In k (List.concat (map_values clusters))) /\
  NoDup (List.concat (map_values clusters)) /\
  (forall c, In c (map_values clusters) ->
     (forall a b, In a c -> In b c -> chained a b) /\
     (forall k k', In k c -> joined k k' -> In k' c) /\
     (forall k, In k c -> In k (endpoints pairKeys))) /\
  (forall pk, In pk done ->
     In (fst (splitPair pk)) visited /\ In (snd (splitPair pk)) visited) /\
  (forall k, In k (map_keys clusters) -> In k visited).

Lemma clusterStep_inv : forall visited clusters done pk visited' clusters',
  In pk pairKeys ->
  clustersInv visited clusters done ->
  clusterStep pairKeys (Some (visited, clusters)) pk = Some (visited', clusters') ->
  clustersInv visited' clusters' (pk :: done).
Proof.
  intros visited clusters done pk visited' clusters' Hpk
    [O1 [O2 [O3 [O4 [O5 O6]]]]] Hstep.
  unfold clusterStep in Hstep.
  destruct (splitPair pk) as [k1 k2] eqn:Es.
  assert (J12 : joined k1 k2) by (exists pk; auto).
  destruct (str_has k1 visited || str_has k2 visited) eqn:Ev.
  - injection Hstep as <- <-.
    assert (Hboth : In k1 visited /\ In k2 visited).
    { apply orb_true_iff in Ev. destruct Ev as [Ev|Ev]; apply str_has_In in Ev.
      - split; [exact Ev | eapply O1; eassumption].
      - split; [eapply O1; [exact Ev | apply joined_sym, J12] | exact Ev]. }
    repeat (split; [assumption|]). split; [|exact O6].
    intros pk' [<-|Hin]; [rewrite Es; exact Hboth | apply O5, Hin].
  - apply orb_false_iff in Ev. destruct Ev as [V1 V2].
    apply str_has_false in V1, V2.
    destruct (bfs pairKeys (clusterFuel pairKeys) [k1; k2]
                (str_add k2 (str_add k1 visited)) []) as [[v c]|] eqn:Eb;
      [|discriminate].
    injection Hstep as <- <-.
    assert (Hinit : walkInv visited k1 [k1; k2] (str_add k2 (str_add k1 visited)) []).
    { split; [|split; [|split]].
      - intro k. rewrite !str_add_In. simpl. intuition congruence.
      - intros k [[]|[<-|[<-|[]]]].
        + split; [apply chained_refl|]. split; [exact V1|].
          apply (joined_endpoint k2 k1), joined_sym, J12.
        + split; [apply chained_joined, J12|]. split; [exact V2|].
          apply (joined_endpoint k1 k2), J12.
      - intros k k' [].
      - constructor. }
    destruct (bfs_spec _ _ _ _ _ _ _ _ Hinit Eb) as [[I1 [I2 [I3 I4]]] Hkeep].
    assert (Hfresh : map_has String.eqb k1 clusters = false).
    { destruct (map_has String.eqb k1 clusters) eqn:E; [|reflexivity].
      apply str_map_has_In in E. apply O6 in E. contradiction. }
    rewrite (str_map_set_fresh _ _ _ _ Hfresh).
    unfold clustersInv, map_values, map_keys in *. rewrite !map_app, concat_app.
    cbn [List.map List.concat fst snd]. rewrite app_nil_r.
    assert (Hv : forall k, In k v <-> In k visited \/ In k c).
    { intro k. rewrite I1. simpl. tauto. }
    assert (Hclosed : forall k k', In k c -> joined k k' -> In k' c).
    { intros k k' Hk Hj. pose proof (I3 k k' Hk Hj) as Hk'.
      apply Hv in Hk'. destruct Hk' as [Hk'|Hk']; [|exact Hk'].
      exfalso. destruct (I2 k (or_introl Hk)) as [_ [Hn _]]. apply Hn.
      eapply O1; [exact Hk' | apply joined_sym, Hj]. }
    split; [|split; [|split; [|split; [|split]]]].
    + intros k k' Hk Hj. apply Hv. apply Hv in Hk. destruct Hk as [Hk|Hk].
      * left. eapply O1; eassumption.
      * right. eapply Hclosed; eassumption.
    + intro k. rewrite Hv, in_app_iff, O2. reflexivity.
    + apply NoDup_app; [exact O3 | exact I4 |].
      intros k Hk Hk'. destruct (I2 k (or_introl Hk')) as [_ [Hn _]].
      apply Hn, O2, Hk.
    + intros c' Hc'. apply in_app_or in Hc'. destruct Hc' as [Hc'|[<-|[]]].
      * apply O4, Hc'.
      * split; [|split; [exact Hclosed|]].
        -- intros a b Ha Hb.
           destruct (I2 a (or_introl Ha)) as [Ca _].
           destruct (I2 b (or_introl Hb)) as [Cb _].
           eapply chained_trans; [apply chained_sym, Ca | exact Cb].
        -- intros k Hk. apply (I2 k (or_introl Hk)).
    + intros pk' [<-|Hin].
      * rewrite Es. simpl. split; apply Hv; right; apply Hkeep; right; simpl; auto.
      * destruct (O5 pk' Hin). split; apply Hv; left; assumption.
    + intros k Hk. apply in_app_or in Hk. apply Hv. destruct Hk as [Hk|[<-|[]]].
      * left. apply O6, Hk.
      * right. apply Hkeep. right. left. reflexivity.
Qed.

Lemma fold_clusterStep_inv : forall ks visited clusters done visited' clusters',
  incl ks pairKeys ->
  clustersInv visited clusters done ->
  fold_left (clusterStep pairKeys) ks (Some (visited, clusters))
    = Some (visited', clusters') ->
  clustersInv visited' clusters' (rev ks ++ done).
Proof.
  induction ks as [|pk ks IH];
    intros visited clusters done visited' clusters' Hks Hinv Hf;
    cbn [fold_left] in Hf.
  - injection Hf as <- <-. exact Hinv.
  - destruct (clusterStep pairKeys (Some (visited, clusters)) pk)
      as [[v1 c1]|] eqn:E.
    + simpl. rewrite <- app_assoc. simpl.
      apply (IH v1 c1 (pk :: done)); [| |exact Hf].
      * intros x Hx. apply Hks. right. exact Hx.
      * eapply clusterStep_inv; [|exact Hinv|exact E]. apply Hks. left. reflexivity.
    + rewrite fold_clusterStep_None in Hf. discriminate.
Qed.

(** The clusters are the connected components of the graph that hold an
    edge: pairwise disjoint, each chained and closed under [joined], and
    every pair key has its two ends in one of them. *)
Lemma buildClusters_components : forall clusters,
  buildClusters pairKeys = Some clusters ->
  NoDup (List.concat (map_values clusters)) /\
  (forall c, In c (map_values clusters) ->
     (forall a b, In a c -> In b c -> chained a b) /\
     (forall k k', In k c -> joined k k' -> In k' c) /\
     (forall k, In k c -> In k (endpoints pairKeys))) /\
  (forall pk, In pk pairKeys ->
     exists c, In c (map_values clusters) /\
       In (fst (splitPair pk)) c /\ In (snd (splitPair pk)) c).
Proof.
  intros clusters Hb. unfold buildClusters in Hb.
  destruct (fold_left _ _ _) as [[v c]|] eqn:E; [|discriminate].
  simpl in Hb. injection Hb as <-.
  assert (Hinit : clustersInv [] [] []).
  { split; [intros k k' []|]. split; [simpl; tauto|].
    split; [constructor|]. split; [intros ? []|].
    split; [intros ? [] | intros ? []]. }
  destruct (fold_clusterStep_inv _ _ _ _ _ _ (incl_refl _) Hinit E)
    as [O1 [O2 [O3 [O4 [O5 O6]]]]].
  split; [exact O3|]. split; [exact O4|].
  intros pk Hpk.
  assert (Hdone : In pk (rev pairKeys ++ [])).
  { rewrite app_nil_r. apply in_rev. rewrite rev_involutive. exact Hpk. }
  destruct (O5 pk Hdone) as [H1 H2]. apply O2 in H1. apply in_concat in H1.
  destruct H1 as [cl [Hcl H1]]. exists cl. split; [exact Hcl|].
  split; [exact H1|].
  destruct (O4 cl Hcl) as [_ [Hclosed _]]. apply (Hclosed _ _ H1).
  exists pk. split; [exact Hpk|]. left. apply surjective_pairing.
Qed.

End PairGraph.

(** ** Splitting a pair key *)

Lemma split_barFree : forall s, barFree s = true -> split bar s = [s].
Proof.
  induction s as [|c s IH]; simpl; [reflexivity|].
  intro Hb. apply andb_true_iff in Hb. destruct Hb as [Hc Hs].
  apply negb_true_iff in Hc. rewrite Hc, (IH Hs). reflexivity.
Qed.

Lemma split_append_bar : forall s t,
  barFree s = true ->
  split bar (s ++ String bar t)%string = s :: split bar t.
Proof.
  induction s as [|c s IH]; intros t Hb; simpl.
  - reflexivity.
  - simpl in Hb. apply andb_true_iff in Hb. destruct Hb as [Hc Hs].
    apply negb_true_iff in Hc. rewrite Hc, (IH t Hs). reflexivity.
Qed.

Lemma splitPair_canonical : forall k1 k2,
  barFree k1 = true -> barFree k2 = true ->
  splitPair (canonicalPairKey k1 k2)
  = if String.leb k1 k2 then (k1, k2) else (k2, k1).
Proof.
  intros k1 k2 H1 H2. unfold splitPair, canonicalPairKey.
  destruct (String.leb k1 k2); simpl;
    rewrite split_append_bar by assumption;
    rewrite split_barFree by assumption; reflexivity.
Qed.

(** A canonical pair key always splits into two parts at least: the
    destructuring of the source never yields [undefined]. *)
Lemma split_canonical_two_parts : forall k1 k2,
  2 <= List.length (split bar (canonicalPairKey k1 k2)).
Proof.
  assert (Hne : forall s, 1 <= List.length (split bar s)).
  { induction s as [|c s IH]; simpl; [lia|].
    destruct (Ascii.eqb c bar); simpl; [lia|].
    destruct (split bar s); simpl in *; lia. }
  assert (Happ : forall s t, 2 <= List.length (split bar (s ++ String bar t)%string)).
  { induction s as [|c s IH]; intro t; simpl.
    - specialize (Hne t). lia.
    - destruct (Ascii.eqb c bar); simpl.
      + specialize (Hne (s ++ String bar t)%string). lia.
      + specialize (IH t). destruct (split bar (s ++ String bar t)); simpl in *; lia. }
  intros k1 k2. unfold canonicalPairKey. destruct (String.leb k1 k2); apply Happ.
Qed.

(** ** Profiles and keys *)

Section Keys.
Context `{JsRuntime}.

Lemma profilesOf_map : forall files,
  profilesOf files = List.map createColumnProfile (flat_map columns files).
Proof.
  intro files. unfold profilesOf. induction files as [|f files IH]; simpl.
  - reflexivity.
  - rewrite map_app, IH. reflexivity.
Qed.

Lemma profilesOf_In : forall files p,
  In p (profilesOf files) ->
  exists c, In c (flat_map columns files) /\ p = createColumnProfile c.
Proof.
  intros files p Hp. rewrite profilesOf_map in Hp. apply in_map_iff in Hp.
  destruct Hp as [c [E Hc]]. eauto.
Qed.

Lemma str_map_of_list_NoDup_from : forall (V : Type) (entries m : list (string * V)),
  NoDup (List.map fst (m ++ entries)) ->
  fold_left (fun m e => map_set String.eqb (fst e) (snd e) m) entries m
  = m ++ entries.
Proof.
  intros V. induction entries as [|[k v] entries IH]; intros m Hnd; simpl.
  - rewrite app_nil_r. reflexivity.
  - assert (Hfresh : map_has String.eqb k m = false).
    { destruct (map_has String.eqb k m) eqn:E; [|reflexivity].
      apply str_map_has_In in E. rewrite map_app in Hnd. simpl in Hnd.
      apply NoDup_remove_2 in Hnd. exfalso. apply Hnd.
      apply in_or_app. left. exact E. }
    rewrite (str_map_set_fresh _ _ _ _ Hfresh).
    rewrite IH; rewrite <- app_assoc; [reflexivity | exact Hnd].
Qed.

Lemma profileMapOf_wellKeyed : forall files c,
  wellKeyed files -> In c (flat_map columns files) ->
  map_get String.eqb (columnKey c) (profileMapOf (profilesOf files))
  = Some (createColumnProfile c).
Proof.
  intros files c [Hnd _] Hc. unfold profileMapOf, map_of_list.
  rewrite profilesOf_map, map_map.
  assert (Hkeys : List.map fst
            (List.map (fun x => (profileKey (createColumnProfile x),
                                 createColumnProfile x))
                      (flat_map columns files))
          = List.map columnKey (flat_map columns files)).
  { rewrite map_map. reflexivity. }
  rewrite (str_map_of_list_NoDup_from _ _ []) by (simpl; rewrite Hkeys; exact Hnd).
  simpl. apply str_map_get_unique.
  - unfold map_keys. rewrite Hkeys. exact Hnd.
  - apply in_map_iff. exists c. auto.
Qed.

Lemma wellKeyed_inj : forall files c1 c2,
  wellKeyed files ->
  In c1 (flat_map columns files) -> In c2 (flat_map columns files) ->
  columnKey c1 = columnKey c2 -> c1 = c2.
Proof.
  intros files c1 c2 [Hnd _]. generalize (flat_map columns files) Hnd.
  clear. induction l as [|c l IH]; intros Hnd H1 H2 E; [destruct H1|].
  simpl in Hnd. inversion Hnd as [|? ? Hc Hl]; subst.
  destruct H1 as [->|H1], H2 as [->|H2]; auto.
  - exfalso. apply Hc. rewrite E. apply in_map, H2.
  - exfalso. apply Hc. rewrite <- E. apply in_map, H1.
Qed.

(** Under unambiguous keys, two joined keys are the keys of two columns of
    different files that the scorer put above the threshold. *)
Lemma joined_columns : forall files a b,
  wellKeyed files ->
  joined (map_keys (acceptedPairs files)) a b ->
  exists ca cb,
    In ca (flat_map columns files) /\ In cb (flat_map columns files) /\
    columnKey ca = a /\ columnKey cb = b /\
    fileId ca <> fileId cb /\
    ((0.65 < calculateConfidence (createColumnProfile ca) (createColumnProfile cb))%Q \/
     (0.65 < calculateConfidence (createColumnProfile cb) (createColumnProfile ca))%Q).
Proof.
  intros files a b Hwf [pk [Hpk Hsplit]].
  unfold map_keys in Hpk. apply in_map_iff in Hpk. destruct Hpk as [e [<- He]].
  pose proof (findBestPairs_accepted (profilesOf files)) as Hacc.
  rewrite Forall_forall in Hacc.
  destruct (Hacc e He) as [p1 [p2 [H1 [H2 [Hf [Ek [_ [Es Ht]]]]]]]].
  destruct (profilesOf_In _ _ H1) as [c1 [Hc1 ->]].
  destruct (profilesOf_In _ _ H2) as [c2 [Hc2 ->]].
  destruct Hwf as [Hnd Hbar]. rewrite Forall_forall in Hbar.
  rewrite Ek in Hsplit.
  change (profileKey (createColumnProfile c1)) with (columnKey c1) in Hsplit.
  change (profileKey (createColumnProfile c2)) with (columnKey c2) in Hsplit.
  rewrite (splitPair_canonical _ _ (Hbar c1 Hc1) (Hbar c2 Hc2)) in Hsplit.
  rewrite Es in Ht. simpl in Hf.
  destruct (String.leb (columnKey c1) (columnKey c2));
    destruct Hsplit as [E|E]; injection E as <- <-.
  - exists c1, c2. auto 10.
  - exists c2, c1. auto 10.
  - exists c2, c1. auto 10.
  - exists c1, c2. auto 10.
Qed.

End Keys.

(** ** Runs on unambiguous keys *)

Lemma allDefined_map_Some : forall (X : Type) (l : list X),
  allDefined (List.map Some l) = Some l.
Proof.
  induction l as [|x l IH]; simpl; [reflexivity|]. rewrite IH. reflexivity.
Qed.

Lemma insertMatch_Permutation : forall m l,
  Permutation (insertMatch m l) (m :: l).
Proof.
  intros m l. induction l as [|h t IH]; simpl; [apply Permutation_refl|].
  destruct (Qltb _ _); [|apply Permutation_refl].
  eapply Permutation_trans; [apply perm_skip, IH | apply perm_swap].
Qed.

Lemma sortMatches_Permutation : forall l, Permutation (sortMatches l) l.
Proof.
  unfold sortMatches. induction l as [|h t IH]; simpl; [constructor|].
  eapply Permutation_trans; [apply insertMatch_Permutation|].
  apply perm_skip, IH.
Qed.

Section WellKeyedRuns.
Context `{JsRuntime}.

Variable files : list UploadedFile.
Hypothesis Hwf : wellKeyed files.

Lemma endpoint_column : forall k,
  In k (endpoints (map_keys (acceptedPairs files))) ->
  exists c, In c (flat_map columns files) /\ columnKey c = k.
Proof.
  intros k Hk. unfold endpoints in Hk. apply in_flat_map in Hk.
  destruct Hk as [pk [Hpk Hk]].
  assert (Hj : joined (map_keys (acceptedPairs files))
                 (fst (splitPair pk)) (snd (splitPair pk))).
  { exists pk. split; [exact Hpk|]. left. apply surjective_pairing. }
  destruct (joined_columns _ _ _ Hwf Hj) as [ca [cb [Ha [Hb [Ea [Eb _]]]]]].
  destruct Hk as [<-|[<-|[]]]; eauto.
Qed.

Lemma keys_columns : forall ks,
  (forall k, In k ks -> exists c, In c (flat_map columns files) /\ columnKey c = k) ->
  exists cs, List.map columnKey cs = ks /\ incl cs (flat_map columns files).
Proof.
  induction ks as [|k ks IH]; intro Hks.
  - exists []. split; [reflexivity | intros x []].
  - destruct (Hks k (or_introl eq_refl)) as [c [Hc Ek]].
    destruct IH as [cs [Ecs Hcs]]; [intros k' Hk'; apply Hks; right; exact Hk'|].
    exists (c :: cs). split; [simpl; congruence|].
    intros x [<-|Hx]; [exact Hc | apply Hcs, Hx].
Qed.

(** The match of a cluster lists the columns the cluster's keys name. *)
Definition matchOfCluster (clusterKeys : list string) (m : Match) : Prop :=
  exists cs,
    List.map columnKey cs = clusterKeys /\
    incl cs (flat_map columns files) /\
    match_columns m = List.map memberOfColumn cs.

Lemma buildMatch_wellKeyed : forall clusters index clusterKeys,
  buildClusters (map_keys (acceptedPairs files)) = Some clusters ->
  In clusterKeys (map_values clusters) ->
  exists m,
    buildMatch (acceptedPairs files) (profileMapOf (profilesOf files))
               index clusterKeys = Some m /\
    matchOfCluster clusterKeys m.
Proof.
  intros clusters index clusterKeys Hb Hc.
  destruct (buildClusters_components _ _ Hb) as [_ [Hcomp _]].
  destruct (Hcomp _ Hc) as [_ [_ Hend]].
  destruct (keys_columns clusterKeys) as [cs [Ecs Hcs]].
  { intros k Hk. apply endpoint_column, Hend, Hk. }
  assert (Hne : cs <> []).
  { pose proof (buildClusters_seeded _ _ Hb) as Hseed.
    rewrite Forall_forall in Hseed. destruct (Hseed _ Hc) as [pk [_ [H1 _]]].
    intro E. subst cs. simpl in Ecs. subst clusterKeys. destruct H1. }
  unfold buildMatch. unfold acceptedPairs at 1.
  rewrite clusterScore_spec by apply findBestPairs_NoDup.
  assert (Eget : List.map (fun key => map_get String.eqb key
                             (profileMapOf (profilesOf files))) clusterKeys
                 = List.map Some (List.map createColumnProfile cs)).
  { rewrite <- Ecs, !map_map. apply map_ext_in. intros c Hin.
    apply profileMapOf_wellKeyed; [exact Hwf | apply Hcs, Hin]. }
  rewrite Eget, allDefined_map_Some.
  destruct cs as [|c0 cs']; [congruence|]. simpl findMostDescriptiveName.
  eexists. split; [reflexivity|]. exists (c0 :: cs').
  split; [exact Ecs|]. split; [exact Hcs|]. simpl. f_equal.
  rewrite map_map. reflexivity.
Qed.

Lemma matches_wellKeyed : forall clusters,
  buildClusters (map_keys (acceptedPairs files)) = Some clusters ->
  exists ms,
    allDefined
      (List.map (fun ic => buildMatch (acceptedPairs files)
                             (profileMapOf (profilesOf files)) (fst ic) (snd ic))
                (indexed (map_values clusters))) = Some ms /\
    Forall2 matchOfCluster (map_values clusters) ms.
Proof.
  intros clusters Hb. unfold indexed.
  assert (Hgen : forall l start,
    incl l (map_values clusters) ->
    exists ms,
      allDefined
        (List.map (fun ic => buildMatch (acceptedPairs files)
                               (profileMapOf (profilesOf files)) (fst ic) (snd ic))
                  (combine (seq start (List.length l)) l)) = Some ms /\
      Forall2 matchOfCluster l ms).
  { induction l as [|c l IH]; intros start Hl; simpl.
    - exists []. split; [reflexivity | constructor].
    - destruct (buildMatch_wellKeyed clusters start c Hb (Hl c (or_introl eq_refl)))
        as [m [Em Hm]].
      destruct (IH (S start)) as [ms [Ems Hms]];
        [intros x Hx; apply Hl; right; exact Hx|].
      rewrite Em, Ems. simpl. exists (m :: ms).
      split; [reflexivity | constructor; assumption]. }
  apply Hgen, incl_refl.
Qed.

(** Under unambiguous keys a run over two files or more returns. *)
Lemma generateMatches_wellKeyed :
  2 <= List.length files ->
  exists clusters ms,
    buildClusters (map_keys (acceptedPairs files)) = Some clusters /\
    Forall2 matchOfCluster (map_values clusters) ms /\
    generateMatches files =
    Returned
      {| matches := sortMatches ms;
         unmatched :=
           filter (fun c => negb (str_has (columnKey c)
                     (set_of_list String.eqb (List.concat (map_values clusters)))))
                  (flat_map columns files) |}.
Proof.
  intro Hlen.
  destruct (buildClusters_returns (map_keys (acceptedPairs files)))
    as [clusters Hb].
  destruct (matches_wellKeyed clusters Hb) as [ms [Ems Hms]].
  exists clusters, ms. split; [exact Hb|]. split; [exact Hms|].
  unfold generateMatches. apply Nat.ltb_ge in Hlen. rewrite Hlen.
  fold (profilesOf files). fold (acceptedPairs files).
  fold (profileMapOf (profilesOf files)).
  rewrite Hb, Ems. reflexivity.
Qed.

End WellKeyedRuns.

(** ** The clusterer's properties on unambiguous keys *)

Section WellKeyedClaims.
Context `{JsRuntime}.

Variable files : list UploadedFile.
Hypothesis Hwf : wellKeyed files.

Lemma memberKey_memberOfColumn : forall c,
  memberKey (memberOfColumn c) = columnKey c.
Proof. reflexivity. Qed.

Lemma columns_NoDup : NoDup (flat_map columns files).
Proof. destruct Hwf as [Hnd _]. apply (NoDup_map_inv _ _ Hnd). Qed.

Lemma members_NoDup : forall cs,
  NoDup (List.map columnKey cs) -> NoDup (List.map memberOfColumn cs).
Proof.
  intros cs Hnd. apply (NoDup_map_inv memberKey). rewrite map_map. exact Hnd.
Qed.

(** The columns the clusters name, cluster after cluster. *)
Lemma clustered_columns : forall clusterLists ms,
  Forall2 (matchOfCluster files) clusterLists ms ->
  exists cs,
    List.map columnKey cs = List.concat clusterLists /\
    incl cs (flat_map columns files) /\
    flat_map match_columns ms = List.map memberOfColumn cs.
Proof.
  intros clusterLists ms HF. induction HF as [|c m cl ms' [cs [Ek [Hin Em]]] HF IH].
  - exists []. split; [reflexivity|]. split; [intros x [] | reflexivity].
  - destruct IH as [cs' [Ek' [Hin' Em']]]. exists (cs ++ cs'). simpl.
    rewrite !map_app, Ek, Ek', Em, Em'.
    split; [reflexivity|]. split; [apply incl_app; assumption | reflexivity].
Qed.

Lemma column_of_key : forall cs c,
  incl cs (flat_map columns files) -> In c (flat_map columns files) ->
  In (columnKey c) (List.map columnKey cs) -> In c cs.
Proof.
  intros cs c Hcs Hc Hk. apply in_map_iff in Hk. destruct Hk as [c' [E Hc']].
  rewrite <- (wellKeyed_inj files c' c Hwf (Hcs c' Hc') Hc E). exact Hc'.
Qed.

Lemma str_has_set_of_list : forall k l,
  str_has k (set_of_list String.eqb l) = str_has k l.
Proof.
  intros k l. unfold str_has.
  apply (set_has_of_list _ _ String.eqb_sym string_eqb_trans).
Qed.

(** C2, amended.  On two files or more whose column keys are unambiguous,
    the run returns, and the members of its matches together with its
    unmatched columns are the input columns, each once. *)
Theorem partition_of_columns :
  2 <= List.length files ->
  exists result,
    generateMatches files = Returned result /\
    Permutation
      (flat_map match_columns (matches result)
       ++ List.map memberOfColumn (unmatched result))
      (List.map memberOfColumn (flat_map columns files)) /\
    NoDup (flat_map match_columns (matches result)
           ++ List.map memberOfColumn (unmatched result)).
Proof.
  intro Hlen.
  destruct (generateMatches_wellKeyed files Hwf Hlen)
    as [clusters [ms [Hb [HF Hg]]]].
  destruct (buildClusters_components _ _ Hb) as [Hnd _].
  destruct (clustered_columns _ _ HF) as [cs [Ek [Hcs Em]]].
  eexists. split; [exact Hg|]. cbn [matches unmatched].
  set (cols := flat_map columns files) in *.
  set (keys := List.concat (map_values clusters)) in *.
  assert (Hperm : Permutation
            (cs ++ filter (fun c => negb (str_has (columnKey c)
                              (set_of_list String.eqb keys))) cols)
            cols).
  { apply NoDup_Permutation.
    - apply NoDup_app.
      + apply (NoDup_map_inv columnKey). rewrite Ek. exact Hnd.
      + apply NoDup_filter, columns_NoDup.
      + intros c Hc Hf. apply filter_In in Hf. destruct Hf as [_ Hf].
        apply negb_true_iff in Hf. rewrite str_has_set_of_list in Hf.
        apply str_has_false in Hf. apply Hf. rewrite <- Ek. apply in_map, Hc.
    - apply columns_NoDup.
    - intro c. rewrite in_app_iff, filter_In. split.
      + intros [Hc|[Hc _]]; [apply Hcs, Hc | exact Hc].
      + intro Hc. rewrite str_has_set_of_list.
        destruct (str_has (columnKey c) keys) eqn:E.
        * left. apply str_has_In in E. rewrite <- Ek in E.
          apply column_of_key; assumption.
        * right. auto. }
  assert (Hall : Permutation
            (flat_map match_columns (sortMatches ms)
             ++ List.map memberOfColumn
                  (filter (fun c => negb (str_has (columnKey c)
                              (set_of_list String.eqb keys))) cols))
            (List.map memberOfColumn cols)).
  { eapply Permutation_trans; [|apply Permutation_map, Hperm].
    rewrite map_app. apply Permutation_app_tail. rewrite <- Em.
    apply Permutation_flat_map, sortMatches_Permutation. }
  split; [exact Hall|].
  eapply Permutation_NoDup; [apply Permutation_sym, Hall|].
  apply members_NoDup. apply Hwf.
Qed.

(** Two columns of the input whose pair was accepted lie in one cluster. *)
Lemma accepted_pair_cluster : forall clusters a b,
  buildClusters (map_keys (acceptedPairs files)) = Some clusters ->
  In a (flat_map columns files) -> In b (flat_map columns files) ->
  In (canonicalPairKey (columnKey a) (columnKey b))
     (map_keys (acceptedPairs files)) ->
  exists c, In c (map_values clusters) /\
            In (columnKey a) c /\ In (columnKey b) c.
Proof.
  intros clusters a b Hb Ha Hbc Hpk.
  destruct (buildClusters_components _ _ Hb) as [_ [_ Hpairs]].
  destruct (Hpairs _ Hpk) as [c [Hc [H1 H2]]].
  destruct Hwf as [_ Hbar]. rewrite Forall_forall in Hbar.
  rewrite (splitPair_canonical _ _ (Hbar a Ha) (Hbar b Hbc)) in H1, H2.
  exists c. split; [exact Hc|].
  destruct (String.leb (columnKey a) (columnKey b)); simpl in H1, H2; auto.
Qed.

Lemma concat_NoDup_same : forall (l : list (list string)) c1 c2 k,
  NoDup (List.concat l) -> In c1 l -> In c2 l -> In k c1 -> In k c2 -> c1 = c2.
Proof.
  induction l as [|c l IH]; intros c1 c2 k Hnd H1 H2 K1 K2; [destruct H1|].
  simpl in Hnd. apply NoDup_app_remove_l in Hnd as Hl.
  assert (Hdisj : forall x c', In c' l -> In x c -> In x c' -> False).
  { intros x c' Hc' Hx Hx'. revert Hnd. clear - Hc' Hx Hx'.
    intro Hnd. apply in_split in Hx. destruct Hx as [l1 [l2 ->]].
    rewrite <- app_assoc in Hnd. simpl in Hnd.
    apply NoDup_remove_2 in Hnd. apply Hnd.
    rewrite app_assoc. apply in_or_app. right.
    apply in_concat. eauto. }
  destruct H1 as [<-|H1], H2 as [<-|H2].
  - reflexivity.
  - exfalso. eapply Hdisj; eassumption.
  - exfalso. eapply Hdisj; eassumption.
  - eapply IH; eassumption.
Qed.

Lemma Forall2_In_l : forall (X Y : Type) (R : X -> Y -> Prop) l1 l2 x,
  Forall2 R l1 l2 -> In x l1 -> exists y, In y l2 /\ R x y.
Proof.
  intros X Y R l1 l2 x HF. induction HF as [|a b l1 l2 Hab HF IH]; intros [].
  - subst. exists b. split; [left; reflexivity | exact Hab].
  - destruct (IH H0) as [y [Hy Hr]]. exists y. split; [right; exact Hy | exact Hr].
Qed.

Lemma Forall2_In_r : forall (X Y : Type) (R : X -> Y -> Prop) l1 l2 y,
  Forall2 R l1 l2 -> In y l2 -> exists x, In x l1 /\ R x y.
Proof.
  intros X Y R l1 l2 y HF. induction HF as [|a b l1 l2 Hab HF IH]; intros [].
  - subst. exists a. split; [left; reflexivity | exact Hab].
  - destruct (IH H0) as [x [Hx Hr]]. exists x. split; [right; exact Hx | exact Hr].
Qed.

(** Clustering closure on unambiguous keys: two accepted pairs with a
    common column put their three columns into one emitted match. *)
Theorem clustering_closure : forall a b c,
  2 <= List.length files ->
  In a (flat_map columns files) ->
  In b (flat_map columns files) ->
  In c (flat_map columns files) ->
  In (canonicalPairKey (columnKey a) (columnKey b))
     (map_keys (acceptedPairs files)) ->
  In (canonicalPairKey (columnKey b) (columnKey c))
     (map_keys (acceptedPairs files)) ->
  exists result m,
    generateMatches files = Returned result /\
    In m (matches result) /\
    In (memberOfColumn a) (match_columns m) /\
    In (memberOfColumn b) (match_columns m) /\
    In (memberOfColumn c) (match_columns m).
Proof.
  intros a b c Hlen Ha Hb Hc Pab Pbc.
  destruct (generateMatches_wellKeyed files Hwf Hlen)
    as [clusters [ms [Hbuild [HF Hg]]]].
  destruct (buildClusters_components _ _ Hbuild) as [Hnd _].
  destruct (accepted_pair_cluster clusters a b Hbuild Ha Hb Pab)
    as [c1 [Hc1 [Ka Kb]]].
  destruct (accepted_pair_cluster clusters b c Hbuild Hb Hc Pbc)
    as [c2 [Hc2 [Kb' Kc]]].
  assert (E : c1 = c2) by (eapply concat_NoDup_same; eassumption).
  subst c2.
  destruct (Forall2_In_l _ _ _ _ _ _ HF Hc1) as [m [Hm [cs [Ek [Hcs Em]]]]].
  eexists. exists m. split; [exact Hg|]. cbn [matches].
  split; [apply sortMatches_In, Hm|].
  rewrite Em, <- Ek in *.
  repeat split; apply in_map; apply column_of_key; assumption.
Qed.

(** What a run on unambiguous keys returns. *)
Lemma returned_wellKeyed : forall result,
  generateMatches files = Returned result ->
  matches result = [] \/
  exists clusters ms,
    buildClusters (map_keys (acceptedPairs files)) = Some clusters /\
    Forall2 (matchOfCluster files) (map_values clusters) ms /\
    matches result = sortMatches ms.
Proof.
  intros result Hg.
  destruct (Nat.lt_ge_cases (List.length files) 2) as [Hlt|Hge].
  - left. unfold generateMatches in Hg. apply Nat.ltb_lt in Hlt.
    rewrite Hlt in Hg. injection Hg as <-. reflexivity.
  - right. destruct (generateMatches_wellKeyed files Hwf Hge)
      as [clusters [ms [Hb [HF Hg']]]].
    exists clusters, ms. split; [exact Hb|]. split; [exact HF|].
    rewrite Hg' in Hg. injection Hg as <-. reflexivity.
Qed.

(** Minimum fan-out on unambiguous keys: every emitted match has two
    members from two different files, and no member is listed twice, in one
    match or in two. *)
Theorem minimum_fan_out : forall result,
  generateMatches files = Returned result ->
  (forall m, In m (matches result) ->
     exists c1 c2,
       In c1 (match_columns m) /\ In c2 (match_columns m) /\
       cim_fileId c1 <> cim_fileId c2) /\
  NoDup (flat_map match_columns (matches result)).
Proof.
  intros result Hg.
  destruct (returned_wellKeyed result Hg) as [E|[clusters [ms [Hb [HF E]]]]];
    rewrite E.
  { split; [intros m [] | constructor]. }
  destruct (buildClusters_components _ _ Hb) as [Hnd _].
  split.
  - intros m Hm. apply (proj1 (sortMatches_In _ _)) in Hm.
    destruct (Forall2_In_r _ _ _ _ _ _ HF Hm) as [c [Hc [cs [Ek [Hcs Em]]]]].
    pose proof (buildClusters_seeded _ _ Hb) as Hseed.
    rewrite Forall_forall in Hseed.
    destruct (Hseed c Hc) as [pk [Hpk [K1 K2]]].
    assert (Hj : joined (map_keys (acceptedPairs files))
                   (fst (splitPair pk)) (snd (splitPair pk))).
    { exists pk. split; [exact Hpk|]. left. apply surjective_pairing. }
    destruct (joined_columns _ _ _ Hwf Hj)
      as [ca [cb [Ha [Hb' [Ea [Eb [Hf _]]]]]]].
    rewrite <- Ea, <- Ek in K1. rewrite <- Eb, <- Ek in K2.
    exists (memberOfColumn ca), (memberOfColumn cb). rewrite Em.
    split; [apply in_map, column_of_key; assumption|].
    split; [apply in_map, column_of_key; assumption | exact Hf].
  - destruct (clustered_columns _ _ HF) as [cs [Ek [Hcs Em]]].
    eapply Permutation_NoDup.
    + apply Permutation_sym, Permutation_flat_map, sortMatches_Permutation.
    + rewrite Em. apply members_NoDup. rewrite Ek. exact Hnd.
Qed.

Lemma chained_same_type : forall x k,
  In x (flat_map columns files) ->
  chained (map_keys (acceptedPairs files)) (columnKey x) k ->
  forall y, In y (flat_map columns files) -> columnKey y = k ->
  dataType x = dataType y.
Proof.
  intros x k Hx Hch.
  remember (columnKey x) as kx eqn:Ekx.
  induction Hch as [a|a b c Hab IH Hbc]; intros y Hy Ey.
  - subst a. rewrite (wellKeyed_inj files y x Hwf Hy Hx Ey). reflexivity.
  - destruct (joined_columns _ _ _ Hwf Hbc)
      as [cb [cc [Hcb [Hcc [Eb [Ec [_ Hs]]]]]]].
    rewrite (IH Ekx cb Hcb Eb).
    rewrite (wellKeyed_inj files y cc Hwf Hy Hcc (eq_trans Ey (eq_sym Ec))).
    destruct Hs as [Hs|Hs].
    + apply (calculateConfidence_positive_same_type
               (createColumnProfile cb) (createColumnProfile cc)).
      eapply Qlt_trans; [|exact Hs]. reflexivity.
    + symmetry.
      apply (calculateConfidence_positive_same_type
               (createColumnProfile cc) (createColumnProfile cb)).
      eapply Qlt_trans; [|exact Hs]. reflexivity.
Qed.

(** No cross-type match on unambiguous keys: the columns an emitted match
    names all have one DataType. *)
Theorem no_cross_type_match : forall result m c1 c2 col1 col2,
  generateMatches files = Returned result ->
  In m (matches result) ->
  In c1 (match_columns m) -> In c2 (match_columns m) ->
  In col1 (flat_map columns files) -> In col2 (flat_map columns files) ->
  refersTo c1 col1 -> refersTo c2 col2 ->
  dataType col1 = dataType col2.
Proof.
  intros result m c1 c2 col1 col2 Hg Hm H1 H2 Hcol1 Hcol2 [F1 N1] [F2 N2].
  destruct (returned_wellKeyed result Hg) as [E|[clusters [ms [Hb [HF E]]]]];
    rewrite E in Hm; [destruct Hm|].
  apply (proj1 (sortMatches_In _ _)) in Hm.
  destruct (Forall2_In_r _ _ _ _ _ _ HF Hm) as [c [Hc [cs [Ek [Hcs Em]]]]].
  destruct (buildClusters_components _ _ Hb) as [_ [Hcomp _]].
  destruct (Hcomp c Hc) as [Hchain _].
  assert (Hkey : forall member col,
            In member (match_columns m) -> In col (flat_map columns files) ->
            cim_fileId member = fileId col -> columnName member = originalName col ->
            In (columnKey col) c).
  { intros member col Hmem Hcol F N. rewrite Em in Hmem.
    apply in_map_iff in Hmem. destruct Hmem as [x [<- Hxin]].
    simpl in F, N. rewrite <- Ek.
    replace (columnKey col) with (columnKey x)
      by (unfold columnKey; rewrite F, N; reflexivity).
    apply in_map, Hxin. }
  apply (chained_same_type col1 (columnKey col2) Hcol1); [|exact Hcol2|reflexivity].
  apply Hchain; [apply (Hkey c1 col1) | apply (Hkey c2 col2)]; assumption.
Qed.

End WellKeyedClaims.

(** ** Worked runs *)

Lemma regionFiles_run : forall rt : JsRuntime,
  @generateMatches rt regionFiles
  = Returned {| matches := [regionMatch]; unmatched := [] |}.
Proof. intro rt. vm_compute. reflexivity. Qed.

Lemma scale_run : forall rt : JsRuntime,
  @generateMatches rt scaleFiles
  = Returned {| matches := []; unmatched := [transactionAmount; accountBalance] |}.
Proof. intro rt. vm_compute. reflexivity. Qed.

(** ** The numeric rule *)

Lemma scaleSimilarityOf_low : forall stats1 stats2,
  (scaleSimilarityOf stats1 stats2 < 0.5)%Q <->
  (3 <= Z.abs (orderOfMagnitude stats1 - orderOfMagnitude stats2))%Z.
Proof.
  intros stats1 stats2. unfold scaleSimilarityOf.
  set (d := (orderOfMagnitude stats1 - orderOfMagnitude stats2)%Z).
  assert (Ed : (Qabs (inject_Z (orderOfMagnitude stats1)
                      - inject_Z (orderOfMagnitude stats2))
                == inject_Z (Z.abs d))%Q).
  { unfold d, Qminus. rewrite <- inject_Z_opp, <- inject_Z_plus. reflexivity. }
  rewrite Ed. set (x := inject_Z (Z.abs d)).
  assert (Ey : (x / 5 == x * (1 # 5))%Q) by reflexivity.
  set (y := (x / 5)%Q) in *.
  destruct (Z_lt_le_dec (Z.abs d) 3) as [Hs|Hs].
  - assert (Hx : (x <= 2)%Q).
    { unfold x. change 2%Q with (inject_Z 2). rewrite <- Zle_Qle. lia. }
    split; [|lia]. intro Hlt. exfalso.
    destruct (Q.min_spec 1 y) as [[L E]|[L E]]; rewrite E in Hlt; lra.
  - assert (Hx : (3 <= x)%Q).
    { unfold x. change 3%Q with (inject_Z 3). rewrite <- Zle_Qle. exact Hs. }
    split; [intros _; exact Hs|]. intros _.
    destruct (Q.min_spec 1 y) as [[L E]|[L E]]; rewrite E; lra.
Qed.

(** C7.  For two number columns whose profiles both carry numeric stats
    and which are not both of uniqueness ratio above 0.9, the confidence is
    0.2 * nameSim when the scale similarity is below 0.5 (and is then not
    above the 0.65 threshold), and 0.5 * nameSim + 0.3 * shapeSimilarity +
    0.2 * scaleSimilarity otherwise.  In the scenario of the specification,
    [transaction_amount] against [account_balance], the score is at most
    0.2 * nameSim, is not above 0.65, and the run leaves both columns
    unmatched. *)
Theorem numeric_rule :
  (forall prof1 prof2 stats1 stats2,
     dataType (source prof1) = TNumber ->
     dataType (source prof2) = TNumber ->
     numericStats prof1 = Some stats1 ->
     numericStats prof2 = Some stats2 ->
     ~ (0.9 < uniquenessRatio prof1 /\ 0.9 < uniquenessRatio prof2)%Q ->
     ((scaleSimilarityOf stats1 stats2 < 0.5)%Q ->
      (calculateConfidence prof1 prof2
       == 0.2 * combinedNameSimilarity prof1 prof2)%Q /\
      ~ (0.65 < calculateConfidence prof1 prof2)%Q) /\
     (~ (scaleSimilarityOf stats1 stats2 < 0.5)%Q ->
      (calculateConfidence prof1 prof2
       == 0.5 * combinedNameSimilarity prof1 prof2
          + 0.3 * shapeSimilarityOf stats1 stats2
          + 0.2 * scaleSimilarityOf stats1 stats2)%Q))
  /\
  (forall rt : JsRuntime,
     (calculateConfidence (@createColumnProfile rt transactionAmount)
                          (@createColumnProfile rt accountBalance)
      <= 0.2 * combinedNameSimilarity (@createColumnProfile rt transactionAmount)
                                      (@createColumnProfile rt accountBalance))%Q /\
     ~ (0.65 < calculateConfidence (@createColumnProfile rt transactionAmount)
                                   (@createColumnProfile rt accountBalance))%Q /\
     @generateMatches rt scaleFiles
     = Returned {| matches := [];
                   unmatched := [transactionAmount; accountBalance] |}).
Proof.
  split.
  - intros prof1 prof2 stats1 stats2 T1 T2 S1 S2 Hu.
    rewrite (calculateConfidence_numeric _ _ _ _ T1 T2 S1 S2 Hu).
    pose proof (combinedNameSimilarity_bounds prof1 prof2) as Hn.
    split.
    + intro Hlow. apply Qltb_lt in Hlow. rewrite Hlow. split; [ring|].
      intro Hc. lra.
    + intro Hhigh.
      destruct (Qltb (scaleSimilarityOf stats1 stats2) 0.5) eqn:E.
      * apply Qltb_lt in E. contradiction.
      * ring.
  - intro rt. split; [|split].
    + apply Qle_bool_iff. vm_compute. reflexivity.
    + intro Hc. apply Qltb_lt in Hc. vm_compute in Hc. discriminate.
    + vm_compute. reflexivity.
Qed.

Lemma numeric_rule_witness :
  dataType (source (@createColumnProfile exampleRuntime transactionAmount)) = TNumber /\
  dataType (source (@createColumnProfile exampleRuntime accountBalance)) = TNumber /\
  numericStats (@createColumnProfile exampleRuntime transactionAmount)
    = Some transactionStats /\
  numericStats (@createColumnProfile exampleRuntime accountBalance)
    = Some balanceStats /\
  ~ (0.9 < uniquenessRatio (@createColumnProfile exampleRuntime transactionAmount) /\
     0.9 < uniquenessRatio (@createColumnProfile exampleRuntime accountBalance))%Q /\
  (scaleSimilarityOf transactionStats balanceStats < 0.5)%Q /\
  (calculateConfidence (@createColumnProfile exampleRuntime transactionAmount)
                       (@createColumnProfile exampleRuntime accountBalance)
   == 0.2 * combinedNameSimilarity
              (@createColumnProfile exampleRuntime transactionAmount)
              (@createColumnProfile exampleRuntime accountBalance))%Q.
Proof.
  assert (Hu : ~ (0.9 < uniquenessRatio (@createColumnProfile exampleRuntime transactionAmount) /\
     0.9 < uniquenessRatio (@createColumnProfile exampleRuntime accountBalance))%Q).
  { intros [Hc _]. vm_compute in Hc. discriminate. }
  assert (Hlow : (scaleSimilarityOf transactionStats balanceStats < 0.5)%Q).
  { vm_compute. reflexivity. }
  assert (S1 : numericStats (@createColumnProfile exampleRuntime transactionAmount)
               = Some transactionStats) by (vm_compute; reflexivity).
  assert (S2 : numericStats (@createColumnProfile exampleRuntime accountBalance)
               = Some balanceStats) by (vm_compute; reflexivity).
  repeat (split; [first [reflexivity | exact S1 | exact S2 | exact Hu | exact Hlow]|]).
  exact (proj1 (proj1 (proj1 numeric_rule
                  (@createColumnProfile exampleRuntime transactionAmount)
                  (@createColumnProfile exampleRuntime accountBalance)
                  transactionStats balanceStats
                  eq_refl eq_refl S1 S2 Hu) Hlow)).
Defined.

(** C9.  Given fewer than two files, [generateMatches] returns no match and
    no unmatched column, whatever the columns of the one file. *)
Theorem fewer_than_two_files : forall (rt : JsRuntime) files,
  List.length files < 2 ->
  @generateMatches rt files = Returned {| matches := []; unmatched := [] |}.
Proof.
  intros rt files Hlen. unfold generateMatches.
  apply Nat.ltb_lt in Hlen. rewrite Hlen. reflexivity.
Qed.

Lemma fewer_than_two_files_witness :
  List.length [uploaded "a.csv" 0 [regionA]] < 2 /\
  columns (uploaded "a.csv" 0 [regionA]) <> [] /\
  @generateMatches exampleRuntime [uploaded "a.csv" 0 [regionA]]
  = Returned {| matches := []; unmatched := [] |}.
Proof.
  split; [simpl; lia|]. split; [discriminate|].
  apply (fewer_than_two_files exampleRuntime). simpl. lia.
Defined.

(** C1, at an input whose column keys collide: the run emits a match with a
    number column and a string column. *)
Theorem mixed_types_run : forall rt : JsRuntime,
  exists result m c1 c2,
    @generateMatches rt mixedFiles = Returned result /\
    In m (matches result) /\
    In c1 (match_columns m) /\ In c2 (match_columns m) /\
    refersTo c1 collidingNumber /\ refersTo c2 plainRegion /\
    In collidingNumber (flat_map columns mixedFiles) /\
    In plainRegion (flat_map columns mixedFiles) /\
    dataType collidingNumber <> dataType plainRegion.
Proof.
  intro rt.
  eexists. eexists. eexists. eexists.
  split; [vm_compute; reflexivity|].
  split; [left; reflexivity|].
  split; [left; reflexivity|].
  split; [right; left; reflexivity|].
  repeat split; simpl; auto. discriminate.
Qed.

(** Where two columns share a key, a column of the input is neither a member
    of a match nor unmatched: the partition of the input columns needs
    unambiguous keys. *)
Theorem colliding_keys_run_drops_column : forall rt : JsRuntime,
  exists result,
    @generateMatches rt collidingFiles = Returned result /\
    In collidingA (flat_map columns collidingFiles) /\
    ~ In collidingA (unmatched result) /\
    ~ (exists m c, In m (matches result) /\ In c (match_columns m) /\
                   refersTo c collidingA).
Proof.
  intro rt. eexists. split; [vm_compute; reflexivity|].
  split; [left; reflexivity|]. split; [intros []|].
  intros [m [c [[<-|[]] [[<-|[]] [E _]]]]]. discriminate.
Qed.

(** C4, at an input whose column keys collide: the run emits a match with
    one member column. *)
Theorem colliding_keys_run_single_member : forall rt : JsRuntime,
  exists result m,
    @generateMatches rt collidingFiles = Returned result /\
    In m (matches result) /\
    List.length (match_columns m) = 1.
Proof.
  intro rt. eexists. eexists. split; [vm_compute; reflexivity|].
  split; [left; reflexivity | reflexivity].
Qed.

(** C3, at an input whose column names hold a [|]: two pairs with a common
    column are accepted, and the run throws, emitting no match. *)
Theorem bar_in_names_run_throws : forall rt : JsRuntime,
  In (canonicalPairKey (columnKey barB) (columnKey barA))
     (map_keys (@acceptedPairs rt barFiles)) /\
  In (canonicalPairKey (columnKey barA) (columnKey barC))
     (map_keys (@acceptedPairs rt barFiles)) /\
  @generateMatches rt barFiles = TypeError.
Proof.
  intro rt. split; [vm_compute; auto|]. split; [vm_compute; auto|].
  vm_compute. reflexivity.
Qed.

(** ** Maps keyed by values *)

Section MapKeys.
Variables K V : Type.
Variable eqb : K -> K -> bool.

Lemma map_keys_set : forall k (v : V) m,
  map_keys (map_set eqb k v m) = set_add eqb k (map_keys m).
Proof.
  intros k v m. unfold set_add, set_has, map_keys.
  induction m as [|[k' v'] m IH]; simpl; [reflexivity|].
  destruct (eqb k k') eqn:E; simpl; [reflexivity|].
  rewrite IH. destruct (existsb (eqb k) (List.map fst m)); reflexivity.
Qed.

Lemma map_keys_of_list_from : forall (entries : list (K * V)) m,
  map_keys (fold_left (fun m e => map_set eqb (fst e) (snd e) m) entries m)
  = fold_left (fun s k => set_add eqb k s) (List.map fst entries) (map_keys m).
Proof.
  induction entries as [|e entries IH]; intro m; simpl; [reflexivity|].
  rewrite IH, map_keys_set. reflexivity.
Qed.

Lemma map_keys_of_list : forall entries : list (K * V),
  map_keys (map_of_list eqb entries) = set_of_list eqb (List.map fst entries).
Proof. intro entries. apply (map_keys_of_list_from entries []). Qed.

Lemma map_has_keys : forall k (m : list (K * V)),
  map_has eqb k m = set_has eqb k (map_keys m).
Proof.
  intros k m. unfold map_has, set_has, map_keys.
  induction m as [|e m IH]; simpl; [reflexivity|]. rewrite IH. reflexivity.
Qed.

Lemma map_has_get : forall k (m : list (K * V)),
  map_has eqb k m = true -> exists v, map_get eqb k m = Some v.
Proof.
  intros k m Hm. unfold map_has in Hm. unfold map_get.
  induction m as [|e m IH]; simpl in *; [discriminate|].
  destruct (eqb k (fst e)); simpl; eauto.
Qed.

Lemma map_get_find : forall k v (m : list (K * V)),
  map_get eqb k m = Some v ->
  exists k', In (k', v) m /\ eqb k k' = true.
Proof.
  intros k v m Hg. unfold map_get in Hg.
  destruct (find (fun e => eqb k (fst e)) m) as [[k' v']|] eqn:E; [|discriminate].
  apply find_some in E. simpl in *. injection Hg as <-. exists k'. exact E.
Qed.

Hypothesis eqb_sym : forall k k', eqb k k' = eqb k' k.
Hypothesis eqb_trans : forall a b c,
  eqb a b = true -> eqb b c = true -> eqb a c = true.

Lemma map_has_of_list : forall k (entries : list (K * V)),
  map_has eqb k (map_of_list eqb entries)
  = set_has eqb k (List.map fst entries).
Proof.
  intros k entries. rewrite map_has_keys, map_keys_of_list.
  apply set_has_of_list; assumption.
Qed.

Lemma map_set_inv : forall (P : K -> V -> Prop) k v m,
  (forall k' v', In (k', v') m -> P k' v') ->
  P k v ->
  (forall k', eqb k k' = true -> P k' v) ->
  forall k' v', In (k', v') (map_set eqb k v m) -> P k' v'.
Proof.
  intros P k v m Hm Hk Hk'. induction m as [|[k0 v0] m IH]; simpl.
  - intros k' v' [E|[]]. injection E as <- <-. exact Hk.
  - destruct (eqb k k0) eqn:E.
    + intros k' v' [E'|Hin].
      * injection E' as <- <-. apply Hk', E.
      * apply Hm. right. exact Hin.
    + intros k' v' [E'|Hin].
      * injection E' as <- <-. apply Hm. left. reflexivity.
      * apply IH; [|exact Hin]. intros k1 v1 H1. apply Hm. right. exact H1.
Qed.

Hypothesis eqb_refl : forall k, eqb k k = true.

(** Every entry of [new Map(rows.map(row => [key(row), row]))] holds a row
    of the list under a key equal to the row's own. *)
Lemma map_of_rows_entry : forall (key : V -> K) (rows : list V) k v,
  In (k, v) (map_of_list eqb (List.map (fun r => (key r, r)) rows)) ->
  In v rows /\ eqb k (key v) = true.
Proof.
  intros key rows. unfold map_of_list.
  assert (Hgen : forall l m,
    incl l rows ->
    (forall k v, In (k, v) m -> In v rows /\ eqb k (key v) = true) ->
    forall k v,
      In (k, v) (fold_left (fun m e => map_set eqb (fst e) (snd e) m)
                   (List.map (fun r => (key r, r)) l) m) ->
      In v rows /\ eqb k (key v) = true).
  { induction l as [|r l IH]; intros m Hl Hm k v Hin; simpl in Hin.
    - apply Hm, Hin.
    - revert Hin. apply IH.
      + intros x Hx. apply Hl. right. exact Hx.
      + apply (map_set_inv (fun k v => In v rows /\ eqb k (key v) = true)).
        * exact Hm.
        * split; [apply Hl; left; reflexivity | apply eqb_refl].
        * intros k' E. split; [apply Hl; left; reflexivity|].
          rewrite eqb_sym. exact E. }
  intros k v. apply (Hgen rows []); [apply incl_refl | intros ? ? []].
Qed.

End MapKeys.

(** ** String-keyed maps *)

Lemma str_map_get_set_same : forall (V : Type) k (v : V) m,
  map_get String.eqb k (map_set String.eqb k v m) = Some v.
Proof.
  intros V k v m. unfold map_get. induction m as [|[k' v'] m IH]; simpl.
  - rewrite String.eqb_refl. reflexivity.
  - destruct (String.eqb k k') eqn:E; simpl; rewrite E; [reflexivity | exact IH].
Qed.

Lemma str_map_get_set_other : forall (V : Type) k k' (v : V) m,
  k <> k' ->
  map_get String.eqb k' (map_set String.eqb k v m) = map_get String.eqb k' m.
Proof.
  intros V k k' v m Hne. unfold map_get. induction m as [|[k0 v0] m IH]; simpl.
  - apply String.eqb_neq in Hne. rewrite String.eqb_sym, Hne. reflexivity.
  - destruct (String.eqb k k0) eqn:E; simpl.
    + apply String.eqb_eq in E. subst k0.
      apply String.eqb_neq in Hne. rewrite String.eqb_sym, Hne. reflexivity.
    + destruct (String.eqb k' k0); [reflexivity | exact IH].
Qed.

(** ** The key pair the aligner selects *)

Definition selectedPair (keys : list KeyCandidate) (bm : KeyMatch) : Prop :=
  In (key1 bm) keys /\ In (key2 bm) keys /\
  key_fileId (key1 bm) <> key_fileId (key2 bm) /\
  key_score bm
    = nameSimilarity (key_cleanedName (key1 bm)) (key_cleanedName (key2 bm)) /\
  (0.7 < key_score bm)%Q.

Lemma selectBestMatch_spec : forall keys bm,
  selectBestMatch keys = Some bm -> selectedPair keys bm.
Proof.
  intros keys bm Hs. unfold selectBestMatch in Hs.
  set (Inv := fun st : option KeyMatch * Q =>
    (0.7 <= snd st)%Q /\
    forall bm, fst st = Some bm -> selectedPair keys bm /\ key_score bm = snd st).
  assert (HInv : Inv (fold_left
            (fun st i => fold_left (compareKeys keys i)
               (seq (i + 1) (List.length keys - (i + 1))) st)
            (seq 0 (List.length keys)) (None, 0.7%Q))).
  { apply fold_left_inv.
    - split; [apply Qle_refl | discriminate].
    - intros st i _ Hst. apply fold_left_inv; [exact Hst|].
      clear st Hst. intros st j _ [Hge Hst]. unfold compareKeys.
      destruct (nth_error keys i) as [k1|] eqn:E1; [|split; assumption].
      destruct (nth_error keys j) as [k2|] eqn:E2; [|split; assumption].
      destruct (String.eqb (key_fileId k1) (key_fileId k2)) eqn:Ef;
        simpl; [split; assumption|].
      destruct (Qltb (snd st) _) eqn:Eq; [|split; assumption].
      apply Qltb_lt in Eq. split; simpl.
      + apply Qlt_le_weak. eapply Qle_lt_trans; eassumption.
      + intros bm' E. injection E as <-. split; [|reflexivity].
        unfold selectedPair. simpl.
        split; [eapply nth_error_In; eassumption|].
        split; [eapply nth_error_In; eassumption|].
        split; [apply String.eqb_neq, Ef|].
        split; [reflexivity|].
        eapply Qle_lt_trans; eassumption. }
  destruct HInv as [_ HInv]. apply HInv, Hs.
Qed.

(** ** The row aligner *)

Lemma potentialKeys_file : forall files k,
  In k (potentialKeys files) ->
  exists f, In f files /\ key_fileId k = if_id f /\ In (key_header k) (headers f).
Proof.
  intros files k Hk. unfold potentialKeys in Hk.
  apply filter_In in Hk. destruct Hk as [Hk _].
  apply in_flat_map in Hk. destruct Hk as [f [Hf Hk]].
  apply in_map_iff in Hk. destruct Hk as [h [E Hh]].
  exists f. subst k. unfold createSimpleProfile. simpl. auto.
Qed.

Lemma rowsOfFile_defined : forall files f,
  In f files -> exists rows, rowsOfFile files (if_id f) = Some rows.
Proof.
  intros files f Hf. unfold rowsOfFile. apply map_has_get.
  rewrite (map_has_of_list _ _ _ String.eqb_sym string_eqb_trans).
  rewrite map_map. simpl. apply existsb_exists. exists (if_id f).
  split; [apply in_map, Hf | apply String.eqb_refl].
Qed.

Definition keyedRows (header : string) (data : list Row) : list (value * Row) :=
  map_of_list value_eqb (List.map (fun row => (cell row header, row)) data).

Lemma commonKeysOf_spec : forall h1 h2 data1 data2,
  commonKeysOf (keyedRows h1 data1) (keyedRows h2 data2)
  = commonKeyValues (keyColumn h1 data1) (keyColumn h2 data2).
Proof.
  intros h1 h2 data1 data2. unfold commonKeysOf, commonKeyValues, keyedRows.
  rewrite map_keys_of_list, map_map. simpl. fold (keyColumn h1 data1).
  apply filter_ext. intro k. f_equal.
  rewrite (map_has_of_list _ _ _ value_eqb_sym value_eqb_trans).
  rewrite map_map. reflexivity.
Qed.

Lemma rowOf_keyedRows : forall h data k,
  map_has value_eqb k (keyedRows h data) = true ->
  In (rowOf (keyedRows h data) k) data /\
  value_eqb k (cell (rowOf (keyedRows h data) k) h) = true.
Proof.
  intros h data k Hk. unfold rowOf.
  destruct (map_has_get _ _ _ _ _ Hk) as [row Hg]. rewrite Hg.
  destruct (map_get_find _ _ _ _ _ _ Hg) as [k' [Hin E]].
  destruct (map_of_rows_entry _ _ _ value_eqb_sym value_eqb_refl
              (fun r => cell r h) data k' row Hin) as [Hrow E'].
  split; [exact Hrow|]. apply (value_eqb_trans _ _ _ E E').
Qed.

Lemma commonKeyValues_in_both : forall h1 h2 data1 data2 k,
  In k (commonKeysOf (keyedRows h1 data1) (keyedRows h2 data2)) ->
  map_has value_eqb k (keyedRows h1 data1) = true /\
  map_has value_eqb k (keyedRows h2 data2) = true.
Proof.
  intros h1 h2 data1 data2 k Hk. unfold commonKeysOf in Hk.
  apply filter_In in Hk. destruct Hk as [Hk Hc].
  apply andb_true_iff in Hc. destruct Hc as [_ Hc]. split; [|exact Hc].
  rewrite map_has_keys. unfold set_has. apply existsb_exists.
  exists k. split; [exact Hk | apply value_eqb_refl].
Qed.

Lemma append_assoc : forall a b c : string,
  ((a ++ b) ++ c)%string = (a ++ (b ++ c))%string.
Proof.
  induction a as [|x a IH]; intros b c; simpl; [reflexivity|].
  rewrite IH. reflexivity.
Qed.

Lemma tooFewMessage_shows_count : forall k1 k2 count,
  exists before after,
    tooFewMessage k1 k2 count = (before ++ decimal count ++ after)%string.
Proof.
  intros k1 k2 count. unfold tooFewMessage.
  exists ("Found potential key columns (" ++ dquote ++ key_header k1 ++ dquote
          ++ " and " ++ dquote ++ key_header k2 ++ dquote
          ++ ") but they had too few common values (")%string,
         ") to align rows confidently.".
  rewrite !append_assoc. reflexivity.
Qed.

(** C8.  Once the aligner has selected a pair of key columns (two candidates
    of different files whose cleaned names are more than 0.7 similar), the
    alignment succeeds exactly when the two tables share 11 key values or
    more.  With 10 or fewer it reports failure, its message shows the
    count, and no table changes.  On success the rows of both tables are
    replaced, key by key in the order the first table meets the shared
    keys, by a row of the table with that key. *)
Theorem row_alignment_threshold : forall files bestMatch,
  selectBestMatch (potentialKeys files) = Some bestMatch ->
  exists file1Data file2Data result finalDataMap,
    rowsOfFile files (key_fileId (key1 bestMatch)) = Some file1Data /\
    rowsOfFile files (key_fileId (key2 bestMatch)) = Some file2Data /\
    key_fileId (key1 bestMatch) <> key_fileId (key2 bestMatch) /\
    (0.7 < nameSimilarity (key_cleanedName (key1 bestMatch))
                          (key_cleanedName (key2 bestMatch)))%Q /\
    alignRows files = Some (result, finalDataMap) /\
    (success result = true <->
     11 <= List.length
             (commonKeyValues (keyColumn (key_header (key1 bestMatch)) file1Data)
                              (keyColumn (key_header (key2 bestMatch)) file2Data))) /\
    (List.length
       (commonKeyValues (keyColumn (key_header (key1 bestMatch)) file1Data)
                        (keyColumn (key_header (key2 bestMatch)) file2Data)) <= 10 ->
     success result = false /\
     message result
       = tooFewMessage (key1 bestMatch) (key2 bestMatch)
           (List.length
              (commonKeyValues (keyColumn (key_header (key1 bestMatch)) file1Data)
                               (keyColumn (key_header (key2 bestMatch)) file2Data))) /\
     (exists before after,
        message result
        = (before
           ++ decimal
                (List.length
                   (commonKeyValues
                      (keyColumn (key_header (key1 bestMatch)) file1Data)
                      (keyColumn (key_header (key2 bestMatch)) file2Data)))
           ++ after)%string) /\
     forall id, map_get String.eqb id finalDataMap = rowsOfFile files id) /\
    (11 <= List.length
             (commonKeyValues (keyColumn (key_header (key1 bestMatch)) file1Data)
                              (keyColumn (key_header (key2 bestMatch)) file2Data)) ->
     exists rows1 rows2,
       map_get String.eqb (key_fileId (key1 bestMatch)) finalDataMap = Some rows1 /\
       map_get String.eqb (key_fileId (key2 bestMatch)) finalDataMap = Some rows2 /\
       (forall id, id <> key_fileId (key1 bestMatch) ->
                   id <> key_fileId (key2 bestMatch) ->
                   map_get String.eqb id finalDataMap = rowsOfFile files id) /\
       forall i,
         match nth_error
                 (commonKeyValues
                    (keyColumn (key_header (key1 bestMatch)) file1Data)
                    (keyColumn (key_header (key2 bestMatch)) file2Data)) i with
         | Some k =>
             exists row1 row2,
               nth_error rows1 i = Some row1 /\ nth_error rows2 i = Some row2 /\
               In row1 file1Data /\ In row2 file2Data /\
               value_eqb k (cell row1 (key_header (key1 bestMatch))) = true /\
               value_eqb k (cell row2 (key_header (key2 bestMatch))) = true
         | None => nth_error rows1 i = None /\ nth_error rows2 i = None
         end).
Proof.
  intros files bm Hs.
  destruct (selectBestMatch_spec _ _ Hs) as [Hk1 [Hk2 [Hne [Esc Hsc]]]].
  destruct (potentialKeys_file _ _ Hk1) as [f1 [Hf1 [E1 _]]].
  destruct (potentialKeys_file _ _ Hk2) as [f2 [Hf2 [E2 _]]].
  destruct (rowsOfFile_defined _ _ Hf1) as [data1 Hd1]. rewrite <- E1 in Hd1.
  destruct (rowsOfFile_defined _ _ Hf2) as [data2 Hd2]. rewrite <- E2 in Hd2.
  set (h1 := key_header (key1 bm)) in *. set (h2 := key_header (key2 bm)) in *.
  set (common := commonKeyValues (keyColumn h1 data1) (keyColumn h2 data2)).
  assert (Ealign : alignRows files =
    if 10 <? List.length common
    then Some ({| success := true; message := alignedMessage (key1 bm) (key2 bm) |},
               map_set String.eqb (key_fileId (key2 bm))
                 (List.map (rowOf (keyedRows h2 data2)) common)
                 (map_set String.eqb (key_fileId (key1 bm))
                    (List.map (rowOf (keyedRows h1 data1)) common)
                    (map_of_list String.eqb
                       (List.map (fun f => (if_id f, rawData f)) files))))
    else Some ({| success := false;
                  message := tooFewMessage (key1 bm) (key2 bm) (List.length common) |},
               map_of_list String.eqb
                 (List.map (fun f => (if_id f, rawData f)) files))).
  { unfold alignRows. rewrite Hs. cbv zeta. unfold rowsOfFile in Hd1, Hd2.
    rewrite Hd1, Hd2. fold h1 h2.
    change (map_of_list value_eqb
              (List.map (fun row => (cell row h1, row)) data1))
      with (keyedRows h1 data1).
    change (map_of_list value_eqb
              (List.map (fun row => (cell row h2, row)) data2))
      with (keyedRows h2 data2).
    rewrite commonKeysOf_spec. reflexivity. }
  exists data1, data2.
  destruct (10 <? List.length common) eqn:El.
  - apply Nat.ltb_lt in El. eexists. eexists.
    split; [exact Hd1|]. split; [exact Hd2|]. split; [exact Hne|].
    split; [rewrite <- Esc; exact Hsc|]. split; [exact Ealign|].
    split; [simpl; split; [intros _; exact El | reflexivity]|].
    split; [intro Hle; fold common in Hle; lia|]. intros _.
    exists (List.map (rowOf (keyedRows h1 data1)) common),
           (List.map (rowOf (keyedRows h2 data2)) common).
    split.
    { rewrite str_map_get_set_other by (intro E; apply Hne; symmetry; exact E).
      apply str_map_get_set_same. }
    split; [apply str_map_get_set_same|].
    split.
    { intros id N1 N2. rewrite !str_map_get_set_other by congruence.
      reflexivity. }
    intro i. rewrite !nth_error_map. fold common.
    destruct (nth_error common i) as [k|] eqn:Ek; simpl; [|auto].
    apply nth_error_In in Ek. unfold common in Ek.
    rewrite <- commonKeysOf_spec in Ek.
    destruct (commonKeyValues_in_both _ _ _ _ _ Ek) as [M1 M2].
    destruct (rowOf_keyedRows _ _ _ M1) as [R1 V1].
    destruct (rowOf_keyedRows _ _ _ M2) as [R2 V2].
    eexists. eexists. repeat split; eassumption.
  - apply Nat.ltb_ge in El. eexists. eexists.
    split; [exact Hd1|]. split; [exact Hd2|]. split; [exact Hne|].
    split; [rewrite <- Esc; exact Hsc|]. split; [exact Ealign|].
    split; [simpl; split; [discriminate | intro Hge; fold common in Hge; lia]|].
    split; [|intro Hge; fold common in Hge; lia]. intros _.
    split; [reflexivity|]. split; [reflexivity|].
    split; [apply tooFewMessage_shows_count | reflexivity].
Qed.

Lemma orderKeys_selected :
  selectBestMatch (potentialKeys [ordersFile; shipmentsFile]) = Some orderKeys.
Proof. vm_compute. reflexivity. Qed.

Lemma row_alignment_threshold_witness :
  selectBestMatch (potentialKeys [ordersFile; shipmentsFile]) = Some orderKeys /\
  exists result finalDataMap,
    alignRows [ordersFile; shipmentsFile] = Some (result, finalDataMap) /\
    success result = true.
Proof.
  split; [exact orderKeys_selected|].
  destruct (row_alignment_threshold [ordersFile; shipmentsFile] orderKeys
              orderKeys_selected)
    as [d1 [d2 [result [finalDataMap [H1 [H2 [_ [_ [Ha [Hs _]]]]]]]]]].
  exists result, finalDataMap. split; [exact Ha|].
  apply Hs.
  assert (E1 : d1 = rawData ordersFile).
  { vm_compute in H1. injection H1 as <-. reflexivity. }
  assert (E2 : d2 = rawData shipmentsFile).
  { vm_compute in H2. injection H2 as <-. reflexivity. }
  subst d1 d2. vm_compute. repeat constructor.
Defined.

(** ** The claims on unambiguous keys, at the three region files *)

Lemma regionFiles_wellKeyed : wellKeyed regionFiles.
Proof.
  split.
  - repeat (constructor; [simpl; intuition discriminate|]). constructor.
  - repeat constructor.
Qed.

(** Counterexample to C2 as stated.  On one file the run returns no match
    and no unmatched column (line 156), so the file's column is in neither
    list. *)
Lemma single_file_columns_are_dropped :
  @generateMatches exampleRuntime [uploaded "a.csv" 0 [regionA]]
  = Returned {| matches := []; unmatched := [] |} /\
  flat_map columns [uploaded "a.csv" 0 [regionA]] = [regionA] /\
  ~ Permutation
      (flat_map match_columns (@nil Match)
       ++ List.map memberOfColumn (@nil ColumnData))
      (List.map memberOfColumn
         (flat_map columns [uploaded "a.csv" 0 [regionA]])).
Proof.
  split; [reflexivity|]. split; [reflexivity|].
  intro Hp. apply Permutation_length in Hp. discriminate.
Qed.

Lemma partition_of_columns_witness :
  wellKeyed regionFiles /\
  2 <= List.length regionFiles /\
  exists result,
    @generateMatches exampleRuntime regionFiles = Returned result /\
    Permutation
      (flat_map match_columns (matches result)
       ++ List.map memberOfColumn (unmatched result))
      (List.map memberOfColumn (flat_map columns regionFiles)) /\
    NoDup (flat_map match_columns (matches result)
           ++ List.map memberOfColumn (unmatched result)).
Proof.
  split; [exact regionFiles_wellKeyed|].
  split; [simpl; lia|].
  apply (@partition_of_columns exampleRuntime regionFiles regionFiles_wellKeyed).
  simpl. lia.
Defined.

Lemma regionFiles_pairs : forall rt : JsRuntime,
  In (canonicalPairKey (columnKey regionB) (columnKey regionA))
     (map_keys (@acceptedPairs rt regionFiles)) /\
  In (canonicalPairKey (columnKey regionA) (columnKey regionC))
     (map_keys (@acceptedPairs rt regionFiles)).
Proof. intro rt. split; vm_compute; auto. Qed.

Lemma clustering_closure_witness :
  exists result m,
    @generateMatches exampleRuntime regionFiles = Returned result /\
    In m (matches result) /\
    In (memberOfColumn regionB) (match_columns m) /\
    In (memberOfColumn regionA) (match_columns m) /\
    In (memberOfColumn regionC) (match_columns m).
Proof.
  apply (@clustering_closure exampleRuntime regionFiles regionFiles_wellKeyed
           regionB regionA regionC).
  - simpl. lia.
  - simpl. auto.
  - simpl. auto.
  - simpl. auto.
  - exact (proj1 (regionFiles_pairs exampleRuntime)).
  - exact (proj2 (regionFiles_pairs exampleRuntime)).
Defined.

Lemma minimum_fan_out_witness :
  (forall m, In m [regionMatch] ->
     exists c1 c2,
       In c1 (match_columns m) /\ In c2 (match_columns m) /\
       cim_fileId c1 <> cim_fileId c2) /\
  NoDup (flat_map match_columns [regionMatch]).
Proof.
  exact (@minimum_fan_out exampleRuntime regionFiles regionFiles_wellKeyed
           {| matches := [regionMatch]; unmatched := [] |}
           (regionFiles_run exampleRuntime)).
Defined.

Lemma no_cross_type_match_witness : dataType regionA = dataType regionC.
Proof.
  apply (@no_cross_type_match exampleRuntime regionFiles regionFiles_wellKeyed
           {| matches := [regionMatch]; unmatched := [] |} regionMatch
           (memberOfColumn regionA) (memberOfColumn regionC) regionA regionC).
  - exact (regionFiles_run exampleRuntime).
  - left. reflexivity.
  - left. reflexivity.
  - right. right. left. reflexivity.
  - simpl. auto.
  - simpl. auto.
  - split; reflexivity.
  - split; reflexivity.
Defined.

Lemma calculateConfidence_type_mismatch_witness :
  dataType (source (@createColumnProfile exampleRuntime collidingNumber))
  <> dataType (source (@createColumnProfile exampleRuntime plainRegion)) /\
  calculateConfidence (@createColumnProfile exampleRuntime collidingNumber)
                      (@createColumnProfile exampleRuntime plainRegion) = 0%Q.
Proof.
  assert (Hne : dataType (source (@createColumnProfile exampleRuntime collidingNumber))
                <> dataType (source (@createColumnProfile exampleRuntime plainRegion)))
    by discriminate.
  split; [exact Hne|].
  exact (calculateConfidence_type_mismatch _ _ Hne).
Defined.

(* ================================================================== *)
(** * Part IV. Further properties of the code *)
(* ================================================================== *)

(** ** Numeric statistics *)

Lemma Qmin_cases : forall a b : Q, Qmin a b = a \/ Qmin a b = b.
Proof.
  intros a b. unfold Qmin, GenericMinMax.gmin.
  destruct (a ?= b)%Q; auto.
Qed.

Lemma Qmax_cases : forall a b : Q, Qmax a b = a \/ Qmax a b = b.
Proof.
  intros a b. unfold Qmax, GenericMinMax.gmax.
  destruct (a ?= b)%Q; auto.
Qed.

Lemma fold_Qmin_spec : forall l a,
  In (fold_left Qmin l a) (a :: l) /\
  (forall x, In x (a :: l) -> (fold_left Qmin l a <= x)%Q).
Proof.
  induction l as [|y l IH]; intros a; simpl.
  - split; [auto|]. intros x [<-|[]]. apply Qle_refl.
  - destruct (IH (Qmin a y)) as [Hin Hle]. split.
    + destruct Hin as [E|Hin]; [|auto].
      rewrite <- E. destruct (Qmin_cases a y) as [-> | ->]; auto.
    + intros x [<-|[<-|Hx]].
      * eapply Qle_trans; [apply Hle; left; reflexivity | apply Q.le_min_l].
      * eapply Qle_trans; [apply Hle; left; reflexivity | apply Q.le_min_r].
      * apply Hle. right. exact Hx.
Qed.

Lemma fold_Qmax_spec : forall l a,
  In (fold_left Qmax l a) (a :: l) /\
  (forall x, In x (a :: l) -> (x <= fold_left Qmax l a)%Q).
Proof.
  induction l as [|y l IH]; intros a; simpl.
  - split; [auto|]. intros x [<-|[]]. apply Qle_refl.
  - destruct (IH (Qmax a y)) as [Hin Hle]. split.
    + destruct Hin as [E|Hin]; [|auto].
      rewrite <- E. destruct (Qmax_cases a y) as [-> | ->]; auto.
    + intros x [<-|[<-|Hx]].
      * eapply Qle_trans; [apply Q.le_max_l | apply Hle; left; reflexivity].
      * eapply Qle_trans; [apply Q.le_max_r | apply Hle; left; reflexivity].
      * apply Hle. right. exact Hx.
Qed.

Lemma minOf_spec : forall xs, xs <> [] ->
  In (minOf xs) xs /\ forall x, In x xs -> (minOf xs <= x)%Q.
Proof.
  intros [|a l] Hne; [congruence|]. apply fold_Qmin_spec.
Qed.

Lemma maxOf_spec : forall xs, xs <> [] ->
  In (maxOf xs) xs /\ forall x, In x xs -> (x <= maxOf xs)%Q.
Proof.
  intros [|a l] Hne; [congruence|]. apply fold_Qmax_spec.
Qed.

Lemma sumOf_between : forall lo hi l,
  (forall x, In x l -> (lo <= x <= hi)%Q) ->
  (lo * Qnat (List.length l) <= sumOf l <= hi * Qnat (List.length l))%Q.
Proof.
  intros lo hi l. induction l as [|x l IH]; intros Hall.
  - unfold sumOf, Qnat. simpl. change (inject_Z 0) with 0%Q. lra.
  - rewrite sumOf_cons. cbn [List.length]. rewrite Qnat_S.
    destruct (Hall x (or_introl eq_refl)) as [H1 H2].
    destruct IH as [I1 I2]; [intros y Hy; apply Hall; right; exact Hy|].
    lra.
Qed.

Lemma numbersOf_In : forall `{JsRuntime} data q,
  In q (numbersOf data) <-> exists d, In d data /\ toNumber d = Some q.
Proof.
  intros rt data q. unfold numbersOf. rewrite in_flat_map. split.
  - intros [d [Hd Hq]]. exists d. split; [exact Hd|].
    destruct (toNumber d); [destruct Hq as [<-|[]]; reflexivity | destruct Hq].
  - intros [d [Hd E]]. exists d. split; [exact Hd|]. rewrite E. left. reflexivity.
Qed.

(** The statistics of a column exist where two cells or more convert to a
    number; the smallest and the largest are numbers of the data, and every
    number of the data lies between them. *)
Theorem getNumericStats_order : forall `{JsRuntime} data stats,
  getNumericStats data = Some stats ->
  2 <= List.length (numbersOf data) /\
  (exists d, In d data /\ toNumber d = Some (stat_min stats)) /\
  (exists d, In d data /\ toNumber d = Some (stat_max stats)) /\
  (forall d q, In d data -> toNumber d = Some q ->
     (stat_min stats <= q <= stat_max stats)%Q).
Proof.
  intros rt data stats. unfold getNumericStats.
  fold (numbersOf data). set (xs := numbersOf data).
  destruct (List.length xs <? 2) eqn:Hlen; [discriminate|].
  apply Nat.ltb_ge in Hlen.
  assert (Hne : xs <> []) by (intro E; rewrite E in Hlen; simpl in Hlen; lia).
  destruct (minOf_spec xs Hne) as [Hmin Hminle].
  destruct (maxOf_spec xs Hne) as [Hmax Hmaxle].
  intro E. injection E as <-. cbn [stat_min stat_max].
  split; [exact Hlen|]. split; [|split].
  - apply numbersOf_In. exact Hmin.
  - apply numbersOf_In. exact Hmax.
  - intros d q Hd Eq.
    assert (Hq : In q xs) by (apply numbersOf_In; exists d; auto).
    split; [apply Hminle | apply Hmaxle]; exact Hq.
Qed.

(** ** Profiles *)

Lemma uniqueness_bounds : forall sample : list value,
  (0 <= Qnat (List.length (set_of_list value_eqb sample))
        / Qnat (if List.length sample =? 0 then 1 else List.length sample)
   <= 1)%Q.
Proof.
  intro sample.
  pose proof (set_of_list_length _ value_eqb sample) as Hle.
  apply Qnat_ratio_bounds.
  - destruct (List.length sample =? 0) eqn:E; [|exact Hle].
    apply Nat.eqb_eq in E. lia.
  - destruct (List.length sample =? 0) eqn:E; [lia|].
    apply Nat.eqb_neq in E. lia.
Qed.

(** The profile of a column: its value set holds each sampled value that
    is not empty once, and the uniqueness ratio is a share between 0 and
    1. *)
Theorem createColumnProfile_uniqueness : forall `{JsRuntime} column,
  (0 <= uniquenessRatio (createColumnProfile column) <= 1)%Q /\
  distinct value value_eqb (valueSet (createColumnProfile column)) /\
  (forall v, In v (valueSet (createColumnProfile column)) ->
     In v (sampleData column) /\ nonEmpty v = true) /\
  (forall v, In v (sampleData column) -> nonEmpty v = true ->
     set_has value_eqb v (valueSet (createColumnProfile column)) = true).
Proof.
  intros rt column. unfold createColumnProfile. cbn [uniquenessRatio valueSet].
  split; [apply uniqueness_bounds|].
  split; [apply set_of_list_distinct, value_eqb_sym|].
  split.
  - intros v Hv. apply In_set_of_list in Hv. apply filter_In in Hv. exact Hv.
  - intros v Hv Hn.
    rewrite (set_has_of_list _ value_eqb value_eqb_sym value_eqb_trans).
    unfold set_has. apply existsb_exists. exists v.
    split; [apply filter_In; auto | apply value_eqb_refl].
Qed.

(** ** Cleaned names *)

Lemma lower_unit_idem : forall c, lower_unit (lower_unit c) = lower_unit c.
Proof. intros [[] [] [] [] [] [] [] []]; reflexivity. Qed.

Lemma is_sep_lower_unit : forall c, is_sep_unit (lower_unit c) = is_sep_unit c.
Proof. intros [[] [] [] [] [] [] [] []]; reflexivity. Qed.

Lemma toLowerCase_removeSeparators : forall s,
  toLowerCase (removeSeparators s) = removeSeparators (toLowerCase s).
Proof.
  induction s as [|c s IH]; [reflexivity|]. simpl.
  rewrite is_sep_lower_unit. destruct (is_sep_unit c); simpl; congruence.
Qed.

Lemma toLowerCase_idem : forall s, toLowerCase (toLowerCase s) = toLowerCase s.
Proof.
  induction s as [|c s IH]; [reflexivity|]. simpl.
  rewrite lower_unit_idem, IH. reflexivity.
Qed.

Lemma removeSeparators_idem : forall s,
  removeSeparators (removeSeparators s) = removeSeparators s.
Proof.
  induction s as [|c s IH]; [reflexivity|]. simpl.
  destruct (is_sep_unit c) eqn:E; [exact IH|]. simpl. rewrite E, IH. reflexivity.
Qed.

Lemma toLowerCase_append : forall s t,
  toLowerCase (s ++ t) = (toLowerCase s ++ toLowerCase t)%string.
Proof. induction s as [|c s IH]; intro t; simpl; [|rewrite IH]; reflexivity. Qed.

Lemma removeSeparators_append : forall s t,
  removeSeparators (s ++ t) = (removeSeparators s ++ removeSeparators t)%string.
Proof.
  induction s as [|c s IH]; intro t; simpl; [reflexivity|].
  rewrite IH. destruct (is_sep_unit c); reflexivity.
Qed.

Lemma removeSeparators_units : forall s c,
  In c (list_ascii_of_string (removeSeparators s)) ->
  is_sep_unit c = false /\ In c (list_ascii_of_string s).
Proof.
  induction s as [|d s IH]; intros c Hc; [destruct Hc|]. simpl in Hc.
  destruct (is_sep_unit d) eqn:E.
  - destruct (IH c Hc). split; [assumption | right; assumption].
  - destruct Hc as [<-|Hc]; [split; [exact E | left; reflexivity]|].
    destruct (IH c Hc). split; [assumption | right; assumption].
Qed.

Lemma toLowerCase_units : forall s c,
  In c (list_ascii_of_string (toLowerCase s)) -> lower_unit c = c.
Proof.
  induction s as [|d s IH]; intros c Hc; [destruct Hc|].
  destruct Hc as [<-|Hc]; [apply lower_unit_idem | apply IH, Hc].
Qed.

(** Cleaning a name: the result holds no separator and no capital letter,
    cleaning it again changes nothing, and names are cleaned piece by
    piece. *)
Theorem cleanName_normal_form : forall name,
  cleanName (cleanName name) = cleanName name /\
  (forall other,
     cleanName (name ++ other) = (cleanName name ++ cleanName other)%string) /\
  (forall c, In c (list_ascii_of_string (cleanName name)) ->
     is_sep_unit c = false /\ lower_unit c = c).
Proof.
  intro name. unfold cleanName. split; [|split].
  - rewrite toLowerCase_removeSeparators, toLowerCase_idem.
    apply removeSeparators_idem.
  - intro other. rewrite toLowerCase_append. apply removeSeparators_append.
  - intros c Hc. apply removeSeparators_units in Hc. destruct Hc as [Hs Hc].
    split; [exact Hs | exact (toLowerCase_units _ _ Hc)].
Qed.

(** ** Base names *)

Lemma length_append : forall s t,
  String.length (s ++ t) = String.length s + String.length t.
Proof. induction s as [|c s IH]; intro t; simpl; [|rewrite IH]; reflexivity. Qed.

Lemma substring_0_length : forall t, substring 0 (String.length t) t = t.
Proof. induction t as [|c t IH]; simpl; [|rewrite IH]; reflexivity. Qed.

Lemma substring_append_skip : forall pre t n,
  substring (String.length pre) n (pre ++ t) = substring 0 n t.
Proof. induction pre as [|c pre IH]; intros t n; simpl; [reflexivity | apply IH]. Qed.

Lemma substring_0_append : forall pre t,
  substring 0 (String.length pre) (pre ++ t) = pre.
Proof.
  induction pre as [|c pre IH]; intro t; simpl.
  - destruct t; reflexivity.
  - rewrite IH. reflexivity.
Qed.

Lemma substring_split : forall s k, k <= String.length s ->
  s = (substring 0 k s ++ substring k (String.length s - k) s)%string.
Proof.
  induction s as [|c s IH]; intros k Hk.
  - simpl in Hk. destruct k; [reflexivity | lia].
  - destruct k as [|k].
    + cbn [substring String.length Nat.sub append].
      rewrite substring_0_length. reflexivity.
    + simpl in Hk. cbn [substring String.length Nat.sub append].
      rewrite <- IH by lia. reflexivity.
Qed.

Lemma endsWith_iff : forall s suffix,
  endsWith s suffix = true <-> exists pre, s = (pre ++ suffix)%string.
Proof.
  intros s suffix. unfold endsWith. rewrite andb_true_iff, Nat.leb_le, String.eqb_eq.
  split.
  - intros [Hle E]. exists (substring 0 (String.length s - String.length suffix) s).
    pose proof (substring_split s (String.length s - String.length suffix)) as Hs.
    replace (String.length s - (String.length s - String.length suffix))
      with (String.length suffix) in Hs by lia.
    rewrite E in Hs. apply Hs. lia.
  - intros [pre ->]. rewrite length_append. split; [lia|].
    replace (String.length pre + String.length suffix - String.length suffix)
      with (String.length pre) by lia.
    rewrite substring_append_skip. apply substring_0_length.
Qed.

Lemma common_end : forall p p' a b,
  (p ++ a)%string = (p' ++ b)%string -> String.length a <= String.length b ->
  exists q, b = (q ++ a)%string.
Proof.
  induction p as [|c p IH]; intros p' a b E Hlen.
  - simpl in E. subst a. rewrite length_append in Hlen.
    destruct p'; [exists ""; reflexivity | simpl in Hlen; lia].
  - destruct p' as [|c' p'].
    + simpl in E. exists (String c p). auto.
    + simpl in E. injection E as _ E. exact (IH _ _ _ E Hlen).
Qed.

Lemma semanticSuffixes_apart : forall a b,
  In a semanticSuffixes -> In b semanticSuffixes ->
  endsWith b a = true -> a = b.
Proof.
  intros a b Ha Hb.
  unfold semanticSuffixes in Ha, Hb. simpl in Ha, Hb.
  repeat (destruct Ha as [<-|Ha]; [
    repeat (destruct Hb as [<-|Hb]; [vm_compute; intro; (reflexivity || discriminate)|]);
    destruct Hb|]).
  destruct Ha.
Qed.

(** The base name: the cleaned name without the one listed suffix it ends
    with; no string ends with two of them, and a name that ends with none is
    its own base name. *)
Theorem stripSuffix_spec : forall s,
  (exists suffix,
     In suffix semanticSuffixes /\
     s = (stripSuffix s ++ suffix)%string /\
     forall other pre, In other semanticSuffixes ->
       s = (pre ++ other)%string -> other = suffix) \/
  (stripSuffix s = s /\
   forall suffix pre, In suffix semanticSuffixes -> s <> (pre ++ suffix)%string).
Proof.
  intro s. unfold stripSuffix.
  destruct (find (endsWith s) semanticSuffixes) as [suffix|] eqn:E.
  - left. apply find_some in E. destruct E as [Hin He].
    exists suffix. split; [exact Hin|].
    destruct (proj1 (endsWith_iff _ _) He) as [pre Epre].
    split.
    + rewrite Epre, length_append.
      replace (String.length pre + String.length suffix - String.length suffix)
        with (String.length pre) by lia.
      rewrite substring_0_append. reflexivity.
    + intros other pre' Ho Eo.
      destruct (Nat.le_ge_cases (String.length other) (String.length suffix)) as [L|L].
      * apply semanticSuffixes_apart; [exact Ho | exact Hin|].
        apply endsWith_iff. apply (common_end pre' pre). { congruence. } exact L.
      * symmetry. apply semanticSuffixes_apart; [exact Hin | exact Ho|].
        apply endsWith_iff. apply (common_end pre pre'). { congruence. } exact L.
  - right. split; [reflexivity|]. intros suffix pre Hin Es.
    pose proof (find_none _ _ E suffix Hin) as Hf.
    assert (Ht : endsWith s suffix = true) by (apply endsWith_iff; eauto).
    congruence.
Qed.

(** ** Value overlap *)

Section Overlap.

Local Abbreviation vdistinct := (distinct value value_eqb).
Local Abbreviation vhas := (set_has value_eqb).

Lemma vhas_true : forall v s,
  vhas v s = true <-> exists k, In k s /\ value_eqb v k = true.
Proof. intros v s. unfold set_has. apply existsb_exists. Qed.

Lemma vhas_In : forall v s, In v s -> vhas v s = true.
Proof. intros v s Hv. apply vhas_true. exists v. split; [exact Hv | apply value_eqb_refl]. Qed.

Lemma vhas_filter_false : forall f k s,
  vhas k s = false -> vhas k (filter f s) = false.
Proof.
  intros f k s. induction s as [|x s IH]; [reflexivity|]. simpl.
  intro E. apply orb_false_iff in E. destruct E as [E1 E2].
  destruct (f x); simpl; rewrite ?E1; auto.
Qed.

Lemma distinct_filter : forall f s, vdistinct s -> vdistinct (filter f s).
Proof.
  intros f s Hd. induction Hd as [|k s Hk Hd IH]; simpl; [constructor|].
  destruct (f k); [|exact IH].
  constructor; [apply vhas_filter_false, Hk | exact IH].
Qed.

Lemma distinct_app_head : forall acc k l,
  vdistinct (acc ++ k :: l) -> vhas k acc = false.
Proof.
  induction acc as [|a acc IH]; intros k l Hd; [reflexivity|].
  inversion Hd as [|a' s Ha Hd' Es]; subst. simpl.
  rewrite (IH _ _ Hd'), orb_false_r.
  rewrite value_eqb_sym.
  destruct (value_eqb a k) eqn:E; [|reflexivity].
  assert (Ht : vhas a (acc ++ k :: l) = true).
  { apply vhas_true. exists k. split; [apply in_or_app; right; left; reflexivity | exact E]. }
  congruence.
Qed.

Lemma set_of_list_fixed_from : forall l acc,
  vdistinct (acc ++ l) ->
  fold_left (fun s k => set_add value_eqb k s) l acc = acc ++ l.
Proof.
  induction l as [|k l IH]; intros acc Hd; simpl; [symmetry; apply app_nil_r|].
  unfold set_add at 2. rewrite (distinct_app_head _ _ _ Hd).
  rewrite IH; rewrite <- app_assoc; [reflexivity | exact Hd].
Qed.

Lemma set_of_list_distinct_id : forall l,
  vdistinct l -> set_of_list value_eqb l = l.
Proof. intros l Hd. apply (set_of_list_fixed_from l [] Hd). Qed.

Lemma overlap_has : forall s1 s2 k,
  In k (overlap s1 s2) -> vhas k (overlap s2 s1) = true.
Proof.
  intros s1 s2 k Hk. apply filter_In in Hk. destruct Hk as [H1 H2].
  apply vhas_true in H2. destruct H2 as [k' [Hk' E]].
  apply vhas_true. exists k'. split; [|exact E].
  apply filter_In. split; [exact Hk'|].
  apply vhas_true. exists k. split; [exact H1|]. rewrite value_eqb_sym. exact E.
Qed.

Lemma overlap_length_sym : forall s1 s2,
  vdistinct s1 -> vdistinct s2 ->
  List.length (overlap s1 s2) = List.length (overlap s2 s1).
Proof.
  intros s1 s2 H1 H2. apply Nat.le_antisymm;
    apply (distinct_length_le _ value_eqb value_eqb_sym value_eqb_trans);
    try (apply distinct_filter; assumption); apply overlap_has.
Qed.

Lemma overlap_length_le : forall s1 s2,
  List.length (overlap s1 s2) <= List.length s1.
Proof. intros. apply filter_length_le. Qed.

Lemma filter_length_all : forall (X : Type) (f : X -> bool) l,
  List.length (filter f l) = List.length l -> forall x, In x l -> f x = true.
Proof.
  intros X f. induction l as [|y l IH]; intros E x Hx; [destruct Hx|].
  simpl in E. pose proof (filter_length_le f l) as Hle.
  destruct (f y) eqn:Ey; simpl in E; [|lia].
  destruct Hx as [<-|Hx]; [exact Ey | apply IH; [lia | exact Hx]].
Qed.

Lemma filter_all_length : forall (X : Type) (f : X -> bool) l,
  (forall x, In x l -> f x = true) -> filter f l = l.
Proof.
  intros X f. induction l as [|y l IH]; intro H; [reflexivity|]. simpl.
  rewrite (H y (or_introl eq_refl)), IH; [reflexivity|].
  intros x Hx. apply H. right. exact Hx.
Qed.

Lemma filter_none_nil : forall (X : Type) (f : X -> bool) l,
  filter f l = [] <-> forall x, In x l -> f x = false.
Proof.
  intros X f. induction l as [|y l IH]; simpl.
  - split; [intros _ x [] | reflexivity].
  - destruct (f y) eqn:Ey; split.
    + discriminate.
    + intro H. rewrite (H y (or_introl eq_refl)) in Ey. discriminate.
    + intros E x [<-|Hx]; [exact Ey | apply IH; assumption].
    + intro H. apply IH. intros x Hx. apply H. right. exact Hx.
Qed.

(** What [jaccardSimilarity] computes on two sets without duplicates. *)
Lemma jaccardSimilarity_overlap : forall s1 s2,
  vdistinct s1 -> s1 <> [] -> s2 <> [] ->
  jaccardSimilarity s1 s2
  = (Qnat (List.length (overlap s1 s2))
     / Qnat (List.length s1 + List.length s2 - List.length (overlap s1 s2)))%Q /\
  0 < List.length s1 + List.length s2 - List.length (overlap s1 s2).
Proof.
  intros s1 s2 H1 N1 N2. unfold jaccardSimilarity.
  fold (overlap s1 s2).
  rewrite (set_of_list_distinct_id (overlap s1 s2)
             (distinct_filter (fun x => vhas x s2) s1 H1)).
  pose proof (overlap_length_le s1 s2) as Hle.
  assert (L1 : 0 < List.length s1) by (destruct s1; [congruence | simpl; lia]).
  assert (L2 : 0 < List.length s2) by (destruct s2; [congruence | simpl; lia]).
  assert (E1 : (List.length s1 =? 0) = false) by (apply Nat.eqb_neq; lia).
  assert (E2 : (List.length s2 =? 0) = false) by (apply Nat.eqb_neq; lia).
  assert (E3 : (List.length s1 + List.length s2
                - List.length (overlap s1 s2) =? 0) = false)
    by (apply Nat.eqb_neq; lia).
  rewrite E1, E2. cbn [orb]. rewrite E3.
  split; [reflexivity | lia].
Qed.

Lemma jaccardSimilarity_nil_l : forall s, jaccardSimilarity [] s = 0%Q.
Proof. reflexivity. Qed.

Lemma jaccardSimilarity_nil_r : forall s, jaccardSimilarity s [] = 0%Q.
Proof. intro s. unfold jaccardSimilarity. simpl. rewrite orb_true_r. reflexivity. Qed.

Lemma jaccardSimilarity_sym : forall s1 s2,
  vdistinct s1 -> vdistinct s2 ->
  jaccardSimilarity s1 s2 = jaccardSimilarity s2 s1.
Proof.
  intros s1 s2 H1 H2.
  destruct s1 as [|a s1]; [rewrite jaccardSimilarity_nil_r; reflexivity|].
  destruct s2 as [|b s2]; [rewrite jaccardSimilarity_nil_r; reflexivity|].
  destruct (jaccardSimilarity_overlap (a :: s1) (b :: s2) H1) as [-> _];
    [discriminate | discriminate|].
  destruct (jaccardSimilarity_overlap (b :: s2) (a :: s1) H2) as [-> _];
    [discriminate | discriminate|].
  rewrite (overlap_length_sym _ _ H1 H2).
  rewrite (Nat.add_comm (List.length (a :: s1))). reflexivity.
Qed.

Lemma Qnat_ratio_one : forall i u, 0 < u ->
  (Qnat i / Qnat u == 1)%Q <-> i = u.
Proof.
  intros i u Hu. pose proof (Qnat_pos u Hu) as Hp. split.
  - intro E. assert (E' : (Qnat i == Qnat u)%Q).
    { assert (Ef : (Qnat i == Qnat i / Qnat u * Qnat u)%Q)
        by (field; apply Qnot_eq_sym, Qlt_not_eq, Hp).
      rewrite E in Ef. clear E. lra. }
    unfold Qnat in E'. rewrite inject_Z_injective in E'. apply Nat2Z.inj. exact E'.
  - intros ->. field. apply Qnot_eq_sym, Qlt_not_eq, Hp.
Qed.

Lemma Qnat_ratio_zero : forall i u, 0 < u ->
  (Qnat i / Qnat u == 0)%Q <-> i = 0.
Proof.
  intros i u Hu. pose proof (Qnat_pos u Hu) as Hp. split.
  - intro E. assert (E' : (Qnat i == Qnat 0)%Q).
    { assert (Ef : (Qnat i == Qnat i / Qnat u * Qnat u)%Q)
        by (field; apply Qnot_eq_sym, Qlt_not_eq, Hp).
      rewrite E in Ef. clear E. change (Qnat 0) with 0%Q. lra. }
    unfold Qnat in E'. rewrite inject_Z_injective in E'. apply Nat2Z.inj. exact E'.
  - intros ->. change (Qnat 0) with 0%Q. field. apply Qnot_eq_sym, Qlt_not_eq, Hp.
Qed.

Lemma jaccardSimilarity_one : forall s1 s2,
  vdistinct s1 -> vdistinct s2 -> s1 <> [] ->
  (forall v, In v s1 -> vhas v s2 = true) ->
  (forall v, In v s2 -> vhas v s1 = true) ->
  (jaccardSimilarity s1 s2 == 1)%Q.
Proof.
  intros s1 s2 H1 H2 N1 A B.
  assert (N2 : s2 <> []).
  { destruct s1 as [|a s1]; [congruence|]. intros ->.
    specialize (A a (or_introl eq_refl)). discriminate. }
  destruct (jaccardSimilarity_overlap s1 s2 H1 N1 N2) as [-> Hu].
  apply (Qnat_ratio_one _ _ Hu).
  pose proof (overlap_length_sym _ _ H1 H2) as Es.
  unfold overlap in *. rewrite (filter_all_length _ _ _ A) in *.
  rewrite (filter_all_length _ _ _ B) in Es. lia.
Qed.

End Overlap.

(** The overlap of two value sets does not depend on their order; it is 0
    exactly when no value of the first is in the second, and 1 exactly when
    the sets are not empty and hold the same values. *)
Theorem jaccardSimilarity_extremes : forall set1 set2,
  distinct value value_eqb set1 -> distinct value value_eqb set2 ->
  jaccardSimilarity set1 set2 = jaccardSimilarity set2 set1 /\
  ((jaccardSimilarity set1 set2 == 0)%Q <->
   forall v, In v set1 -> set_has value_eqb v set2 = false) /\
  ((jaccardSimilarity set1 set2 == 1)%Q <->
   set1 <> [] /\
   (forall v, In v set1 -> set_has value_eqb v set2 = true) /\
   (forall v, In v set2 -> set_has value_eqb v set1 = true)).
Proof.
  intros s1 s2 H1 H2. split; [apply jaccardSimilarity_sym; assumption|].
  destruct s1 as [|a s1].
  { rewrite jaccardSimilarity_nil_l. split.
    - split; [intros _ v [] | reflexivity].
    - split; [discriminate | intros [N _]; congruence]. }
  destruct s2 as [|b s2].
  { rewrite jaccardSimilarity_nil_r. split.
    - split; [reflexivity | reflexivity].
    - split; [discriminate|]. intros [_ [H _]].
      specialize (H a (or_introl eq_refl)). discriminate. }
  destruct (jaccardSimilarity_overlap (a :: s1) (b :: s2) H1) as [-> Hu];
    [discriminate | discriminate|].
  pose proof (overlap_length_le (a :: s1) (b :: s2)) as L1.
  pose proof (overlap_length_le (b :: s2) (a :: s1)) as L2.
  pose proof (overlap_length_sym _ _ H1 H2) as Es.
  split.
  - rewrite (Qnat_ratio_zero _ _ Hu), length_zero_iff_nil.
    unfold overlap. apply filter_none_nil.
  - rewrite (Qnat_ratio_one _ _ Hu). split.
    + intro E. split; [discriminate|]. split.
      * apply filter_length_all. fold (overlap (a :: s1) (b :: s2)). lia.
      * apply filter_length_all. fold (overlap (b :: s2) (a :: s1)). lia.
    + intros [_ [A B]].
      unfold overlap in *. rewrite (filter_all_length _ _ _ A) in *.
      rewrite (filter_all_length _ _ _ B) in Es. lia.
Qed.

Lemma nameSimilarity_sym : forall a b, nameSimilarity a b = nameSimilarity b a.
Proof.
  intros a b. unfold nameSimilarity.
  rewrite (levenshtein_lev a b), (levenshtein_lev b a).
  rewrite (lev_sym _ Ascii.eqb Ascii.eqb_eq), Nat.max_comm. reflexivity.
Qed.

Lemma DataType_eqb_sym : forall a b, DataType_eqb a b = DataType_eqb b a.
Proof. destruct a, b; reflexivity. Qed.

Lemma Qabs_minus_sym : forall a b : Q, Qabs (a - b) = Qabs (b - a).
Proof.
  intros [n1 d1] [n2 d2]. unfold Qabs, Qminus, Qplus, Qopp. cbn [Qnum Qden].
  f_equal; [lia | apply Pos.mul_comm].
Qed.

Lemma calculateConfidence_sym : forall prof1 prof2,
  distinct value value_eqb (valueSet prof1) ->
  distinct value value_eqb (valueSet prof2) ->
  calculateConfidence prof1 prof2 = calculateConfidence prof2 prof1.
Proof.
  intros prof1 prof2 H1 H2. unfold calculateConfidence.
  rewrite (DataType_eqb_sym (dataType (source prof2))).
  destruct (DataType_eqb (dataType (source prof1)) (dataType (source prof2))) eqn:Et;
    [|reflexivity].
  apply DataType_eqb_eq in Et. rewrite <- Et. cbn [negb].
  rewrite (nameSimilarity_sym (baseName prof2)),
          (nameSimilarity_sym (cleanedName prof2)),
          (jaccardSimilarity_sym _ _ H2 H1).
  destruct (DataType_eqb _ TBoolean); [reflexivity|].
  rewrite (andb_comm (Qltb 0.9 (uniquenessRatio prof2))).
  destruct (_ && _); [reflexivity|].
  destruct (numericStats prof1) as [stats1|], (numericStats prof2) as [stats2|].
  - rewrite (Qabs_minus_sym (inject_Z (orderOfMagnitude stats2))).
    destruct (Qltb _ 0.5); [reflexivity|].
    match goal with
    | |- context [Qabs (?a - ?b)] =>
        match goal with
        | |- context [Qabs (b - a)] => rewrite (Qabs_minus_sym b a)
        end
    end.
    reflexivity.
  - rewrite (andb_comm (Qltb (uniquenessRatio prof2) 0.5)). reflexivity.
  - rewrite (andb_comm (Qltb (uniquenessRatio prof2) 0.5)). reflexivity.
  - rewrite (andb_comm (Qltb (uniquenessRatio prof2) 0.5)). reflexivity.
Qed.

(** The score of two columns does not depend on the order they are compared
    in. *)
Theorem confidence_is_symmetric : forall `{JsRuntime} column1 column2,
  calculateConfidence (createColumnProfile column1) (createColumnProfile column2)
  = calculateConfidence (createColumnProfile column2) (createColumnProfile column1).
Proof.
  intros rt column1 column2.
  apply calculateConfidence_sym; apply set_of_list_distinct, value_eqb_sym.
Qed.

(** ** Names that are equal, and names of different lengths *)

Lemma edit_zero : forall (A : Type) (s t : list A), edit s t 0 -> s = t.
Proof.
  intros A s t He. remember 0 as n eqn:En.
  induction He; try discriminate; [reflexivity|].
  f_equal. apply IHHe. exact En.
Qed.

Lemma edit_length : forall (A : Type) (s t : list A) n,
  edit s t n ->
  List.length s <= List.length t + n /\ List.length t <= List.length s + n.
Proof. intros A s t n He. induction He; simpl; lia. Qed.

Lemma levenshtein_zero : forall a b, levenshtein a b = 0 <-> a = b.
Proof.
  intros a b. rewrite levenshtein_lev. split.
  - intro E. pose proof (lev_upper _ Ascii.eqb Ascii.eqb_eq
                           (list_ascii_of_string a) (list_ascii_of_string b)) as He.
    rewrite E in He. apply edit_zero in He.
    rewrite <- (string_of_list_ascii_of_string a),
            <- (string_of_list_ascii_of_string b), He. reflexivity.
  - intros ->. apply lev_refl, Ascii.eqb_eq.
Qed.

Lemma levenshtein_length : forall a b,
  String.length a <= String.length b + levenshtein a b /\
  String.length b <= String.length a + levenshtein a b.
Proof.
  intros a b. rewrite levenshtein_lev, <- !length_list_ascii.
  apply edit_length. apply lev_upper, Ascii.eqb_eq.
Qed.

(** Two names are as similar as can be exactly when they are equal; the
    similarity does not depend on their order; and the edit distance behind
    it is at least the difference of their lengths. *)
Theorem nameSimilarity_equal_names : forall name1 name2,
  (nameSimilarity name1 name2 == 1 <-> name1 = name2)%Q /\
  nameSimilarity name1 name2 = nameSimilarity name2 name1 /\
  (String.length name1 <= String.length name2 + levenshtein name1 name2 /\
   String.length name2 <= String.length name1 + levenshtein name1 name2).
Proof.
  intros name1 name2. split; [|split; [apply nameSimilarity_sym|]].
  - unfold nameSimilarity.
    destruct (Nat.max (String.length name1) (String.length name2) =? 0) eqn:Em.
    + apply Nat.eqb_eq in Em.
      assert (L1 : String.length name1 = 0) by lia.
      assert (L2 : String.length name2 = 0) by lia.
      assert (E1 : name1 = "") by (destruct name1; [reflexivity | discriminate]).
      assert (E2 : name2 = "") by (destruct name2; [reflexivity | discriminate]).
      subst. split; reflexivity.
    + apply Nat.eqb_neq in Em.
      set (m := Nat.max (String.length name1) (String.length name2)) in *.
      assert (Hm : 0 < m) by lia.
      rewrite <- levenshtein_zero. split.
      * intro E.
        assert (Ez : (Qnat (levenshtein name1 name2) / Qnat m == 0)%Q).
        { set (r := (Qnat (levenshtein name1 name2) / Qnat m)%Q) in *. lra. }
        exact (proj1 (Qnat_ratio_zero _ _ Hm) Ez).
      * intro E. rewrite E.
        rewrite (proj2 (Qnat_ratio_zero 0 m Hm) eq_refl). reflexivity.
  - apply levenshtein_length.
Qed.

(** ** The name, the identifier and the place of an emitted match *)

Lemma longest_name_from : forall l before p after,
  (forall q, In q before -> nameLength q < nameLength p) ->
  (forall q, In q after -> nameLength q <= nameLength p) ->
  exists before' p' after',
    before ++ p :: after ++ l = before' ++ p' :: after' /\
    fold_left
      (fun best current =>
         if String.length best <? String.length (originalName (source current))
         then originalName (source current) else best)
      l (originalName (source p))
    = originalName (source p') /\
    (forall q, In q before' -> nameLength q < nameLength p') /\
    (forall q, In q after' -> nameLength q <= nameLength p').
Proof.
  induction l as [|c l IH]; intros before p after Hb Ha.
  - exists before, p, after. rewrite app_nil_r. auto.
  - cbn [fold_left].
    destruct (String.length (originalName (source p))
              <? String.length (originalName (source c))) eqn:E.
    + apply Nat.ltb_lt in E.
      destruct (IH (before ++ p :: after) c []) as [b' [p' [a' [E1 H']]]].
      * intros q Hq. apply in_app_or in Hq. unfold nameLength in *.
        destruct Hq as [Hq|[<-|Hq]]; [specialize (Hb q Hq) | | specialize (Ha q Hq)]; lia.
      * intros q [].
      * exists b', p', a'. split; [|exact H'].
        rewrite <- E1. rewrite <- !app_assoc. reflexivity.
    + apply Nat.ltb_ge in E.
      destruct (IH before p (after ++ [c])) as [b' [p' [a' [E1 H']]]].
      * exact Hb.
      * intros q Hq. apply in_app_or in Hq.
        destruct Hq as [Hq|[<-|[]]]; [apply Ha, Hq | exact E].
      * exists b', p', a'. split; [|exact H'].
        rewrite <- E1. rewrite <- !app_assoc. reflexivity.
Qed.

Lemma findMostDescriptiveName_spec : forall cluster name,
  findMostDescriptiveName cluster = Some name ->
  exists before p after,
    cluster = before ++ p :: after /\
    name = originalName (source p) /\
    (forall q, In q before -> nameLength q < nameLength p) /\
    (forall q, In q after -> nameLength q <= nameLength p).
Proof.
  intros [|first rest] name E; [discriminate|].
  cbn [findMostDescriptiveName] in E. injection E as <-.
  cbn [fold_left]. rewrite Nat.ltb_irrefl.
  destruct (longest_name_from rest [] first []) as [b [p [a [E1 [E2 H']]]]];
    [intros q [] | intros q [] |].
  exists b, p, a. split; [exact E1|]. split; [exact E2 | exact H'].
Qed.

Lemma buildMatch_fields : forall bestPairs profileMap index clusterKeys m,
  buildMatch bestPairs profileMap index clusterKeys = Some m ->
  match_id m = ("match-" ++ decimal index)%string /\
  match_status m = PENDING /\
  match_source m = PROGRAMMATIC /\
  exists clusterProfiles,
    match_columns m = List.map memberOf clusterProfiles /\
    findMostDescriptiveName clusterProfiles = Some (finalName m).
Proof.
  intros bestPairs profileMap index clusterKeys m. unfold buildMatch.
  destruct (clusterScore _ _) as [[totalScore pairCount]|]; [|discriminate].
  destruct (allDefined _) as [clusterProfiles|]; [|discriminate].
  destruct (findMostDescriptiveName clusterProfiles) as [name|] eqn:En;
    [|discriminate].
  intro E. injection E as <-. cbn.
  repeat split. exists clusterProfiles. split; [reflexivity | exact En].
Qed.

(** The name of an emitted match is the longest of its members' column
    names, the first of them where several are as long. *)
Theorem finalName_is_longest_member_name :
  forall `{JsRuntime} files result m,
  generateMatches files = Returned result ->
  In m (matches result) ->
  exists before c after,
    match_columns m = before ++ c :: after /\
    finalName m = columnName c /\
    (forall c', In c' before ->
       String.length (columnName c') < String.length (finalName m)) /\
    (forall c', In c' after ->
       String.length (columnName c') <= String.length (finalName m)).
Proof.
  intros rt files result m Hg Hm.
  destruct (emitted_match_cluster files result m Hg Hm)
    as [clusters [index [clusterKeys [_ [_ Hb]]]]].
  destruct (buildMatch_fields _ _ _ _ _ Hb) as [_ [_ [_ [ps [Ec En]]]]].
  destruct (findMostDescriptiveName_spec _ _ En) as [b [p [a [E1 [E2 [Hb' Ha']]]]]].
  exists (List.map memberOf b), (memberOf p), (List.map memberOf a).
  split; [rewrite Ec, E1, map_app; reflexivity|].
  split; [exact E2|]. rewrite E2. split.
  - intros c' Hc. apply in_map_iff in Hc. destruct Hc as [q [<- Hq]].
    exact (Hb' q Hq).
  - intros c' Hc. apply in_map_iff in Hc. destruct Hc as [q [<- Hq]].
    exact (Ha' q Hq).
Qed.

Lemma insertMatch_sorted : forall m sorted,
  StronglySorted notBelow sorted -> StronglySorted notBelow (insertMatch m sorted).
Proof.
  intros m sorted Hs. induction Hs as [|h t Hs IH Hall].
  - simpl. constructor; constructor.
  - cbn [insertMatch].
    destruct (Qltb (programmaticConfidence m) (programmaticConfidence h)) eqn:E.
    + apply Qltb_lt in E. constructor; [exact IH|].
      apply Forall_forall. intros x Hx.
      apply insertMatch_In in Hx. destruct Hx as [->|Hx].
      * unfold notBelow. lra.
      * exact (proj1 (Forall_forall _ _) Hall x Hx).
    + apply Qltb_ge in E. constructor; [constructor; assumption|].
      constructor; [exact E|].
      apply Forall_forall. intros x Hx.
      pose proof (proj1 (Forall_forall _ _) Hall x Hx) as Hh.
      unfold notBelow in *. lra.
Qed.

Lemma sortMatches_sorted : forall l, StronglySorted notBelow (sortMatches l).
Proof.
  induction l as [|m l IH]; [constructor|].
  unfold sortMatches. cbn [fold_right]. apply insertMatch_sorted, IH.
Qed.

(** The matches are returned by descending confidence. *)
Theorem matches_in_descending_confidence :
  forall `{JsRuntime} files result,
  generateMatches files = Returned result ->
  StronglySorted
    (fun a b => (programmaticConfidence b <= programmaticConfidence a)%Q)
    (matches result).
Proof.
  intros rt files result Hg.
  destruct (generateMatches_returned files result Hg)
    as [[_ ->]|[_ [clusters [ms [_ [_ [-> _]]]]]]].
  - constructor.
  - apply sortMatches_sorted.
Qed.

(** ** Two runs of the engine *)















(** Identifiers *)

Lemma decimal_inj : forall n m, decimal n = decimal m -> n = m.
Proof.
  intros n m E. unfold decimal in E.
  assert (E' : Some (Nat.to_uint n) = Some (Nat.to_uint m)).
  { rewrite <- !NilEmpty.usu. rewrite E. reflexivity. }
  injection E' as E'.
  rewrite <- (Unsigned.of_to n), <- (Unsigned.of_to m), E'. reflexivity.
Qed.

Lemma append_inj_l : forall p a b : string, (p ++ a)%string = (p ++ b)%string -> a = b.
Proof. induction p as [|c p IH]; intros a b E; [exact E|]. injection E as E. auto. Qed.

Lemma allDefined_Forall2 : forall (X Y : Type) (f : X -> option Y) l ys,
  allDefined (List.map f l) = Some ys -> Forall2 (fun x y => f x = Some y) l ys.
Proof.
  intros X Y f. induction l as [|x l IH]; intros ys E.
  - simpl in E. injection E as <-. constructor.
  - cbn [List.map allDefined] in E. destruct (f x) as [y|] eqn:Ex; [|discriminate].
    destruct (allDefined (List.map f l)) as [ys'|]; [|discriminate].
    simpl in E. injection E as <-. constructor; [exact Ex | apply IH; reflexivity].
Qed.

Lemma indexed_from_ids : forall (X : Type) (g : nat * X -> option Match)
    (l : list X) (start : nat) (ms : list Match),
  Forall2 (fun ic m => g ic = Some m) (combine (seq start (List.length l)) l) ms ->
  (forall ic m, g ic = Some m -> match_id m = ("match-" ++ decimal (fst ic))%string) ->
  List.map match_id ms
  = List.map (fun i => ("match-" ++ decimal i)%string) (seq start (List.length l)).
Proof.
  intros X g. induction l as [|x l IH]; intros start ms HF Hid.
  - inversion HF. reflexivity.
  - cbn [List.length seq combine] in HF. inversion HF as [|ic m t ms' Hm HF' E1 E2]; subst.
    cbn [List.length seq List.map]. rewrite (Hid _ _ Hm). cbn [fst].
    f_equal. apply IH; assumption.
Qed.

(** The matches of a run have identifiers [match-0], [match-1], ... of
    their own, and all are pending matches of the program. *)
Theorem match_ids_are_distinct : forall `{JsRuntime} files result,
  generateMatches files = Returned result ->
  NoDup (List.map match_id (matches result)) /\
  forall m, In m (matches result) ->
    (exists index, index < List.length (matches result) /\
       match_id m = ("match-" ++ decimal index)%string) /\
    match_status m = PENDING /\ match_source m = PROGRAMMATIC.
Proof.
  intros rt files result Hg.
  destruct (generateMatches_returned files result Hg)
    as [[_ ->]|[_ [clusters [ms [_ [Ha [Em _]]]]]]].
  { split; [constructor | intros m []]. }
  apply allDefined_Forall2 in Ha.
  assert (Eids : List.map match_id ms
                 = List.map (fun i => ("match-" ++ decimal i)%string)
                     (seq 0 (List.length (map_values clusters)))).
  { apply (indexed_from_ids _ _ _ _ _ Ha).
    intros ic m Hm. apply (buildMatch_fields _ _ _ _ _ Hm). }
  assert (Elen : List.length ms = List.length (map_values clusters)).
  { rewrite <- (length_map match_id ms), Eids, length_map, length_seq. reflexivity. }
  pose proof (sortMatches_Permutation ms) as Hp.
  split.
  - rewrite Em. apply (Permutation_NoDup (l := List.map match_id ms)).
    + apply Permutation_map, Permutation_sym, Hp.
    + rewrite Eids. apply Finite.Injective_map_NoDup; [|apply seq_NoDup].
      intros i j E. apply append_inj_l in E. apply decimal_inj, E.
  - intros m Hm. rewrite Em in Hm. rewrite Em, (Permutation_length Hp).
    apply (proj1 (sortMatches_In _ _)) in Hm.
    destruct (Forall2_In_r _ _ _ _ _ _ Ha Hm) as [ic [Hic Hb]].
    destruct (buildMatch_fields _ _ _ _ _ Hb) as [Eid [Es [Eo _]]].
    split; [|split; assumption].
    exists (fst ic). split; [|exact Eid].
    destruct ic as [i x]. unfold indexed in Hic.
    apply in_combine_l in Hic. apply in_seq in Hic. cbn [fst]. lia.
Qed.

(** ** Runs with no pair above the threshold *)



(** ** The type of a cell and of a column *)

Lemma getDataType_not_boolean : forall `{JsRuntime} `{JsText} v,
  getDataType v <> TBoolean /\ getDataType v <> TMixed.
Proof.
  intros rt tx v. unfold getDataType, isNaN.
  destruct v as [| |b|q|s]; cbn [nonEmpty negb toNumber isBoolean andb].
  - split; discriminate.
  - split; discriminate.
  - destruct (hasUnit _ _); split; discriminate.
  - destruct (hasUnit _ _); split; discriminate.
  - destruct (negb (negb _)); [split; discriminate|].
    destruct (Number_of_string s); cbn [negb andb].
    + destruct (hasUnit _ _); split; discriminate.
    + destruct (negb _); split; discriminate.
Qed.

(** The type of a cell is never [boolean] and never [mixed]: a number, a
    boolean and a text that reads as a number are numbers. *)
Theorem getDataType_never_boolean : forall `{JsRuntime} `{JsText} v,
  getDataType v <> TBoolean /\
  getDataType v <> TMixed /\
  (isBoolean v = true -> getDataType v = TNumber) /\
  (forall q, v = VNum q -> getDataType v = TNumber) /\
  (forall s, v = VStr s -> s <> "" -> Number_of_string s <> None ->
     getDataType v = TNumber).
Proof.
  intros rt tx v. unfold getDataType, isNaN.
  destruct v as [| |b|q|s]; cbn [nonEmpty negb toNumber isBoolean].
  - repeat split; try discriminate.
  - repeat split; try discriminate.
  - cbn [andb]. destruct (hasUnit _ _); repeat split; try discriminate.
  - cbn [andb]. destruct (hasUnit _ _); repeat split; try discriminate.
  - destruct (String.eqb s "") eqn:Es; cbn [negb].
    + apply String.eqb_eq in Es. repeat split; try discriminate.
      intros s' E N. injection E as <-. congruence.
    + destruct (Number_of_string s) eqn:En; cbn [negb andb].
      * destruct (hasUnit _ _); repeat split; try discriminate.
      * destruct (Date_parse _); cbn [negb]; repeat split; try discriminate;
          intros s' E N1 N2; injection E as <-; congruence.
Qed.

Lemma countOf_app : forall l1 l2 t,
  countOf (l1 ++ l2) t = countOf l1 t + countOf l2 t.
Proof. intros. unfold countOf. rewrite filter_app, length_app. reflexivity. Qed.

Lemma first_mode_from : forall (types rest before : list DataType) a after,
  (forall t, In t before -> countOf types t < countOf types a) ->
  (forall t, In t after -> countOf types t <= countOf types a) ->
  exists before' a' after',
    before ++ a :: after ++ rest = before' ++ a' :: after' /\
    fold_left (fun a b => if countOf types b <=? countOf types a then a else b)
              rest a = a' /\
    (forall t, In t before' -> countOf types t < countOf types a') /\
    (forall t, In t after' -> countOf types t <= countOf types a').
Proof.
  intros types. induction rest as [|b rest IH]; intros before a after Hb Ha.
  - exists before, a, after. rewrite app_nil_r. auto.
  - cbn [fold_left]. destruct (countOf types b <=? countOf types a) eqn:E.
    + apply Nat.leb_le in E.
      destruct (IH before a (after ++ [b])) as [b' [a' [r' [E1 H']]]].
      * exact Hb.
      * intros t Ht. apply in_app_or in Ht.
        destruct Ht as [Ht|[<-|[]]]; [apply Ha, Ht | exact E].
      * exists b', a', r'. split; [|exact H'].
        rewrite <- E1, <- !app_assoc. reflexivity.
    + apply Nat.leb_gt in E.
      destruct (IH (before ++ a :: after) b []) as [b' [a' [r' [E1 H']]]].
      * intros t Ht. apply in_app_or in Ht.
        destruct Ht as [Ht|[<-|Ht]];
          [specialize (Hb t Ht) | | specialize (Ha t Ht)]; lia.
      * intros t [].
      * exists b', a', r'. split; [|exact H'].
        rewrite <- E1, <- !app_assoc. reflexivity.
Qed.

(** The type of a column is the most frequent type of its cells, the one met
    first where several are as frequent; a column with no cell is a column
    of strings. *)
Theorem predominantType_is_first_mode : forall types,
  (types = [] -> predominantType types = TString) /\
  (types <> [] ->
   exists before after,
     types = before ++ predominantType types :: after /\
     (forall t, In t before ->
        countOf types t < countOf types (predominantType types)) /\
     (forall t, countOf types t <= countOf types (predominantType types))).
Proof.
  intro types. split; [intros ->; reflexivity|].
  destruct types as [|first rest]; [congruence|]. intros _.
  destruct (first_mode_from (first :: rest) rest [] first [])
    as [b [a [r [E1 [E2 [Hb Ha]]]]]]; [intros t [] | intros t [] |].
  cbn [app] in E1. cbn [predominantType]. rewrite E2.
  exists b, r. split; [exact E1|]. split; [exact Hb|].
  intro t. destruct (Nat.eq_dec (countOf (first :: rest) t) 0) as [Z|NZ]; [lia|].
  assert (Ht : In t (first :: rest)).
  { unfold countOf in NZ.
    destruct (filter (fun v => DataType_eqb v t) (first :: rest)) as [|x l] eqn:Ef;
      [simpl in NZ; lia|].
    assert (Hx : In x (filter (fun v => DataType_eqb v t) (first :: rest)))
      by (rewrite Ef; left; reflexivity).
    apply filter_In in Hx. destruct Hx as [Hx Ex].
    apply DataType_eqb_eq in Ex. subst x. exact Hx. }
  rewrite E1 in Ht. apply in_app_or in Ht.
  destruct Ht as [Ht|[<-|Ht]]; [specialize (Hb t Ht); lia | lia | apply Ha, Ht].
Qed.

(** ** File identifiers *)

Lemma digits_no_dash : forall d, hasUnit dash (NilEmpty.string_of_uint d) = false.
Proof. induction d; simpl; auto. Qed.

Lemma decimal_no_dash : forall n, hasUnit dash (decimal n) = false.
Proof. intro n. apply digits_no_dash. Qed.

Lemma hasUnit_append : forall c s t,
  hasUnit c (s ++ t) = hasUnit c s || hasUnit c t.
Proof.
  intros c. induction s as [|d s IH]; intro t; simpl; [reflexivity|].
  rewrite IH, orb_assoc. reflexivity.
Qed.

(** A text is cut in one way at its last [-]. *)
Lemma last_dash_unique : forall p q d e,
  (p ++ "-" ++ d)%string = (q ++ "-" ++ e)%string ->
  hasUnit dash d = false -> hasUnit dash e = false -> d = e.
Proof.
  induction p as [|c p IH]; intros q d e E Hd He.
  - destruct q as [|c' q].
    + simpl in E. injection E as E. exact E.
    + simpl in E. injection E as Ec E. subst d.
      rewrite hasUnit_append in Hd. simpl in Hd.
      rewrite orb_true_r in Hd. discriminate.
  - destruct q as [|c' q].
    + simpl in E. injection E as Ec E. subst e.
      rewrite hasUnit_append in He. simpl in He.
      rewrite orb_true_r in He. discriminate.
    + simpl in E. injection E as _ E. exact (IH _ _ _ E Hd He).
Qed.

Lemma file_id_index : forall name1 name2 i j,
  (name1 ++ "-" ++ decimal i)%string = (name2 ++ "-" ++ decimal j)%string -> i = j.
Proof.
  intros name1 name2 i j E. apply decimal_inj.
  exact (last_dash_unique _ _ _ _ E (decimal_no_dash i) (decimal_no_dash j)).
Qed.

(** ** Lists with their indices *)

Lemma Forall2_combine_seq : forall (X Y : Type) (R : nat * X -> Y -> Prop)
    (l : list X) (start : nat) (ys : list Y),
  Forall2 R (combine (seq start (List.length l)) l) ys ->
  List.length ys = List.length l /\
  forall i x, nth_error l i = Some x ->
    exists y, nth_error ys i = Some y /\ R (start + i, x) y.
Proof.
  intros X Y R. induction l as [|x l IH]; intros start ys HF.
  - inversion HF. split; [reflexivity|]. intros [|i] x E; discriminate.
  - cbn [List.length seq combine] in HF.
    inversion HF as [|ix y t ys' Hy HF' E1 E2]; subst.
    destruct (IH _ _ HF') as [El Hn]. split; [simpl; lia|].
    intros [|i] x' E.
    + injection E as <-. exists y. rewrite Nat.add_0_r. split; [reflexivity | exact Hy].
    + destruct (Hn i x' E) as [y' [Ey Hr]]. exists y'.
      split; [exact Ey|]. replace (start + S i) with (S start + i) by lia. exact Hr.
Qed.

Lemma Forall2_indexed : forall (X Y : Type) (R : nat * X -> Y -> Prop)
    (l : list X) (ys : list Y),
  Forall2 R (indexed l) ys ->
  List.length ys = List.length l /\
  forall i x, nth_error l i = Some x ->
    exists y, nth_error ys i = Some y /\ R (i, x) y.
Proof. intros X Y R l ys HF. exact (Forall2_combine_seq _ _ _ _ _ _ HF). Qed.

Lemma indexed_nth : forall (X : Type) (l : list X) i x,
  In (i, x) (indexed l) <-> nth_error l i = Some x.
Proof.
  intros X l. unfold indexed.
  assert (G : forall start i x,
            In (i, x) (combine (seq start (List.length l)) l)
            <-> start <= i /\ nth_error l (i - start) = Some x).
  { induction l as [|y l IH]; intros start i x.
    - simpl. split; [intros [] | intros [_ E]; destruct (i - start); discriminate].
    - cbn [List.length seq combine]. split.
      + intros [E|Hin].
        * injection E as <- <-. rewrite Nat.sub_diag. split; [lia | reflexivity].
        * apply IH in Hin. destruct Hin as [Hle E].
          split; [lia|]. replace (i - start) with (S (i - S start)) by lia. exact E.
      + intros [Hle E]. destruct (i - start) as [|k] eqn:Ek.
        * left. injection E as <-. f_equal. lia.
        * right. apply IH. split; [lia|].
          replace (i - S start) with k by lia. exact E. }
  intros i x. rewrite G, Nat.sub_0_r. split; [intros [_ E]; exact E | intro E; split; [lia | exact E]].
Qed.

Lemma indexed_map : forall (X Y : Type) (g : nat -> X -> Y) (l : list X) i y,
  nth_error (List.map (fun ix => g (fst ix) (snd ix)) (indexed l)) i = Some y <->
  exists x, nth_error l i = Some x /\ y = g i x.
Proof.
  intros X Y g l. unfold indexed.
  assert (G : forall start i y,
    nth_error (List.map (fun ix => g (fst ix) (snd ix))
                 (combine (seq start (List.length l)) l)) i = Some y <->
    exists x, nth_error l i = Some x /\ y = g (start + i) x).
  { induction l as [|x l IH]; intros start i y.
    - simpl. split; [destruct i; discriminate | intros [x [E _]]; destruct i; discriminate].
    - cbn [List.length seq combine List.map fst snd]. destruct i as [|i].
      + simpl. rewrite Nat.add_0_r. split.
        * intro E. injection E as <-. exists x. auto.
        * intros [x' [E ->]]. injection E as <-. reflexivity.
      + simpl. rewrite IH. replace (S start + i) with (start + S i) by lia.
        reflexivity. }
  intros i y. apply (G 0 i y).
Qed.

(** ** The aligner and step 3 always find the rows of a file *)

Lemma alignRows_defined : forall files,
  exists r m,
    alignRows files = Some (r, m) /\
    forall f, In f files ->
      exists rows, map_get String.eqb (if_id f) m = Some rows.
Proof.
  intro files. unfold alignRows.
  set (m0 := map_of_list String.eqb
               (List.map (fun f => (if_id f, rawData f)) files)).
  assert (H0 : forall f, In f files ->
                 exists rows, map_get String.eqb (if_id f) m0 = Some rows).
  { intros f Hf. exact (rowsOfFile_defined files f Hf). }
  destruct (selectBestMatch (potentialKeys files)) as [bm|] eqn:Eb.
  - destruct (selectBestMatch_spec _ _ Eb) as [K1 [K2 _]].
    destruct (potentialKeys_file _ _ K1) as [f1 [F1 [E1 _]]].
    destruct (potentialKeys_file _ _ K2) as [f2 [F2 [E2 _]]].
    destruct (H0 f1 F1) as [d1 D1]. destruct (H0 f2 F2) as [d2 D2].
    rewrite E1, E2, D1, D2.
    destruct (10 <? _).
    + eexists. eexists. split; [reflexivity|].
      intros f Hf. destruct (H0 f Hf) as [rows Hr].
      destruct (string_dec (if_id f2) (if_id f)) as [Ea|Na].
      * rewrite <- Ea, str_map_get_set_same. eauto.
      * rewrite (str_map_get_set_other _ _ _ _ _ Na).
        destruct (string_dec (if_id f1) (if_id f)) as [Eb'|Nb].
        -- rewrite <- Eb', str_map_get_set_same. eauto.
        -- rewrite (str_map_get_set_other _ _ _ _ _ Nb). eauto.
    + eexists. eexists. split; [reflexivity | exact H0].
  - eexists. eexists. split; [reflexivity | exact H0].
Qed.

Lemma uploadedOf_defined : forall `{JsRuntime} `{JsText} m index f data,
  map_get String.eqb (if_id f) m = Some data ->
  uploadedOf m index f
  = Some {| file_id := if_id f;
            file_name := if_name f;
            columns := List.map (sampledColumn f data) (headers f);
            rowCount := if_rowCount f;
            sourceId := index + 1;
            color := nth (index mod List.length DEFAULT_COLORS) DEFAULT_COLORS "" |}.
Proof.
  intros rt tx m index f data E. unfold uploadedOf. rewrite E.
  replace (List.map (columnOf f (Some data)) (headers f))
    with (List.map Some (List.map (sampledColumn f data) (headers f)))
    by (rewrite map_map; reflexivity).
  rewrite allDefined_map_Some. reflexivity.
Qed.

Lemma allDefined_all : forall (X Y : Type) (f : X -> option Y) l,
  (forall x, In x l -> exists y, f x = Some y) ->
  exists ys, allDefined (List.map f l) = Some ys.
Proof.
  intros X Y f. induction l as [|x l IH]; intro Hall.
  - exists []. reflexivity.
  - destruct (Hall x (or_introl eq_refl)) as [y Ey].
    destruct IH as [ys Eys]; [intros x' Hx'; apply Hall; right; exact Hx'|].
    exists (y :: ys). cbn [List.map allDefined]. rewrite Ey, Eys. reflexivity.
Qed.

Lemma find_first : forall (X : Type) (p : X -> bool) before x after,
  p x = true -> (forall y, In y before -> p y = false) ->
  find p (before ++ x :: after) = Some x.
Proof.
  intros X p. induction before as [|b before IH]; intros x after Hx Hb; simpl.
  - rewrite Hx. reflexivity.
  - rewrite (Hb b (or_introl eq_refl)). apply IH; [exact Hx|].
    intros y Hy. apply Hb. right. exact Hy.
Qed.

Lemma find_all_false : forall (X : Type) (p : X -> bool) l,
  (forall x, In x l -> p x = false) -> find p l = None.
Proof.
  intros X p. induction l as [|x l IH]; intro Hall; [reflexivity|]. simpl.
  rewrite (Hall x (or_introl eq_refl)). apply IH.
  intros y Hy. apply Hall. right. exact Hy.
Qed.

Lemma parseFiles_resolves : forall `{JsRuntime} `{JsText} files,
  (forall file, In file files -> supportedType (pf_name file) = true) ->
  exists result, parseFiles files = Parsed result.
Proof.
  intros rt tx files Hall. unfold parseFiles.
  rewrite find_all_false
    by (intros file Hf; rewrite (Hall file Hf); reflexivity).
  fold (intermediatesOf files).
  destruct (alignRows_defined (intermediatesOf files)) as [r [m [-> Hm]]].
  destruct (allDefined_all _ _
              (fun ix => uploadedOf m (fst ix) (snd ix))
              (indexed (intermediatesOf files))) as [ups ->].
  - intros [i f] Hin. cbn [fst snd].
    destruct (Hm f (indexed_In _ _ _ _ Hin)) as [rows Hr].
    rewrite (uploadedOf_defined m i f rows Hr). eauto.
  - eauto.
Qed.

Lemma resolvedFiles_Readable : forall parsed,
  resolvedFiles (List.map Readable parsed) = Some parsed.
Proof.
  unfold resolvedFiles. induction parsed as [|file parsed IH]; [reflexivity|].
  cbn [List.map allDefined]. cbn [List.map] in IH. rewrite IH. reflexivity.
Qed.

Lemma resolvedFiles_Some : forall files parsed,
  resolvedFiles files = Some parsed -> files = List.map Readable parsed.
Proof.
  unfold resolvedFiles. induction files as [|[file|name] files IH];
    intros parsed E; cbn [List.map allDefined] in E.
  - injection E as <-. reflexivity.
  - destruct (allDefined _) as [rest|] eqn:Er; [|discriminate].
    injection E as <-. cbn [List.map]. f_equal. apply IH. reflexivity.
  - discriminate.
Qed.

Lemma resolvedFiles_Unreadable : forall files name,
  In (Unreadable name) files -> resolvedFiles files = None.
Proof.
  intros files name Hin.
  destruct (resolvedFiles files) as [parsed|] eqn:E; [|reflexivity].
  apply resolvedFiles_Some in E. rewrite E in Hin.
  apply in_map_iff in Hin. destruct Hin as [file [Ef _]]. discriminate.
Qed.

(** Where every parser resolves, the function goes on with the rows. *)
Lemma parseSelectedFiles_Readable : forall `{JsRuntime} `{JsText} parsed,
  parseSelectedFiles (List.map Readable parsed) = parseFiles parsed.
Proof.
  intros rt tx parsed. unfold parseSelectedFiles.
  assert (Ef : find (fun file => negb (supportedType (selectedName file)))
                    (List.map Readable parsed)
               = option_map Readable
                   (find (fun file => negb (supportedType (pf_name file))) parsed)).
  { induction parsed as [|file parsed IH]; [reflexivity|].
    cbn [List.map find selectedName].
    destruct (negb (supportedType (pf_name file))); [reflexivity | exact IH]. }
  rewrite Ef.
  destruct (find (fun file => negb (supportedType (pf_name file))) parsed)
    as [file|] eqn:Ep; cbn [option_map].
  - unfold parseFiles. rewrite Ep. reflexivity.
  - rewrite resolvedFiles_Readable. reflexivity.
Qed.

(** How [parseFiles] settles.  It never fails on a missing table.  It
    rejects a file of another type, the first one, with its name in the
    message, whatever the parsers do.  With supported types only, it
    rejects where a parser does, and it resolves where every parser
    resolves. *)
Theorem parseFiles_outcome : forall `{JsRuntime} `{JsText} files,
  parseSelectedFiles files <> ParseTypeError /\
  (forall before file after,
     files = before ++ file :: after ->
     supportedType (selectedName file) = false ->
     (forall f, In f before -> supportedType (selectedName f) = true) ->
     parseSelectedFiles files
     = ParseError ("Unsupported file type: " ++ selectedName file)) /\
  ((forall file, In file files -> supportedType (selectedName file) = true) ->
   (forall name, In (Unreadable name) files ->
      parseSelectedFiles files = ParserRejected) /\
   (forall parsed, files = List.map Readable parsed ->
      exists result, parseSelectedFiles files = Parsed result)).
Proof.
  intros rt tx files.
  assert (Hsup : (forall file, In file files ->
                    supportedType (selectedName file) = true) ->
                 find (fun file => negb (supportedType (selectedName file))) files
                 = None).
  { intro Hall. apply find_all_false. intros file Hf.
    rewrite (Hall file Hf). reflexivity. }
  assert (Hres : forall parsed,
            (forall file, In file (List.map Readable parsed) ->
               supportedType (selectedName file) = true) ->
            exists result, parseFiles parsed = Parsed result).
  { intros parsed Hall. apply parseFiles_resolves. intros file Hf.
    apply (Hall (Readable file)). apply in_map. exact Hf. }
  split; [|split].
  - unfold parseSelectedFiles.
    destruct (find _ files) as [file|] eqn:Ef; [discriminate|].
    destruct (resolvedFiles files) as [parsed|] eqn:Er; [|discriminate].
    apply resolvedFiles_Some in Er. subst files.
    destruct (Hres parsed) as [result ->]; [|discriminate].
    intros file Hf. pose proof (find_none _ _ Ef file Hf) as Hn.
    apply negb_false_iff in Hn. exact Hn.
  - intros before file after -> Hno Hb. unfold parseSelectedFiles.
    rewrite find_first; [reflexivity | rewrite Hno; reflexivity|].
    intros y Hy. rewrite (Hb y Hy). reflexivity.
  - intro Hall. split.
    + intros name Hin. unfold parseSelectedFiles.
      rewrite (Hsup Hall), (resolvedFiles_Unreadable files name Hin). reflexivity.
    + intros parsed ->. rewrite parseSelectedFiles_Readable.
      apply (Hres parsed Hall).
Qed.

Lemma str_set_of_list_NoDup : forall l, NoDup (set_of_list String.eqb l).
Proof.
  intro l. unfold set_of_list. apply fold_left_inv; [constructor|].
  intros s k _ Hs. apply str_add_NoDup, Hs.
Qed.

Lemma headersOf_NoDup : forall data, NoDup (headersOf data).
Proof. intros [|row data]; [constructor | apply str_set_of_list_NoDup]. Qed.

(** What a run of [parseFiles] that resolves went through. *)
Lemma parseFiles_parsed : forall `{JsRuntime} `{JsText} files result,
  parseFiles files = Parsed result ->
  exists m,
    alignRows (intermediatesOf files) = Some (alignmentResult result, m) /\
    List.length (uploadedFiles result) = List.length files /\
    forall i file, nth_error files i = Some file ->
      exists data,
        map_get String.eqb (if_id (intermediateOf i file)) m = Some data /\
        nth_error (uploadedFiles result) i
        = Some {| file_id := if_id (intermediateOf i file);
                  file_name := pf_name file;
                  columns :=
                    List.map (sampledColumn (intermediateOf i file) data)
                             (headersOf (pf_rows file));
                  rowCount := List.length (pf_rows file);
                  sourceId := i + 1;
                  color := nth (i mod List.length DEFAULT_COLORS) DEFAULT_COLORS "" |}.
Proof.
  intros rt tx files result. unfold parseFiles.
  destruct (find _ files); [discriminate|]. fold (intermediatesOf files).
  destruct (alignRows_defined (intermediatesOf files)) as [r [m [-> Hm]]].
  destruct (allDefined _) as [ups|] eqn:Ea; [|discriminate].
  intro E. injection E as <-. cbn [uploadedFiles alignmentResult].
  exists m. split; [reflexivity|].
  apply allDefined_Forall2 in Ea. apply Forall2_indexed in Ea.
  destruct Ea as [El Hn]. split.
  - rewrite El. unfold intermediatesOf. rewrite length_map.
    unfold indexed. rewrite length_combine, length_seq. lia.
  - intros i file Ef.
    assert (Ei : nth_error (intermediatesOf files) i = Some (intermediateOf i file)).
    { apply (proj2 (indexed_map _ _ intermediateOf files i _)). exists file. auto. }
    destruct (Hn _ _ Ei) as [u [Eu Hu]]. cbn [fst snd] in Hu.
    destruct (Hm _ (nth_error_In _ _ Ei)) as [data Hd].
    exists data. split; [exact Hd|].
    rewrite (uploadedOf_defined m i _ data Hd) in Hu. injection Hu as <-.
    exact Eu.
Qed.

(** The files [parseFiles] returns: one for each file given, in the same
    order, with an identifier of its own. *)
Theorem parseFiles_files : forall `{JsRuntime} `{JsText} files result,
  parseFiles files = Parsed result ->
  List.length (uploadedFiles result) = List.length files /\
  NoDup (List.map file_id (uploadedFiles result)) /\
  forall i file, nth_error files i = Some file ->
    exists u,
      nth_error (uploadedFiles result) i = Some u /\
      file_id u = (pf_name file ++ "-" ++ decimal i)%string /\
      file_name u = pf_name file /\
      rowCount u = List.length (pf_rows file) /\
      sourceId u = i + 1 /\
      In (color u) DEFAULT_COLORS /\
      List.map originalName (columns u) = headersOf (pf_rows file) /\
      forall c, In c (columns u) ->
        fileId c = file_id u /\ fileName c = file_name u.
Proof.
  intros rt tx files result Hp.
  destruct (parseFiles_parsed files result Hp) as [m [_ [El Hn]]].
  split; [exact El|]. split.
  - apply (proj2 (NoDup_nth_error _)). intros i j Hi E.
    rewrite length_map, El in Hi.
    destruct (nth_error files i) as [fi|] eqn:Ei;
      [|apply nth_error_None in Ei; lia].
    destruct (Hn i fi Ei) as [di [_ Ui]].
    rewrite !nth_error_map, Ui in E. cbn [option_map file_id] in E.
    destruct (nth_error (uploadedFiles result) j) as [uj|] eqn:Uj; [|discriminate].
    assert (Hj : j < List.length files).
    { rewrite <- El. apply nth_error_Some. congruence. }
    destruct (nth_error files j) as [fj|] eqn:Ej;
      [|apply nth_error_None in Ej; lia].
    destruct (Hn j fj Ej) as [dj [_ Uj']].
    rewrite Uj' in Uj. injection Uj as <-. cbn in E. injection E as E.
    exact (file_id_index _ _ _ _ E).
  - intros i file Ef. destruct (Hn i file Ef) as [data [_ Eu]].
    eexists. split; [exact Eu|].
    cbn [file_id file_name columns rowCount sourceId color intermediateOf if_id].
    split; [reflexivity|]. split; [reflexivity|]. split; [reflexivity|].
    split; [reflexivity|]. split.
    + apply nth_In. apply Nat.mod_upper_bound. discriminate.
    + split.
      * rewrite map_map. cbn [sampledColumn originalName]. apply map_id.
      * intros c Hc. apply in_map_iff in Hc. destruct Hc as [h [<- _]].
        split; reflexivity.
Qed.

Lemma predominantType_In : forall types,
  types <> [] -> In (predominantType types) types.
Proof.
  intros [|first rest] Hne; [congruence|].
  destruct (first_mode_from (first :: rest) rest [] first [])
    as [b [a [r [E1 [E2 _]]]]]; [intros t [] | intros t [] |].
  cbn [app] in E1. cbn [predominantType]. rewrite E2, E1.
  apply in_or_app. right. left. reflexivity.
Qed.

Lemma predominantType_of_cells : forall `{JsRuntime} `{JsText} cells,
  predominantType (List.map getDataType cells) <> TBoolean /\
  predominantType (List.map getDataType cells) <> TMixed.
Proof.
  intros rt tx cells. destruct cells as [|v cells].
  - simpl. split; discriminate.
  - assert (Hin := predominantType_In (List.map getDataType (v :: cells))
                     ltac:(discriminate)).
    apply in_map_iff in Hin. destruct Hin as [w [<- _]].
    apply getDataType_not_boolean.
Qed.

(** The columns [parseFiles] returns: each samples at most 50 cells, none
    of them [null] or [undefined]; its type is the predominant type of the
    sampled cells, never [boolean] and never [mixed]; and the columns of a
    file have names of their own. *)
Theorem parseFiles_columns : forall `{JsRuntime} `{JsText} files result u c,
  parseFiles files = Parsed result ->
  In u (uploadedFiles result) -> In c (columns u) ->
  List.length (sampleData c) <= 50 /\
  Forall (fun v => notNullish v = true) (sampleData c) /\
  dataType c = predominantType (List.map getDataType (sampleData c)) /\
  dataType c <> TBoolean /\ dataType c <> TMixed /\
  NoDup (List.map originalName (columns u)).
Proof.
  intros rt tx files result u c Hp Hu Hc.
  destruct (parseFiles_parsed files result Hp) as [m [_ [El Hn]]].
  apply In_nth_error in Hu. destruct Hu as [i Eu].
  assert (Hi : i < List.length files).
  { rewrite <- El. apply nth_error_Some. congruence. }
  destruct (nth_error files i) as [file|] eqn:Ef;
    [|apply nth_error_None in Ef; lia].
  destruct (Hn i file Ef) as [data [_ Eu']].
  rewrite Eu' in Eu. injection Eu as <-. cbn [columns] in *.
  assert (Hnd : NoDup (List.map originalName
                  (List.map (sampledColumn (intermediateOf i file) data)
                            (headersOf (pf_rows file))))).
  { rewrite map_map. cbn [sampledColumn originalName]. rewrite map_id.
    apply headersOf_NoDup. }
  apply in_map_iff in Hc. destruct Hc as [h [<- _]].
  cbn [sampledColumn sampleData dataType].
  split.
  - etransitivity; [apply filter_length_le|].
    rewrite length_map, length_firstn. unfold SAMPLE_SIZE. lia.
  - split.
    + apply Forall_forall. intros v Hv. apply filter_In in Hv. apply Hv.
    + split; [reflexivity|].
      destruct (predominantType_of_cells
                  (filter notNullish
                     (List.map (fun row => cell row h) (firstn SAMPLE_SIZE data))))
        as [A B].
      split; [exact A|]. split; [exact B | exact Hnd].
Qed.

Lemma alignRows_failure : forall files r m,
  alignRows files = Some (r, m) -> success r = false ->
  m = map_of_list String.eqb (List.map (fun f => (if_id f, rawData f)) files).
Proof.
  intros files r m. unfold alignRows.
  destruct (selectBestMatch _) as [bm|].
  - destruct (map_get _ _ _) as [d1|]; [|discriminate].
    destruct (map_get _ _ _) as [d2|]; [|discriminate].
    destruct (10 <? _); intro E; injection E as <- <-; [discriminate | reflexivity].
  - intro E. injection E as <- <-. reflexivity.
Qed.

Lemma intermediatesOf_nth : forall files i f,
  nth_error (intermediatesOf files) i = Some f <->
  exists file, nth_error files i = Some file /\ f = intermediateOf i file.
Proof. intros files i f. apply (indexed_map _ _ intermediateOf files i f). Qed.

Lemma intermediatesOf_ids : forall files,
  NoDup (List.map if_id (intermediatesOf files)).
Proof.
  intro files. apply (proj2 (NoDup_nth_error _)). intros i j Hi E.
  rewrite !nth_error_map in E.
  destruct (nth_error (intermediatesOf files) i) as [fi|] eqn:Ei.
  - destruct (nth_error (intermediatesOf files) j) as [fj|] eqn:Ej; [|discriminate].
    apply intermediatesOf_nth in Ei, Ej.
    destruct Ei as [a [_ ->]]. destruct Ej as [b [_ ->]].
    cbn in E. injection E as E. exact (file_id_index _ _ _ _ E).
  - rewrite length_map in Hi. apply nth_error_None in Ei. lia.
Qed.

Lemma initial_rows : forall files i file,
  nth_error files i = Some file ->
  map_get String.eqb (if_id (intermediateOf i file))
    (map_of_list String.eqb
       (List.map (fun f => (if_id f, rawData f)) (intermediatesOf files)))
  = Some (pf_rows file).
Proof.
  intros files i file Ef. unfold map_of_list.
  assert (Hk : List.map fst
                 (List.map (fun f => (if_id f, rawData f)) (intermediatesOf files))
               = List.map if_id (intermediatesOf files))
    by (rewrite map_map; reflexivity).
  rewrite (str_map_of_list_NoDup_from _ _ [])
    by (simpl; rewrite Hk; apply intermediatesOf_ids).
  simpl. apply str_map_get_unique.
  - unfold map_keys. rewrite Hk. apply intermediatesOf_ids.
  - apply in_map_iff. exists (intermediateOf i file). split; [reflexivity|].
    apply (nth_error_In _ i). apply intermediatesOf_nth. eauto.
Qed.

(** Where the rows were not aligned, every column samples the first rows of
    its own file. *)
Theorem parseFiles_samples_unaligned :
  forall `{JsRuntime} `{JsText} files result i file,
  parseFiles files = Parsed result ->
  success (alignmentResult result) = false ->
  nth_error files i = Some file ->
  exists u,
    nth_error (uploadedFiles result) i = Some u /\
    forall c, In c (columns u) ->
      sampleData c
      = filter notNullish
          (List.map (fun row => cell row (originalName c))
                    (firstn 50 (pf_rows file))).
Proof.
  intros rt tx files result i file Hp Hs Ef.
  destruct (parseFiles_parsed files result Hp) as [m [Ha [_ Hn]]].
  pose proof (alignRows_failure _ _ _ Ha Hs) as Em.
  destruct (Hn i file Ef) as [data [Hd Eu]].
  rewrite Em, (initial_rows files i file Ef) in Hd. injection Hd as <-.
  eexists. split; [exact Eu|]. cbn [columns].
  intros c Hc. apply in_map_iff in Hc. destruct Hc as [h [<- _]]. reflexivity.
Qed.

(** ** Which columns stay unmatched *)










Section Unmatched.
Context `{JsRuntime}.
Variable files : list UploadedFile.
Hypothesis Hwf : wellKeyed files.

Local Abbreviation cols := (flat_map columns files).
Local Abbreviation pairKeys := (map_keys (acceptedPairs files)).



Lemma indexed_profile_source : forall i p,
  In (i, p) (indexed (profilesOf files)) ->
  nth_error cols i = Some (source p) /\ p = createColumnProfile (source p).
Proof.
  intros i p Hin. apply indexed_nth in Hin. rewrite profilesOf_map in Hin.
  rewrite nth_error_map in Hin.
  destruct (nth_error cols i) as [c|]; [|discriminate].
  injection Hin as <-. split; reflexivity.
Qed.






End Unmatched.

(** ** The key pair the aligner selects is the best one *)

Section BestKeys.
Variable keys : list KeyCandidate.

Definition keySimilarity (k1 k2 : KeyCandidate) : Q :=
  nameSimilarity (key_cleanedName k1) (key_cleanedName k2).

(** The state of the double loop: the best pair so far carries the best
    score so far. *)
Definition goodState (st : option KeyMatch * Q) : Prop :=
  (fst st = None /\ snd st = 0.7%Q) \/
  (exists bm, fst st = Some bm /\ key_score bm = snd st).

(** The pair at the places [i] and [j] does not beat the state. *)
Definition bounded (st : option KeyMatch * Q) (i j : nat) : Prop :=
  forall k1 k2,
    nth_error keys i = Some k1 -> nth_error keys j = Some k2 ->
    key_fileId k1 <> key_fileId k2 ->
    (keySimilarity k1 k2 <= snd st)%Q.

Lemma compareKeys_grows : forall i st j,
  (snd st <= snd (compareKeys keys i st j))%Q.
Proof.
  intros i st j. unfold compareKeys.
  destruct (nth_error keys i) as [k1|]; [|apply Qle_refl].
  destruct (nth_error keys j) as [k2|]; [|apply Qle_refl].
  destruct (negb _); [|apply Qle_refl].
  destruct (Qltb (snd st) _) eqn:E; [|apply Qle_refl].
  apply Qltb_lt in E. cbn [snd]. lra.
Qed.

Lemma compareKeys_good : forall i st j,
  goodState st -> goodState (compareKeys keys i st j).
Proof.
  intros i st j Hg. unfold compareKeys.
  destruct (nth_error keys i) as [k1|]; [|exact Hg].
  destruct (nth_error keys j) as [k2|]; [|exact Hg].
  destruct (negb _); [|exact Hg].
  destruct (Qltb (snd st) _); [|exact Hg].
  right. eexists. split; reflexivity.
Qed.

Lemma compareKeys_bounded : forall i st j,
  bounded (compareKeys keys i st j) i j.
Proof.
  intros i st j k1 k2 E1 E2 Hne. unfold compareKeys. rewrite E1, E2.
  assert (Ef : negb (String.eqb (key_fileId k1) (key_fileId k2)) = true).
  { apply negb_true_iff, String.eqb_neq, Hne. }
  rewrite Ef. fold (keySimilarity k1 k2).
  destruct (Qltb (snd st) (keySimilarity k1 k2)) eqn:E.
  - cbn [snd]. apply Qle_refl.
  - apply Qltb_ge in E. exact E.
Qed.

Lemma bounded_grows : forall st st' i j,
  (snd st <= snd st')%Q -> bounded st i j -> bounded st' i j.
Proof.
  intros st st' i j Hle Hb k1 k2 E1 E2 Hne.
  eapply Qle_trans; [exact (Hb k1 k2 E1 E2 Hne) | exact Hle].
Qed.

Definition rowInv (i j : nat) (st : option KeyMatch * Q) : Prop :=
  goodState st /\
  (forall a b, a < i -> a < b -> bounded st a b) /\
  (forall b, i < b < j -> bounded st i b).

Lemma inner_loop : forall i len st,
  rowInv i (i + 1) st ->
  rowInv i (i + 1 + len)
    (fold_left (compareKeys keys i) (seq (i + 1) len) st).
Proof.
  intros i len st H0.
  apply (fold_left_seq_inv _ (rowInv i) (compareKeys keys i)); [exact H0|].
  intros k s Hk [Hg [Ha Hb]].
  pose proof (compareKeys_grows i s k) as Hle.
  split; [apply compareKeys_good, Hg|]. split.
  - intros a b La Lb. exact (bounded_grows _ _ _ _ Hle (Ha a b La Lb)).
  - intros b Lb. destruct (Nat.eq_dec b k) as [->|Nk].
    + apply compareKeys_bounded.
    + apply (bounded_grows _ _ _ _ Hle). apply Hb. lia.
Qed.

Definition tableInv (i : nat) (st : option KeyMatch * Q) : Prop :=
  goodState st /\ forall a b, a < i -> a < b -> bounded st a b.

Lemma bounded_outside : forall st i j,
  List.length keys <= j -> bounded st i j.
Proof.
  intros st i j Hj k1 k2 _ E2 _. apply nth_error_None in Hj. congruence.
Qed.

Lemma outer_loop :
  tableInv (List.length keys)
    (fold_left
       (fun st i =>
          fold_left (compareKeys keys i)
                    (seq (i + 1) (List.length keys - (i + 1))) st)
       (seq 0 (List.length keys)) (None, 0.7%Q)).
Proof.
  apply (fold_left_seq_inv _ tableInv
           (fun st i =>
              fold_left (compareKeys keys i)
                        (seq (i + 1) (List.length keys - (i + 1))) st)
           (List.length keys) 0).
  - split; [left; split; reflexivity|]. intros a b La. lia.
  - intros i s Hi [Hg Ha].
    destruct (inner_loop i (List.length keys - (i + 1)) s) as [Hg' [Ha' Hb']].
    { split; [exact Hg|]. split; [exact Ha|]. intros b Lb. lia. }
    split; [exact Hg'|].
    intros a b La Lb. destruct (Nat.eq_dec a i) as [->|Na].
    + destruct (Nat.lt_ge_cases b (List.length keys)) as [L|L].
      * apply Hb'. lia.
      * apply bounded_outside, L.
    + apply Ha'; lia.
Qed.

End BestKeys.

(** The aligner selects a pair of key columns of two files that no other
    such pair beats, and it selects none exactly when no such pair is more
    similar than 0.7. *)
Theorem selectBestMatch_is_best : forall keys,
  (forall bm, selectBestMatch keys = Some bm ->
     forall k1 k2, In k1 keys -> In k2 keys ->
       key_fileId k1 <> key_fileId k2 ->
       (nameSimilarity (key_cleanedName k1) (key_cleanedName k2)
        <= key_score bm)%Q) /\
  (selectBestMatch keys = None <->
   forall k1 k2, In k1 keys -> In k2 keys ->
     key_fileId k1 <> key_fileId k2 ->
     (nameSimilarity (key_cleanedName k1) (key_cleanedName k2) <= 0.7)%Q).
Proof.
  intro keys. pose proof (outer_loop keys) as [Hg Hb].
  unfold selectBestMatch.
  set (st := fold_left _ _ _) in *.
  assert (Hall : forall k1 k2, In k1 keys -> In k2 keys ->
            key_fileId k1 <> key_fileId k2 ->
            (nameSimilarity (key_cleanedName k1) (key_cleanedName k2) <= snd st)%Q).
  { intros k1 k2 H1 H2 Hne.
    apply In_nth_error in H1, H2. destruct H1 as [i Ei]. destruct H2 as [j Ej].
    assert (Li : i < List.length keys) by (apply nth_error_Some; congruence).
    assert (Lj : j < List.length keys) by (apply nth_error_Some; congruence).
    destruct (Nat.lt_trichotomy i j) as [L|[->|L]].
    - exact (Hb i j Li L k1 k2 Ei Ej Hne).
    - congruence.
    - rewrite nameSimilarity_sym.
      apply (Hb j i Lj L k2 k1 Ej Ei). congruence. }
  split.
  - intros bm Eb. destruct Hg as [[En _]|[bm' [Eb' Es]]]; [congruence|].
    rewrite Eb in Eb'. injection Eb' as <-. rewrite Es. exact Hall.
  - split.
    + intro En. destruct Hg as [[_ Es]|[bm [Eb _]]]; [|congruence].
      rewrite <- Es. exact Hall.
    + intro Hlow. destruct (fst st) as [bm|] eqn:Eb; [|reflexivity].
      exfalso.
      assert (Hsel : selectBestMatch keys = Some bm) by exact Eb.
      destruct (selectBestMatch_spec keys bm Hsel) as [K1 [K2 [Hne [Es Hs]]]].
      pose proof (Hlow _ _ K1 K2 Hne) as Hle. rewrite <- Es in Hle. lra.
Qed.

(** ** From the files the user picks to keys that are unambiguous *)

(** A text is cut in one way at its first [-]. *)
Lemma first_dash_unique : forall p q r r',
  (p ++ "-" ++ r)%string = (q ++ "-" ++ r')%string ->
  hasUnit dash p = false -> hasUnit dash q = false -> p = q /\ r = r'.
Proof.
  induction p as [|c p IH]; intros q r r' E Hp Hq.
  - destruct q as [|c' q].
    + simpl in E. injection E as E. auto.
    + simpl in E. injection E as Ec _. subst c'. simpl in Hq. discriminate.
  - destruct q as [|c' q].
    + simpl in E. injection E as Ec _. subst c. simpl in Hp. discriminate.
    + simpl in E. injection E as Ec E. subst c'.
      simpl in Hp, Hq. apply orb_false_iff in Hp, Hq.
      destruct (IH q r r' E (proj2 Hp) (proj2 Hq)) as [-> ->]. auto.
Qed.

Lemma barFree_append : forall s t,
  barFree (s ++ t) = barFree s && barFree t.
Proof.
  induction s as [|c s IH]; intro t; simpl; [reflexivity|].
  rewrite IH, andb_assoc. reflexivity.
Qed.

Lemma digits_barFree : forall d, barFree (NilEmpty.string_of_uint d) = true.
Proof. induction d; simpl; auto. Qed.

Lemma decimal_barFree : forall n, barFree (decimal n) = true.
Proof. intro n. apply digits_barFree. Qed.

Lemma NoDup_flat_map : forall (X Y : Type) (g : X -> list Y) (l : list X),
  (forall x, In x l -> NoDup (g x)) ->
  (forall i j x y k, i <> j -> nth_error l i = Some x -> nth_error l j = Some y ->
     In k (g x) -> In k (g y) -> False) ->
  NoDup (flat_map g l).
Proof.
  intros X Y g. induction l as [|x l IH]; intros Hnd Hdis; [constructor|].
  cbn [flat_map]. apply NoDup_app.
  - apply Hnd. left. reflexivity.
  - apply IH.
    + intros y Hy. apply Hnd. right. exact Hy.
    + intros i j a b k Hij Ea Eb. apply (Hdis (S i) (S j)); [lia | exact Ea | exact Eb].
  - intros k Hk Hk'. apply in_flat_map in Hk'. destruct Hk' as [y [Hy Hky]].
    apply In_nth_error in Hy. destruct Hy as [j Ej].
    exact (Hdis 0 (S j) x y k ltac:(lia) eq_refl Ej Hk Hky).
Qed.

Section PlainNames.
Context `{JsRuntime} `{JsText}.
Variable files : list ParsedFile.
Variable parsed : ParseResult.
Hypothesis Hparsed : parseFiles files = Parsed parsed.
Hypothesis Hnames : forall file, In file files -> plainName (pf_name file).
Hypothesis Hheaders : forall file header,
  In file files -> In header (headersOf (pf_rows file)) -> barFree header = true.

Lemma uploaded_nth : forall i u,
  nth_error (uploadedFiles parsed) i = Some u ->
  exists file,
    nth_error files i = Some file /\
    file_id u = (pf_name file ++ "-" ++ decimal i)%string /\
    file_name u = pf_name file /\
    List.map originalName (columns u) = headersOf (pf_rows file) /\
    forall c, In c (columns u) -> fileId c = file_id u.
Proof.
  intros i u Eu.
  destruct (parseFiles_parsed files parsed Hparsed) as [m [_ [El Hn]]].
  assert (Hi : i < List.length files).
  { rewrite <- El. apply nth_error_Some. congruence. }
  destruct (nth_error files i) as [file|] eqn:Ef;
    [|apply nth_error_None in Ef; lia].
  destruct (Hn i file Ef) as [data [_ Eu']].
  rewrite Eu in Eu'. injection Eu' as ->.
  exists file. cbn [file_id file_name columns intermediateOf if_id].
  split; [reflexivity|]. split; [reflexivity|]. split; [reflexivity|].
  split.
  - rewrite map_map. cbn [sampledColumn originalName]. apply map_id.
  - intros c Hc. apply in_map_iff in Hc. destruct Hc as [h [<- _]]. reflexivity.
Qed.

Lemma column_key_parts : forall i u c,
  nth_error (uploadedFiles parsed) i = Some u -> In c (columns u) ->
  exists file,
    nth_error files i = Some file /\
    In (originalName c) (headersOf (pf_rows file)) /\
    columnKey c
    = (pf_name file ++ "-" ++ decimal i ++ "-" ++ originalName c)%string.
Proof.
  intros i u c Eu Hc.
  destruct (uploaded_nth i u Eu) as [file [Ef [E1 [_ [E3 E4]]]]].
  exists file. split; [exact Ef|]. split.
  - rewrite <- E3. apply in_map. exact Hc.
  - unfold columnKey. rewrite (E4 c Hc), E1, !append_assoc. reflexivity.
Qed.

Lemma parsed_keys_NoDup :
  NoDup (List.map columnKey (flat_map columns (uploadedFiles parsed))).
Proof.
  rewrite flat_map_concat_map, concat_map, map_map, <- flat_map_concat_map.
  apply NoDup_flat_map.
  - intros u Hu. apply In_nth_error in Hu. destruct Hu as [i Eu].
    destruct (uploaded_nth i u Eu) as [file [Ef [E1 [_ [E3 E4]]]]].
    assert (Hnd : NoDup (List.map originalName (columns u)))
      by (rewrite E3; apply headersOf_NoDup).
    revert Hnd E4. generalize (columns u). intro cs.
    induction cs as [|c cs IH]; intros Hnd E4; [constructor|].
    cbn [List.map] in *. inversion Hnd as [|x l Hx Hl]; subst.
    constructor; [|apply IH; [exact Hl | intros c' Hc'; apply E4; right; exact Hc']].
    intro Hin. apply in_map_iff in Hin. destruct Hin as [c' [Ek Hc']].
    apply Hx. apply in_map_iff. exists c'. split; [|exact Hc'].
    unfold columnKey in Ek.
    rewrite (E4 c (or_introl eq_refl)), (E4 c' (or_intror Hc')) in Ek.
    apply append_inj_l in Ek. apply (append_inj_l "-") in Ek. exact Ek.
  - intros i j u v k Hij Eu Ev Hu Hv.
    apply in_map_iff in Hu, Hv.
    destruct Hu as [c [Ec Hc]]. destruct Hv as [c' [Ec' Hc']].
    destruct (column_key_parts i u c Eu Hc) as [fi [Efi [_ Ki]]].
    destruct (column_key_parts j v c' Ev Hc') as [fj [Efj [_ Kj]]].
    rewrite Ki in Ec. rewrite Kj in Ec'. rewrite <- Ec' in Ec.
    destruct (first_dash_unique _ _ _ _ Ec) as [_ Er].
    + apply (Hnames fi (nth_error_In _ _ Efi)).
    + apply (Hnames fj (nth_error_In _ _ Efj)).
    + destruct (first_dash_unique _ _ _ _ Er (decimal_no_dash i) (decimal_no_dash j))
        as [Ed _].
      apply decimal_inj in Ed. contradiction.
Qed.

Lemma parsed_wellKeyed : wellKeyed (uploadedFiles parsed).
Proof.
  split; [exact parsed_keys_NoDup|].
  apply Forall_forall. intros c Hc. apply in_flat_map in Hc.
  destruct Hc as [u [Hu Hc]]. apply In_nth_error in Hu. destruct Hu as [i Eu].
  destruct (column_key_parts i u c Eu Hc) as [file [Ef [Hh ->]]].
  pose proof (nth_error_In _ _ Ef) as Hf.
  rewrite !barFree_append, decimal_barFree.
  rewrite (proj2 (Hnames file Hf)), (Hheaders file _ Hf Hh). reflexivity.
Qed.

End PlainNames.

(** Files whose names hold no [-] and no [|], with headers that hold no
    [|], give columns with keys of their own. *)
Theorem parseFiles_wellKeyed : forall `{JsRuntime} `{JsText} files parsed,
  parseFiles files = Parsed parsed ->
  (forall file, In file files ->
     hasUnit dash (pf_name file) = false /\ barFree (pf_name file) = true) ->
  (forall file header,
     In file files -> In header (headersOf (pf_rows file)) ->
     barFree header = true) ->
  wellKeyed (uploadedFiles parsed).
Proof.
  intros rt tx files parsed Hp Hn Hh.
  exact (parsed_wellKeyed files parsed Hp Hn Hh).
Qed.

(** ** The unmatched columns the user is shown *)

Lemma collect_other : forall unmatched l acc name,
  ~ In name (List.map file_name l) ->
  map_get String.eqb name (fold_left (collectUnmatched unmatched) l acc)
  = map_get String.eqb name acc.
Proof.
  intros unmatched. induction l as [|f l IH]; intros acc name Hn; [reflexivity|].
  cbn [fold_left]. rewrite IH by (intro Hin; apply Hn; right; exact Hin).
  unfold collectUnmatched. destruct (0 <? _); [|reflexivity].
  apply str_map_get_set_other. intro E. apply Hn. left. exact E.
Qed.

Lemma collect_file : forall unmatched l acc f,
  NoDup (List.map file_name l) -> In f l ->
  (forall g, In g l -> map_get String.eqb (file_name g) acc = None) ->
  map_get String.eqb (file_name f) (fold_left (collectUnmatched unmatched) l acc)
  = if 0 <? List.length (unmatchedNames unmatched f)
    then Some (unmatchedNames unmatched f) else None.
Proof.
  intros unmatched. induction l as [|g l IH]; intros acc f Hnd Hf Hacc;
    [destruct Hf|].
  cbn [List.map] in Hnd. inversion Hnd as [|x xs Hx Hxs]; subst.
  cbn [fold_left]. destruct Hf as [->|Hf].
  - rewrite (collect_other unmatched l _ (file_name f) Hx).
    unfold collectUnmatched. destruct (0 <? _).
    + apply str_map_get_set_same.
    + apply Hacc. left. reflexivity.
  - apply IH; [exact Hxs | exact Hf|].
    intros h Hh. unfold collectUnmatched. destruct (0 <? _).
    + rewrite str_map_get_set_other; [apply Hacc; right; exact Hh|].
      intro E. apply Hx. rewrite E. apply in_map. exact Hh.
    + apply Hacc. right. exact Hh.
Qed.

Lemma unmatchedMapOf_get : forall uploadedFiles unmatched file,
  NoDup (List.map file_name uploadedFiles) -> In file uploadedFiles ->
  map_get String.eqb (file_name file) (unmatchedMapOf uploadedFiles unmatched)
  = if 0 <? List.length (unmatchedNames unmatched file)
    then Some (unmatchedNames unmatched file) else None.
Proof.
  intros ups unmatched file Hnd Hf.
  exact (collect_file unmatched ups [] file Hnd Hf (fun _ _ => eq_refl)).
Qed.

(** The map of unmatched columns, for files with names of their own: under
    the name of a file stand the names of its unmatched columns, in the
    order of the run's result, and a file with none has no entry. *)
Theorem unmatchedMapOf_lists_each_file : forall uploadedFiles unmatched file,
  NoDup (List.map file_name uploadedFiles) ->
  In file uploadedFiles ->
  map_get String.eqb (file_name file) (unmatchedMapOf uploadedFiles unmatched)
  = match List.map originalName
            (filter (fun c => String.eqb (fileId c) (file_id file)) unmatched) with
    | [] => None
    | names => Some names
    end.
Proof.
  intros ups unmatched file Hnd Hf.
  rewrite (unmatchedMapOf_get ups unmatched file Hnd Hf). unfold unmatchedNames.
  destruct (List.map originalName _); reflexivity.
Qed.

(** The upload of two files or more that their parsers read, of a supported
    type, with names of their own that hold no [-] and no [|] and headers
    that hold no [|]: the handler moves on to the matching step, and every
    column of every file is a member of a match or is listed as unmatched
    under the name of its file. *)
Theorem upload_covers_every_column : forall `{JsRuntime} `{JsText} selectedFiles,
  2 <= List.length selectedFiles ->
  (forall file, In file selectedFiles ->
     supportedType (pf_name file) = true /\
     hasUnit dash (pf_name file) = false /\ barFree (pf_name file) = true) ->
  (forall file header,
     In file selectedFiles -> In header (headersOf (pf_rows file)) ->
     barFree header = true) ->
  NoDup (List.map pf_name selectedFiles) ->
  exists files notice matches unmatchedColumns,
    handleFilesSelected (List.map Readable selectedFiles)
    = ReadyToMatch files notice matches unmatchedColumns /\
    List.map file_name files = List.map pf_name selectedFiles /\
    forall file column, In file files -> In column (columns file) ->
      (exists m, In m matches /\ In (memberOfColumn column) (match_columns m)) \/
      (exists names,
         map_get String.eqb (file_name file) unmatchedColumns = Some names /\
         In (originalName column) names).
Proof.
  intros rt tx selected Hlen Hfiles Hheaders Hnd.
  destruct (parseFiles_resolves selected) as [parsed Hp];
    [intros f Hf; apply (Hfiles f Hf)|].
  assert (Hwf : wellKeyed (uploadedFiles parsed)).
  { apply (parsed_wellKeyed selected parsed Hp); [|exact Hheaders].
    intros f Hf. apply (Hfiles f Hf). }
  assert (El : List.length (uploadedFiles parsed) = List.length selected).
  { destruct (parseFiles_parsed selected parsed Hp) as [m [_ [El _]]]. exact El. }
  assert (Hn : forall i u, nth_error (uploadedFiles parsed) i = Some u ->
            exists file,
              nth_error selected i = Some file /\
              file_name u = pf_name file /\
              forall c, In c (columns u) -> fileId c = file_id u).
  { intros i u Eu.
    destruct (uploaded_nth selected parsed Hp i u Eu) as [f [Ef [_ [E2 [_ E4]]]]].
    exists f. auto. }
  assert (Enames : List.map file_name (uploadedFiles parsed)
                   = List.map pf_name selected).
  { apply nth_error_ext. intro i. rewrite !nth_error_map.
    destruct (nth_error (uploadedFiles parsed) i) as [u|] eqn:Eu.
    - destruct (Hn i u Eu) as [f [Ef [E2 _]]]. rewrite Ef. cbn. congruence.
    - apply nth_error_None in Eu.
      assert (Ef : nth_error selected i = None)
        by (apply nth_error_None; lia).
      rewrite Ef. reflexivity. }
  assert (Hlen' : 2 <= List.length (uploadedFiles parsed)) by lia.
  destruct (generateMatches_wellKeyed (uploadedFiles parsed) Hwf Hlen')
    as [clusters [ms [Hb [HF Hg]]]].
  unfold handleFilesSelected. rewrite length_map.
  assert (El2 : (List.length selected <? 2) = false) by (apply Nat.ltb_ge; exact Hlen).
  rewrite El2, parseSelectedFiles_Readable, Hp, Hg. cbn [matches unmatched].
  eexists. eexists. eexists. eexists. split; [reflexivity|].
  split; [exact Enames|].
  intros file column Hf Hc.
  assert (Hcol : In column (flat_map columns (uploadedFiles parsed)))
    by (apply in_flat_map; exists file; auto).
  destruct (str_has (columnKey column)
              (set_of_list String.eqb (List.concat (map_values clusters)))) eqn:Ek.
  - left. rewrite str_has_set_of_list in Ek. apply str_has_In in Ek.
    apply in_concat in Ek. destruct Ek as [cl [Hcl Hk]].
    destruct (Forall2_In_l _ _ _ _ _ _ HF Hcl) as [m [Hm [cs [Ecs [Hincl Em]]]]].
    exists m. split; [apply sortMatches_In; exact Hm|].
    rewrite Em. apply in_map.
    apply (column_of_key _ Hwf cs column Hincl Hcol). rewrite Ecs. exact Hk.
  - right.
    assert (Hfid : fileId column = file_id file).
    { apply In_nth_error in Hf. destruct Hf as [i Eu].
      destruct (Hn i file Eu) as [f [_ [_ E4]]]. apply (E4 column Hc). }
    assert (Hin : In (originalName column)
                     (unmatchedNames
                        (filter
                           (fun c => negb (str_has (columnKey c)
                              (set_of_list String.eqb (List.concat (map_values clusters)))))
                           (flat_map columns (uploadedFiles parsed)))
                        file)).
    { unfold unmatchedNames. apply in_map. apply filter_In. split.
      - apply filter_In. split; [exact Hcol | rewrite Ek; reflexivity].
      - apply String.eqb_eq. exact Hfid. }
    rewrite unmatchedMapOf_get; [|rewrite Enames; exact Hnd | exact Hf].
    destruct (0 <? _) eqn:E0.
    + eexists. split; [reflexivity | exact Hin].
    + apply Nat.ltb_ge in E0.
      destruct (unmatchedNames _ file); [destruct Hin | simpl in E0; lia].
Qed.

(** Where a file is of another type, or its parser rejects, the handler
    catches the rejection and returns to the upload step. *)
Lemma upload_returns_on_rejection : forall `{JsRuntime} `{JsText} selectedFiles,
  2 <= List.length selectedFiles ->
  (exists file, In file selectedFiles /\
                supportedType (selectedName file) = false) \/
  (exists name, In (Unreadable name) selectedFiles) ->
  handleFilesSelected selectedFiles = ParseFailed.
Proof.
  intros rt tx selected Hlen Hbad. unfold handleFilesSelected.
  assert (El : (List.length selected <? 2) = false) by (apply Nat.ltb_ge; exact Hlen).
  rewrite El. unfold parseSelectedFiles.
  destruct (find _ selected) as [file|] eqn:Ef; [reflexivity|].
  destruct Hbad as [[file [Hin Hno]]|[name Hin]].
  - pose proof (find_none _ _ Ef file Hin) as Hn. cbn beta in Hn.
    rewrite Hno in Hn. discriminate Hn.
  - rewrite (resolvedFiles_Unreadable selected name Hin). reflexivity.
Qed.

Lemma magnitudeScore_bounds : forall d : Q, (0 <= Qmax 0 (1 - Qabs d / 5) <= 1)%Q.
Proof.
  intro d. pose proof (Qabs_nonneg d) as Hd.
  assert (Ey : (Qabs d / 5 == Qabs d * (1 # 5))%Q) by reflexivity.
  split; [apply Q.le_max_l|].
  apply Q.max_lub; [discriminate|]. rewrite Ey. lra.
Qed.

Lemma ratio_bounds : forall n d : Q, (0 <= n)%Q -> (0 < d)%Q -> (n <= d)%Q ->
  (0 <= n / d <= 1)%Q.
Proof.
  intros n d Hn Hd Hle. split.
  - apply Qle_shift_div_l; [exact Hd | lra].
  - apply Qle_shift_div_r; [exact Hd | lra].
Qed.

Lemma cvSimilarity_bounds : forall a b : Q, (0 <= a)%Q -> (0 <= b)%Q ->
  (0 <= 1 - Qmin 1 (Qabs (a - b) / (if Qeq_bool (a + b) 0 then 1 else a + b)) <= 1)%Q.
Proof.
  intros a b Ha Hb.
  set (d := if Qeq_bool (a + b) 0 then 1%Q else (a + b)%Q).
  assert (Hd : (0 < d)%Q).
  { unfold d. destruct (Qeq_bool (a + b) 0) eqn:E; [reflexivity|].
    apply Qeq_bool_neq in E. lra. }
  pose proof (Qabs_nonneg (a - b)) as Hn.
  assert (H0 : (0 <= Qabs (a - b) / d)%Q)
    by (apply Qle_shift_div_l; [exact Hd | lra]).
  pose proof (Q.le_min_l 1 (Qabs (a - b) / d)) as H1.
  assert (H2 : (0 <= Qmin 1 (Qabs (a - b) / d))%Q)
    by (apply Q.min_glb; [discriminate | exact H0]).
  lra.
Qed.

Lemma averageLength_nonneg : forall `{JsText} sample, (0 <= averageLength sample)%Q.
Proof.
  intros tx sample. unfold averageLength.
  destruct (List.length sample) as [|n] eqn:E.
  - unfold Qdiv, Qinv, Qnat. simpl. rewrite Qmult_0_r. discriminate.
  - apply Qle_shift_div_l; [apply Qnat_pos; lia|].
    rewrite Qmult_0_l. apply Qnat_nonneg.
Qed.

Lemma lengthSimilarity_bounds : forall a b : Q, (0 <= a)%Q -> (0 <= b)%Q ->
  (0 <= 1 - Qabs (a - b) / Qmax (Qmax a b) 1 <= 1)%Q.
Proof.
  intros a b Ha Hb.
  pose proof (Q.le_max_r (Qmax a b) 1) as M1.
  pose proof (Q.le_max_l (Qmax a b) 1) as M2.
  pose proof (Q.le_max_l a b) as M3. pose proof (Q.le_max_r a b) as M4.
  assert (Hab : (Qabs (a - b) <= Qmax (Qmax a b) 1)%Q).
  { apply Qabs_case; intros; lra. }
  destruct (ratio_bounds (Qabs (a - b)) (Qmax (Qmax a b) 1)) as [R1 R2];
    [apply Qabs_nonneg | lra | exact Hab|].
  lra.
Qed.

(** The score shown to the user is 0 for columns of two types, and a share
    between 0 and 1 for columns of one type other than [number]. *)
Theorem compareColumnContents_score_range :
  forall `{JsRuntime} `{JsText} columnA columnB,
  (dataType columnA <> dataType columnB ->
   cmp_score (compareColumnContents columnA columnB) = 0%Q) /\
  (dataType columnA <> TNumber ->
   (0 <= cmp_score (compareColumnContents columnA columnB) <= 1)%Q).
Proof.
  intros rt tx columnA columnB. unfold compareColumnContents.
  destruct (DataType_eqb (dataType columnA) (dataType columnB)) eqn:Et; cbn [negb].
  2: { cbn [cmp_score]. split; [reflexivity | intros _; split; discriminate]. }
  apply DataType_eqb_eq in Et. split; [congruence|]. intro Hn.
  destruct (_ || _); [cbn [cmp_score]; split; discriminate|].
  destruct (DataType_eqb (dataType columnA) TNumber) eqn:En.
  { apply DataType_eqb_eq in En. congruence. }
  cbn [cmp_score].
  match goal with
  | |- context [jaccardSimilarity ?a ?b] =>
      pose proof (jaccardSimilarity_bounds a b) as Hj;
      set (jaccard := jaccardSimilarity a b) in *
  end.
  pose proof (lengthSimilarity_bounds _ _
                (averageLength_nonneg (filter nonEmpty (sampleData columnA)))
                (averageLength_nonneg (filter nonEmpty (sampleData columnB)))) as Hl.
  lra.
Qed.

Lemma Qabs_self : forall x : Q, (Qabs (x - x) == 0)%Q.
Proof. intro x. apply Qabs_case; intros; lra. Qed.

Lemma magnitudeScore_self : forall x : Q, (Qmax 0 (1 - Qabs (x - x) / 5) == 1)%Q.
Proof.
  intro x. rewrite Qabs_self. rewrite Q.max_r by discriminate. reflexivity.
Qed.

Lemma cvSimilarity_self : forall a d : Q,
  ((if Qeq_bool a 0 && Qeq_bool a 0 then 1
    else 1 - Qmin 1 (Qabs (a - a) / d)) == 1)%Q.
Proof.
  intros a d. destruct (_ && _); [reflexivity|].
  rewrite Qabs_self. unfold Qdiv. rewrite Qmult_0_l.
  rewrite Q.min_r by discriminate. reflexivity.
Qed.

Lemma lengthSimilarity_self : forall a m : Q, (1 - Qabs (a - a) / m == 1)%Q.
Proof.
  intros a m. rewrite Qabs_self. unfold Qdiv. rewrite Qmult_0_l. reflexivity.
Qed.

Lemma set_of_list_nonempty : forall l : list value,
  l <> [] -> set_of_list value_eqb l <> [].
Proof.
  intros [|x l] Hne E; [congruence|].
  assert (Hx : set_has value_eqb x (set_of_list value_eqb (x :: l)) = true).
  { rewrite (set_has_of_list _ value_eqb value_eqb_sym value_eqb_trans).
    simpl. rewrite value_eqb_refl. reflexivity. }
  rewrite E in Hx. discriminate.
Qed.

Lemma jaccardSimilarity_self : forall l : list value,
  l <> [] ->
  (jaccardSimilarity (set_of_list value_eqb l) (set_of_list value_eqb l) == 1)%Q.
Proof.
  intros l Hne.
  pose proof (set_of_list_distinct _ value_eqb value_eqb_sym l) as Hd.
  apply (jaccardSimilarity_one _ _ Hd Hd);
    [apply set_of_list_nonempty, Hne | |]; intros v Hv; apply vhas_In, Hv.
Qed.

Lemma length_eqb_nil : forall (X : Type) (l : list X),
  (List.length l =? 0) = true <-> l = [].
Proof. intros X l. rewrite Nat.eqb_eq. apply length_zero_iff_nil. Qed.

(** A column that is not a column of numbers, compared with itself, scores
    1 where it has a sampled value.  A column with no sampled value, and a
    column of numbers with no numeric statistics, score 0.1 against
    themselves. *)
Theorem compareColumnContents_self : forall `{JsRuntime} `{JsText} column,
  (filter nonEmpty (sampleData column) <> [] ->
   dataType column <> TNumber ->
   (cmp_score (compareColumnContents column column) == 1)%Q) /\
  (filter nonEmpty (sampleData column) = [] \/
   (dataType column = TNumber /\
    getNumericStats (filter nonEmpty (sampleData column)) = None) ->
   cmp_score (compareColumnContents column column) = 0.1%Q).
Proof.
  intros rt tx column. unfold compareColumnContents.
  assert (Et : DataType_eqb (dataType column) (dataType column) = true)
    by (apply DataType_eqb_eq; reflexivity).
  rewrite Et. cbn [negb]. rewrite orb_diag.
  set (sample := filter nonEmpty (sampleData column)).
  destruct (List.length sample =? 0) eqn:El.
  { apply length_eqb_nil in El. split; [intro N; congruence | reflexivity]. }
  assert (Hne : sample <> []).
  { intro E. apply length_eqb_nil in E. congruence. }
  destruct (DataType_eqb (dataType column) TNumber) eqn:En.
  - apply DataType_eqb_eq in En.
    destruct (getNumericStats sample) as [stats|] eqn:Es; cbn [cmp_score]; split.
    + intros _ N. exfalso. exact (N En).
    + intros [E|[_ E]]; congruence.
    + intros _ N. exfalso. exact (N En).
    + reflexivity.
  - cbn [cmp_score]. split.
    + intros _ _. rewrite (jaccardSimilarity_self sample Hne), lengthSimilarity_self.
      reflexivity.
    + intros [E|[E _]]; [congruence|].
      apply DataType_eqb_eq in E. congruence.
Qed.

Lemma Qplus_comm_eq : forall a b : Q, (a + b)%Q = (b + a)%Q.
Proof.
  intros [n1 d1] [n2 d2]. unfold Qplus. cbn [Qnum Qden].
  f_equal; [lia | apply Pos.mul_comm].
Qed.

(** The score does not depend on which column is given first. *)
Theorem compareColumnContents_symmetric :
  forall `{JsRuntime} `{JsText} columnA columnB,
  (cmp_score (compareColumnContents columnA columnB)
   == cmp_score (compareColumnContents columnB columnA))%Q.
Proof.
  intros rt tx columnA columnB. unfold compareColumnContents.
  rewrite (DataType_eqb_sym (dataType columnB)).
  destruct (DataType_eqb (dataType columnA) (dataType columnB)) eqn:Et; cbn [negb];
    [|reflexivity].
  apply DataType_eqb_eq in Et. rewrite <- Et.
  rewrite (orb_comm (List.length (filter nonEmpty (sampleData columnB)) =? 0)).
  destruct (_ || _); [reflexivity|].
  destruct (DataType_eqb (dataType columnA) TNumber).
  - destruct (getNumericStats (filter nonEmpty (sampleData columnA))) as [statsA|],
             (getNumericStats (filter nonEmpty (sampleData columnB))) as [statsB|];
      cbn [cmp_score]; try reflexivity.
    rewrite (Qabs_minus_sym (inject_Z (orderOfMagnitude statsB))).
    set (cvA := if negb (Qeq_bool (mean statsA) 0)
                then Qabs (stddev statsA / mean statsA) else 0%Q).
    set (cvB := if negb (Qeq_bool (mean statsB) 0)
                then Qabs (stddev statsB / mean statsB) else 0%Q).
    rewrite (andb_comm (Qeq_bool cvB 0)), (Qabs_minus_sym cvB cvA),
            (Qplus_comm_eq cvB cvA).
    reflexivity.
  - cbn [cmp_score].
    rewrite (jaccardSimilarity_sym
               (set_of_list value_eqb (filter nonEmpty (sampleData columnB)))
               (set_of_list value_eqb (filter nonEmpty (sampleData columnA))))
      by (apply set_of_list_distinct, value_eqb_sym).
    rewrite (Qabs_minus_sym (averageLength (filter nonEmpty (sampleData columnB)))).
    rewrite (Q.max_comm (averageLength (filter nonEmpty (sampleData columnB)))).
    reflexivity.
Qed.

(** ** The SQL export: one list of columns for every file *)

Lemma selectClause_aliased : forall confirmedMatches cu mnc file finalColName,
  aliased (selectClause confirmedMatches cu mnc file finalColName) finalColName.
Proof.
  intros confirmedMatches cu mnc file name. unfold selectClause, aliased.
  destruct (find _ confirmedMatches) as [mt|].
  - destruct (find _ (match_columns mt)) as [col|].
    + destruct (match map_get String.eqb name mnc with Some b => b | None => false end).
      * exists ("CAST(" ++ dquote ++ columnName col ++ dquote ++ " AS VARCHAR)")%string.
        rewrite !append_assoc. reflexivity.
      * exists (dquote ++ columnName col ++ dquote)%string.
        rewrite !append_assoc. reflexivity.
    + exists "NULL". reflexivity.
  - destruct (match map_get String.eqb (file_name file) cu with
              | Some cols => str_has name cols | None => false end).
    + exists (dquote ++ name ++ dquote)%string. rewrite !append_assoc. reflexivity.
    + exists "NULL". reflexivity.
Qed.

(** The [SELECT] of every file lists the same aliases in the same order:
    the source column, where it is asked for, and the final columns; the
    parts of the [UNION ALL] have their columns in common. *)
Theorem select_clauses_aligned :
  forall options confirmedMatches comprehensiveUnmatched
         matchesNeedingConversion finalColumnList file,
  Forall2 aliased
    (selectClausesOf options confirmedMatches comprehensiveUnmatched
       matchesNeedingConversion finalColumnList file)
    (aliasesOf options finalColumnList).
Proof.
  intros options confirmedMatches cu mnc final file.
  assert (Hmap : Forall2 aliased
            (List.map (selectClause confirmedMatches cu mnc file) final) final).
  { induction final as [|name final IH]; [constructor|].
    cbn [List.map]. constructor; [apply selectClause_aliased | exact IH]. }
  unfold selectClausesOf, aliasesOf. destruct (includeSource options); [|exact Hmap].
  cbn [app]. constructor; [|exact Hmap].
  exists ("'" ++ file_name file ++ "'")%string. rewrite !append_assoc. reflexivity.
Qed.

(** ** The final columns *)

Lemma insertString_Permutation : forall x l, Permutation (insertString x l) (x :: l).
Proof.
  intros x. induction l as [|y l IH]; [reflexivity|]. cbn [insertString].
  destruct (String.leb x y); [reflexivity|].
  rewrite perm_swap. apply perm_skip, IH.
Qed.

Lemma sortStrings_Permutation : forall l, Permutation (sortStrings l) l.
Proof.
  induction l as [|x l IH]; [reflexivity|].
  unfold sortStrings. cbn [fold_right]. fold (sortStrings l).
  rewrite insertString_Permutation. apply perm_skip, IH.
Qed.

Lemma insertString_Sorted : forall x l,
  Sorted ascending l -> Sorted ascending (insertString x l).
Proof.
  intros x l Hs. induction Hs as [|y l Hs IH Hd]; [repeat constructor|].
  cbn [insertString]. destruct (String.leb x y) eqn:E.
  - constructor; [constructor; assumption | constructor; exact E].
  - constructor; [exact IH|].
    assert (Hyx : ascending y x).
    { destruct (String.leb_total x y) as [H|H]; [congruence | exact H]. }
    destruct l as [|z l]; cbn [insertString].
    + constructor. exact Hyx.
    + destruct (String.leb x z); constructor; [exact Hyx|].
      inversion Hd. assumption.
Qed.

Lemma sortStrings_Sorted : forall l, Sorted ascending (sortStrings l).
Proof.
  induction l as [|x l IH]; [constructor|].
  unfold sortStrings. cbn [fold_right]. apply insertString_Sorted, IH.
Qed.

Lemma fold_str_add_In : forall l s k,
  In k (fold_left (fun all c => str_add c all) l s) <-> In k l \/ In k s.
Proof.
  induction l as [|c l IH]; intros s k; cbn [fold_left].
  - simpl. tauto.
  - rewrite IH, str_add_In. simpl. intuition.
Qed.

Lemma fold_str_add_NoDup : forall l s,
  NoDup s -> NoDup (fold_left (fun all c => str_add c all) l s).
Proof.
  intros l s Hs. apply fold_left_inv; [exact Hs|].
  intros s' c _ H'. apply str_add_NoDup, H'.
Qed.

Lemma allFinalColumnsOf_In : forall confirmedMatches cu name,
  In name (allFinalColumnsOf confirmedMatches cu) <->
  (exists m, In m confirmedMatches /\ finalName m = name) \/
  (exists cols, In cols (map_values cu) /\ In name cols).
Proof.
  intros confirmedMatches cu name. unfold allFinalColumnsOf.
  generalize (map_values cu). intro sets.
  assert (H0 : forall s,
            In name (fold_left (fun all m => str_add (finalName m) all)
                               confirmedMatches s)
            <-> (exists m, In m confirmedMatches /\ finalName m = name) \/ In name s).
  { induction confirmedMatches as [|m ms IH]; intro s; cbn [fold_left].
    - split; [auto | intros [[m [[] _]]|H]; exact H].
    - rewrite IH, str_add_In. split.
      + intros [[m' [Hm' E]]|[E|H]]; [left; exists m'; simpl; auto | | auto].
        left. exists m. simpl. auto.
      + intros [[m' [[<-|Hm'] E]]|H]; [right; left; auto | | auto].
        left. exists m'. auto. }
  set (start := fold_left (fun all m => str_add (finalName m) all) confirmedMatches []).
  assert (Hs : In name start
               <-> (exists m, In m confirmedMatches /\ finalName m = name)).
  { unfold start. rewrite H0. simpl. tauto. }
  rewrite <- Hs. clear Hs H0. generalize start. clear start.
  induction sets as [|cols sets IH]; intro start; cbn [fold_left].
  - split; [auto | intros [H|[cols [[] _]]]; exact H].
  - rewrite IH, fold_str_add_In. split.
    + intros [[H|H]|[cols' [Hc Hn]]]; [| auto |].
      * right. exists cols. simpl. auto.
      * right. exists cols'. simpl. auto.
    + intros [H|[cols' [[<-|Hc] Hn]]]; [auto | auto |].
      right. exists cols'. auto.
Qed.

Lemma allFinalColumnsOf_NoDup : forall confirmedMatches cu,
  NoDup (allFinalColumnsOf confirmedMatches cu).
Proof.
  intros confirmedMatches cu. unfold allFinalColumnsOf.
  apply fold_left_inv.
  - apply fold_left_inv; [constructor|]. intros s m _ Hs. apply str_add_NoDup, Hs.
  - intros s cols _ Hs. apply fold_str_add_NoDup, Hs.
Qed.

(** ** The unmatched columns of the export *)

Section StringMaps.
Variable V : Type.

Lemma str_map_set_entries : forall (k : string) (v : V) m k' v',
  NoDup (map_keys m) ->
  (In (k', v') (map_set String.eqb k v m) <->
   (k' = k /\ v' = v) \/ (k' <> k /\ In (k', v') m)).
Proof.
  intros k v. induction m as [|[k0 v0] m IH]; intros k' v' Hnd.
  - simpl. split.
    + intros [E|[]]. injection E as <- <-. auto.
    + intros [[-> ->]|[_ []]]. auto.
  - cbn [map_keys List.map fst] in Hnd. inversion Hnd as [|x l Hx Hl]; subst.
    cbn [map_set]. destruct (String.eqb k k0) eqn:E.
    + apply String.eqb_eq in E. subst k0. simpl. split.
      * intros [Eq|Hin]; [injection Eq as <- <-; auto|].
        right. split; [|auto]. intros ->. apply Hx.
        apply (in_map fst) in Hin. exact Hin.
      * intros [[-> ->]|[Hne [Eq|Hin]]]; [auto | | auto].
        injection Eq as <- _. congruence.
    + apply String.eqb_neq in E. simpl. rewrite (IH k' v' Hl). split.
      * intros [Eq|[H|H]]; [injection Eq as <- <-; right; split; [congruence | auto] | auto |].
        destruct H as [Hne Hin]. auto.
      * intros [[-> ->]|[Hne [Eq|Hin]]]; auto.
Qed.

Lemma str_map_set_keys_NoDup : forall (k : string) (v : V) m,
  NoDup (map_keys m) -> NoDup (map_keys (map_set String.eqb k v m)).
Proof. intros k v m Hnd. rewrite map_keys_set. apply str_add_NoDup, Hnd. Qed.

Lemma str_map_get_iff : forall (k : string) (v : V) m,
  NoDup (map_keys m) -> (map_get String.eqb k m = Some v <-> In (k, v) m).
Proof.
  intros k v m Hnd. split; [apply str_map_get_In | apply str_map_get_unique, Hnd].
Qed.

End StringMaps.

Lemma addUnmatched_spec : forall cu col,
  NoDup (map_keys cu) ->
  NoDup (map_keys (addUnmatched cu col)) /\
  forall f name,
    listedIn (addUnmatched cu col) f name
    <-> listedIn cu f name \/ (f = cim_fileName col /\ name = columnName col).
Proof.
  intros cu col Hnd. unfold addUnmatched.
  set (file := cim_fileName col).
  set (withFile := if negb (map_has String.eqb file cu)
                   then map_set String.eqb file [] cu else cu).
  assert (Hnd' : NoDup (map_keys withFile)).
  { unfold withFile. destruct (negb _); [apply str_map_set_keys_NoDup|]; exact Hnd. }
  assert (Hl : forall f name, listedIn withFile f name <-> listedIn cu f name).
  { intros f name. unfold withFile. destruct (negb _) eqn:E; [|reflexivity].
    unfold listedIn. split.
    - intros [cols [Hin Hn]].
      apply (str_map_set_entries _ _ _ _ _ _ Hnd) in Hin.
      destruct Hin as [[_ Ec]|[_ Hin]]; [subst cols; destruct Hn | eauto].
    - intros [cols [Hin Hn]]. exists cols. split; [|exact Hn].
      apply (str_map_set_entries _ _ _ _ _ _ Hnd). right. split; [|exact Hin].
      intro Ef. subst f. apply negb_true_iff in E.
      assert (Ht : map_has String.eqb file cu = true).
      { apply str_map_has_In. apply (in_map fst) in Hin. exact Hin. }
      congruence. }
  assert (Hhas : exists cols, map_get String.eqb file withFile = Some cols).
  { apply map_has_get. unfold withFile.
    destruct (map_has String.eqb file cu) eqn:E; cbn [negb]; [exact E|].
    apply str_map_has_In. rewrite map_keys_set. apply str_add_In. auto. }
  destruct Hhas as [cols Ec]. rewrite Ec.
  split; [apply str_map_set_keys_NoDup, Hnd'|].
  intros f name. rewrite <- Hl. unfold listedIn. split.
  - intros [cs [Hin Hn]].
    apply (str_map_set_entries _ _ _ _ _ _ Hnd') in Hin.
    destruct Hin as [[Ef Ecs]|[_ Hin]]; [subst f cs | eauto].
    apply str_add_In in Hn. destruct Hn as [En|Hn]; [auto|].
    left. exists cols. split; [|exact Hn].
    apply str_map_get_In. exact Ec.
  - intros [[cs [Hin Hn]]|[Ef En]].
    + destruct (string_dec f file) as [Ef|Nf].
      * subst f. exists (str_add (columnName col) cols). split.
        -- apply (str_map_set_entries _ _ _ _ _ _ Hnd'). auto.
        -- apply str_add_In. right.
           apply (str_map_get_unique _ _ _ _ Hnd') in Hin. congruence.
      * exists cs. split; [|exact Hn].
        apply (str_map_set_entries _ _ _ _ _ _ Hnd'). auto.
    + subst f name. exists (str_add (columnName col) cols). split.
      * apply (str_map_set_entries _ _ _ _ _ _ Hnd'). auto.
      * apply str_add_In. auto.
Qed.

Lemma fold_addUnmatched_spec : forall cols cu,
  NoDup (map_keys cu) ->
  NoDup (map_keys (fold_left addUnmatched cols cu)) /\
  forall f name,
    listedIn (fold_left addUnmatched cols cu) f name
    <-> listedIn cu f name \/
        exists col, In col cols /\ cim_fileName col = f /\ columnName col = name.
Proof.
  induction cols as [|col cols IH]; intros cu Hnd; cbn [fold_left].
  - split; [exact Hnd|]. intros f name. split; [auto|].
    intros [H|[col [[] _]]]. exact H.
  - destruct (addUnmatched_spec cu col Hnd) as [Hnd' Hl].
    destruct (IH _ Hnd') as [Hnd'' Hl'].
    split; [exact Hnd''|]. intros f name. rewrite Hl', Hl. split.
    + intros [[H|[Ef En]]|[c [Hc [Ef En]]]]; [auto | |].
      * right. exists col. simpl. auto.
      * right. exists c. simpl. auto.
    + intros [H|[c [[Ec|Hc] [Ef En]]]]; [auto | |].
      * subst c. left. right. auto.
      * right. exists c. auto.
Qed.

Lemma initial_unmatched : forall unmatchedColumns : list (string * list string),
  NoDup (List.map fst unmatchedColumns) ->
  NoDup (map_keys
           (fold_left
              (fun m e => map_set String.eqb (fst e) (set_of_list String.eqb (snd e)) m)
              unmatchedColumns [])) /\
  forall f name,
    listedIn (fold_left
              (fun m e => map_set String.eqb (fst e) (set_of_list String.eqb (snd e)) m)
              unmatchedColumns [])
           f name
    <-> listedIn unmatchedColumns f name.
Proof.
  intros unmatchedColumns Hnd.
  set (entries := List.map (fun e => (fst e, set_of_list String.eqb (snd e)))
                           unmatchedColumns).
  assert (Ef : fold_left
                 (fun m e => map_set String.eqb (fst e)
                               (set_of_list String.eqb (snd e)) m)
                 unmatchedColumns []
               = entries).
  { assert (G : forall l m,
              fold_left
                (fun m e => map_set String.eqb (fst e)
                              (set_of_list String.eqb (snd e)) m) l m
              = fold_left (fun m e => map_set String.eqb (fst e) (snd e) m)
                  (List.map (fun e => (fst e, set_of_list String.eqb (snd e))) l) m).
    { induction l as [|e l IH]; intro m; [reflexivity|]. cbn. apply IH. }
    rewrite G. fold entries.
    rewrite (str_map_of_list_NoDup_from _ entries []); [reflexivity|].
    cbn [app]. unfold entries. rewrite map_map. exact Hnd. }
  rewrite Ef. split.
  - unfold map_keys, entries. rewrite map_map. exact Hnd.
  - intros f name. unfold listedIn, entries. split.
    + intros [cols [Hin Hn]]. apply in_map_iff in Hin.
      destruct Hin as [[f' cols'] [E Hin]]. cbn [fst snd] in E.
      injection E as Ef' Ec. subst f cols.
      exists cols'. split; [exact Hin|].
      apply (In_set_of_list _ String.eqb). exact Hn.
    + intros [cols [Hin Hn]].
      exists (set_of_list String.eqb cols). split.
      * apply in_map_iff. exists (f, cols). auto.
      * apply str_has_In. rewrite str_has_set_of_list. apply str_has_In. exact Hn.
Qed.

(** What the export holds as unmatched under a file name: the unmatched
    columns it is given for it, and the columns of that file in the matches
    that are not confirmed. *)
Lemma comprehensiveUnmatchedOf_listed : forall matches unmatchedColumns,
  NoDup (List.map fst unmatchedColumns) ->
  NoDup (map_keys (comprehensiveUnmatchedOf matches unmatchedColumns)) /\
  forall f name,
    listedIn (comprehensiveUnmatchedOf matches unmatchedColumns) f name <->
    listedIn unmatchedColumns f name \/ leftOver matches f name.
Proof.
  intros matches unmatchedColumns Hnd. unfold comprehensiveUnmatchedOf.
  destruct (initial_unmatched unmatchedColumns Hnd) as [Hnd0 Hl0].
  destruct (fold_addUnmatched_spec
              (flat_map match_columns
                 (filter (fun m => negb (MatchStatus_eqb (match_status m) CONFIRMED))
                         matches))
              _ Hnd0) as [Hnd1 Hl1].
  split; [exact Hnd1|]. intros f name. rewrite Hl1, Hl0.
  apply or_iff_compat_l. unfold leftOver. split.
  - intros [col [Hin [Ef En]]]. apply in_flat_map in Hin. destruct Hin as [m [Hm Hc]].
    apply filter_In in Hm. destruct Hm as [Hm Hs].
    exists m, col. split; [exact Hm|]. split; [|auto].
    intro Es. rewrite Es in Hs. discriminate.
  - intros [m [col [Hm [Hs [Hc [Ef En]]]]]]. exists col. split; [|auto].
    apply in_flat_map. exists m. split; [|exact Hc].
    apply filter_In. split; [exact Hm|].
    destruct (match_status m); try reflexivity. congruence.
Qed.

Lemma map_values_listed : forall (m : list (string * list string)) name,
  (exists cols, In cols (map_values m) /\ In name cols)
  <-> exists file, listedIn m file name.
Proof.
  intros m name. unfold listedIn, map_values. split.
  - intros [cols [Hin Hn]]. apply in_map_iff in Hin.
    destruct Hin as [[f cols'] [E Hin]]. cbn in E. subst cols'. eauto.
  - intros [f [cols [Hin Hn]]]. exists cols. split; [|exact Hn].
    apply in_map_iff. exists (f, cols). auto.
Qed.

(** The final columns of the export, in the order of the [SELECT] lists,
    are ascending and each once; they are the final names of the confirmed
    matches, the unmatched columns given, and the columns of the matches
    that are not confirmed.  The export alerts the user instead of
    downloading exactly when there is none. *)
Theorem final_columns_of_export :
  forall matches unmatchedColumns files options,
  NoDup (List.map fst unmatchedColumns) ->
  let finalColumnList :=
    sortStrings
      (allFinalColumnsOf (confirmedOf matches)
         (comprehensiveUnmatchedOf matches unmatchedColumns)) in
  Sorted ascending finalColumnList /\
  NoDup finalColumnList /\
  (forall name,
     In name finalColumnList <->
     (exists m, In m matches /\ match_status m = CONFIRMED /\ finalName m = name) \/
     (exists file, listedIn unmatchedColumns file name) \/
     (exists file, leftOver matches file name)) /\
  ((exists message,
      generateSql matches unmatchedColumns files options = Alert message)
   <-> finalColumnList = []).
Proof.
  intros matches unmatchedColumns files options Hnd final.
  pose proof (sortStrings_Permutation
                (allFinalColumnsOf (confirmedOf matches)
                   (comprehensiveUnmatchedOf matches unmatchedColumns))) as Hp.
  fold final in Hp.
  destruct (comprehensiveUnmatchedOf_listed matches unmatchedColumns Hnd)
    as [_ Hcu].
  split; [apply sortStrings_Sorted|]. split.
  { apply (Permutation_NoDup (Permutation_sym Hp)), allFinalColumnsOf_NoDup. }
  split.
  - intro name. split.
    + intro Hin. apply (Permutation_in _ Hp) in Hin.
      apply allFinalColumnsOf_In in Hin. destruct Hin as [[m [Hm E]]|Hin].
      * left. unfold confirmedOf in Hm. apply filter_In in Hm.
        destruct Hm as [Hm Hs]. exists m. split; [exact Hm|]. split; [|exact E].
        destruct (match_status m); try discriminate. reflexivity.
      * right. apply map_values_listed in Hin. destruct Hin as [f Hf].
        apply Hcu in Hf. destruct Hf as [Hf|Hf]; eauto.
    + intro H. apply (Permutation_in _ (Permutation_sym Hp)).
      apply allFinalColumnsOf_In. destruct H as [[m [Hm [Hs E]]]|H].
      * left. exists m. split; [|exact E]. unfold confirmedOf.
        apply filter_In. split; [exact Hm|]. rewrite Hs. reflexivity.
      * right. apply map_values_listed.
        destruct H as [[f Hf]|[f Hf]]; exists f; apply Hcu; auto.
  - unfold generateSql.
    destruct (List.length _ =? 0) eqn:E.
    + apply Nat.eqb_eq, length_zero_iff_nil in E. split; [|eauto].
      intros _. unfold final. rewrite E. reflexivity.
    + apply Nat.eqb_neq in E. split; [intros [msg Hm]; discriminate|].
      intro Ef. exfalso. apply E. rewrite <- (Permutation_length Hp), Ef. reflexivity.
Qed.

(** A final column that no confirmed match is named after is selected under
    its own name from the files that hold it, as an unmatched column or in a
    match that is not confirmed, and as [NULL] from every other file. *)
Theorem unmatched_column_clause :
  forall matches unmatchedColumns matchesNeedingConversion file name,
  NoDup (List.map fst unmatchedColumns) ->
  (forall m, In m matches -> match_status m = CONFIRMED -> finalName m <> name) ->
  let clause :=
    selectClause (confirmedOf matches)
      (comprehensiveUnmatchedOf matches unmatchedColumns)
      matchesNeedingConversion file name in
  let held :=
    listedIn unmatchedColumns (file_name file) name \/
    leftOver matches (file_name file) name in
  (held ->
   clause = ("    " ++ dquote ++ name ++ dquote ++ " AS "
             ++ dquote ++ name ++ dquote)%string) /\
  (~ held -> clause = ("    NULL AS " ++ dquote ++ name ++ dquote)%string).
Proof.
  intros matches unmatchedColumns mnc file name Hnd Hfree clause held.
  destruct (comprehensiveUnmatchedOf_listed matches unmatchedColumns Hnd)
    as [Hk Hcu].
  assert (Hfind : find (fun m => String.eqb (finalName m) name) (confirmedOf matches)
                  = None).
  { destruct (find _ (confirmedOf matches)) as [m|] eqn:E; [|reflexivity].
    apply find_some in E. destruct E as [Hm En]. apply String.eqb_eq in En.
    unfold confirmedOf in Hm. apply filter_In in Hm. destruct Hm as [Hm Hs].
    exfalso. apply (Hfree m Hm); [|exact En].
    destruct (match_status m); try discriminate. reflexivity. }
  unfold clause, selectClause. rewrite Hfind.
  set (cu := comprehensiveUnmatchedOf matches unmatchedColumns) in *.
  split.
  - intro Hh. apply Hcu in Hh. destruct Hh as [cols [Hin Hn]].
    rewrite (str_map_get_unique _ _ _ _ Hk Hin).
    apply str_has_In in Hn. rewrite Hn. reflexivity.
  - intro Hh. destruct (map_get String.eqb (file_name file) cu) as [cols|] eqn:Eg;
      [|reflexivity].
    destruct (str_has name cols) eqn:Es; [|reflexivity].
    exfalso. apply Hh, Hcu. exists cols. split.
    + apply str_map_get_In. exact Eg.
    + apply str_has_In. exact Es.
Qed.

(** ** Type conversion *)

Lemma fold_types_spec : forall files cols types0,
  let step := fun types col =>
    match getColumnData (cim_fileId col) (columnName col) files with
    | Some colData => set_add DataType_eqb (dataType colData) types
    | None => types
    end in
  NoDup types0 ->
  NoDup (fold_left step cols types0) /\
  forall t, In t (fold_left step cols types0) <->
    In t types0 \/
    exists col colData,
      In col cols /\
      getColumnData (cim_fileId col) (columnName col) files = Some colData /\
      dataType colData = t.
Proof.
  intros files. induction cols as [|col cols IH]; intros types0 step Hnd.
  - cbn [fold_left]. split; [exact Hnd|]. intro t. split; [auto|].
    intros [H|[col [cd [[] _]]]]. exact H.
  - cbn [fold_left].
    assert (Hstep : NoDup (step types0 col) /\
              forall t, In t (step types0 col) <->
                In t types0 \/
                exists colData,
                  getColumnData (cim_fileId col) (columnName col) files = Some colData /\
                  dataType colData = t).
    { unfold step. destruct (getColumnData _ _ files) as [cd|].
      - unfold set_add. destruct (set_has DataType_eqb (dataType cd) types0) eqn:Eh.
        + split; [exact Hnd|]. intro t. split; [auto|].
          intros [H|[cd' [E <-]]]; [exact H|]. injection E as <-.
          unfold set_has in Eh. apply existsb_exists in Eh.
          destruct Eh as [x [Hx Ex]]. apply DataType_eqb_eq in Ex. subst. exact Hx.
        + split.
          * apply NoDup_app; [exact Hnd | repeat constructor; intros [] |].
            intros x Hx [<-|[]].
            assert (Ht : set_has DataType_eqb (dataType cd) types0 = true).
            { unfold set_has. apply existsb_exists. exists (dataType cd).
              split; [exact Hx | apply DataType_eqb_eq; reflexivity]. }
            congruence.
          * intro t. rewrite in_app_iff. simpl. split.
            -- intros [H|[<-|[]]]; [auto|]. right. exists cd. auto.
            -- intros [H|[cd' [E <-]]]; [auto|]. injection E as <-. auto.
      - split; [exact Hnd|]. intro t. split; [auto|].
        intros [H|[cd [E _]]]; [exact H | discriminate]. }
    destruct Hstep as [Hnd' Hin'].
    pose proof (IH (step types0 col) Hnd') as IH'. cbn zeta in IH'.
    fold step in IH'. destruct IH' as [Hnd'' Hin''].
    split; [exact Hnd''|]. intro t. rewrite Hin'', Hin'. split.
    + intros [[H|[cd [E Et]]]|[c [cd [Hc [E Et]]]]]; [auto | |].
      * right. exists col, cd. simpl. auto.
      * right. exists c, cd. simpl. auto.
    + intros [H|[c [cd [[<-|Hc] [E Et]]]]]; [auto | |].
      * left. right. exists cd. auto.
      * right. exists c, cd. auto.
Qed.

(** A match is cast to text exactly when it has two member columns or more
    and two of them, found in the files, have different types. *)
Theorem needsTypeConversion_spec : forall m files,
  needsTypeConversion m files = true <->
  2 <= List.length (match_columns m) /\
  exists col1 col2 data1 data2,
    In col1 (match_columns m) /\ In col2 (match_columns m) /\
    getColumnData (cim_fileId col1) (columnName col1) files = Some data1 /\
    getColumnData (cim_fileId col2) (columnName col2) files = Some data2 /\
    dataType data1 <> dataType data2.
Proof.
  intros m files. unfold needsTypeConversion.
  destruct (fold_types_spec files (match_columns m) [] (NoDup_nil _)) as [Hnd Hin].
  cbn zeta in Hnd, Hin.
  remember (fold_left
              (fun types col =>
                 match getColumnData (cim_fileId col) (columnName col) files with
                 | Some colData => set_add DataType_eqb (dataType colData) types
                 | None => types
                 end)
              (match_columns m) []) as types eqn:Et.
  clear Et.
  destruct (List.length (match_columns m) <=? 1) eqn:El.
  - apply Nat.leb_le in El. split; [discriminate | intros [H _]; lia].
  - apply Nat.leb_gt in El. rewrite Nat.ltb_lt. split.
    + intro Hlen. split; [lia|].
      destruct types as [|t1 [|t2 rest]]; try (simpl in Hlen; lia).
      assert (H1 : In t1 (t1 :: t2 :: rest)) by (simpl; auto).
      assert (H2 : In t2 (t1 :: t2 :: rest)) by (simpl; auto).
      inversion Hnd as [|x l Hx _]; subst.
      apply Hin in H1, H2.
      destruct H1 as [[]|[c1 [d1 [C1 [E1 T1]]]]].
      destruct H2 as [[]|[c2 [d2 [C2 [E2 T2]]]]].
      exists c1, c2, d1, d2.
      split; [exact C1|]. split; [exact C2|]. split; [exact E1|].
      split; [exact E2|]. intro E. apply Hx. left. congruence.
    + intros [_ [c1 [c2 [d1 [d2 [C1 [C2 [E1 [E2 Hne]]]]]]]]].
      assert (H1 : In (dataType d1) types) by (apply Hin; right; eauto).
      assert (H2 : In (dataType d2) types) by (apply Hin; right; eauto).
      destruct types as [|t1 [|t2 rest]]; [destruct H1 | | simpl; lia].
      destruct H1 as [H1|[]]. destruct H2 as [H2|[]]. exfalso. congruence.
Qed.

(** ** Worked runs *)

Lemma smallParse_run :
  @parseFiles exampleRuntime exampleText [smallA; smallB] = Parsed smallParse.
Proof. vm_compute. reflexivity. Qed.

Lemma amounts_stats :
  @getNumericStats exampleRuntime amounts = Some transactionStats.
Proof. vm_compute. reflexivity. Qed.

Lemma getNumericStats_order_witness :
  2 <= List.length (@numbersOf exampleRuntime amounts).
Proof.
  exact (proj1 (@getNumericStats_order exampleRuntime amounts transactionStats
                  amounts_stats)).
Defined.


Lemma regionSet_distinct : distinct value value_eqb [VStr "EU"; VStr "US"].
Proof. repeat constructor. Qed.

Lemma jaccardSimilarity_extremes_witness :
  (jaccardSimilarity [VStr "EU"; VStr "US"] [VStr "EU"; VStr "US"] == 1)%Q.
Proof.
  apply (proj2 (proj2 (jaccardSimilarity_extremes _ _
                         regionSet_distinct regionSet_distinct))).
  split; [discriminate|]. split; intros v [<-|[<-|[]]]; reflexivity.
Defined.

Lemma regionMatch_emitted :
  In regionMatch (matches {| matches := [regionMatch]; unmatched := [] |}).
Proof. left. reflexivity. Qed.

Lemma finalName_is_longest_member_name_witness :
  exists before c after,
    match_columns regionMatch = before ++ c :: after /\
    finalName regionMatch = columnName c /\
    (forall c', In c' before ->
       String.length (columnName c') < String.length (finalName regionMatch)) /\
    (forall c', In c' after ->
       String.length (columnName c') <= String.length (finalName regionMatch)).
Proof.
  exact (@finalName_is_longest_member_name exampleRuntime regionFiles _ regionMatch
           (regionFiles_run exampleRuntime) regionMatch_emitted).
Defined.

Lemma matches_in_descending_confidence_witness :
  StronglySorted
    (fun a b => (programmaticConfidence b <= programmaticConfidence a)%Q)
    [regionMatch].
Proof.
  exact (@matches_in_descending_confidence exampleRuntime regionFiles _
           (regionFiles_run exampleRuntime)).
Defined.

Lemma match_ids_are_distinct_witness :
  NoDup (List.map match_id [regionMatch]).
Proof.
  exact (proj1 (@match_ids_are_distinct exampleRuntime regionFiles _
                  (regionFiles_run exampleRuntime))).
Defined.


Lemma parseFiles_files_witness :
  List.length (uploadedFiles smallParse) = 2 /\
  NoDup (List.map file_id (uploadedFiles smallParse)).
Proof.
  destruct (@parseFiles_files exampleRuntime exampleText [smallA; smallB] smallParse
              smallParse_run) as [El [Hnd _]].
  split; [exact El | exact Hnd].
Defined.

Lemma parseFiles_columns_witness :
  dataType smallFlag = TNumber /\ dataType smallFlag <> TBoolean.
Proof.
  split; [reflexivity|].
  apply (@parseFiles_columns exampleRuntime exampleText [smallA; smallB] smallParse
           (nth 1 (uploadedFiles smallParse) (uploaded "" 0 [])) smallFlag
           smallParse_run).
  - right. left. reflexivity.
  - right. left. reflexivity.
Defined.

Lemma parseFiles_samples_unaligned_witness :
  success (alignmentResult smallParse) = false /\
  exists u,
    nth_error (uploadedFiles smallParse) 1 = Some u /\
    forall c, In c (columns u) ->
      sampleData c
      = filter notNullish
          (List.map (fun row => cell row (originalName c))
                    (firstn 50 (pf_rows smallB))).
Proof.
  split; [reflexivity|].
  apply (@parseFiles_samples_unaligned exampleRuntime exampleText
           [smallA; smallB] smallParse 1 smallB smallParse_run);
    reflexivity.
Defined.


Lemma small_names_plain : forall file, In file [smallA; smallB] ->
  hasUnit dash (pf_name file) = false /\ barFree (pf_name file) = true.
Proof. intros file [<-|[<-|[]]]; split; reflexivity. Qed.

Lemma small_headers_plain : forall file header,
  In file [smallA; smallB] -> In header (headersOf (pf_rows file)) ->
  barFree header = true.
Proof.
  intros file header [<-|[<-|[]]] Hh; cbn in Hh;
    destruct Hh as [<-|[<-|[]]]; reflexivity.
Qed.

Lemma parseFiles_wellKeyed_witness : wellKeyed (uploadedFiles smallParse).
Proof.
  exact (@parseFiles_wellKeyed exampleRuntime exampleText [smallA; smallB]
           smallParse smallParse_run small_names_plain small_headers_plain).
Defined.

Lemma small_file_names : NoDup (List.map file_name (uploadedFiles smallParse)).
Proof. repeat constructor; simpl; intuition discriminate. Qed.

Lemma unmatchedMapOf_lists_each_file_witness :
  map_get String.eqb "b.csv"
    (unmatchedMapOf (uploadedFiles smallParse) [smallFlag])
  = Some ["flag"].
Proof.
  exact (unmatchedMapOf_lists_each_file (uploadedFiles smallParse) [smallFlag]
           (nth 1 (uploadedFiles smallParse) (uploaded "" 0 []))
           small_file_names (or_intror (or_introl eq_refl))).
Defined.

Lemma small_supported : forall file, In file [smallA; smallB] ->
  supportedType (pf_name file) = true /\
  hasUnit dash (pf_name file) = false /\ barFree (pf_name file) = true.
Proof. intros file [<-|[<-|[]]]; repeat split; reflexivity. Qed.

Lemma small_names_NoDup : NoDup (List.map pf_name [smallA; smallB]).
Proof. repeat constructor; simpl; intuition discriminate. Qed.

Lemma upload_covers_every_column_witness :
  exists files notice matches unmatchedColumns,
    @handleFilesSelected exampleRuntime exampleText
      [Readable smallA; Readable smallB]
    = ReadyToMatch files notice matches unmatchedColumns /\
    List.map file_name files = List.map pf_name [smallA; smallB] /\
    forall file column, In file files -> In column (columns file) ->
      (exists m, In m matches /\ In (memberOfColumn column) (match_columns m)) \/
      (exists names,
         map_get String.eqb (file_name file) unmatchedColumns = Some names /\
         In (originalName column) names).
Proof.
  apply (@upload_covers_every_column exampleRuntime exampleText [smallA; smallB]).
  - simpl. lia.
  - exact small_supported.
  - exact small_headers_plain.
  - exact small_names_NoDup.
Defined.

Lemma exportUnmatched_keys : NoDup (List.map fst exportUnmatched).
Proof. repeat constructor; simpl; intuition discriminate. Qed.

Lemma final_columns_of_export_witness :
  let finalColumnList :=
    sortStrings
      (allFinalColumnsOf (confirmedOf exportMatches)
         (comprehensiveUnmatchedOf exportMatches exportUnmatched)) in
  Sorted ascending finalColumnList /\
  NoDup finalColumnList /\
  (forall name,
     In name finalColumnList <->
     (exists m, In m exportMatches /\ match_status m = CONFIRMED /\
                finalName m = name) \/
     (exists file, listedIn exportUnmatched file name) \/
     (exists file, leftOver exportMatches file name)) /\
  ((exists message,
      generateSql exportMatches exportUnmatched regionFiles
        {| includeSource := true; sourceColumnName := "" |}
      = Alert message)
   <-> finalColumnList = []).
Proof.
  exact (final_columns_of_export exportMatches exportUnmatched regionFiles
           {| includeSource := true; sourceColumnName := "" |}
           exportUnmatched_keys).
Defined.

Lemma export_id_free : forall m,
  In m exportMatches -> match_status m = CONFIRMED -> finalName m <> "id".
Proof. intros m [<-|[<-|[]]] Hs; [discriminate | discriminate Hs]. Qed.

Lemma unmatched_column_clause_witness :
  let clause :=
    selectClause (confirmedOf exportMatches)
      (comprehensiveUnmatchedOf exportMatches exportUnmatched)
      [] (uploaded "a.csv" 0 [regionA]) "id" in
  let held :=
    listedIn exportUnmatched "a.csv" "id" \/ leftOver exportMatches "a.csv" "id" in
  (held ->
   clause = ("    " ++ dquote ++ "id" ++ dquote ++ " AS "
             ++ dquote ++ "id" ++ dquote)%string) /\
  (~ held -> clause = ("    NULL AS " ++ dquote ++ "id" ++ dquote)%string).
Proof.
  exact (unmatched_column_clause exportMatches exportUnmatched []
           (uploaded "a.csv" 0 [regionA]) "id"
           exportUnmatched_keys export_id_free).
Defined.

(* ================================================================== *)
(** * Part V. The engine on binary64 numbers *)
(* ================================================================== *)

(** ** The aggregate confidence of a match *)

Section RoundedEngine.
Import Binary64.
Context `{JsRuntime}.















End RoundedEngine.

(** ** A worked run of the engine on binary64 numbers *)

Section WideRun.
Import Binary64.




End WideRun.
